(** * InfluxQL parser ([influxql/parser.go]): shallow embedding and properties

    The development follows the Go source function by function.  Go's
    [int], [int64] and [time.Duration] are 64-bit two's-complement integers,
    modelled as [Z] with the wrap-around written out; a Go [string] is a
    sequence of bytes, modelled as [string] (a list of [ascii]).  The parser
    reads the triples [(tok, pos, lit)] that the scanner emits through a
    one-slot push-back buffer; it is written in a small state-and-error
    monad over that buffer. *)

From Stdlib Require Import ZArith List String Ascii Bool Lia.
From Stdlib Require Import Floats.SpecFloat.
Import ListNotations.

Set Warnings "-register-all".

Local Open Scope string_scope.
Local Open Scope list_scope.
Local Open Scope Z_scope.

(** ** Go machine integers *)

Module GoInt.

Definition minInt64 : Z := - 2 ^ 63.
Definition maxInt64 : Z := 2 ^ 63 - 1.
Definition maxUint64 : Z := 2 ^ 64 - 1.
Definition MaxInt32 : Z := 2 ^ 31 - 1.
Definition maxUint32 : Z := 2 ^ 32 - 1.

(** Two's-complement reduction of a mathematical integer to [int64]. *)
Definition wrap64 (z : Z) : Z := (z + 2 ^ 63) mod 2 ^ 64 - 2 ^ 63.

Definition add64 (a b : Z) : Z := wrap64 (a + b).
Definition mul64 (a b : Z) : Z := wrap64 (a * b).
(** Go's [/] truncates toward zero and [%] takes the sign of the dividend. *)
Definition quot64 (a b : Z) : Z := wrap64 (Z.quot a b).
Definition rem64 (a b : Z) : Z := Z.rem a b.

Definition in_int64 (z : Z) : Prop := minInt64 <= z <= maxInt64.

End GoInt.
Import GoInt.

(** ** Bytes and strings *)

Definition byteZ (c : ascii) : Z := Z.of_N (N_of_ascii c).
Definition zbyte (z : Z) : ascii := ascii_of_N (Z.to_N z).

(** The double-quote byte, used by [strconv.Quote]. *)
Definition dquote : string := String (ascii_of_nat 34) EmptyString.

Definition len (s : string) : Z := Z.of_nat (String.length s).

(** [strings.Contains(s, sub)] *)
Fixpoint strings_Contains (s sub : string) : bool :=
  if String.prefix sub s then true
  else match s with
       | EmptyString => false
       | String _ t => strings_Contains t sub
       end.

(** [strings.Join(a, sep)] *)
Fixpoint strings_Join (a : list string) (sep : string) : string :=
  match a with
  | [] => ""
  | [x] => x
  | x :: rest => x ++ sep ++ strings_Join rest sep
  end.

(** [strings.ToLower] on the ASCII range (bytes above 127 are part of
    multi-byte runes; the parser only compares the result with ASCII
    words). *)
Definition lowerByte (c : ascii) : ascii :=
  let z := byteZ c in
  if (65 <=? z) && (z <=? 90) then zbyte (z + 32) else c.

Fixpoint strings_ToLower (s : string) : string :=
  match s with
  | EmptyString => EmptyString
  | String c t => String (lowerByte c) (strings_ToLower t)
  end.

(** ** Runes: [for _, ch := range s] and [string([]rune)] *)

Module Utf8.

Definition RuneError : Z := 65533.

Definition cont (b : Z) : bool := (128 <=? b) && (b <=? 191).
Definition between (lo hi b : Z) : bool := (lo <=? b) && (b <=? hi).

(** Decoding as [range] over a string does it: an ill-formed byte yields
    [RuneError] and advances by one byte. *)
Fixpoint decode (s : string) : list Z :=
  match s with
  | EmptyString => []
  | String c0 t0 =>
    let b0 := byteZ c0 in
    if b0 <? 128 then b0 :: decode t0 else
    match t0 with
    | EmptyString => [RuneError]
    | String c1 t1 =>
      let b1 := byteZ c1 in
      if between 194 223 b0 && cont b1
      then ((b0 - 192) * 64 + (b1 - 128)) :: decode t1
      else
      match t1 with
      | EmptyString => RuneError :: decode t0
      | String c2 t2 =>
        let b2 := byteZ c2 in
        let lo1 := if b0 =? 224 then 160 else 128 in
        let hi1 := if b0 =? 237 then 159 else 191 in
        if between 224 239 b0 && between lo1 hi1 b1 && cont b2
        then ((b0 - 224) * 4096 + (b1 - 128) * 64 + (b2 - 128)) :: decode t2
        else
        match t2 with
        | EmptyString => RuneError :: decode t0
        | String c3 t3 =>
          let b3 := byteZ c3 in
          let lo1' := if b0 =? 240 then 144 else 128 in
          let hi1' := if b0 =? 244 then 143 else 191 in
          if between 240 244 b0 && between lo1' hi1' b1 && cont b2 && cont b3
          then ((b0 - 240) * 262144 + (b1 - 128) * 4096
                + (b2 - 128) * 64 + (b3 - 128)) :: decode t3
          else RuneError :: decode t0
        end
      end
    end
  end.

Definition encodeRune (r : Z) : string :=
  let r := if (r <? 0) || (1114111 <? r) || between 55296 57343 r
           then RuneError else r in
  if r <? 128 then String (zbyte r) EmptyString
  else if r <? 2048 then
    String (zbyte (192 + r / 64)) (String (zbyte (128 + r mod 64)) EmptyString)
  else if r <? 65536 then
    String (zbyte (224 + r / 4096))
      (String (zbyte (128 + (r / 64) mod 64))
         (String (zbyte (128 + r mod 64)) EmptyString))
  else
    String (zbyte (240 + r / 262144))
      (String (zbyte (128 + (r / 4096) mod 64))
         (String (zbyte (128 + (r / 64) mod 64))
            (String (zbyte (128 + r mod 64)) EmptyString))).

Fixpoint encode (a : list Z) : string :=
  match a with
  | [] => EmptyString
  | r :: rest => encodeRune r ++ encode rest
  end.

End Utf8.

(** ** [strconv] and [fmt.Sprintf("%d")] *)

Module Strconv.

Inductive NumErr := ErrSyntax | ErrRange.

Definition NumErr_text (e : NumErr) : string :=
  match e with
  | ErrSyntax => "invalid syntax"
  | ErrRange => "value out of range"
  end.

(** [NumError.Error()]; the quoting of [strconv.Quote] is the identity
    between the quotes for the printable ASCII literals a NUMBER token
    holds. *)
Definition NumError_Error (fn num : string) (e : NumErr) : string :=
  "strconv." ++ fn ++ ": parsing " ++ dquote ++ num ++ dquote ++ ": "
  ++ NumErr_text e.

Definition isDigitByte (c : ascii) : bool :=
  (48 <=? byteZ c) && (byteZ c <=? 57).

(** The digit loop of [ParseUint] in base 10: [n] is the value read so
    far.  The result is the value and the error, if any; a range error
    carries [maxVal], a syntax error 0. *)
Fixpoint parseUintLoop (maxVal : Z) (n : Z) (s : string) : Z * option NumErr :=
  match s with
  | EmptyString => (n, None)
  | String c t =>
    if negb (isDigitByte c) then (0, Some ErrSyntax)
    else
      let d := byteZ c - 48 in
      if maxUint64 / 10 + 1 <=? n then (maxVal, Some ErrRange)
      else
        let n10 := n * 10 in
        let n1 := (n10 + d) mod 2 ^ 64 in
        if (n1 <? n10) || (maxVal <? n1) then (maxVal, Some ErrRange)
        else parseUintLoop maxVal n1 t
  end.

(** [strconv.ParseUint(s, 10, bitSize)] *)
Definition ParseUint (s : string) (bitSize : Z) : Z * option NumErr :=
  match s with
  | EmptyString => (0, Some ErrSyntax)
  | _ => parseUintLoop (2 ^ bitSize - 1) 0 s
  end.

(** [strconv.ParseInt(s, 10, bitSize)] *)
Definition ParseInt (s : string) (bitSize : Z) : Z * option NumErr :=
  match s with
  | EmptyString => (0, Some ErrSyntax)
  | String c t =>
    let neg := Ascii.eqb c "-"%char in
    let s' := if Ascii.eqb c "+"%char || neg then t else s in
    let '(un, err) := ParseUint s' bitSize in
    match err with
    | Some ErrSyntax => (0, Some ErrSyntax)
    | _ =>
      let cutoff := 2 ^ (bitSize - 1) in
      if negb neg && (cutoff <=? un) then (cutoff - 1, Some ErrRange)
      else if neg && (cutoff <? un) then (- cutoff, Some ErrRange)
      else (if neg then - un else un, None)
    end
  end.

(** [strconv.Atoi]: [ParseInt(s, 10, 0)] with [int] 64 bits wide. *)
Definition Atoi (s : string) : Z * option NumErr := ParseInt s 64.

Definition digitChar (d : Z) : ascii := zbyte (48 + d).

(** The digit loop of [formatBits]: digits are produced from the least
    significant one into [acc]; a [uint64] has at most 20 of them. *)
Fixpoint formatBits (fuel : nat) (u : Z) (acc : string) : string :=
  match fuel with
  | O => acc
  | S f =>
    if u <? 10 then String (digitChar u) acc
    else formatBits f (u / 10) (String (digitChar (u mod 10)) acc)
  end.

Definition FormatUint (u : Z) : string := formatBits 20 u "".

(** [fmt.Sprintf("%d", i)] for an [int64]. *)
Definition FormatInt (i : Z) : string :=
  if i <? 0 then "-" ++ FormatUint (- i) else FormatUint i.

(** The mathematical value of a digit string. *)
Fixpoint digitsValue (acc : Z) (s : string) : Z :=
  match s with
  | EmptyString => acc
  | String c t => digitsValue (acc * 10 + (byteZ c - 48)) t
  end.

Fixpoint allDigits (s : string) : bool :=
  match s with
  | EmptyString => true
  | String c t => isDigitByte c && allDigits t
  end.

End Strconv.
Import Strconv.

(** ** Durations ([time.Duration] counts nanoseconds) *)

Module time.
Definition Nanosecond : Z := 1.
Definition Microsecond : Z := 1000 * Nanosecond.
Definition Millisecond : Z := 1000 * Microsecond.
Definition Second : Z := 1000 * Millisecond.
Definition Minute : Z := 60 * Second.
Definition Hour : Z := 60 * Minute.
(** An instant, as nanoseconds since the Unix epoch. *)
Definition Time : Set := Z.
End time.

(** Modelled from the spec: the scanner's helper [isDigit(ch rune)], which
    lives in the scanner's file ("Number: one or more digits"). *)
Definition isDigit (ch : Z) : bool := (48 <=? ch) && (ch <=? 57).

(** [split] splits a string into a slice of runes. *)
Definition split (s : string) : list Z := Utf8.decode s.

(** The unit marker for microseconds, U+00B5, as its two UTF-8 bytes. *)
Definition micro : string := String (zbyte 194) (String (zbyte 181) EmptyString).

(** [s[len(s)-2:]] *)
Definition lastTwoBytes (s : string) : string :=
  String.substring (String.length s - 2) 2 s.

(** [ParseDuration] parses a time duration from a string; [None] is
    [ErrInvalidDuration]. *)
Definition ParseDuration (s : string) : option Z :=
  if len s =? 0 then None
  else if len s =? 1 then
    match ParseInt s 64 with
    | (n, None) => Some (mul64 n time.Microsecond)
    | _ => None
    end
  else
    let a := split s in
    let la := List.length a in
    let '(num, uom) :=
      if isDigit (nth (la - 1) a 0) then (s, "u")
      else if (2 <? len s) && String.eqb (lastTwoBytes s) "ms"
           then (Utf8.encode (firstn (la - 2) a), "ms")
           else (Utf8.encode (firstn (la - 1) a), Utf8.encode (skipn (la - 1) a)) in
    match ParseInt num 64 with
    | (n, None) =>
      if String.eqb uom "u" || String.eqb uom micro
      then Some (mul64 n time.Microsecond)
      else if String.eqb uom "ms" then Some (mul64 n time.Millisecond)
      else if String.eqb uom "s" then Some (mul64 n time.Second)
      else if String.eqb uom "m" then Some (mul64 n time.Minute)
      else if String.eqb uom "h" then Some (mul64 n time.Hour)
      else if String.eqb uom "d" then Some (mul64 (mul64 n 24) time.Hour)
      else if String.eqb uom "w" then Some (mul64 (mul64 (mul64 n 7) 24) time.Hour)
      else None
    | _ => None
    end.

(** [FormatDuration] formats a duration to a string. *)
Definition FormatDuration (d : Z) : string :=
  if d =? 0 then "0s"
  else if rem64 d (7 * 24 * time.Hour) =? 0
       then FormatInt (quot64 d (7 * 24 * time.Hour)) ++ "w"
  else if rem64 d (24 * time.Hour) =? 0
       then FormatInt (quot64 d (24 * time.Hour)) ++ "d"
  else if rem64 d time.Hour =? 0 then FormatInt (quot64 d time.Hour) ++ "h"
  else if rem64 d time.Minute =? 0 then FormatInt (quot64 d time.Minute) ++ "m"
  else if rem64 d time.Second =? 0 then FormatInt (quot64 d time.Second) ++ "s"
  else if rem64 d time.Millisecond =? 0
       then FormatInt (quot64 d time.Millisecond) ++ "ms"
  else FormatInt (quot64 d time.Microsecond).

(** ** Tokens *)

(** Modelled from the spec: the [Token] enumeration of the scanner's token
    file (section 3 of the specification lists its members). *)
Inductive Token : Set :=
  | ILLEGAL | EOF | WS
  | IDENT | NUMBER | DURATION_VAL | STRING | TRUE | FALSE | REGEX
  | ADD | SUB | MUL | DIV | AND | OR | EQ | NEQ | LT | LTE | GT | GTE
  | LPAREN | RPAREN | COMMA | SEMICOLON | DOT
  | ALL | ALTER | AS | ASC | BEGIN | BY | CREATE | CONTINUOUS | DATABASE
  | DATABASES | DEFAULT | DELETE | DESC | DROP | DURATION | END | FIELD
  | FROM | GRANT | GROUP | IN | INTO | KEY | KEYS | LIMIT | MEASUREMENT
  | MEASUREMENTS | OFFSET | ON | ORDER | PASSWORD | POLICY | POLICIES
  | PRIVILEGES | QUERIES | QUERY | READ | REPLICATION | RETENTION | REVOKE
  | SELECT | SERIES | SHOW | TAG | TO | USER | USERS | VALUES | WHERE
  | WITH | WRITE.

Definition Token_index (t : Token) : N :=
  match t with
  | ILLEGAL => 0 | EOF => 1 | WS => 2
  | IDENT => 3 | NUMBER => 4 | DURATION_VAL => 5 | STRING => 6 | TRUE => 7
  | FALSE => 8 | REGEX => 9
  | ADD => 10 | SUB => 11 | MUL => 12 | DIV => 13 | AND => 14 | OR => 15
  | EQ => 16 | NEQ => 17 | LT => 18 | LTE => 19 | GT => 20 | GTE => 21
  | LPAREN => 22 | RPAREN => 23 | COMMA => 24 | SEMICOLON => 25 | DOT => 26
  | ALL => 27 | ALTER => 28 | AS => 29 | ASC => 30 | BEGIN => 31 | BY => 32
  | CREATE => 33 | CONTINUOUS => 34 | DATABASE => 35 | DATABASES => 36
  | DEFAULT => 37 | DELETE => 38 | DESC => 39 | DROP => 40 | DURATION => 41
  | END => 42 | FIELD => 43 | FROM => 44 | GRANT => 45 | GROUP => 46
  | IN => 47 | INTO => 48 | KEY => 49 | KEYS => 50 | LIMIT => 51
  | MEASUREMENT => 52 | MEASUREMENTS => 53 | OFFSET => 54 | ON => 55
  | ORDER => 56 | PASSWORD => 57 | POLICY => 58 | POLICIES => 59
  | PRIVILEGES => 60 | QUERIES => 61 | QUERY => 62 | READ => 63
  | REPLICATION => 64 | RETENTION => 65 | REVOKE => 66 | SELECT => 67
  | SERIES => 68 | SHOW => 69 | TAG => 70 | TO => 71 | USER => 72
  | USERS => 73 | VALUES => 74 | WHERE => 75 | WITH => 76 | WRITE => 77
  end%N.

(** [tok == t] on tokens. *)
Definition Token_eqb (a b : Token) : bool := N.eqb (Token_index a) (Token_index b).

(** Modelled from the spec: the printable name of a token (the [tokens]
    table behind [Token.String]); punctuation and operators print as their
    surface form, keywords as their upper-case spelling. *)
Definition Token_String (t : Token) : string :=
  match t with
  | ILLEGAL => "ILLEGAL" | EOF => "EOF" | WS => "WS"
  | IDENT => "IDENT" | NUMBER => "NUMBER" | DURATION_VAL => "DURATION_VAL"
  | STRING => "STRING" | TRUE => "TRUE" | FALSE => "FALSE" | REGEX => "REGEX"
  | ADD => "+" | SUB => "-" | MUL => "*" | DIV => "/" | AND => "AND"
  | OR => "OR" | EQ => "=" | NEQ => "!=" | LT => "<" | LTE => "<="
  | GT => ">" | GTE => ">="
  | LPAREN => "(" | RPAREN => ")" | COMMA => "," | SEMICOLON => ";"
  | DOT => "."
  | ALL => "ALL" | ALTER => "ALTER" | AS => "AS" | ASC => "ASC"
  | BEGIN => "BEGIN" | BY => "BY" | CREATE => "CREATE"
  | CONTINUOUS => "CONTINUOUS" | DATABASE => "DATABASE"
  | DATABASES => "DATABASES" | DEFAULT => "DEFAULT" | DELETE => "DELETE"
  | DESC => "DESC" | DROP => "DROP" | DURATION => "DURATION" | END => "END"
  | FIELD => "FIELD" | FROM => "FROM" | GRANT => "GRANT" | GROUP => "GROUP"
  | IN => "IN" | INTO => "INTO" | KEY => "KEY" | KEYS => "KEYS"
  | LIMIT => "LIMIT" | MEASUREMENT => "MEASUREMENT"
  | MEASUREMENTS => "MEASUREMENTS" | OFFSET => "OFFSET" | ON => "ON"
  | ORDER => "ORDER" | PASSWORD => "PASSWORD" | POLICY => "POLICY"
  | POLICIES => "POLICIES" | PRIVILEGES => "PRIVILEGES"
  | QUERIES => "QUERIES" | QUERY => "QUERY" | READ => "READ"
  | REPLICATION => "REPLICATION" | RETENTION => "RETENTION"
  | REVOKE => "REVOKE" | SELECT => "SELECT" | SERIES => "SERIES"
  | SHOW => "SHOW" | TAG => "TAG" | TO => "TO" | USER => "USER"
  | USERS => "USERS" | VALUES => "VALUES" | WHERE => "WHERE"
  | WITH => "WITH" | WRITE => "WRITE"
  end.

(** Modelled from the spec: [Token.Precedence] ("MUL, DIV = 4; ADD, SUB = 3;
    comparisons = 2; AND = 1; OR = 1"; every other token has precedence 0). *)
Definition Precedence (t : Token) : Z :=
  match t with
  | OR | AND => 1
  | EQ | NEQ | LT | LTE | GT | GTE => 2
  | ADD | SUB => 3
  | MUL | DIV => 4
  | _ => 0
  end.

(** Modelled from the spec: [Token.isOperator] (the operator tokens of
    section 3). *)
Definition isOperator (t : Token) : bool :=
  match t with
  | ADD | SUB | MUL | DIV | AND | OR | EQ | NEQ | LT | LTE | GT | GTE => true
  | _ => false
  end.

(** Modelled from the spec: [tokstr], the text of a token in an error
    message: its literal when it has one, its printable name otherwise. *)
Definition tokstr (tok : Token) (lit : string) : string :=
  if String.eqb lit "" then Token_String tok else lit.

(** ** Positions and parse errors *)

Record Pos : Set := mkPos { Line : Z; Char : Z }.

Record ParseError : Set := mkParseError {
  Message : string;
  Found : string;
  Expected : list string;
  ErrPos : Pos
}.

(** [newParseError] returns a new instance of [ParseError]. *)
Definition newParseError (found : string) (expected : list string) (pos : Pos)
  : ParseError :=
  {| Message := ""; Found := found; Expected := expected; ErrPos := pos |}.

(** A [ParseError] that only carries a message. *)
Definition messageError (msg : string) (pos : Pos) : ParseError :=
  {| Message := msg; Found := ""; Expected := []; ErrPos := pos |}.

(** [Error] returns the string representation of the error:
    [fmt.Sprintf] with the verbs %s and %d. *)
Definition Error (e : ParseError) : string :=
  if negb (String.eqb (Message e) "") then
    Message e ++ " at line " ++ FormatInt (add64 (Line (ErrPos e)) 1)
    ++ ", char " ++ FormatInt (add64 (Char (ErrPos e)) 1)
  else
    "found " ++ Found e ++ ", expected " ++ strings_Join (Expected e) ", "
    ++ " at line " ++ FormatInt (add64 (Line (ErrPos e)) 1)
    ++ ", char " ++ FormatInt (add64 (Char (ErrPos e)) 1).

(** ** The syntax tree

    Modelled from the spec: the node types of the syntax-tree file (section 3
    of the specification gives each node's fields).  Fields that are nil-able
    pointers or interfaces in Go are options. *)

Definition float64 : Set := spec_float.

(** A compiled regular expression, identified by its source text. *)
Definition Regexp : Set := string.

Inductive Expr : Set :=
  | BinaryExpr (Op : Token) (LHS RHS : Expr)
  | ParenExpr (e : Expr)
  | Call (Name : string) (Args : list Expr)
  | VarRef (Val : string)
  | Wildcard
  | NumberLiteral (Val : float64)
  | StringLiteral (Val : string)
  | BooleanLiteral (Val : bool)
  | TimeLiteral (Val : time.Time)
  | DurationLiteral (Val : Z)
  | RegexLiteral (Val : Regexp).

Record Measurement : Set := { Measurement_Name : string }.

Inductive Source : Set :=
  | SourceMeasurement (m : Measurement)
  | Join (Measurements : list Measurement)
  | Merge (Measurements : list Measurement).

Record Field : Set := { Field_Expr : Expr; Field_Alias : string }.
Record Dimension : Set := { Dimension_Expr : Expr }.
Record SortField : Set := { SortField_Name : string; Ascending : bool }.
Record Target : Set := { Target_Measurement : string; Target_Database : string }.

Inductive Privilege : Set :=
  NoPrivileges | ReadPrivilege | WritePrivilege | AllPrivileges.

Record SelectStatement : Set := {
  Fields : list Field;
  Select_Target : option Target;
  Select_Source : option Source;
  Select_Condition : option Expr;
  Dimensions : list Dimension;
  Select_SortFields : list SortField;
  Limit : Z;
  Offset : Z
}.

Record DeleteStatement : Set := {
  Delete_Source : option Source;
  Delete_Condition : option Expr
}.

(** SHOW SERIES, SHOW MEASUREMENTS, SHOW TAG KEYS and SHOW FIELD KEYS share
    one shape: [{Source?, Condition?, SortFields?, Limit, Offset}]. *)
Record ShowStatement : Set := {
  Show_Source : option Source;
  Show_Condition : option Expr;
  Show_SortFields : list SortField;
  Show_Limit : Z;
  Show_Offset : Z
}.

Record ShowTagValuesStatement : Set := {
  STV_Source : option Source;
  TagKeys : list string;
  STV_Condition : option Expr;
  STV_SortFields : list SortField;
  STV_Limit : Z;
  STV_Offset : Z
}.

Record CreateRetentionPolicyStatement : Set := {
  CRP_Name : string;
  CRP_Database : string;
  CRP_Duration : Z;
  CRP_Replication : Z;
  CRP_Default : bool
}.

Record AlterRetentionPolicyStatement : Set := {
  ARP_Name : string;
  ARP_Database : string;
  ARP_Duration : option Z;
  ARP_Replication : option Z;
  ARP_Default : bool
}.

Record DropRetentionPolicyStatement : Set := {
  DRP_Name : string;
  DRP_Database : string
}.

Record CreateUserStatement : Set := {
  CU_Name : string;
  CU_Password : string;
  CU_Privilege : option Privilege
}.

(** GRANT and REVOKE share one shape: [{Privilege, On?, User}]. *)
Record PrivilegeStatement : Set := {
  PS_Privilege : Privilege;
  PS_On : string;
  PS_User : string
}.

Record CreateContinuousQueryStatement : Set := {
  CQ_Name : string;
  CQ_Database : string;
  CQ_Source : SelectStatement
}.

Record DropSeriesStatement : Set := {
  DS_Source : option Source;
  DS_Condition : option Expr;
  SeriesID : Z
}.

Inductive Statement : Set :=
  | StmtSelect (s : SelectStatement)
  | StmtDelete (s : DeleteStatement)
  | StmtShowSeries (s : ShowStatement)
  | StmtShowMeasurements (s : ShowStatement)
  | StmtShowTagKeys (s : ShowStatement)
  | StmtShowFieldKeys (s : ShowStatement)
  | StmtShowTagValues (s : ShowTagValuesStatement)
  | StmtShowRetentionPolicies (Database : string)
  | StmtShowDatabases
  | StmtShowUsers
  | StmtShowContinuousQueries
  | StmtCreateDatabase (Name : string)
  | StmtDropDatabase (Name : string)
  | StmtCreateRetentionPolicy (s : CreateRetentionPolicyStatement)
  | StmtAlterRetentionPolicy (s : AlterRetentionPolicyStatement)
  | StmtDropRetentionPolicy (s : DropRetentionPolicyStatement)
  | StmtCreateUser (s : CreateUserStatement)
  | StmtDropUser (Name : string)
  | StmtGrant (s : PrivilegeStatement)
  | StmtRevoke (s : PrivilegeStatement)
  | StmtCreateContinuousQuery (s : CreateContinuousQueryStatement)
  | StmtDropContinuousQuery (Name : string)
  | StmtDropMeasurement (Name : string)
  | StmtDropSeries (s : DropSeriesStatement).

Record Query : Set := { Statements : list Statement }.

(** Modelled from the spec: [SelectStatement.Aggregated] ("any Call among
    top-level field expressions"). *)
Definition Aggregated (s : SelectStatement) : bool :=
  existsb (fun f => match Field_Expr f with Call _ _ => true | _ => false end)
          (Fields s).

(** Modelled from the spec: [SelectStatement.GroupByInterval] ("the GROUP BY
    must include a time(<duration>) call with non-zero interval"): the
    duration of the first [time] call among the dimensions, 0 when there is
    none, an error when that call is not applied to one duration. *)
Fixpoint GroupByInterval_dims (ds : list Dimension) : Z * option string :=
  match ds with
  | [] => (0, None)
  | d :: rest =>
    match Dimension_Expr d with
    | Call name args =>
      if String.eqb (strings_ToLower name) "time" then
        match args with
        | [DurationLiteral v] => (v, None)
        | [_] => (0, Some "time dimension must have one duration argument")
        | _ => (0, Some "time dimension expected one argument")
        end
      else GroupByInterval_dims rest
    | _ => GroupByInterval_dims rest
    end
  end.

Definition GroupByInterval (s : SelectStatement) : Z * option string :=
  GroupByInterval_dims (Dimensions s).

(** ** The scanner and its push-back buffer *)

(** What [Scan] returns: the token, its position and its literal. *)
Definition Lexeme : Set := (Token * Pos * string)%type.

(** Modelled from the spec: the scanner, which is not part of the parser's
    file.  It is represented by the triples it has yet to emit, in order,
    and the position it reports at the end of the input ("EOF when the
    stream is exhausted"). *)
Record Scanner : Set := { pending : list Lexeme; eofPos : Pos }.

Definition Scanner_Scan (sc : Scanner) : Lexeme * Scanner :=
  match pending sc with
  | [] => ((EOF, eofPos sc, ""), sc)
  | x :: rest => (x, {| pending := rest; eofPos := eofPos sc |})
  end.

(** Modelled from the spec: [bufScanner] ("a single-slot buffer holds the
    most recent triple; Unscan marks the buffer as live and the next Scan
    returns it"). *)
Record bufScanner : Set := { src : Scanner; buf : Lexeme; live : bool }.

Definition newBufScanner (sc : Scanner) : bufScanner :=
  {| src := sc; buf := (ILLEGAL, mkPos 0 0, ""); live := false |}.

Definition bufScanner_Scan (b : bufScanner) : Lexeme * bufScanner :=
  if live b then (buf b, {| src := src b; buf := buf b; live := false |})
  else let (x, sc) := Scanner_Scan (src b) in
       (x, {| src := sc; buf := x; live := false |}).

Definition bufScanner_Unscan (b : bufScanner) : bufScanner :=
  {| src := src b; buf := buf b; live := true |}.

(** ** The parser monad

    A [Parser] holds nothing but its [bufScanner]; a method of the parser
    is a function of that state which returns a value and the new state, or
    a [ParseError].  [OutOfFuel] is the answer of a loop of the model that
    was not given enough iterations; the Go code has no counterpart. *)

Inductive Res (A : Type) : Type :=
  | Ok (a : A) (p : bufScanner)
  | Err (e : ParseError)
  | OutOfFuel.
Arguments Ok {A} a p.
Arguments Err {A} e.
Arguments OutOfFuel {A}.

Definition M (A : Type) : Type := bufScanner -> Res A.

Definition ret {A} (a : A) : M A := fun p => Ok a p.
Definition fail {A} (e : ParseError) : M A := fun _ => Err e.
Definition outOfFuel {A} : M A := fun _ => OutOfFuel.
Definition bind {A B} (m : M A) (k : A -> M B) : M B :=
  fun p => match m p with
           | Ok a p' => k a p'
           | Err e => Err e
           | OutOfFuel => OutOfFuel
           end.

Declare Scope parser_scope.
Delimit Scope parser_scope with parser.
Notation "x <- m ;; k" := (bind m (fun x => k))
  (at level 61, m at next level, right associativity) : parser_scope.
Notation "' pat <- m ;; k" := (bind m (fun x => match x with pat => k end))
  (at level 61, pat pattern, m at next level, right associativity) : parser_scope.
Notation "m ;; k" := (bind m (fun _ => k))
  (at level 61, right associativity) : parser_scope.
Local Open Scope parser_scope.

(** A Go [for] loop: the body either continues with a new loop state
    ([inl]) or leaves the loop with a result ([inr]). *)
Fixpoint forLoop {A B} (fuel : nat) (body : A -> M (A + B)) (a : A) : M B :=
  match fuel with
  | O => outOfFuel
  | S f => r <- body a ;;
           match r with
           | inl a' => forLoop f body a'
           | inr b => ret b
           end
  end.

(** Every iteration of a loop of the parser, and every level of nesting of
    an expression, reads a token; twice the number of tokens left, and a few
    more, is an ample bound. *)
Definition fuelOf (p : bufScanner) : nat := 2 * List.length (pending (src p)) + 8.

Definition withFuel {A} (f : nat -> M A) : M A := fun p => f (fuelOf p) p.

(** [scan] returns the next token from the underlying scanner. *)
Definition scan : M Lexeme :=
  fun p => let (x, p') := bufScanner_Scan p in Ok x p'.

(** [unscan] pushes the previously read token back onto the buffer. *)
Definition unscan : M unit := fun p => Ok tt (bufScanner_Unscan p).

(** [scanIgnoreWhitespace] scans the next non-whitespace token. *)
Definition scanIgnoreWhitespace : M Lexeme :=
  '(tok, pos, lit) <- scan ;;
  if Token_eqb tok WS then scan else ret (tok, pos, lit).

(** [consumeWhitespace] scans the next token if it's whitespace. *)
Definition consumeWhitespace : M unit :=
  '(tok, _, _) <- scan ;;
  if negb (Token_eqb tok WS) then unscan else ret tt.

(** [parseTokens] consumes an expected sequence of tokens. *)
Fixpoint parseTokens (toks : list Token) : M unit :=
  match toks with
  | [] => ret tt
  | expected :: rest =>
    '(tok, pos, lit) <- scanIgnoreWhitespace ;;
    if negb (Token_eqb tok expected)
    then fail (newParseError (tokstr tok lit) [Token_String expected] pos)
    else parseTokens rest
  end.

(** [parseInt] parses a string and returns an integer literal. *)
Definition parseInt (min max : Z) : M Z :=
  '(tok, pos, lit) <- scanIgnoreWhitespace ;;
  if negb (Token_eqb tok NUMBER)
  then fail (newParseError (tokstr tok lit) ["number"] pos)
  else if strings_Contains lit "."
  then fail (messageError "number must be an integer" pos)
  else match Atoi lit with
       | (_, Some err) => fail (messageError (NumError_Error "ParseInt" lit err) pos)
       | (n, None) =>
         if (n <? min) || (max <? n)
         then fail (messageError
                      ("invalid value " ++ FormatInt n ++ ": must be "
                       ++ FormatInt min ++ " <= n <= " ++ FormatInt max) pos)
         else ret n
       end.

(** [parseUInt32] parses a string and returns a 32-bit unsigned integer
    literal. *)
Definition parseUInt32 : M Z :=
  '(tok, pos, lit) <- scanIgnoreWhitespace ;;
  if negb (Token_eqb tok NUMBER)
  then fail (newParseError (tokstr tok lit) ["number"] pos)
  else match ParseUint lit 32 with
       | (_, Some err) => fail (messageError (NumError_Error "ParseUint" lit err) pos)
       | (n, None) => ret (n mod 2 ^ 32)
       end.

(** [parseDuration] parses a string and returns a duration literal. *)
Definition parseDuration : M Z :=
  '(tok, pos, lit) <- scanIgnoreWhitespace ;;
  if negb (Token_eqb tok DURATION_VAL)
  then fail (newParseError (tokstr tok lit) ["duration"] pos)
  else match ParseDuration lit with
       | None => fail (messageError "invalid duration" pos)
       | Some d => ret d
       end.

(** [parseIdent] parses an identifier. *)
Definition parseIdent : M string :=
  '(tok, pos, lit) <- scanIgnoreWhitespace ;;
  if negb (Token_eqb tok IDENT)
  then fail (newParseError (tokstr tok lit) ["identifier"] pos)
  else ret lit.

(** [parseIdentList] parses a comma delimited list of identifiers. *)
Definition parseIdentList : M (list string) :=
  ident <- parseIdent ;;
  withFuel (fun fuel =>
    forLoop fuel (fun idents =>
      '(tok, _, _) <- scanIgnoreWhitespace ;;
      if negb (Token_eqb tok COMMA)
      then unscan ;; ret (inr idents)
      else ident <- parseIdent ;; ret (inl (idents ++ [ident])))
    [ident]).

(** [parseString] parses a string. *)
Definition parseString : M string :=
  '(tok, pos, lit) <- scanIgnoreWhitespace ;;
  if negb (Token_eqb tok STRING)
  then fail (newParseError (tokstr tok lit) ["string"] pos)
  else ret lit.

(** ** Library functions the parser calls

    [strconv.ParseFloat], [time.Parse] and [regexp.Compile] belong to Go's
    standard library, not to this repository; the parser is parameterised by
    them.  [regexp_Compile] answers with the compiled expression or with the
    text of the error. *)
Class GoLibrary : Type := {
  strconv_ParseFloat : string -> option float64;
  time_Parse : string -> string -> option time.Time;
  regexp_Compile : string -> Regexp + string
}.

(** [DateFormat] represents the format for date literals. *)
Definition DateFormat : string := "2006-01-02".
(** [DateTimeFormat] represents the format for date time literals. *)
Definition DateTimeFormat : string := "2006-01-02 15:04:05.999999".
(** [time.RFC3339Nano] *)
Definition RFC3339Nano : string := "2006-01-02T15:04:05.999999999Z07:00".

(** The common prefix of [dateStringRegexp] and [dateTimeStringRegexp]:
    four digits, a dash, two digits, a dash, two digits; the answer is what
    follows it. *)
Definition afterDate (s : string) : option string :=
  match s with
  | String y1 (String y2 (String y3 (String y4 (String d1
      (String m1 (String m2 (String d2 (String a1 (String a2 rest))))))))) =>
    if isDigitByte y1 && isDigitByte y2 && isDigitByte y3 && isDigitByte y4
       && Ascii.eqb d1 "-" && isDigitByte m1 && isDigitByte m2
       && Ascii.eqb d2 "-" && isDigitByte a1 && isDigitByte a2
    then Some rest else None
  | _ => None
  end.

(** [isDateString] returns true if the string looks like a date-only time
    literal: it matches the prefix and ends there. *)
Definition isDateString (s : string) : bool :=
  match afterDate s with
  | Some EmptyString => true
  | _ => false
  end.

(** [isDateTimeString] returns true if the string looks like a date+time
    time literal: the prefix, then at least one character other than a
    newline. *)
Definition isDateTimeString (s : string) : bool :=
  match afterDate s with
  | Some (String c _) => negb (byteZ c =? 10)
  | _ => false
  end.

(** The new root of the expression tree in [ParseExpr], "based on the
    precedence of the LHS and RHS operators". *)
Definition newRoot (expr : Expr) (op : Token) (rhs : Expr) : Expr :=
  match expr with
  | BinaryExpr lop l r =>
    if Precedence lop <? Precedence op
    then BinaryExpr lop l (BinaryExpr op r rhs)
    else BinaryExpr op expr rhs
  | _ => BinaryExpr op expr rhs
  end.

Section Parser.

Context {lib : GoLibrary}.

(** The literal cases of [parseUnaryExpr]. *)
Definition parseStringLiteral (pos : Pos) (lit : string) : M Expr :=
  if isDateTimeString lit then
    match time_Parse DateTimeFormat lit with
    | Some t => ret (TimeLiteral t)
    | None =>
      match time_Parse RFC3339Nano lit with
      | Some t => ret (TimeLiteral t)
      | None => fail (messageError "unable to parse datetime" pos)
      end
    end
  else if isDateString lit then
    match time_Parse DateFormat lit with
    | Some t => ret (TimeLiteral t)
    | None => fail (messageError "unable to parse date" pos)
    end
  else ret (StringLiteral lit).

(** [ParseExpr], [parseUnaryExpr] and [parseCall] call each other; [fuel]
    bounds the nesting. *)
Fixpoint ParseExpr_rec (fuel : nat) : M Expr :=
  match fuel with
  | O => outOfFuel
  | S f =>
    expr <- parseUnaryExpr_rec f ;;
    forLoop f (fun expr =>
      '(op, _, _) <- scanIgnoreWhitespace ;;
      if negb (isOperator op)
      then unscan ;; ret (inr expr)
      else rhs <- parseUnaryExpr_rec f ;;
           ret (inl (newRoot expr op rhs)))
    expr
  end
with parseUnaryExpr_rec (fuel : nat) : M Expr :=
  match fuel with
  | O => outOfFuel
  | S f =>
    '(tok, _, _) <- scanIgnoreWhitespace ;;
    if Token_eqb tok LPAREN then
      expr <- ParseExpr_rec f ;;
      '(tok, pos, lit) <- scanIgnoreWhitespace ;;
      if negb (Token_eqb tok RPAREN)
      then fail (newParseError (tokstr tok lit) [")"] pos)
      else ret (ParenExpr expr)
    else
      unscan ;;
      '(tok, pos, lit) <- scanIgnoreWhitespace ;;
      if Token_eqb tok IDENT then
        '(tok0, _, _) <- scan ;;
        if Token_eqb tok0 LPAREN then parseCall_rec f lit
        else unscan ;; ret (VarRef lit)
      else if Token_eqb tok STRING then parseStringLiteral pos lit
      else if Token_eqb tok NUMBER then
        match strconv_ParseFloat lit with
        | None => fail (messageError "unable to parse number" pos)
        | Some v => ret (NumberLiteral v)
        end
      else if Token_eqb tok TRUE || Token_eqb tok FALSE
      then ret (BooleanLiteral (Token_eqb tok TRUE))
      else if Token_eqb tok DURATION_VAL then
        ret (DurationLiteral (match ParseDuration lit with
                              | Some v => v
                              | None => 0
                              end))
      else if Token_eqb tok MUL then ret Wildcard
      else if Token_eqb tok REGEX then
        match regexp_Compile lit with
        | inr msg => fail (messageError msg pos)
        | inl re => ret (RegexLiteral re)
        end
      else fail (newParseError (tokstr tok lit)
                   ["identifier"; "string"; "number"; "bool"] pos)
  end
with parseCall_rec (fuel : nat) (name : string) : M Expr :=
  match fuel with
  | O => outOfFuel
  | S f =>
    '(tok, _, _) <- scan ;;
    if Token_eqb tok RPAREN then ret (Call name [])
    else
      unscan ;;
      args <- forLoop f (fun args =>
                arg <- ParseExpr_rec f ;;
                '(tok, _, _) <- scan ;;
                if negb (Token_eqb tok COMMA)
                then unscan ;; ret (inr (args ++ [arg]))
                else ret (inl (args ++ [arg])))
              [] ;;
      '(tok, pos, lit) <- scan ;;
      if negb (Token_eqb tok RPAREN)
      then fail (newParseError (tokstr tok lit) [")"] pos)
      else ret (Call name args)
  end.

(** [ParseExpr] parses an expression. *)
Definition ParseExpr : M Expr := withFuel ParseExpr_rec.

(** [parseUnaryExpr] parses an non-binary expression. *)
Definition parseUnaryExpr : M Expr := withFuel parseUnaryExpr_rec.

(** [parseCall] parses a function call.  This function assumes the function
    name and LPAREN have been consumed. *)
Definition parseCall (name : string) : M Expr :=
  withFuel (fun fuel => parseCall_rec fuel name).

(** [parsePrivilege] parses a string and returns a Privilege. *)
Definition parsePrivilege : M Privilege :=
  '(tok, pos, lit) <- scanIgnoreWhitespace ;;
  if Token_eqb tok READ then ret ReadPrivilege
  else if Token_eqb tok WRITE then ret WritePrivilege
  else if Token_eqb tok ALL then
    '(tok, _, _) <- scanIgnoreWhitespace ;;
    if negb (Token_eqb tok PRIVILEGES)
    then unscan ;; ret AllPrivileges
    else ret AllPrivileges
  else fail (newParseError (tokstr tok lit)
               ["READ"; "WRITE"; "ALL [PRIVILEGES]"] pos).

Definition Privilege_eqb (a b : Privilege) : bool :=
  match a, b with
  | NoPrivileges, NoPrivileges | ReadPrivilege, ReadPrivilege
  | WritePrivilege, WritePrivilege | AllPrivileges, AllPrivileges => true
  | _, _ => false
  end.

(** [parseRevokeStatement] and [parseGrantStatement] differ only in the
    keyword before the user ([FROM] or [TO]); [kw] is that keyword.
    [privilegeUser] is their common end, from "Check for required FROM
    token" on: [tok] and [pos] belong to the last token read, [lit] to the
    first token after the privilege, because inside the ON branch the Go
    code declares a new [lit]. *)
Definition privilegeUser (kw : Token) (priv : Privilege) (on : string)
    (tok : Token) (pos : Pos) (lit : string) : M PrivilegeStatement :=
  if negb (Token_eqb tok kw)
  then fail (newParseError (tokstr tok lit) [Token_String kw] pos)
  else
    user <- parseIdent ;;
    ret {| PS_Privilege := priv; PS_On := on; PS_User := user |}.

Definition parsePrivilegeStatement (kw : Token) : M PrivilegeStatement :=
  priv <- parsePrivilege ;;
  '(tok, pos, lit) <- scanIgnoreWhitespace ;;
  if Token_eqb tok ON then
    on <- parseIdent ;;
    '(tok, pos, _) <- scanIgnoreWhitespace ;;
    privilegeUser kw priv on tok pos lit
  else if negb (Privilege_eqb priv AllPrivileges)
  then fail (newParseError (tokstr tok lit) ["ON"] pos)
  else privilegeUser kw priv "" tok pos lit.

(** [parseRevokeStatement] parses a string and returns a revoke statement.
    This function assumes the REVOKE token has already been consumed. *)
Definition parseRevokeStatement : M PrivilegeStatement :=
  parsePrivilegeStatement FROM.

(** [parseGrantStatement] parses a string and returns a grant statement.
    This function assumes the GRANT token has already been consumed. *)
Definition parseGrantStatement : M PrivilegeStatement :=
  parsePrivilegeStatement TO.

(** [parseCreateRetentionPolicyStatement] parses a string and returns a
    create retention policy statement.  This function assumes the CREATE
    RETENTION POLICY tokens have already been consumed. *)
Definition parseCreateRetentionPolicyStatement : M CreateRetentionPolicyStatement :=
  name <- parseIdent ;;
  '(tok, pos, lit) <- scanIgnoreWhitespace ;;
  if negb (Token_eqb tok ON)
  then fail (newParseError (tokstr tok lit) ["ON"] pos)
  else
    database <- parseIdent ;;
    '(tok, pos, lit) <- scanIgnoreWhitespace ;;
    if negb (Token_eqb tok DURATION)
    then fail (newParseError (tokstr tok lit) ["DURATION"] pos)
    else
      d <- parseDuration ;;
      '(tok, pos, lit) <- scanIgnoreWhitespace ;;
      if negb (Token_eqb tok REPLICATION)
      then fail (newParseError (tokstr tok lit) ["REPLICATION"] pos)
      else
        n <- parseInt 1 MaxInt32 ;;
        '(tok, _, _) <- scanIgnoreWhitespace ;;
        if Token_eqb tok DEFAULT
        then ret {| CRP_Name := name; CRP_Database := database;
                    CRP_Duration := d; CRP_Replication := n;
                    CRP_Default := true |}
        else unscan ;;
             ret {| CRP_Name := name; CRP_Database := database;
                    CRP_Duration := d; CRP_Replication := n;
                    CRP_Default := false |}.

(** The option loop of [parseAlterRetentionPolicyStatement]:
    [for i := 0; i < maxNumOptions; i++], with [left] iterations to go. *)
Fixpoint alterOptions (left : nat) (i : Z) (stmt : AlterRetentionPolicyStatement)
  : M AlterRetentionPolicyStatement :=
  match left with
  | O => ret stmt
  | S left' =>
    '(tok, pos, lit) <- scanIgnoreWhitespace ;;
    if Token_eqb tok DURATION then
      d <- parseDuration ;;
      alterOptions left' (i + 1)
        {| ARP_Name := ARP_Name stmt; ARP_Database := ARP_Database stmt;
           ARP_Duration := Some d; ARP_Replication := ARP_Replication stmt;
           ARP_Default := ARP_Default stmt |}
    else if Token_eqb tok REPLICATION then
      n <- parseInt 1 MaxInt32 ;;
      alterOptions left' (i + 1)
        {| ARP_Name := ARP_Name stmt; ARP_Database := ARP_Database stmt;
           ARP_Duration := ARP_Duration stmt; ARP_Replication := Some n;
           ARP_Default := ARP_Default stmt |}
    else if Token_eqb tok DEFAULT then
      alterOptions left' (i + 1)
        {| ARP_Name := ARP_Name stmt; ARP_Database := ARP_Database stmt;
           ARP_Duration := ARP_Duration stmt;
           ARP_Replication := ARP_Replication stmt; ARP_Default := true |}
    else if i <? 1
    then fail (newParseError (tokstr tok lit)
                 ["DURATION"; "RETENTION"; "DEFAULT"] pos)
    else unscan ;; ret stmt
  end.

(** [parseAlterRetentionPolicyStatement] parses a string and returns an
    alter retention policy statement.  This function assumes the ALTER
    RETENTION POLICY tokens have already been consumed. *)
Definition parseAlterRetentionPolicyStatement : M AlterRetentionPolicyStatement :=
  name <- parseIdent ;;
  '(tok, pos, lit) <- scanIgnoreWhitespace ;;
  if negb (Token_eqb tok ON)
  then fail (newParseError (tokstr tok lit) ["ON"] pos)
  else
    database <- parseIdent ;;
    alterOptions 3 0
      {| ARP_Name := name; ARP_Database := database; ARP_Duration := None;
         ARP_Replication := None; ARP_Default := false |}.

(** [targetRequirement] specifies whether or not a target clause is
    required. *)
Inductive targetRequirement : Set := targetRequired | targetNotRequired.

(** [parseTarget] parses a string and returns a Target. *)
Definition parseTarget (tr : targetRequirement) : M (option Target) :=
  '(tok, pos, lit) <- scanIgnoreWhitespace ;;
  if negb (Token_eqb tok INTO) then
    match tr with
    | targetRequired => fail (newParseError (tokstr tok lit) ["INTO"] pos)
    | targetNotRequired => unscan ;; ret None
    end
  else
    ident <- parseIdent ;;
    '(tok, _, _) <- scanIgnoreWhitespace ;;
    if negb (Token_eqb tok ON)
    then unscan ;;
         ret (Some {| Target_Measurement := ident; Target_Database := "" |})
    else
      database <- parseIdent ;;
      ret (Some {| Target_Measurement := ident; Target_Database := database |}).

(** [parseAlias] parses the "AS (IDENT|STRING)" alias for fields and
    dimensions. *)
Definition parseAlias : M string :=
  '(tok, _, _) <- scanIgnoreWhitespace ;;
  if negb (Token_eqb tok AS)
  then unscan ;; ret ""
  else parseIdent.

(** [parseField] parses a single field. *)
Definition parseField : M Field :=
  expr <- ParseExpr ;;
  alias <- parseAlias ;;
  consumeWhitespace ;;
  ret {| Field_Expr := expr; Field_Alias := alias |}.

(** [parseFields] parses a list of one or more fields. *)
Definition parseFields : M (list Field) :=
  '(tok, _, _) <- scanIgnoreWhitespace ;;
  if Token_eqb tok MUL
  then ret [{| Field_Expr := Wildcard; Field_Alias := "" |}]
  else
    unscan ;;
    withFuel (fun fuel =>
      forLoop fuel (fun fields =>
        f <- parseField ;;
        '(tok, _, _) <- scan ;;
        if negb (Token_eqb tok COMMA)
        then unscan ;; ret (inr (fields ++ [f]))
        else ret (inl (fields ++ [f])))
      []).

(** [parseSource] parses the "FROM" clause of the query. *)
Definition parseSource : M Source :=
  '(tok, pos, lit) <- scanIgnoreWhitespace ;;
  if negb (Token_eqb tok IDENT)
  then fail (newParseError (tokstr tok lit) ["identifier"] pos)
  else
    '(next, _, _) <- scan ;;
    if Token_eqb tok STRING || (Token_eqb tok IDENT && negb (Token_eqb next LPAREN))
    then unscan ;; ret (SourceMeasurement {| Measurement_Name := lit |})
    else
      let sourceType := strings_ToLower lit in
      if negb (String.eqb sourceType "join") && negb (String.eqb sourceType "merge")
      then fail (messageError ("unknown merge type: " ++ sourceType) pos)
      else
        measurements <- withFuel (fun fuel =>
          forLoop fuel (fun measurements =>
            '(tok, pos, lit) <- scanIgnoreWhitespace ;;
            if negb (Token_eqb tok IDENT)
            then fail (newParseError (tokstr tok lit) ["measurement name"] pos)
            else
              '(tok, _, _) <- scan ;;
              if negb (Token_eqb tok COMMA)
              then unscan ;;
                   ret (inr (measurements ++ [{| Measurement_Name := lit |}]))
              else ret (inl (measurements ++ [{| Measurement_Name := lit |}])))
          []) ;;
        '(tok, pos, lit) <- scanIgnoreWhitespace ;;
        if negb (Token_eqb tok RPAREN)
        then fail (newParseError (tokstr tok lit) [")"] pos)
        else if String.eqb sourceType "join"
             then ret (Join measurements)
             else ret (Merge measurements).

(** [parseCondition] parses the "WHERE" clause of the query, if it
    exists. *)
Definition parseCondition : M (option Expr) :=
  '(tok, _, _) <- scanIgnoreWhitespace ;;
  if negb (Token_eqb tok WHERE)
  then unscan ;; ret None
  else expr <- ParseExpr ;; ret (Some expr).

(** [parseDimension] parses a single dimension. *)
Definition parseDimension : M Dimension :=
  expr <- ParseExpr ;;
  consumeWhitespace ;;
  ret {| Dimension_Expr := expr |}.

(** [parseDimensions] parses the "GROUP BY" clause of the query, if it
    exists. *)
Definition parseDimensions : M (list Dimension) :=
  '(tok, _, _) <- scanIgnoreWhitespace ;;
  if negb (Token_eqb tok GROUP)
  then unscan ;; ret []
  else
    '(tok, pos, lit) <- scanIgnoreWhitespace ;;
    if negb (Token_eqb tok BY)
    then fail (newParseError (tokstr tok lit) ["BY"] pos)
    else
      withFuel (fun fuel =>
        forLoop fuel (fun dimensions =>
          d <- parseDimension ;;
          '(tok, _, _) <- scan ;;
          if negb (Token_eqb tok COMMA)
          then unscan ;; ret (inr (dimensions ++ [d]))
          else ret (inl (dimensions ++ [d])))
        []).

(** [parseOptionalTokenAndInt] parses the specified token followed by an
    int, if it exists.  The error of [strconv.ParseInt] is discarded. *)
Definition parseOptionalTokenAndInt (t : Token) : M Z :=
  '(tok, _, _) <- scanIgnoreWhitespace ;;
  if negb (Token_eqb tok t)
  then unscan ;; ret 0
  else
    '(tok, pos, lit) <- scanIgnoreWhitespace ;;
    if negb (Token_eqb tok NUMBER)
    then fail (newParseError (tokstr tok lit) ["number"] pos)
    else if strings_Contains lit "."
    then fail (messageError ("fractional parts not allowed in " ++ Token_String t) pos)
    else
      let n := fst (ParseInt lit 64) in
      if n <? 1
      then fail (messageError (Token_String t ++ " must be > 0") pos)
      else ret n.

(** [parseSortField] parses one field of an ORDER BY clause. *)
Definition parseSortField : M SortField :=
  '(tok, pos, lit) <- scanIgnoreWhitespace ;;
  if Token_eqb tok IDENT || Token_eqb tok STRING then
    '(tok, _, _) <- scanIgnoreWhitespace ;;
    if negb (Token_eqb tok ASC) && negb (Token_eqb tok DESC)
    then unscan ;; ret {| SortField_Name := lit; Ascending := false |}
    else ret {| SortField_Name := lit; Ascending := Token_eqb tok ASC |}
  else if negb (Token_eqb tok ASC) && negb (Token_eqb tok DESC)
  then fail (newParseError (tokstr tok lit) ["identifier, ASC, or DESC"] pos)
  else ret {| SortField_Name := ""; Ascending := Token_eqb tok ASC |}.

(** [parseSortFields] parses all fields of and ORDER BY clause. *)
Definition parseSortFields : M (list SortField) :=
  field <- parseSortField ;;
  withFuel (fun fuel =>
    forLoop fuel (fun fields =>
      '(tok, _, _) <- scanIgnoreWhitespace ;;
      if negb (Token_eqb tok COMMA)
      then unscan ;; ret (inr fields)
      else field <- parseSortField ;; ret (inl (fields ++ [field])))
    [field]).

(** [parseOrderBy] parses the "ORDER BY" clause of a query, if it exists. *)
Definition parseOrderBy : M (list SortField) :=
  '(tok, _, _) <- scanIgnoreWhitespace ;;
  if negb (Token_eqb tok ORDER)
  then unscan ;; ret []
  else
    '(tok, pos, lit) <- scanIgnoreWhitespace ;;
    if negb (Token_eqb tok BY)
    then fail (newParseError (tokstr tok lit) ["BY"] pos)
    else parseSortFields.

(** [parseSelectStatement] parses a select string and returns a Statement
    AST object.  This function assumes the SELECT token has already been
    consumed. *)
Definition parseSelectStatement (tr : targetRequirement) : M SelectStatement :=
  fields <- parseFields ;;
  target <- parseTarget tr ;;
  '(tok, pos, lit) <- scanIgnoreWhitespace ;;
  if negb (Token_eqb tok FROM)
  then fail (newParseError (tokstr tok lit) ["FROM"] pos)
  else
    source <- parseSource ;;
    condition <- parseCondition ;;
    dimensions <- parseDimensions ;;
    sortFields <- parseOrderBy ;;
    limit <- parseOptionalTokenAndInt LIMIT ;;
    offset <- parseOptionalTokenAndInt OFFSET ;;
    ret {| Fields := fields; Select_Target := target;
           Select_Source := Some source; Select_Condition := condition;
           Dimensions := dimensions; Select_SortFields := sortFields;
           Limit := limit; Offset := offset |}.

(** [parseDeleteStatement] parses a delete string and returns a
    DeleteStatement.  This function assumes the DELETE token has already
    been consumed. *)
Definition parseDeleteStatement : M DeleteStatement :=
  '(tok, pos, lit) <- scanIgnoreWhitespace ;;
  if negb (Token_eqb tok FROM)
  then fail (newParseError (tokstr tok lit) ["FROM"] pos)
  else
    source <- parseSource ;;
    condition <- parseCondition ;;
    ret {| Delete_Source := Some source; Delete_Condition := condition |}.

(** "Parse optional FROM": the source clause of the SHOW and DROP SERIES
    statements. *)
Definition parseOptionalSource : M (option Source) :=
  '(tok, _, _) <- scanIgnoreWhitespace ;;
  if Token_eqb tok FROM
  then source <- parseSource ;; ret (Some source)
  else unscan ;; ret None.

(** [parseShowSeriesStatement] parses a string and returns a
    ShowSeriesStatement.  This function assumes the "SHOW SERIES" tokens
    have already been consumed. *)
Definition parseShowSeriesStatement : M ShowStatement :=
  source <- parseOptionalSource ;;
  condition <- parseCondition ;;
  sortFields <- parseOrderBy ;;
  limit <- parseOptionalTokenAndInt LIMIT ;;
  offset <- parseOptionalTokenAndInt OFFSET ;;
  ret {| Show_Source := source; Show_Condition := condition;
         Show_SortFields := sortFields; Show_Limit := limit;
         Show_Offset := offset |}.

(** [parseShowMeasurementsStatement]: this function assumes the "SHOW
    MEASUREMENTS" tokens have already been consumed. *)
Definition parseShowMeasurementsStatement : M ShowStatement :=
  condition <- parseCondition ;;
  sortFields <- parseOrderBy ;;
  limit <- parseOptionalTokenAndInt LIMIT ;;
  offset <- parseOptionalTokenAndInt OFFSET ;;
  ret {| Show_Source := None; Show_Condition := condition;
         Show_SortFields := sortFields; Show_Limit := limit;
         Show_Offset := offset |}.

(** [parseShowRetentionPoliciesStatement]: this function assumes the "SHOW
    RETENTION POLICIES" tokens have been consumed. *)
Definition parseShowRetentionPoliciesStatement : M string := parseIdent.

(** [parseShowTagKeysStatement]: this function assumes the "SHOW TAG KEYS"
    tokens have already been consumed. *)
Definition parseShowTagKeysStatement : M ShowStatement :=
  source <- parseOptionalSource ;;
  condition <- parseCondition ;;
  sortFields <- parseOrderBy ;;
  limit <- parseOptionalTokenAndInt LIMIT ;;
  offset <- parseOptionalTokenAndInt OFFSET ;;
  ret {| Show_Source := source; Show_Condition := condition;
         Show_SortFields := sortFields; Show_Limit := limit;
         Show_Offset := offset |}.

(** [parseTagKeys] parses a string and returns a list of tag keys. *)
Definition parseTagKeys : M (list string) :=
  parseTokens [WITH; KEY] ;;
  '(tok, pos, lit) <- scanIgnoreWhitespace ;;
  if Token_eqb tok IN then
    '(tok, pos, lit) <- scanIgnoreWhitespace ;;
    if negb (Token_eqb tok LPAREN)
    then fail (newParseError (tokstr tok lit) ["("] pos)
    else
      tagKeys <- parseIdentList ;;
      '(tok, pos, lit) <- scanIgnoreWhitespace ;;
      if negb (Token_eqb tok RPAREN)
      then fail (newParseError (tokstr tok lit) ["("] pos)
      else ret tagKeys
  else if Token_eqb tok EQ then
    ident <- parseIdent ;; ret [ident]
  else fail (newParseError (tokstr tok lit) ["IN"; "="] pos).

(** [parseShowTagValuesStatement]: this function assumes the "SHOW TAG
    VALUES" tokens have already been consumed. *)
Definition parseShowTagValuesStatement : M ShowTagValuesStatement :=
  source <- parseOptionalSource ;;
  tagKeys <- parseTagKeys ;;
  condition <- parseCondition ;;
  sortFields <- parseOrderBy ;;
  limit <- parseOptionalTokenAndInt LIMIT ;;
  offset <- parseOptionalTokenAndInt OFFSET ;;
  ret {| STV_Source := source; TagKeys := tagKeys;
         STV_Condition := condition; STV_SortFields := sortFields;
         STV_Limit := limit; STV_Offset := offset |}.

(** [parseShowFieldKeysStatement]: this function assumes the "SHOW FIELD
    KEYS" tokens have already been consumed. *)
Definition parseShowFieldKeysStatement : M ShowStatement :=
  source <- parseOptionalSource ;;
  sortFields <- parseOrderBy ;;
  limit <- parseOptionalTokenAndInt LIMIT ;;
  offset <- parseOptionalTokenAndInt OFFSET ;;
  ret {| Show_Source := source; Show_Condition := None;
         Show_SortFields := sortFields; Show_Limit := limit;
         Show_Offset := offset |}.

(** [parseDropMeasurementStatement]: this function assumes the "DROP
    MEASUREMENT" tokens have already been consumed. *)
Definition parseDropMeasurementStatement : M string := parseIdent.

(** [parseDropSeriesStatement] parses a string and returns a
    DropSeriesStatement.  This function assumes the "DROP SERIES" tokens
    have already been consumed. *)
Definition parseDropSeriesStatement : M DropSeriesStatement :=
  source <- parseOptionalSource ;;
  condition <- parseCondition ;;
  match condition, source with
  | None, None =>
    id <- parseUInt32 ;;
    ret {| DS_Source := source; DS_Condition := condition; SeriesID := id |}
  | _, _ =>
    ret {| DS_Source := source; DS_Condition := condition; SeriesID := 0 |}
  end.

(** [parseShowContinuousQueriesStatement]: this function assumes the "SHOW
    CONTINUOUS" tokens have already been consumed. *)
Definition parseShowContinuousQueriesStatement : M unit :=
  '(tok, pos, lit) <- scanIgnoreWhitespace ;;
  if negb (Token_eqb tok QUERIES)
  then fail (newParseError (tokstr tok lit) ["QUERIES"] pos)
  else ret tt.

(** [parseCreateContinuousQueryStatement]: this function assumes the
    "CREATE CONTINUOUS" tokens have already been consumed. *)
Definition parseCreateContinuousQueryStatement : M CreateContinuousQueryStatement :=
  '(tok, pos, lit) <- scanIgnoreWhitespace ;;
  if negb (Token_eqb tok QUERY)
  then fail (newParseError (tokstr tok lit) ["QUERY"] pos)
  else
    name <- parseIdent ;;
    '(tok, pos, lit) <- scanIgnoreWhitespace ;;
    if negb (Token_eqb tok ON)
    then fail (newParseError (tokstr tok lit) ["ON"] pos)
    else
      database <- parseIdent ;;
      parseTokens [BEGIN; SELECT] ;;
      source <- parseSelectStatement targetRequired ;;
      let '(d, err) := GroupByInterval source in
      if Aggregated source
         && ((d =? 0) || match err with Some _ => true | None => false end)
      then
        unscan ;; unscan ;;
        '(tok, pos, lit) <- scanIgnoreWhitespace ;;
        fail (newParseError (tokstr tok lit)
                ("GROUP BY time(...)"
                 :: match err with Some msg => [msg] | None => [] end) pos)
      else
        '(tok, pos, lit) <- scanIgnoreWhitespace ;;
        if negb (Token_eqb tok END)
        then fail (newParseError (tokstr tok lit) ["END"] pos)
        else ret {| CQ_Name := name; CQ_Database := database;
                    CQ_Source := source |}.

(** [parseCreateDatabaseStatement]: this function assumes the "CREATE
    DATABASE" tokens have already been consumed. *)
Definition parseCreateDatabaseStatement : M string := parseIdent.

(** [parseDropDatabaseStatement]: this function assumes the DROP DATABASE
    tokens have already been consumed. *)
Definition parseDropDatabaseStatement : M string := parseIdent.

(** [parseDropRetentionPolicyStatement]: this function assumes the DROP
    RETENTION POLICY tokens have been consumed. *)
Definition parseDropRetentionPolicyStatement : M DropRetentionPolicyStatement :=
  name <- parseIdent ;;
  '(tok, pos, lit) <- scanIgnoreWhitespace ;;
  if negb (Token_eqb tok ON)
  then fail (newParseError (tokstr tok lit) ["ON"] pos)
  else
    database <- parseIdent ;;
    ret {| DRP_Name := name; DRP_Database := database |}.

(** [parseCreateUserStatement]: this function assumes the "CREATE USER"
    tokens have already been consumed. *)
Definition parseCreateUserStatement : M CreateUserStatement :=
  name <- parseIdent ;;
  parseTokens [WITH; PASSWORD] ;;
  password <- parseString ;;
  '(tok, _, _) <- scanIgnoreWhitespace ;;
  if negb (Token_eqb tok WITH)
  then unscan ;;
       ret {| CU_Name := name; CU_Password := password; CU_Privilege := None |}
  else
    parseTokens [ALL; PRIVILEGES] ;;
    ret {| CU_Name := name; CU_Password := password;
           CU_Privilege := Some AllPrivileges |}.

(** [parseDropUserStatement]: this function assumes the DROP USER tokens
    have already been consumed. *)
Definition parseDropUserStatement : M string := parseIdent.

(** [parseRetentionPolicy] parses a string and returns a retention policy
    name.  This function assumes the "WITH" token has already been
    consumed. *)
Definition parseRetentionPolicy : M (string * bool) :=
  '(tok, pos, lit) <- scanIgnoreWhitespace ;;
  '(dfault, tok, pos, lit) <-
    (if Token_eqb tok DEFAULT
     then '(tok, pos, lit) <- scanIgnoreWhitespace ;; ret (true, tok, pos, lit)
     else ret (false, tok, pos, lit)) ;;
  if negb (Token_eqb tok RETENTION)
  then fail (newParseError (tokstr tok lit) ["RETENTION"] pos)
  else
    '(tok, pos, lit) <- scanIgnoreWhitespace ;;
    if negb (Token_eqb tok POLICY)
    then fail (newParseError (tokstr tok lit) ["POLICY"] pos)
    else name <- parseIdent ;; ret (name, dfault).

(** [parseDropContinuousQueryStatement]: this function assumes the "DROP
    CONTINUOUS" tokens have already been consumed. *)
Definition parseDropContinuousQueryStatement : M string :=
  '(tok, pos, lit) <- scanIgnoreWhitespace ;;
  if negb (Token_eqb tok QUERY)
  then fail (newParseError (tokstr tok lit) ["QUERY"] pos)
  else parseIdent.

(** [parseShowStatement] parses a string and returns a list statement.
    This function assumes the SHOW token has already been consumed. *)
Definition parseShowStatement : M Statement :=
  '(tok, pos, lit) <- scanIgnoreWhitespace ;;
  if Token_eqb tok CONTINUOUS then
    parseShowContinuousQueriesStatement ;; ret StmtShowContinuousQueries
  else if Token_eqb tok DATABASES then ret StmtShowDatabases
  else if Token_eqb tok FIELD then
    '(tok, pos, lit) <- scanIgnoreWhitespace ;;
    if Token_eqb tok KEYS
    then s <- parseShowFieldKeysStatement ;; ret (StmtShowFieldKeys s)
    else fail (newParseError (tokstr tok lit) ["KEYS"; "VALUES"] pos)
  else if Token_eqb tok MEASUREMENTS then
    s <- parseShowMeasurementsStatement ;; ret (StmtShowMeasurements s)
  else if Token_eqb tok RETENTION then
    '(tok, pos, lit) <- scanIgnoreWhitespace ;;
    if Token_eqb tok POLICIES
    then db <- parseShowRetentionPoliciesStatement ;;
         ret (StmtShowRetentionPolicies db)
    else fail (newParseError (tokstr tok lit) ["POLICIES"] pos)
  else if Token_eqb tok SERIES then
    s <- parseShowSeriesStatement ;; ret (StmtShowSeries s)
  else if Token_eqb tok TAG then
    '(tok, pos, lit) <- scanIgnoreWhitespace ;;
    if Token_eqb tok KEYS
    then s <- parseShowTagKeysStatement ;; ret (StmtShowTagKeys s)
    else if Token_eqb tok VALUES
    then s <- parseShowTagValuesStatement ;; ret (StmtShowTagValues s)
    else fail (newParseError (tokstr tok lit) ["KEYS"; "VALUES"] pos)
  else if Token_eqb tok USERS then ret StmtShowUsers
  else fail (newParseError (tokstr tok lit)
               ["CONTINUOUS"; "DATABASES"; "FIELD"; "MEASUREMENTS";
                "RETENTION"; "SERIES"; "TAG"; "USERS"] pos).

(** [parseCreateStatement] parses a string and returns a create statement.
    This function assumes the CREATE token has already been consumed. *)
Definition parseCreateStatement : M Statement :=
  '(tok, pos, lit) <- scanIgnoreWhitespace ;;
  if Token_eqb tok CONTINUOUS then
    s <- parseCreateContinuousQueryStatement ;; ret (StmtCreateContinuousQuery s)
  else if Token_eqb tok DATABASE then
    name <- parseCreateDatabaseStatement ;; ret (StmtCreateDatabase name)
  else if Token_eqb tok USER then
    s <- parseCreateUserStatement ;; ret (StmtCreateUser s)
  else if Token_eqb tok RETENTION then
    '(tok, pos, lit) <- scanIgnoreWhitespace ;;
    if negb (Token_eqb tok POLICY)
    then fail (newParseError (tokstr tok lit) ["POLICY"] pos)
    else s <- parseCreateRetentionPolicyStatement ;;
         ret (StmtCreateRetentionPolicy s)
  else fail (newParseError (tokstr tok lit)
               ["CONTINUOUS"; "DATABASE"; "USER"; "RETENTION"] pos).

(** [parseDropStatement] parses a string and returns a drop statement.
    This function assumes the DROP token has already been consumed. *)
Definition parseDropStatement : M Statement :=
  '(tok, pos, lit) <- scanIgnoreWhitespace ;;
  if Token_eqb tok SERIES then
    s <- parseDropSeriesStatement ;; ret (StmtDropSeries s)
  else if Token_eqb tok MEASUREMENT then
    name <- parseDropMeasurementStatement ;; ret (StmtDropMeasurement name)
  else if Token_eqb tok CONTINUOUS then
    name <- parseDropContinuousQueryStatement ;;
    ret (StmtDropContinuousQuery name)
  else if Token_eqb tok DATABASE then
    name <- parseDropDatabaseStatement ;; ret (StmtDropDatabase name)
  else if Token_eqb tok RETENTION then
    '(tok, pos, lit) <- scanIgnoreWhitespace ;;
    if negb (Token_eqb tok POLICY)
    then fail (newParseError (tokstr tok lit) ["POLICY"] pos)
    else s <- parseDropRetentionPolicyStatement ;;
         ret (StmtDropRetentionPolicy s)
  else if Token_eqb tok USER then
    name <- parseDropUserStatement ;; ret (StmtDropUser name)
  else fail (newParseError (tokstr tok lit)
               ["SERIES"; "CONTINUOUS"; "MEASUREMENT"] pos).

(** [parseAlterStatement] parses a string and returns an alter statement.
    This function assumes the ALTER token has already been consumed. *)
Definition parseAlterStatement : M Statement :=
  '(tok, pos, lit) <- scanIgnoreWhitespace ;;
  if Token_eqb tok RETENTION then
    '(tok, pos, lit) <- scanIgnoreWhitespace ;;
    if negb (Token_eqb tok POLICY)
    then fail (newParseError (tokstr tok lit) ["POLICY"] pos)
    else s <- parseAlterRetentionPolicyStatement ;;
         ret (StmtAlterRetentionPolicy s)
  else fail (newParseError (tokstr tok lit) ["RETENTION"] pos).

(** [ParseStatement] parses an InfluxQL string and returns a Statement AST
    object. *)
Definition ParseStatement : M Statement :=
  '(tok, pos, lit) <- scanIgnoreWhitespace ;;
  if Token_eqb tok SELECT then
    s <- parseSelectStatement targetNotRequired ;; ret (StmtSelect s)
  else if Token_eqb tok DELETE then
    s <- parseDeleteStatement ;; ret (StmtDelete s)
  else if Token_eqb tok SHOW then parseShowStatement
  else if Token_eqb tok CREATE then parseCreateStatement
  else if Token_eqb tok DROP then parseDropStatement
  else if Token_eqb tok GRANT then
    s <- parseGrantStatement ;; ret (StmtGrant s)
  else if Token_eqb tok REVOKE then
    s <- parseRevokeStatement ;; ret (StmtRevoke s)
  else if Token_eqb tok ALTER then parseAlterStatement
  else fail (newParseError (tokstr tok lit) ["SELECT"] pos).

(** The statement loop of [ParseQuery]: "parse statements until EOF". *)
Definition parseStatements (fuel : nat) : M (list Statement) :=
  forLoop fuel (fun statements =>
    s <- ParseStatement ;;
    '(tok, pos, lit) <- scanIgnoreWhitespace ;;
    if negb (Token_eqb tok SEMICOLON) && negb (Token_eqb tok EOF)
    then fail (newParseError (tokstr tok lit) [";"; "EOF"] pos)
    else if Token_eqb tok EOF
    then ret (inr (statements ++ [s]))
    else ret (inl (statements ++ [s])))
  [].

(** [ParseQuery] parses an InfluxQL string and returns a Query AST
    object. *)
Definition ParseQuery : M Query :=
  '(tok, _, _) <- scanIgnoreWhitespace ;;
  if Token_eqb tok EOF then ret {| Statements := [] |}
  else
    unscan ;;
    statements <- withFuel parseStatements ;;
    ret {| Statements := statements |}.

End Parser.

(** ** Entry points *)

(** [NewParser] returns a new instance of Parser, reading from a scanner. *)
Definition NewParser (sc : Scanner) : bufScanner := newBufScanner sc.

(** What a caller receives: a value, or an error ("callers receive
    (value, null) or (null, error)"). *)
Inductive Outcome (A : Type) : Type :=
  | Parsed (a : A)
  | Rejected (e : ParseError)
  | Unfinished.
Arguments Parsed {A} a.
Arguments Rejected {A} e.
Arguments Unfinished {A}.

Definition outcome {A} (r : Res A) : Outcome A :=
  match r with
  | Ok a _ => Parsed a
  | Err e => Rejected e
  | OutOfFuel => Unfinished
  end.

(** The scanner's output for an input: the triples [ts], then EOF at
    [endPos]. *)
Definition scannerOf (ts : list Lexeme) (endPos : Pos) : Scanner :=
  {| pending := ts; eofPos := endPos |}.

(** The package-level [ParseQuery] and [ParseExpr], on the scanner's view of
    the input string. *)
Definition ParseQueryTokens `{GoLibrary} (ts : list Lexeme) (endPos : Pos)
  : Outcome Query :=
  outcome (ParseQuery (NewParser (scannerOf ts endPos))).

Definition ParseExprTokens `{GoLibrary} (ts : list Lexeme) (endPos : Pos)
  : Outcome Expr :=
  outcome (ParseExpr (NewParser (scannerOf ts endPos))).

(** * Properties

    ** Machine integers, bytes and decimal numerals *)

Lemma wrap64_id (z : Z) : in_int64 z -> wrap64 z = z.
Proof.
  unfold in_int64, minInt64, maxInt64, wrap64; intros H.
  rewrite Z.mod_small; lia.
Qed.

Lemma byteZ_range (c : ascii) : 0 <= byteZ c < 256.
Proof.
  unfold byteZ. pose proof (N_ascii_bounded c). lia.
Qed.

Lemma byteZ_zbyte (z : Z) : 0 <= z < 256 -> byteZ (zbyte z) = z.
Proof.
  intros H. unfold byteZ, zbyte.
  rewrite N_ascii_embedding by lia. lia.
Qed.

Lemma zbyte_byteZ (c : ascii) : zbyte (byteZ c) = c.
Proof.
  unfold byteZ, zbyte. rewrite N2Z.id. apply ascii_N_embedding.
Qed.

Lemma byteZ_inj (a b : ascii) : byteZ a = byteZ b -> a = b.
Proof.
  intros H. rewrite <- (zbyte_byteZ a), <- (zbyte_byteZ b). now rewrite H.
Qed.

Lemma len_append (s t : string) : len (s ++ t)%string = len s + len t.
Proof.
  unfold len. induction s as [|c s IH]; cbn [String.append String.length].
  - lia.
  - rewrite !Nat2Z.inj_succ. lia.
Qed.

Lemma append_assoc (s t u : string) :
  ((s ++ t) ++ u)%string = (s ++ (t ++ u))%string.
Proof. induction s as [|c s IH]; cbn [String.append]; congruence. Qed.

Lemma append_nil_r (s : string) : (s ++ "")%string = s.
Proof. induction s as [|c s IH]; cbn [String.append]; congruence. Qed.

Lemma len_nonneg (s : string) : 0 <= len s.
Proof. unfold len. lia. Qed.

Lemma digitChar_byte (d : Z) : 0 <= d < 10 -> byteZ (digitChar d) = 48 + d.
Proof. intros H. unfold digitChar. apply byteZ_zbyte. lia. Qed.

Lemma digitChar_isDigit (d : Z) : 0 <= d < 10 -> isDigitByte (digitChar d) = true.
Proof.
  intros H. unfold isDigitByte. rewrite digitChar_byte by exact H.
  apply andb_true_intro; split; apply Z.leb_le; lia.
Qed.

Lemma isDigitByte_range (c : ascii) :
  isDigitByte c = true -> 0 <= byteZ c - 48 < 10.
Proof.
  unfold isDigitByte. intros H. apply andb_prop in H as [H1 H2].
  apply Z.leb_le in H1, H2. lia.
Qed.

Lemma allDigits_app (s t : string) :
  allDigits (s ++ t)%string = allDigits s && allDigits t.
Proof.
  induction s as [|c s IH]; cbn [String.append allDigits].
  - reflexivity.
  - rewrite IH. now rewrite andb_assoc.
Qed.

Lemma digitsValue_app (s t : string) (a : Z) :
  digitsValue a (s ++ t)%string = digitsValue (digitsValue a s) t.
Proof.
  revert a. induction s as [|c s IH]; intros a; cbn [String.append digitsValue].
  - reflexivity.
  - apply IH.
Qed.

Lemma digitsValue_ge (s : string) (a : Z) :
  allDigits s = true -> 0 <= a -> a <= digitsValue a s.
Proof.
  revert a. induction s as [|c s IH]; intros a Hd Ha; cbn [digitsValue].
  - lia.
  - cbn [allDigits] in Hd. apply andb_prop in Hd as [Hc Hs].
    apply isDigitByte_range in Hc.
    specialize (IH (a * 10 + (byteZ c - 48)) Hs). lia.
Qed.

(** The digit loop of [formatBits] writes the decimal numeral of [u] in
    front of [acc]. *)
Lemma formatBits_spec (fuel : nat) :
  forall (u : Z) (acc : string),
    0 <= u < 10 ^ Z.of_nat fuel -> (0 < fuel)%nat ->
    exists ds : string,
      formatBits fuel u acc = (ds ++ acc)%string /\ allDigits ds = true /\
      0 < len ds /\ forall a : Z, digitsValue a ds = a * 10 ^ len ds + u.
Proof.
  induction fuel as [|f IH]; intros u acc Hu Hf; [lia|].
  cbn [formatBits]. destruct (u <? 10) eqn:E.
  - apply Z.ltb_lt in E.
    exists (String (digitChar u) EmptyString). repeat split.
    + cbn [allDigits]. rewrite digitChar_isDigit by lia. reflexivity.
    + intros a. cbn [digitsValue]. rewrite digitChar_byte by lia.
      change (len (String (digitChar u) "")) with 1. lia.
  - apply Z.ltb_ge in E.
    assert (Hf' : (0 < f)%nat).
    { destruct f; [|lia]. cbn in Hu. lia. }
    assert (Hq : 0 <= u / 10 < 10 ^ Z.of_nat f).
    { rewrite Nat2Z.inj_succ, Z.pow_succ_r in Hu by lia.
      split; [apply Z.div_pos; lia|]. apply Z.div_lt_upper_bound; lia. }
    destruct (IH (u / 10) (String (digitChar (u mod 10)) acc) Hq Hf')
      as (ds & E1 & E2 & E3 & E4).
    pose proof (Z.mod_pos_bound u 10 ltac:(lia)) as Hm.
    exists (ds ++ String (digitChar (u mod 10)) EmptyString)%string. repeat split.
    + rewrite E1. rewrite append_assoc. reflexivity.
    + rewrite allDigits_app, E2. cbn [allDigits].
      rewrite digitChar_isDigit by lia. reflexivity.
    + rewrite len_append. change (len (String (digitChar (u mod 10)) "")) with 1. lia.
    + intros a. rewrite digitsValue_app, E4. cbn [digitsValue].
      rewrite digitChar_byte by lia. rewrite len_append.
      change (len (String (digitChar (u mod 10)) "")) with 1.
      rewrite Z.pow_add_r by lia.
      pose proof (Z.div_mod u 10 ltac:(lia)). lia.
Qed.

Lemma FormatUint_spec (u : Z) :
  0 <= u < 2 ^ 64 ->
  allDigits (FormatUint u) = true /\ 0 < len (FormatUint u) /\
  digitsValue 0 (FormatUint u) = u.
Proof.
  intros Hu. unfold FormatUint.
  assert (Hb : 0 <= u < 10 ^ Z.of_nat 20).
  { change (10 ^ Z.of_nat 20) with 100000000000000000000.
    change (2 ^ 64) with 18446744073709551616 in Hu. lia. }
  destruct (formatBits_spec 20 u "" Hb ltac:(lia))
    as (ds & E1 & E2 & E3 & E4).
  rewrite E1. 
  rewrite append_nil_r.
  split; [exact E2 | split; [exact E3 | rewrite E4; lia]].
Qed.

(** On a digit string the loop of [ParseUint] returns the value of the
    numeral, or [maxVal] and a range error when the value exceeds it. *)
Lemma parseUintLoop_digits (maxVal : Z) (s : string) :
  forall n : Z,
    allDigits s = true -> 0 <= n <= maxVal -> maxVal <= maxUint64 ->
    parseUintLoop maxVal n s =
    if digitsValue n s <=? maxVal then (digitsValue n s, None)
    else (maxVal, Some ErrRange).
Proof.
  unfold maxUint64.
  induction s as [|c s IH]; intros n Hd Hn Hm; cbn [parseUintLoop digitsValue].
  - destruct (n <=? maxVal) eqn:E; [reflexivity|]. apply Z.leb_gt in E. lia.
  - cbn [allDigits] in Hd. apply andb_prop in Hd as [Hc Hs].
    rewrite Hc. cbn [negb]. apply isDigitByte_range in Hc.
    set (d := byteZ c - 48) in *.
    pose proof (digitsValue_ge s (n * 10 + d) Hs ltac:(lia)) as Hge.
    change (maxUint64 / 10 + 1) with 1844674407370955162.
    destruct (1844674407370955162 <=? n) eqn:E1.
    + apply Z.leb_le in E1.
      destruct (digitsValue (n * 10 + d) s <=? maxVal) eqn:E2; [|reflexivity].
      apply Z.leb_le in E2. lia.
    + apply Z.leb_gt in E1.
      destruct (Z_lt_dec (n * 10 + d) (2 ^ 64)) as [Hlt|Hge64].
      * rewrite (Z.mod_small (n * 10 + d)) by lia.
        assert ((n * 10 + d <? n * 10) = false) as -> by (apply Z.ltb_ge; lia).
        cbn [orb]. destruct (maxVal <? n * 10 + d) eqn:E3.
        -- apply Z.ltb_lt in E3.
           destruct (digitsValue (n * 10 + d) s <=? maxVal) eqn:E2; [|reflexivity].
           apply Z.leb_le in E2. lia.
        -- apply Z.ltb_ge in E3. apply IH; auto. lia.
      * assert (Hw : (n * 10 + d) mod 2 ^ 64 = n * 10 + d - 2 ^ 64).
        { symmetry. apply Z.mod_unique with (q := 1); lia. }
        rewrite Hw.
        assert ((n * 10 + d - 2 ^ 64 <? n * 10) = true) as -> by (apply Z.ltb_lt; lia).
        cbn [orb].
        destruct (digitsValue (n * 10 + d) s <=? maxVal) eqn:E2; [|reflexivity].
        apply Z.leb_le in E2. lia.
Qed.

Lemma ParseUint_digits (s : string) (bitSize : Z) :
  allDigits s = true -> 0 < len s -> 0 <= bitSize <= 64 ->
  ParseUint s bitSize =
  if digitsValue 0 s <=? 2 ^ bitSize - 1 then (digitsValue 0 s, None)
  else (2 ^ bitSize - 1, Some ErrRange).
Proof.
  intros Hd Hl Hb. unfold ParseUint.
  destruct s as [|c s]; [cbn in Hl; lia|].
  apply parseUintLoop_digits; auto.
  - pose proof (Z.pow_pos_nonneg 2 bitSize ltac:(lia) ltac:(lia)). lia.
  - unfold maxUint64.
    pose proof (Z.pow_le_mono_r 2 bitSize 64 ltac:(lia) ltac:(lia)). lia.
Qed.

Lemma digit_not_sign (c : ascii) :
  isDigitByte c = true -> Ascii.eqb c "+" = false /\ Ascii.eqb c "-" = false.
Proof.
  intros H. apply isDigitByte_range in H.
  split; apply Ascii.eqb_neq; intros ->; cbn in H; lia.
Qed.

(** [ParseInt] on a digit string: the value, clamped to the largest
    [int64] with a range error when it does not fit. *)
Lemma ParseInt_digits (s : string) :
  allDigits s = true -> 0 < len s ->
  ParseInt s 64 =
  if digitsValue 0 s <=? maxInt64 then (digitsValue 0 s, None)
  else (maxInt64, Some ErrRange).
Proof.
  intros Hd Hl. unfold ParseInt.
  destruct s as [|c s]; [cbn in Hl; lia|].
  pose proof Hd as Hd'. cbn [allDigits] in Hd'. apply andb_prop in Hd' as [Hc _].
  destruct (digit_not_sign c Hc) as [-> ->]. cbn [orb negb andb].
  rewrite (ParseUint_digits (String c s) 64 Hd Hl ltac:(lia)).
  pose proof (digitsValue_ge (String c s) 0 Hd ltac:(lia)) as Hge.
  unfold maxInt64. change (2 ^ (64 - 1)) with (2 ^ 63).
  set (v := digitsValue 0 (String c s)) in *.
  destruct (Z.leb_spec v (2 ^ 64 - 1)) as [E1|E1]; cbv beta iota.
  - destruct (Z.leb_spec (2 ^ 63) v), (Z.leb_spec v (2 ^ 63 - 1));
      try lia; reflexivity.
  - change (2 ^ 63 <=? 2 ^ 64 - 1) with true. cbv beta iota.
    destruct (Z.leb_spec v (2 ^ 63 - 1)); try lia; reflexivity.
Qed.

Lemma FormatInt_nonneg (n : Z) : 0 <= n -> FormatInt n = FormatUint n.
Proof.
  intros H. unfold FormatInt.
  destruct (n <? 0) eqn:E; [apply Z.ltb_lt in E; lia | reflexivity].
Qed.

(** Printing a non-negative [int64] and reading it back. *)
Lemma ParseInt_FormatInt (n : Z) :
  0 <= n <= maxInt64 -> ParseInt (FormatInt n) 64 = (n, None).
Proof.
  intros H. rewrite FormatInt_nonneg by lia.
  destruct (FormatUint_spec n) as (H1 & H2 & H3).
  { unfold maxInt64 in H. lia. }
  rewrite ParseInt_digits by assumption. rewrite H3.
  destruct (n <=? maxInt64) eqn:E; [reflexivity|]. apply Z.leb_gt in E. lia.
Qed.
(** ** Durations: formatting and parsing *)

Fixpoint asciiOnly (s : string) : bool :=
  match s with
  | EmptyString => true
  | String c t => (byteZ c <? 128) && asciiOnly t
  end.

Lemma asciiOnly_app (s t : string) :
  asciiOnly (s ++ t)%string = asciiOnly s && asciiOnly t.
Proof.
  induction s as [|c s IH]; cbn [String.append asciiOnly].
  - reflexivity.
  - rewrite IH. now rewrite andb_assoc.
Qed.

Lemma allDigits_asciiOnly (s : string) : allDigits s = true -> asciiOnly s = true.
Proof.
  induction s as [|c s IH]; cbn [allDigits asciiOnly]; intros H; [reflexivity|].
  apply andb_prop in H as [Hc Hs]. apply isDigitByte_range in Hc.
  rewrite IH by exact Hs.
  assert ((byteZ c <? 128) = true) as -> by (apply Z.ltb_lt; lia). reflexivity.
Qed.

(** On an ASCII string the runes are the bytes. *)
Lemma decode_ascii (s : string) :
  asciiOnly s = true ->
  Utf8.decode s = map byteZ (list_ascii_of_string s).
Proof.
  induction s as [|c s IH]; intros H; [reflexivity|].
  cbn [asciiOnly] in H. apply andb_prop in H as [Hc Hs].
  cbn [Utf8.decode list_ascii_of_string map]. rewrite Hc.
  now rewrite IH.
Qed.

Lemma encode_ascii (l : list ascii) :
  forallb (fun c => byteZ c <? 128) l = true ->
  Utf8.encode (map byteZ l) = string_of_list_ascii l.
Proof.
  induction l as [|c l IH]; intros H; [reflexivity|].
  cbn [forallb] in H. apply andb_prop in H as [Hc Hl].
  cbn [map Utf8.encode string_of_list_ascii]. rewrite IH by exact Hl.
  unfold Utf8.encodeRune. pose proof (byteZ_range c) as Hr.
  apply Z.ltb_lt in Hc.
  assert ((byteZ c <? 0) = false) as -> by (apply Z.ltb_ge; lia).
  assert ((1114111 <? byteZ c) = false) as -> by (apply Z.ltb_ge; lia).
  unfold Utf8.between.
  assert ((55296 <=? byteZ c) = false) as -> by (apply Z.leb_gt; lia).
  cbn [orb andb].
  assert ((byteZ c <? 128) = true) as -> by (apply Z.ltb_lt; lia).
  rewrite zbyte_byteZ. reflexivity.
Qed.

Lemma asciiOnly_forallb (s : string) :
  asciiOnly s = forallb (fun c => byteZ c <? 128) (list_ascii_of_string s).
Proof.
  induction s as [|c s IH]; [reflexivity|].
  cbn [asciiOnly list_ascii_of_string forallb]. now rewrite IH.
Qed.

Lemma list_ascii_app (s t : string) :
  list_ascii_of_string (s ++ t)%string =
  list_ascii_of_string s ++ list_ascii_of_string t.
Proof.
  induction s as [|c s IH]; cbn [String.append list_ascii_of_string app];
    congruence.
Qed.

Lemma list_ascii_length (s : string) :
  List.length (list_ascii_of_string s) = String.length s.
Proof. induction s as [|c s IH]; cbn; congruence. Qed.

Lemma string_length_app (s t : string) :
  String.length (s ++ t)%string = (String.length s + String.length t)%nat.
Proof. induction s as [|c s IH]; cbn; congruence. Qed.

Lemma substring_skip (s t : string) (n : nat) :
  String.substring (String.length s) n (s ++ t)%string = String.substring 0 n t.
Proof. induction s as [|c s IH]; cbn [String.length String.append String.substring]; auto. Qed.

Lemma lastTwoBytes_app (s : string) (a b : ascii) :
  lastTwoBytes (s ++ String a (String b ""))%string = String a (String b "").
Proof.
  unfold lastTwoBytes. rewrite string_length_app. cbn [String.length].
  replace (String.length s + 2 - 2)%nat with (String.length s) by lia.
  rewrite substring_skip. reflexivity.
Qed.

(** A non-empty digit string ends in a digit. *)
Lemma allDigits_last (s : string) :
  allDigits s = true -> 0 < len s ->
  exists (s' : string) (c : ascii),
    s = (s' ++ String c "")%string /\ isDigitByte c = true.
Proof.
  induction s as [|c s IH]; intros Hd Hl; [cbn in Hl; lia|].
  cbn [allDigits] in Hd. apply andb_prop in Hd as [Hc Hs].
  destruct s as [|c' s'].
  - exists EmptyString, c. split; [reflexivity | exact Hc].
  - destruct (IH Hs) as (t & d & E & Hd'); [unfold len; cbn; lia|].
    exists (String c t), d. split; [cbn [String.append]; now rewrite <- E | exact Hd'].
Qed.

(** The numeric prefix and the unit that [ParseDuration] isolates in a
    digit string followed by a one-letter unit. *)
Lemma ParseDuration_unit (ds : string) (u : ascii) :
  allDigits ds = true -> 0 < len ds ->
  (byteZ u <? 128) = true -> isDigit (byteZ u) = false ->
  ParseDuration (ds ++ String u "")%string =
  match ParseInt ds 64 with
  | (n, None) =>
    let uom := String u "" in
    if String.eqb uom "u" || String.eqb uom micro
    then Some (mul64 n time.Microsecond)
    else if String.eqb uom "ms" then Some (mul64 n time.Millisecond)
    else if String.eqb uom "s" then Some (mul64 n time.Second)
    else if String.eqb uom "m" then Some (mul64 n time.Minute)
    else if String.eqb uom "h" then Some (mul64 n time.Hour)
    else if String.eqb uom "d" then Some (mul64 (mul64 n 24) time.Hour)
    else if String.eqb uom "w" then Some (mul64 (mul64 (mul64 n 7) 24) time.Hour)
    else None
  | _ => None
  end.
Proof.
  intros Hd Hl Hu Hnd.
  destruct (allDigits_last ds Hd Hl) as (ds' & dl & E & Hdl).
  unfold ParseDuration.
  rewrite len_append. change (len (String u "")) with 1.
  assert ((len ds + 1 =? 0) = false) as -> by (apply Z.eqb_neq; lia).
  assert ((len ds + 1 =? 1) = false) as -> by (apply Z.eqb_neq; lia).
  assert (Ha : asciiOnly (ds ++ String u "")%string = true).
  { rewrite asciiOnly_app, allDigits_asciiOnly by exact Hd.
    cbn [asciiOnly]. rewrite Hu. reflexivity. }
  unfold split. rewrite decode_ascii by exact Ha.
  rewrite list_ascii_app, map_app, length_app, length_map, list_ascii_length.
  cbn [list_ascii_of_string map List.length].
  replace (String.length ds + 1 - 1)%nat with (String.length ds) by lia.
  rewrite app_nth2; rewrite length_map, list_ascii_length; [|lia].
  rewrite Nat.sub_diag. cbn [nth]. rewrite Hnd.
  assert (Hms : String.eqb (lastTwoBytes (ds ++ String u "")) "ms" = false).
  { rewrite E, append_assoc. cbn [String.append]. rewrite lastTwoBytes_app.
    cbn [String.eqb]. destruct (Ascii.eqb dl "m") eqn:Em; [|reflexivity].
    apply Ascii.eqb_eq in Em. subst dl. cbn in Hdl. discriminate. }
  rewrite Hms, andb_false_r.
  rewrite firstn_app, length_map, list_ascii_length, Nat.sub_diag.
  rewrite firstn_all2 by (rewrite length_map, list_ascii_length; lia).
  cbn [firstn]. rewrite app_nil_r.
  rewrite skipn_app, length_map, list_ascii_length, Nat.sub_diag.
  rewrite skipn_all2 by (rewrite length_map, list_ascii_length; lia).
  cbn [skipn app].
  rewrite encode_ascii
    by (rewrite <- asciiOnly_forallb; now apply allDigits_asciiOnly).
  rewrite string_of_list_ascii_of_string.
  change [byteZ u] with (map byteZ [u]).
  rewrite encode_ascii by (cbn [forallb]; now rewrite Hu).
  cbn [string_of_list_ascii]. reflexivity.
Qed.

(** The same for the two-letter unit [ms]. *)
Lemma ParseDuration_ms (ds : string) :
  allDigits ds = true -> 0 < len ds ->
  ParseDuration (ds ++ "ms")%string =
  match ParseInt ds 64 with
  | (n, None) => Some (mul64 n time.Millisecond)
  | _ => None
  end.
Proof.
  intros Hd Hl. unfold ParseDuration.
  rewrite len_append. change (len "ms") with 2.
  assert ((len ds + 2 =? 0) = false) as -> by (apply Z.eqb_neq; lia).
  assert ((len ds + 2 =? 1) = false) as -> by (apply Z.eqb_neq; lia).
  assert (Ha : asciiOnly (ds ++ "ms")%string = true).
  { rewrite asciiOnly_app, allDigits_asciiOnly by exact Hd. reflexivity. }
  unfold split. rewrite decode_ascii by exact Ha.
  rewrite list_ascii_app, map_app, length_app, length_map, list_ascii_length.
  cbn [list_ascii_of_string map List.length].
  rewrite app_nth2; rewrite length_map, list_ascii_length; [|lia].
  replace (String.length ds + 2 - 1 - String.length ds)%nat with 1%nat by lia.
  cbn [nth].
  change (isDigit (byteZ "s")) with false. cbv beta iota.
  assert ((2 <? len ds + 2) = true) as -> by (apply Z.ltb_lt; lia).
  rewrite lastTwoBytes_app. cbn [andb].
  change (String.eqb "ms" "ms") with true. cbv beta iota.
  replace (String.length ds + 2 - 2)%nat with (String.length ds) by lia.
  rewrite firstn_app, length_map, list_ascii_length, Nat.sub_diag.
  rewrite firstn_all2 by (rewrite length_map, list_ascii_length; lia).
  cbn [firstn]. rewrite app_nil_r.
  rewrite encode_ascii
    by (rewrite <- asciiOnly_forallb; now apply allDigits_asciiOnly).
  rewrite string_of_list_ascii_of_string.
  destruct (ParseInt ds 64) as [n [e|]]; reflexivity.
Qed.

(** A bare digit string counts microseconds. *)
Lemma ParseDuration_digits (ds : string) :
  allDigits ds = true -> 0 < len ds ->
  ParseDuration ds =
  match ParseInt ds 64 with
  | (n, None) => Some (mul64 n time.Microsecond)
  | _ => None
  end.
Proof.
  intros Hd Hl. unfold ParseDuration.
  assert ((len ds =? 0) = false) as -> by (apply Z.eqb_neq; lia).
  destruct (len ds =? 1) eqn:E1; [reflexivity|].
  apply Z.eqb_neq in E1.
  destruct (allDigits_last ds Hd Hl) as (ds' & dl & E & Hdl).
  unfold split. rewrite decode_ascii by (now apply allDigits_asciiOnly).
  rewrite length_map, list_ascii_length.
  assert (Hlast : nth (String.length ds - 1) (map byteZ (list_ascii_of_string ds)) 0
                  = byteZ dl).
  { rewrite E, list_ascii_app, map_app, string_length_app.
    cbn [String.length list_ascii_of_string map].
    rewrite app_nth2; rewrite length_map, list_ascii_length; [|lia].
    replace (String.length ds' + 1 - 1 - String.length ds')%nat with 0%nat by lia.
    reflexivity. }
  rewrite Hlast.
  assert (isDigit (byteZ dl) = true) as -> by exact Hdl.
  destruct (ParseInt ds 64) as [n [e|]]; reflexivity.
Qed.

Lemma quot64_exact (d u : Z) :
  0 <= d <= maxInt64 -> 0 < u -> rem64 d u = 0 ->
  quot64 d u = d / u /\ d = u * (d / u) /\ 0 <= d / u <= maxInt64.
Proof.
  intros Hd Hu Hr. unfold rem64, quot64 in *.
  rewrite Z.rem_mod_nonneg in Hr by lia.
  rewrite Z.quot_div_nonneg by lia.
  pose proof (Z.div_mod d u ltac:(lia)) as Hdm.
  assert (Hq : 0 <= d / u <= maxInt64).
  { split; [apply Z.div_pos; lia|].
    apply Z.le_trans with d; [|lia].
    apply Z.div_le_upper_bound; [lia|]. nia. }
  split; [|split]; [|lia|exact Hq].
  apply wrap64_id. unfold in_int64, minInt64, maxInt64 in *. lia.
Qed.

Lemma FormatInt_digits (q : Z) :
  0 <= q <= maxInt64 ->
  allDigits (FormatInt q) = true /\ 0 < len (FormatInt q).
Proof.
  intros H. rewrite FormatInt_nonneg by lia.
  destruct (FormatUint_spec q) as (H1 & H2 & _);
    [unfold maxInt64 in H; lia | auto].
Qed.

Ltac duration_unit d U :=
  let Hq := fresh "Hq" in
  let E1 := fresh "E" in let E2 := fresh "E" in let E3 := fresh "E" in
  let D1 := fresh "D" in let D2 := fresh "D" in
  match goal with
  | H : (rem64 d U =? 0) = true |- _ =>
    apply Z.eqb_eq in H;
    destruct (quot64_exact d U ltac:(assumption) ltac:(reflexivity) H)
      as (E1 & E2 & E3);
    destruct (FormatInt_digits (d / U) E3) as (D1 & D2);
    rewrite E1
  end.

(** C4 (as amended).  For every non-negative duration that is a whole
    number of microseconds, parsing the formatted duration succeeds and
    returns the duration itself. *)
Theorem ParseDuration_FormatDuration (d : Z) :
  0 <= d <= maxInt64 -> d mod time.Microsecond = 0 ->
  ParseDuration (FormatDuration d) = Some d.
Proof.
  intros Hd Hmicro. unfold FormatDuration.
  destruct (d =? 0) eqn:E0.
  { apply Z.eqb_eq in E0. subst d. reflexivity. }
  apply Z.eqb_neq in E0.
  assert (Hfin : forall q, 0 <= q <= maxInt64 -> forall k, 0 < k ->
                 k * q <= maxInt64 -> mul64 q k = k * q).
  { intros q Hq k Hk Hkq. unfold mul64. rewrite wrap64_id; [lia|].
    unfold in_int64, minInt64, maxInt64 in *. nia. }
  destruct (rem64 d (7 * 24 * time.Hour) =? 0) eqn:Ew.
  { duration_unit d (7 * 24 * time.Hour).
    rewrite ParseDuration_unit by (assumption || reflexivity).
    rewrite ParseInt_FormatInt by assumption. cbv beta iota zeta.
    change (String.eqb "w" "u" || String.eqb "w" micro) with false.
    cbn [String.eqb Ascii.eqb Bool.eqb]. cbv beta iota.
    set (q := d / (7 * 24 * time.Hour)) in *.
    change (7 * 24 * time.Hour) with 604800000000000 in *.
    change time.Hour with 3600000000000.
    rewrite (Hfin q) by lia. rewrite (Hfin (7 * q)) by lia.
    rewrite (Hfin (24 * (7 * q))) by lia. f_equal. lia. }
  destruct (rem64 d (24 * time.Hour) =? 0) eqn:Ed.
  { duration_unit d (24 * time.Hour).
    rewrite ParseDuration_unit by (assumption || reflexivity).
    rewrite ParseInt_FormatInt by assumption. cbv beta iota zeta.
    change (String.eqb "d" "u" || String.eqb "d" micro) with false.
    cbn [String.eqb Ascii.eqb Bool.eqb]. cbv beta iota.
    set (q := d / (24 * time.Hour)) in *.
    change (24 * time.Hour) with 86400000000000 in *.
    change time.Hour with 3600000000000.
    rewrite (Hfin q) by lia. rewrite (Hfin (24 * q)) by lia. f_equal. lia. }
  destruct (rem64 d time.Hour =? 0) eqn:Eh.
  { duration_unit d time.Hour.
    rewrite ParseDuration_unit by (assumption || reflexivity).
    rewrite ParseInt_FormatInt by assumption. cbv beta iota zeta.
    change (String.eqb "h" "u" || String.eqb "h" micro) with false.
    cbn [String.eqb Ascii.eqb Bool.eqb]. cbv beta iota.
    rewrite Hfin; [f_equal; lia | assumption | reflexivity | lia]. }
  destruct (rem64 d time.Minute =? 0) eqn:Em.
  { duration_unit d time.Minute.
    rewrite ParseDuration_unit by (assumption || reflexivity).
    rewrite ParseInt_FormatInt by assumption. cbv beta iota zeta.
    change (String.eqb "m" "u" || String.eqb "m" micro) with false.
    cbn [String.eqb Ascii.eqb Bool.eqb]. cbv beta iota.
    rewrite Hfin; [f_equal; lia | assumption | reflexivity | lia]. }
  destruct (rem64 d time.Second =? 0) eqn:Es.
  { duration_unit d time.Second.
    rewrite ParseDuration_unit by (assumption || reflexivity).
    rewrite ParseInt_FormatInt by assumption. cbv beta iota zeta.
    change (String.eqb "s" "u" || String.eqb "s" micro) with false.
    cbn [String.eqb Ascii.eqb Bool.eqb]. cbv beta iota.
    rewrite Hfin; [f_equal; lia | assumption | reflexivity | lia]. }
  destruct (rem64 d time.Millisecond =? 0) eqn:Ems.
  { duration_unit d time.Millisecond.
    rewrite ParseDuration_ms by assumption.
    rewrite ParseInt_FormatInt by assumption.
    rewrite Hfin; [f_equal; lia | assumption | reflexivity | lia]. }
  assert (Hr : (rem64 d time.Microsecond =? 0) = true).
  { apply Z.eqb_eq. unfold rem64. rewrite Z.rem_mod_nonneg; [exact Hmicro|lia|reflexivity]. }
  duration_unit d time.Microsecond.
  rewrite ParseDuration_digits by assumption.
  rewrite ParseInt_FormatInt by assumption.
  rewrite Hfin; [f_equal; lia | assumption | reflexivity | lia].
Qed.

Lemma ParseDuration_FormatDuration_witness :
  ParseDuration (FormatDuration 5400000000000) = Some 5400000000000.
Proof.
  apply (ParseDuration_FormatDuration 5400000000000); [unfold maxInt64; lia | reflexivity].
Defined.

(** C4, counterexample: one nanosecond is formatted as "0", which parses
    to the zero duration. *)
Lemma ParseDuration_FormatDuration_counterexample :
  0 <= 1 /\ FormatDuration 1 = "0" /\ ParseDuration (FormatDuration 1) = Some 0.
Proof. split; [lia | split; reflexivity]. Qed.

(** ** Tokens and the monad *)

Lemma Token_index_inj (a b : Token) : Token_index a = Token_index b -> a = b.
Proof.
  destruct a; destruct b; intros H; try reflexivity; discriminate H.
Qed.

Lemma Token_eqb_eq (a b : Token) : Token_eqb a b = true <-> a = b.
Proof.
  unfold Token_eqb. rewrite N.eqb_eq. split.
  - apply Token_index_inj.
  - now intros ->.
Qed.

Lemma Token_eqb_refl (a : Token) : Token_eqb a a = true.
Proof. now apply Token_eqb_eq. Qed.

Lemma Token_eqb_neq (a b : Token) : Token_eqb a b = false <-> a <> b.
Proof.
  split.
  - intros H E. apply Token_eqb_eq in E. congruence.
  - intros H. destruct (Token_eqb a b) eqn:E; [|reflexivity].
    apply Token_eqb_eq in E. contradiction.
Qed.

Lemma bind_Ok {A B} (m : M A) (k : A -> M B) (p q : bufScanner) (b : B) :
  bind m k p = Ok b q <-> exists a p', m p = Ok a p' /\ k a p' = Ok b q.
Proof.
  unfold bind. split.
  - destruct (m p) as [a p'| |]; intros H; [eauto | discriminate | discriminate].
  - intros (a & p' & -> & H). exact H.
Qed.

Lemma bind_step {A B} (m : M A) (k : A -> M B) (p p' : bufScanner) (a : A) :
  m p = Ok a p' -> bind m k p = k a p'.
Proof. unfold bind. now intros ->. Qed.

Ltac inv_bind H :=
  apply bind_Ok in H;
  let a := fresh "a" in let p := fresh "p" in let E := fresh "E" in
  destruct H as (a & p & E & H).

Tactic Notation "invb" hyp(H) "as" ident(a) ident(p) ident(E) :=
  apply bind_Ok in H; destruct H as (a & p & E & H).

Tactic Notation "invs" hyp(H) "as" ident(tok) ident(pos) ident(lit)
    ident(p) ident(E) :=
  apply bind_Ok in H; destruct H as ([[tok pos] lit] & p & E & H).

Ltac inv_ret H :=
  unfold ret in H; injection H as <- <-.

(** ** LIMIT and OFFSET *)

(** What [parseOptionalTokenAndInt t] has read when it answers [n] and
    leaves the parser in [q]: either the next token is not [t], it is
    pushed back and [n] is 0; or it is [t], a NUMBER without a dot follows
    and [n], its value, is at least 1. *)
Definition optionalClause (t : Token) (p : bufScanner) (n : Z) (q : bufScanner)
  : Prop :=
  exists tok pos lit p',
    scanIgnoreWhitespace p = Ok (tok, pos, lit) p' /\
    ((tok <> t /\ n = 0 /\ q = bufScanner_Unscan p') \/
     (tok = t /\ 1 <= n /\
      exists pos' lit',
        scanIgnoreWhitespace p' = Ok (NUMBER, pos', lit') q /\
        strings_Contains lit' "." = false /\ n = fst (ParseInt lit' 64))).

Lemma parseOptionalTokenAndInt_Ok (t : Token) (p q : bufScanner) (n : Z) :
  parseOptionalTokenAndInt t p = Ok n q -> optionalClause t p n q.
Proof.
  unfold parseOptionalTokenAndInt. intros H.
  inv_bind H. destruct a as [[tok pos] lit].
  exists tok, pos, lit, p0. split; [exact E|].
  destruct (Token_eqb tok t) eqn:Et; cbn [negb] in H.
  - apply Token_eqb_eq in Et. right.
    inv_bind H. destruct a as [[tok' pos'] lit'].
    destruct (Token_eqb tok' NUMBER) eqn:En; cbn [negb] in H; [|discriminate].
    apply Token_eqb_eq in En. subst tok'.
    destruct (strings_Contains lit' ".") eqn:Ec; [discriminate|].
    destruct (fst (ParseInt lit' 64) <? 1) eqn:E1; [discriminate|].
    apply Z.ltb_ge in E1. inv_ret H.
    split; [exact Et|]. split; [exact E1|]. exists pos', lit'. auto.
  - apply Token_eqb_neq in Et. left.
    inv_bind H. inv_ret H. unfold unscan in E0. injection E0 as <- <-. auto.
Qed.

Section LimitOffset.

Context {lib : GoLibrary}.

(** C7.  In every successfully parsed SelectStatement, Limit and Offset are
    the answers of [parseOptionalTokenAndInt] for LIMIT and for OFFSET: 0
    when the clause is absent, at least 1 when it is present; a NUMBER with
    a dot and a value below 1 are rejected. *)
Theorem select_limit_offset :
  (forall tr p q stmt,
      parseSelectStatement tr p = Ok stmt q ->
      exists p1 p2,
        parseOptionalTokenAndInt LIMIT p1 = Ok (Limit stmt) p2 /\
        optionalClause LIMIT p1 (Limit stmt) p2 /\
        parseOptionalTokenAndInt OFFSET p2 = Ok (Offset stmt) q /\
        optionalClause OFFSET p2 (Offset stmt) q) /\
  (forall t p pos lit p1 pos' lit' p2,
      scanIgnoreWhitespace p = Ok (t, pos, lit) p1 ->
      scanIgnoreWhitespace p1 = Ok (NUMBER, pos', lit') p2 ->
      (strings_Contains lit' "." = true ->
       parseOptionalTokenAndInt t p =
       Err (messageError ("fractional parts not allowed in " ++ Token_String t) pos'))
      /\
      (strings_Contains lit' "." = false -> fst (ParseInt lit' 64) < 1 ->
       parseOptionalTokenAndInt t p =
       Err (messageError (Token_String t ++ " must be > 0") pos'))).
Proof.
  split.
  - intros tr p q stmt H. unfold parseSelectStatement in H.
    inv_bind H. inv_bind H. inv_bind H. destruct a1 as [[tok pos] lit].
    destruct (negb (Token_eqb tok FROM)); [discriminate|].
    do 6 inv_bind H. inv_ret H. cbn [Limit Offset].
    exists p6, p7. repeat split; auto using parseOptionalTokenAndInt_Ok.
  - intros t p pos lit p1 pos' lit' p2 H1 H2. unfold parseOptionalTokenAndInt.
    rewrite (bind_step _ _ _ _ _ H1). rewrite Token_eqb_refl. cbn [negb].
    rewrite (bind_step _ _ _ _ _ H2). cbn [Token_eqb Token_index N.eqb Pos.eqb negb].
    split.
    + intros ->. reflexivity.
    + intros -> Hn. apply Z.ltb_lt in Hn. rewrite Hn. reflexivity.
Qed.

End LimitOffset.

(** C10.  A LIMIT or OFFSET whose NUMBER is a digit string beyond the
    largest [int64] is not rejected: [strconv.ParseInt] reports a range
    error together with the clamped value, the error is discarded, and the
    clause yields the clamped value. *)
Theorem parseOptionalTokenAndInt_clamps
    (t : Token) (p p1 p2 : bufScanner) (pos pos' : Pos) (lit num : string) :
  scanIgnoreWhitespace p = Ok (t, pos, lit) p1 ->
  scanIgnoreWhitespace p1 = Ok (NUMBER, pos', num) p2 ->
  allDigits num = true -> 0 < len num -> maxInt64 < digitsValue 0 num ->
  ParseInt num 64 = (maxInt64, Some ErrRange) /\
  parseOptionalTokenAndInt t p = Ok maxInt64 p2.
Proof.
  intros H1 H2 Hd Hl Hv.
  assert (Hp : ParseInt num 64 = (maxInt64, Some ErrRange)).
  { rewrite ParseInt_digits by assumption.
    destruct (Z.leb_spec (digitsValue 0 num) maxInt64); [lia | reflexivity]. }
  split; [exact Hp|].
  unfold parseOptionalTokenAndInt.
  rewrite (bind_step _ _ _ _ _ H1). rewrite Token_eqb_refl. cbn [negb].
  rewrite (bind_step _ _ _ _ _ H2). cbn [Token_eqb Token_index N.eqb Pos.eqb negb].
  assert (Hc : strings_Contains num "." = false).
  { clear - Hd. induction num as [|c s IH]; [reflexivity|].
    cbn [allDigits] in Hd. apply andb_prop in Hd as [Hc Hs].
    cbn [strings_Contains String.prefix].
    destruct (ascii_dec "." c) as [<-|Hne]; [discriminate Hc|].
    destruct s; auto. }
  rewrite Hc, Hp. reflexivity.
Qed.

(** ** Scanning never fails *)

Lemma scan_total (p : bufScanner) : exists x q, scan p = Ok x q.
Proof.
  unfold scan. destruct (bufScanner_Scan p) as [x q]. eauto.
Qed.

Lemma scanIgnoreWhitespace_total (p : bufScanner) :
  exists x q, scanIgnoreWhitespace p = Ok x q.
Proof.
  unfold scanIgnoreWhitespace.
  destruct (scan_total p) as ([[tok pos] lit] & q & E).
  rewrite (bind_step _ _ _ _ _ E).
  destruct (Token_eqb tok WS); [apply scan_total | unfold ret; eauto].
Qed.

(** ** Integers in statements *)

Lemma allDigits_no_dot (s : string) :
  allDigits s = true -> strings_Contains s "." = false.
Proof.
  induction s as [|c s IH]; intros Hd; [reflexivity|].
  cbn [allDigits] in Hd. apply andb_prop in Hd as [Hc Hs].
  cbn [strings_Contains String.prefix].
  destruct (ascii_dec "." c) as [<-|Hne]; [discriminate Hc|].
  destruct s; auto.
Qed.

Lemma parseUintLoop_Ok_digits (maxVal : Z) (s : string) :
  forall n v, parseUintLoop maxVal n s = (v, None) -> allDigits s = true.
Proof.
  induction s as [|c s IH]; intros n v H; [reflexivity|].
  cbn [parseUintLoop allDigits] in *.
  destruct (isDigitByte c); cbn [negb] in H; [|discriminate].
  destruct (maxUint64 / 10 + 1 <=? n); [discriminate|].
  destruct ((n * 10 + (byteZ c - 48)) mod 2 ^ 64 <? n * 10); [discriminate|].
  destruct (maxVal <? (n * 10 + (byteZ c - 48)) mod 2 ^ 64); [discriminate|].
  cbn [orb] in H. apply IH in H. now rewrite H.
Qed.

(** A successful [ParseUint] with 32 bits answers the value of a digit
    string, within the range of a [uint32]. *)
Lemma ParseUint32_Ok (s : string) (v : Z) :
  ParseUint s 32 = (v, None) ->
  allDigits s = true /\ 0 < len s /\ v = digitsValue 0 s /\ 0 <= v <= maxUint32.
Proof.
  intros H.
  assert (Hl : 0 < len s).
  { destruct s; [discriminate H | unfold len; cbn; lia]. }
  assert (Hd : allDigits s = true).
  { destruct s; [discriminate H|]. unfold ParseUint in H.
    now apply parseUintLoop_Ok_digits in H. }
  rewrite ParseUint_digits in H by (assumption || lia).
  pose proof (digitsValue_ge s 0 Hd ltac:(lia)) as Hge.
  change (2 ^ 32 - 1) with maxUint32 in H.
  destruct (Z.leb_spec (digitsValue 0 s) maxUint32); [|discriminate].
  injection H as <-. auto.
Qed.

(** The answer of [parseInt min max] when the next token is a NUMBER made
    of digits: the value when it lies in the range, a ParseError
    otherwise. *)
Lemma parseInt_digits (min max : Z) (p q : bufScanner) (pos : Pos) (lit : string) :
  scanIgnoreWhitespace p = Ok (NUMBER, pos, lit) q ->
  allDigits lit = true -> 0 < len lit ->
  let v := digitsValue 0 lit in
  (min <= v <= max -> v <= maxInt64 -> parseInt min max p = Ok v q) /\
  (~ (min <= v <= max) -> max <= maxInt64 ->
   exists msg, parseInt min max p = Err (messageError msg pos)).
Proof.
  intros H Hd Hl v. unfold parseInt.
  rewrite (bind_step _ _ _ _ _ H). cbn [Token_eqb Token_index N.eqb Pos.eqb negb].
  rewrite allDigits_no_dot by exact Hd.
  unfold Atoi. rewrite ParseInt_digits by assumption. fold v.
  split.
  - intros Hr Hm.
    destruct (Z.leb_spec v maxInt64); [|lia].
    destruct (Z.ltb_spec v min); [lia|]. destruct (Z.ltb_spec max v); [lia|].
    reflexivity.
  - intros Hr Hm.
    destruct (Z.leb_spec v maxInt64); [|eexists; reflexivity].
    destruct (Z.ltb_spec v min); [eexists; reflexivity|].
    destruct (Z.ltb_spec max v); [eexists; reflexivity | lia].
Qed.

Lemma parseInt_Ok (min max : Z) (p q : bufScanner) (n : Z) :
  parseInt min max p = Ok n q -> min <= n <= max.
Proof.
  unfold parseInt. intros H. inv_bind H. destruct a as [[tok pos] lit].
  destruct (negb (Token_eqb tok NUMBER)); [discriminate|].
  destruct (strings_Contains lit "."); [discriminate|].
  destruct (Atoi lit) as [v [e|]]; [discriminate|].
  destruct (Z.ltb_spec v min); [discriminate|].
  destruct (Z.ltb_spec max v); [discriminate|].
  inv_ret H. lia.
Qed.

(** C5.  Every successfully parsed CreateRetentionPolicyStatement has its
    Replication in [1, 2^31-1]; and once the statement has been read up to
    REPLICATION, a NUMBER of digits is accepted exactly when its value lies
    in that range: 0 and 2^31 are rejected with a ParseError. *)
Theorem create_retention_policy_replication :
  (forall p q stmt,
      parseCreateRetentionPolicyStatement p = Ok stmt q ->
      1 <= CRP_Replication stmt <= 2 ^ 31 - 1) /\
  (forall p p1 p2 p3 p4 p5 p6 p7 name db d pos1 lit1 pos2 lit2 pos3 lit3 pos num,
      parseIdent p = Ok name p1 ->
      scanIgnoreWhitespace p1 = Ok (ON, pos1, lit1) p2 ->
      parseIdent p2 = Ok db p3 ->
      scanIgnoreWhitespace p3 = Ok (DURATION, pos2, lit2) p4 ->
      parseDuration p4 = Ok d p5 ->
      scanIgnoreWhitespace p5 = Ok (REPLICATION, pos3, lit3) p6 ->
      scanIgnoreWhitespace p6 = Ok (NUMBER, pos, num) p7 ->
      allDigits num = true -> 0 < len num ->
      let n := digitsValue 0 num in
      (1 <= n <= 2 ^ 31 - 1 ->
       exists dflt q,
         parseCreateRetentionPolicyStatement p =
         Ok {| CRP_Name := name; CRP_Database := db; CRP_Duration := d;
               CRP_Replication := n; CRP_Default := dflt |} q) /\
      (~ (1 <= n <= 2 ^ 31 - 1) ->
       exists msg,
         parseCreateRetentionPolicyStatement p = Err (messageError msg pos)) /\
      (n = 0 \/ n = 2 ^ 31 ->
       parseCreateRetentionPolicyStatement p =
       Err (messageError ("invalid value " ++ FormatInt n
                          ++ ": must be 1 <= n <= 2147483647") pos))).
Proof.
  split.
  - intros p q stmt H. unfold parseCreateRetentionPolicyStatement in H.
    invb H as name p1 E1. invs H as tok pos lit p2 E2.
    destruct (negb (Token_eqb tok ON)); [discriminate|].
    invb H as db p3 E3. invs H as tok1 pos1 lit1 p4 E4.
    destruct (negb (Token_eqb tok1 DURATION)); [discriminate|].
    invb H as d p5 E5. invs H as tok2 pos2 lit2 p6 E6.
    destruct (negb (Token_eqb tok2 REPLICATION)); [discriminate|].
    invb H as n p7 E7. apply parseInt_Ok in E7.
    change MaxInt32 with (2 ^ 31 - 1) in E7.
    invs H as tok3 pos3 lit3 p8 E8.
    destruct (Token_eqb tok3 DEFAULT).
    + inv_ret H. exact E7.
    + invb H as u p9 E9. inv_ret H. exact E7.
  - intros p p1 p2 p3 p4 p5 p6 p7 name db d pos1 lit1 pos2 lit2 pos3 lit3 pos num
      H1 H2 H3 H4 H5 H6 H7 Hd Hl n.
    destruct (parseInt_digits 1 MaxInt32 p6 p7 pos num H7 Hd Hl) as [Hin Hout].
    fold n in Hin, Hout.
    unfold parseCreateRetentionPolicyStatement.
    rewrite (bind_step _ _ _ _ _ H1), (bind_step _ _ _ _ _ H2).
    cbn [Token_eqb Token_index N.eqb Pos.eqb negb].
    rewrite (bind_step _ _ _ _ _ H3), (bind_step _ _ _ _ _ H4).
    cbn [Token_eqb Token_index N.eqb Pos.eqb negb].
    rewrite (bind_step _ _ _ _ _ H5), (bind_step _ _ _ _ _ H6).
    cbn [Token_eqb Token_index N.eqb Pos.eqb negb].
    split; [|split].
    + intros Hr.
      assert (Hm : n <= maxInt64) by (unfold maxInt64; lia).
      rewrite (bind_step _ _ _ _ _ (Hin Hr Hm)).
      destruct (scanIgnoreWhitespace_total p7) as ([[tok8 pos8] lit8] & p8 & E8).
      rewrite (bind_step _ _ _ _ _ E8).
      destruct (Token_eqb tok8 DEFAULT).
      * unfold ret. eauto.
      * unfold bind, unscan, ret. eauto.
    + intros Hr.
      assert (Hm : MaxInt32 <= maxInt64) by (unfold maxInt64, MaxInt32; lia).
      destruct (Hout Hr Hm) as (msg & E).
      exists msg. unfold bind at 1. rewrite E. reflexivity.
    + intros Hn. unfold bind at 1, parseInt.
      rewrite (bind_step _ _ _ _ _ H7). cbn [Token_eqb Token_index N.eqb Pos.eqb negb].
      rewrite allDigits_no_dot by exact Hd.
      unfold Atoi. rewrite ParseInt_digits by assumption. fold n.
      destruct Hn as [-> | ->]; reflexivity.
Qed.

Section Statements.

Context {lib : GoLibrary}.

(** C6.  Every successfully parsed DropSeriesStatement has a Source or a
    Condition, or else a SeriesID read from a NUMBER token as a 32-bit
    unsigned integer; and with neither FROM nor WHERE the statement
    requires that NUMBER: another token, or a NUMBER beyond the range of a
    [uint32], is rejected with a ParseError. *)
Theorem drop_series_id :
  (forall p q stmt,
      parseDropSeriesStatement p = Ok stmt q ->
      DS_Source stmt <> None \/ DS_Condition stmt <> None \/
      exists p1 p2 pos lit,
        parseOptionalSource p = Ok None p1 /\
        parseCondition p1 = Ok None p2 /\
        scanIgnoreWhitespace p2 = Ok (NUMBER, pos, lit) q /\
        ParseUint lit 32 = (SeriesID stmt, None) /\
        SeriesID stmt = digitsValue 0 lit /\ 0 <= SeriesID stmt <= 2 ^ 32 - 1) /\
  (forall p p1 p2 p3 tok pos lit,
      parseOptionalSource p = Ok None p1 ->
      parseCondition p1 = Ok None p2 ->
      scanIgnoreWhitespace p2 = Ok (tok, pos, lit) p3 ->
      (tok <> NUMBER ->
       parseDropSeriesStatement p =
       Err (newParseError (tokstr tok lit) ["number"] pos)) /\
      (tok = NUMBER -> allDigits lit = true -> 0 < len lit ->
       2 ^ 32 - 1 < digitsValue 0 lit ->
       parseDropSeriesStatement p =
       Err (messageError (NumError_Error "ParseUint" lit ErrRange) pos)) /\
      (tok = NUMBER -> allDigits lit = true -> 0 < len lit ->
       digitsValue 0 lit <= 2 ^ 32 - 1 ->
       parseDropSeriesStatement p =
       Ok {| DS_Source := None; DS_Condition := None;
             SeriesID := digitsValue 0 lit |} p3)).
Proof.
  split.
  - intros p q stmt H. unfold parseDropSeriesStatement in H.
    invb H as source p1 E1. invb H as condition p2 E2.
    destruct condition as [c|]; [inv_ret H; right; left; discriminate|].
    destruct source as [s|]; [inv_ret H; left; discriminate|].
    invb H as id p3 E3. inv_ret H. right; right. cbn [SeriesID].
    unfold parseUInt32 in E3. invs E3 as tok pos lit p4 E4.
    destruct (Token_eqb tok NUMBER) eqn:Et; cbn [negb] in E3; [|discriminate].
    apply Token_eqb_eq in Et. subst tok.
    destruct (ParseUint lit 32) as [v [e|]] eqn:Ev; [discriminate|].
    inv_ret E3. destruct (ParseUint32_Ok lit v Ev) as (Hd & Hl & Hv & Hr).
    change maxUint32 with (2 ^ 32 - 1) in Hr.
    rewrite Z.mod_small by lia.
    exists p1, p2, pos, lit. repeat split; auto; lia.
  - intros p p1 p2 p3 tok pos lit H1 H2 H3. unfold parseDropSeriesStatement.
    rewrite (bind_step _ _ _ _ _ H1), (bind_step _ _ _ _ _ H2).
    cbv beta iota. unfold bind.
    assert (Hu : parseUInt32 p2 =
                 if negb (Token_eqb tok NUMBER)
                 then Err (newParseError (tokstr tok lit) ["number"] pos)
                 else match ParseUint lit 32 with
                      | (_, Some err) =>
                        Err (messageError (NumError_Error "ParseUint" lit err) pos)
                      | (n, None) => Ok (n mod 2 ^ 32) p3
                      end).
    { unfold parseUInt32. fold (@bind Lexeme Z). rewrite (bind_step _ _ _ _ _ H3).
      destruct (negb (Token_eqb tok NUMBER)); [reflexivity|].
      destruct (ParseUint lit 32) as [n [e|]]; reflexivity. }
    rewrite Hu. clear Hu.
    split; [|split].
    + intros Hne. apply Token_eqb_neq in Hne. rewrite Hne. reflexivity.
    + intros -> Hd Hl Hv.
      change (negb (Token_eqb NUMBER NUMBER)) with false. cbv iota.
      rewrite ParseUint_digits by (assumption || lia).
      destruct (Z.leb_spec (digitsValue 0 lit) (2 ^ 32 - 1)); [lia|reflexivity].
    + intros -> Hd Hl Hv.
      change (negb (Token_eqb NUMBER NUMBER)) with false. cbv iota.
      rewrite ParseUint_digits by (assumption || lia).
      pose proof (digitsValue_ge lit 0 Hd ltac:(lia)).
      destruct (Z.leb_spec (digitsValue 0 lit) (2 ^ 32 - 1)); [|lia].
      unfold ret. rewrite Z.mod_small by lia. reflexivity.
Qed.




(** ** Operator precedence *)

(** A tree respects precedence when no operand of a binary operator is
    itself a binary expression of lower precedence, nor, on the right, of
    equal precedence (operators associate to the left); operands in
    parentheses and call arguments start afresh. *)
Fixpoint respectsPrecedence (e : Expr) : bool :=
  match e with
  | BinaryExpr op l r =>
    match l with
    | BinaryExpr lop _ _ => Precedence op <=? Precedence lop
    | _ => true
    end
    && match r with
       | BinaryExpr rop _ _ => Precedence op <? Precedence rop
       | _ => true
       end
    && respectsPrecedence l && respectsPrecedence r
  | ParenExpr e' => respectsPrecedence e'
  | Call _ args =>
    (fix all (l : list Expr) : bool :=
       match l with
       | [] => true
       | a :: rest => respectsPrecedence a && all rest
       end) args
  | _ => true
  end.

(** The lexemes of [a OR b + c * d], one space around each operator. *)
Definition precedenceInput : list Lexeme :=
  [ (IDENT, mkPos 0 0, "a"); (WS, mkPos 0 1, " "); (OR, mkPos 0 2, "");
    (WS, mkPos 0 4, " "); (IDENT, mkPos 0 5, "b"); (WS, mkPos 0 6, " ");
    (ADD, mkPos 0 7, ""); (WS, mkPos 0 8, " "); (IDENT, mkPos 0 9, "c");
    (WS, mkPos 0 10, " "); (MUL, mkPos 0 11, ""); (WS, mkPos 0 12, " ");
    (IDENT, mkPos 0 13, "d") ].

(** C2 (the code's behaviour at the failing input).  [a OR b + c * d]
    parses to [a OR ((b + c) * d)]: the multiplication takes the sum
    [b + c] as its left operand, so the tree does not respect precedence;
    the tree that does is [a OR (b + (c * d))]. *)
Theorem ParseExpr_precedence_violation :
  ParseExprTokens precedenceInput (mkPos 0 14) =
  Parsed (BinaryExpr OR (VarRef "a")
            (BinaryExpr MUL (BinaryExpr ADD (VarRef "b") (VarRef "c"))
               (VarRef "d"))) /\
  respectsPrecedence
    (BinaryExpr OR (VarRef "a")
       (BinaryExpr MUL (BinaryExpr ADD (VarRef "b") (VarRef "c"))
          (VarRef "d"))) = false /\
  respectsPrecedence
    (BinaryExpr OR (VarRef "a")
       (BinaryExpr ADD (VarRef "b")
          (BinaryExpr MUL (VarRef "c") (VarRef "d")))) = true.
Proof. split; [vm_compute; reflexivity | split; reflexivity]. Qed.

End Statements.

(** ** The text of a ParseError *)

(** C8.  The text of a ParseError whose position is zero-based: the message
    when there is one, otherwise what was found and the expected strings
    joined by ", "; then the line and the character, each one more than
    the field of Pos and written in decimal.  *)
Theorem ParseError_Error_text (e : ParseError) :
  0 <= Line (ErrPos e) < maxInt64 -> 0 <= Char (ErrPos e) < maxInt64 ->
  let L := FormatInt (Line (ErrPos e) + 1) in
  let C := FormatInt (Char (ErrPos e) + 1) in
  (allDigits L = true /\ digitsValue 0 L = Line (ErrPos e) + 1) /\
  (allDigits C = true /\ digitsValue 0 C = Char (ErrPos e) + 1) /\
  (Message e <> "" ->
   Error e = (Message e ++ " at line " ++ L ++ ", char " ++ C)%string) /\
  (Message e = "" ->
   Error e = ("found " ++ Found e ++ ", expected "
              ++ strings_Join (Expected e) ", "
              ++ " at line " ++ L ++ ", char " ++ C)%string) /\
  (forall e1 e2 rest,
      strings_Join (e1 :: e2 :: rest) ", " =
      (e1 ++ ", " ++ strings_Join (e2 :: rest) ", ")%string) /\
  (forall e1, strings_Join [e1] ", " = e1).
Proof.
  intros HL HC L C.
  assert (Hw : forall z, 0 <= z < maxInt64 -> add64 z 1 = z + 1).
  { intros z Hz. unfold add64. apply wrap64_id.
    unfold in_int64, minInt64, maxInt64 in *. lia. }
  assert (Hf : forall z, 0 <= z < maxInt64 ->
               allDigits (FormatInt (z + 1)) = true /\
               digitsValue 0 (FormatInt (z + 1)) = z + 1).
  { intros z Hz. rewrite FormatInt_nonneg by lia.
    destruct (FormatUint_spec (z + 1)) as (H1 & _ & H3); [|auto].
    unfold maxInt64 in Hz. lia. }
  split; [apply Hf, HL|]. split; [apply Hf, HC|].
  unfold Error. rewrite !Hw by assumption. fold L C.
  split; [|split; [|split]].
  - intros Hm. apply String.eqb_neq in Hm. rewrite Hm. reflexivity.
  - intros Hm. rewrite Hm. reflexivity.
  - intros e1 e2 rest. reflexivity.
  - reflexivity.
Qed.

(** ** Concrete inputs

    [noLiterals] is a library that knows no number, time or regex literal;
    the inputs below hold none, so the parser never consults it. *)
Definition noLiterals : GoLibrary :=
  {| strconv_ParseFloat := fun _ => None;
     time_Parse := fun _ _ => None;
     regexp_Compile := fun _ => inr "regexp: not available" |}.

(** A lexeme on line 0. *)
Definition lexeme (char : Z) (tok : Token) (lit : string) : Lexeme :=
  (tok, mkPos 0 char, lit).

(** [ * FROM a LIMIT 10 OFFSET 20], after SELECT. *)
Definition selectLimitInput : bufScanner :=
  NewParser (scannerOf
    [ lexeme 6 WS " "; lexeme 7 MUL ""; lexeme 8 WS " "; lexeme 9 FROM "";
      lexeme 13 WS " "; lexeme 14 IDENT "a"; lexeme 15 WS " ";
      lexeme 16 LIMIT ""; lexeme 21 WS " "; lexeme 22 NUMBER "10";
      lexeme 24 WS " "; lexeme 25 OFFSET ""; lexeme 31 WS " ";
      lexeme 32 NUMBER "20" ] (mkPos 0 34)).

Lemma select_limit_offset_witness :
  exists q stmt,
    parseSelectStatement (lib := noLiterals) targetNotRequired selectLimitInput
    = Ok stmt q /\ Limit stmt = 10 /\ Offset stmt = 20 /\
    exists p1 p2,
      optionalClause LIMIT p1 (Limit stmt) p2 /\
      optionalClause OFFSET p2 (Offset stmt) q.
Proof.
  eexists. eexists.
  assert (H : parseSelectStatement (lib := noLiterals) targetNotRequired
                selectLimitInput = Ok _ _) by (vm_compute; reflexivity).
  split; [exact H|]. split; [reflexivity|]. split; [reflexivity|].
  destruct (proj1 (select_limit_offset (lib := noLiterals)) _ _ _ _ H)
    as (p1 & p2 & _ & H1 & _ & H2).
  exists p1, p2. split; assumption.
Defined.

(** [ LIMIT 99999999999999999999], after the ORDER BY clause. *)
Definition hugeLimitInput : bufScanner :=
  NewParser (scannerOf
    [ lexeme 15 WS " "; lexeme 16 LIMIT ""; lexeme 21 WS " ";
      lexeme 22 NUMBER "99999999999999999999" ] (mkPos 0 42)).

Lemma parseOptionalTokenAndInt_clamps_witness :
  exists q,
    parseOptionalTokenAndInt LIMIT hugeLimitInput = Ok 9223372036854775807 q.
Proof.
  eexists.
  refine (proj2 (parseOptionalTokenAndInt_clamps LIMIT hugeLimitInput _ _ _ _
                   _ "99999999999999999999" _ _ _ _ _)).
  - vm_compute. reflexivity.
  - vm_compute. reflexivity.
  - reflexivity.
  - reflexivity.
  - reflexivity.
Defined.

(** [ rp ON db DURATION 1h REPLICATION 2], after CREATE RETENTION POLICY. *)
Definition createPolicyInput (replication : string) : bufScanner :=
  NewParser (scannerOf
    [ lexeme 23 WS " "; lexeme 24 IDENT "rp"; lexeme 26 WS " ";
      lexeme 27 ON ""; lexeme 29 WS " "; lexeme 30 IDENT "db";
      lexeme 32 WS " "; lexeme 33 DURATION ""; lexeme 41 WS " ";
      lexeme 42 DURATION_VAL "1h"; lexeme 44 WS " ";
      lexeme 45 REPLICATION ""; lexeme 56 WS " ";
      lexeme 57 NUMBER replication ] (mkPos 0 67)).

Lemma create_retention_policy_replication_witness :
  (exists dflt q,
      parseCreateRetentionPolicyStatement (createPolicyInput "2") =
      Ok {| CRP_Name := "rp"; CRP_Database := "db";
            CRP_Duration := 3600000000000; CRP_Replication := 2;
            CRP_Default := dflt |} q) /\
  parseCreateRetentionPolicyStatement (createPolicyInput "2147483648") =
  Err (messageError "invalid value 2147483648: must be 1 <= n <= 2147483647"
         (mkPos 0 57)).
Proof.
  split.
  - refine (proj1 (proj2 create_retention_policy_replication
                     (createPolicyInput "2") _ _ _ _ _ _ _ "rp" "db"
                     3600000000000 _ _ _ _ _ _ _ "2" _ _ _ _ _ _ _ _ _) _).
    + vm_compute; reflexivity.
    + vm_compute; reflexivity.
    + vm_compute; reflexivity.
    + vm_compute; reflexivity.
    + vm_compute; reflexivity.
    + vm_compute; reflexivity.
    + vm_compute; reflexivity.
    + reflexivity.
    + reflexivity.
    + vm_compute. split; discriminate.
  - refine (proj2 (proj2 (proj2 create_retention_policy_replication
                     (createPolicyInput "2147483648") _ _ _ _ _ _ _ "rp" "db"
                     3600000000000 _ _ _ _ _ _ _ "2147483648"
                     _ _ _ _ _ _ _ _ _)) _).
    + vm_compute; reflexivity.
    + vm_compute; reflexivity.
    + vm_compute; reflexivity.
    + vm_compute; reflexivity.
    + vm_compute; reflexivity.
    + vm_compute; reflexivity.
    + vm_compute; reflexivity.
    + reflexivity.
    + reflexivity.
    + right. reflexivity.
Defined.

(** [ 42], and [ 4294967296], after DROP SERIES. *)
Definition dropSeriesInput (id : string) : bufScanner :=
  NewParser (scannerOf [ lexeme 11 WS " "; lexeme 12 NUMBER id ] (mkPos 0 22)).

Lemma drop_series_id_witness :
  parseDropSeriesStatement (lib := noLiterals) (dropSeriesInput "42") =
  Ok {| DS_Source := None; DS_Condition := None; SeriesID := 42 |}
     {| src := scannerOf [] (mkPos 0 22); buf := lexeme 12 NUMBER "42";
        live := false |} /\
  parseDropSeriesStatement (lib := noLiterals) (dropSeriesInput "4294967296") =
  Err (messageError (NumError_Error "ParseUint" "4294967296" ErrRange)
         (mkPos 0 12)).
Proof.
  split.
  - refine (proj2 (proj2 (proj2 (drop_series_id (lib := noLiterals))
                     (dropSeriesInput "42") _ _ _ NUMBER _ "42" _ _ _))
              eq_refl _ _ _).
    + vm_compute; reflexivity.
    + vm_compute; reflexivity.
    + vm_compute; reflexivity.
    + reflexivity.
    + reflexivity.
    + vm_compute; discriminate.
  - refine (proj1 (proj2 (proj2 (drop_series_id (lib := noLiterals))
                     (dropSeriesInput "4294967296") _ _ _ NUMBER _
                     "4294967296" _ _ _))
              eq_refl _ _ _).
    + vm_compute; reflexivity.
    + vm_compute; reflexivity.
    + vm_compute; reflexivity.
    + reflexivity.
    + reflexivity.
    + reflexivity.
Defined.



Lemma ParseError_Error_text_witness :
  Error (newParseError "EOF" ["SELECT"] (mkPos 0 16)) =
  "found EOF, expected SELECT at line 1, char 17" /\
  Error (messageError "number must be an integer" (mkPos 2 7)) =
  "number must be an integer at line 3, char 8".
Proof.
  split.
  - refine (proj1 (proj2 (proj2 (proj2
              (ParseError_Error_text (newParseError "EOF" ["SELECT"] (mkPos 0 16))
                 _ _)))) eq_refl);
      vm_compute; split; congruence.
  - refine (proj1 (proj2 (proj2
              (ParseError_Error_text
                 (messageError "number must be an integer" (mkPos 2 7)) _ _))) _);
      vm_compute; try split; congruence.
Defined.

(** ** Running the parser on two inputs side by side

    [sim P Q m m'] relates a run of [m] to a run of [m']: from states
    related by [P], whenever [m] returns a value, [m'] returns the same
    value and the final states are related by [Q] at that value. *)

Definition rel : Type := bufScanner -> bufScanner -> Prop.

Definition sim {A} (P : rel) (Q : A -> rel) (m m' : M A) : Prop :=
  forall p p', P p p' ->
  forall a q, m p = Ok a q -> exists q', m' p' = Ok a q' /\ Q a q q'.

Lemma sim_ret {A} (P : rel) (Q : A -> rel) (a : A) :
  (forall p p', P p p' -> Q a p p') -> sim P Q (ret a) (ret a).
Proof.
  intros H p p' HP b q E. unfold ret in *. injection E as <- <-. eauto.
Qed.

Lemma sim_fail {A} (P : rel) (Q : A -> rel) (e : ParseError) (m' : M A) :
  sim P Q (fail e) m'.
Proof. intros p p' _ a q E. discriminate E. Qed.

Lemma sim_outOfFuel {A} (P : rel) (Q : A -> rel) (m' : M A) :
  sim P Q outOfFuel m'.
Proof. intros p p' _ a q E. discriminate E. Qed.

Lemma sim_bind {A B} (P : rel) (Q : A -> rel) (R : B -> rel)
    (m m' : M A) (k k' : A -> M B) :
  sim P Q m m' -> (forall a, sim (Q a) R (k a) (k' a)) ->
  sim P R (bind m k) (bind m' k').
Proof.
  intros Hm Hk p p' HP b q E. apply bind_Ok in E as (a & p1 & E1 & E2).
  destruct (Hm p p' HP a p1 E1) as (p1' & E1' & HQ).
  destruct (Hk a p1 p1' HQ b q E2) as (q' & E2' & HR).
  exists q'. split; [|exact HR]. now rewrite (bind_step _ _ _ _ _ E1').
Qed.

Lemma sim_conseq {A} (P P' : rel) (Q Q' : A -> rel) (m m' : M A) :
  sim P Q m m' -> (forall p p', P' p p' -> P p p') ->
  (forall a q q', Q a q q' -> Q' a q q') -> sim P' Q' m m'.
Proof.
  intros H HP HQ p p' HP' a q E.
  destruct (H p p' (HP _ _ HP') a q E) as (q' & E' & HQ'). eauto.
Qed.

Lemma sim_pre {A} (P P' : rel) (Q : A -> rel) (m m' : M A) :
  sim P Q m m' -> (forall p p', P' p p' -> P p p') -> sim P' Q m m'.
Proof. intros H HP. eapply sim_conseq; eauto. Qed.

Lemma sim_post {A} (P : rel) (Q Q' : A -> rel) (m m' : M A) :
  sim P Q m m' -> (forall a q q', Q a q q' -> Q' a q q') -> sim P Q' m m'.
Proof. intros H HQ. eapply sim_conseq; eauto. Qed.

(** A loop whose body keeps [P] when it continues and establishes [Q] when
    it leaves; the second run may have more fuel. *)
Lemma sim_forLoop {A B} (P : rel) (Q : B -> rel) (body body' : A -> M (A + B)) :
  (forall a,
      sim P (fun r => match r with inl _ => P | inr b => Q b end)
          (body a) (body' a)) ->
  forall n n' a, (n <= n')%nat ->
  sim P Q (forLoop n body a) (forLoop n' body' a).
Proof.
  intros Hb n. induction n as [|n IH]; intros n' a Hn.
  - apply sim_outOfFuel.
  - destruct n' as [|n']; [lia|]. cbn [forLoop].
    eapply sim_bind; [apply Hb|]. intros [a'|b].
    + apply IH. lia.
    + apply sim_ret. auto.
Qed.

Lemma sim_withFuel {A} (P : rel) (Q : A -> rel) (f f' : nat -> M A) :
  (forall p p', P p p' -> (fuelOf p <= fuelOf p')%nat) ->
  (forall n n', (n <= n')%nat -> sim P Q (f n) (f' n')) ->
  sim P Q (withFuel f) (withFuel f').
Proof.
  intros Hfuel Hf p p' HP a q E. unfold withFuel in *.
  exact (Hf _ _ (Hfuel p p' HP) p p' HP a q E).
Qed.

(** ** A trailing semicolon

    The input of the second run is the input of the first followed by one
    SEMICOLON lexeme. *)

Definition mkState (ts : list Lexeme) (endPos : Pos) (b : Lexeme) (l : bool)
  : bufScanner :=
  {| src := {| pending := ts; eofPos := endPos |}; buf := b; live := l |}.

Definition tokOf (x : Lexeme) : Token := fst (fst x).

(** The scanner emits EOF at the end of the input only. *)
Definition noEOF (ts : list Lexeme) : Prop :=
  Forall (fun x => tokOf x <> EOF) ts.

Section TrailingSemicolon.

Context {lib : GoLibrary}.
Variables (ps : Pos) (ls : string) (e e' : Pos).

(** Both runs have the same tokens ahead, the second one the semicolon
    after them. *)
Inductive Rmore : rel :=
  | Rmore_intro (ts : list Lexeme) (b : Lexeme) (l : bool) :
      noEOF ts -> tokOf b <> EOF ->
      Rmore (mkState ts e b l) (mkState (ts ++ [(SEMICOLON, ps, ls)]) e' b l).

(** The first run has read EOF where the second has read the semicolon,
    and both have pushed it back ([Rend]) or not ([Rmid]). *)
Definition Rend : rel := fun p p' =>
  p = mkState [] e (EOF, e, "") true /\
  p' = mkState [] e' (SEMICOLON, ps, ls) true.

Definition Rmid : rel := fun p p' =>
  p = mkState [] e (EOF, e, "") false /\
  p' = mkState [] e' (SEMICOLON, ps, ls) false.

Definition Rsemi : rel := fun p p' => Rmore p p' \/ Rend p p'.

Lemma scan_semi (p p' : bufScanner) :
  Rsemi p p' ->
  forall x q, scan p = Ok x q ->
  exists x' q',
    scan p' = Ok x' q' /\
    ((x' = x /\ tokOf x <> EOF /\ Rmore q q') \/
     (x = (EOF, e, "") /\ x' = (SEMICOLON, ps, ls) /\ Rmid q q')).
Proof.
  intros [H | [-> ->]] x q E.
  - destruct H as [ts b l Hts Hb]. unfold scan, bufScanner_Scan in *.
    cbn [mkState live buf src] in *. destruct l.
    + injection E as <- <-. do 2 eexists. split; [reflexivity|]. left.
      split; [reflexivity|]. split; [exact Hb|].
      now apply (Rmore_intro ts b false).
    + unfold Scanner_Scan in *. cbn [pending eofPos] in *.
      destruct ts as [|t ts]; cbn [app] in *.
      * injection E as <- <-. do 2 eexists. split; [reflexivity|]. right.
        repeat split.
      * injection E as <- <-. do 2 eexists. split; [reflexivity|]. left.
        inversion Hts; subst. split; [reflexivity|]. split; [assumption|].
        now apply (Rmore_intro ts t false).
  - cbv in E. injection E as <- <-. do 2 eexists. split; [reflexivity|].
    right. repeat split.
Qed.

Lemma scanIgnoreWhitespace_semi (p p' : bufScanner) :
  Rsemi p p' ->
  forall x q, scanIgnoreWhitespace p = Ok x q ->
  exists x' q',
    scanIgnoreWhitespace p' = Ok x' q' /\
    ((x' = x /\ tokOf x <> EOF /\ Rmore q q') \/
     (x = (EOF, e, "") /\ x' = (SEMICOLON, ps, ls) /\ Rmid q q')).
Proof.
  intros HR x q E. unfold scanIgnoreWhitespace in *.
  apply bind_Ok in E as ([[tok pos] lit] & p1 & E1 & E2).
  destruct (scan_semi p p' HR _ _ E1) as (x1' & p1' & E1' & H).
  rewrite (bind_step _ _ _ _ _ E1').
  destruct H as [(-> & Hne & Hm) | (Hx & -> & Hm)].
  - destruct (Token_eqb tok WS).
    + apply (scan_semi p1 p1'); [now left | exact E2].
    + unfold ret in *. injection E2 as <- <-. do 2 eexists.
      split; [reflexivity|]. left. auto.
  - injection Hx as -> -> ->. cbn in E2. unfold ret in E2.
    injection E2 as <- <-. do 2 eexists. split; [reflexivity|]. right. auto.
Qed.

Lemma sim_scan_semi {A} (Q : A -> rel) (k k' : Lexeme -> M A) :
  (forall tok pos lit, sim Rsemi Q (k (tok, pos, lit)) (k' (tok, pos, lit))) ->
  sim Rmid Q (k (EOF, e, "")) (k' (SEMICOLON, ps, ls)) ->
  sim Rsemi Q (bind scan k) (bind scan k').
Proof.
  intros H1 H2 p p' HR a q E. apply bind_Ok in E as (x & p1 & E1 & E2).
  destruct (scan_semi p p' HR _ _ E1) as (x' & p1' & E1' & H).
  rewrite (bind_step _ _ _ _ _ E1').
  destruct H as [(-> & Hne & Hm) | (-> & -> & Hm)].
  - destruct x as [[tok pos] lit]. apply (H1 tok pos lit p1 p1'); [now left | exact E2].
  - apply (H2 p1 p1' Hm). exact E2.
Qed.

Lemma sim_scanIW_semi {A} (Q : A -> rel) (k k' : Lexeme -> M A) :
  (forall tok pos lit, sim Rsemi Q (k (tok, pos, lit)) (k' (tok, pos, lit))) ->
  sim Rmid Q (k (EOF, e, "")) (k' (SEMICOLON, ps, ls)) ->
  sim Rsemi Q (bind scanIgnoreWhitespace k) (bind scanIgnoreWhitespace k').
Proof.
  intros H1 H2 p p' HR a q E. apply bind_Ok in E as (x & p1 & E1 & E2).
  destruct (scanIgnoreWhitespace_semi p p' HR _ _ E1) as (x' & p1' & E1' & H).
  rewrite (bind_step _ _ _ _ _ E1').
  destruct H as [(-> & Hne & Hm) | (-> & -> & Hm)].
  - destruct x as [[tok pos] lit]. apply (H1 tok pos lit p1 p1'); [now left | exact E2].
  - apply (H2 p1 p1' Hm). exact E2.
Qed.

Lemma sim_unscan_semi : sim Rsemi (fun _ => Rsemi) unscan unscan.
Proof.
  intros p p' HR [] q E. unfold unscan in *. injection E as <-.
  eexists. split; [reflexivity|].
  destruct HR as [H | [-> ->]].
  - destruct H as [ts b l Hts Hb]. left. now apply (Rmore_intro ts b true).
  - right. split; reflexivity.
Qed.

Lemma sim_unscan_mid : sim Rmid (fun _ => Rsemi) unscan unscan.
Proof.
  intros p p' [-> ->] [] q E. unfold unscan in *. injection E as <-.
  eexists. split; [reflexivity|]. right. split; reflexivity.
Qed.

Lemma Rsemi_fuel (p p' : bufScanner) : Rsemi p p' -> (fuelOf p <= fuelOf p')%nat.
Proof.
  intros [H | [-> ->]].
  - destruct H. unfold fuelOf. cbn. rewrite length_app. lia.
  - unfold fuelOf. cbn. lia.
Qed.

Create HintDb semi discriminated.

Ltac tok_eval :=
  cbv beta iota;
  cbn [Token_eqb Token_index N.eqb Pos.eqb negb andb orb isOperator].

Ltac semi_post := intros; cbv beta iota; auto.

(** After a test on a token has been decided, the token is known when the
    test was an equality that holds. *)
Ltac token_known E :=
  try (first
    [ apply negb_false_iff in E; apply Token_eqb_eq in E; subst
    | apply Token_eqb_eq in E; subst ];
    tok_eval).

Ltac semi_step :=
  lazymatch goal with
  | |- sim _ _ (fail _) _ => apply sim_fail
  | |- sim _ _ outOfFuel _ => apply sim_outOfFuel
  | |- sim _ _ (ret _) (ret _) => apply sim_ret; semi_post
  | |- sim _ _ (bind scanIgnoreWhitespace _) (bind scanIgnoreWhitespace _) =>
    apply sim_scanIW_semi; [intros ? ? ?; cbv beta iota | tok_eval]
  | |- sim _ _ (bind scan _) (bind scan _) =>
    apply sim_scan_semi; [intros ? ? ?; cbv beta iota | tok_eval]
  | |- sim Rmid _ (bind unscan _) (bind unscan _) =>
    eapply sim_bind; [apply sim_unscan_mid | intros ?; cbv beta iota]
  | |- sim _ _ (bind unscan _) (bind unscan _) =>
    eapply sim_bind; [apply sim_unscan_semi | intros ?; cbv beta iota]
  | |- sim _ _ (bind _ _) (bind _ _) =>
    apply sim_bind with (Q := fun _ => Rsemi); [ | intros ?; cbv beta iota]
  | |- sim _ _ (if ?c then _ else _) (if ?c then _ else _) =>
    let E := fresh "E" in destruct c eqn:E; token_known E
  | |- sim _ _ (match ?x with _ => _ end) (match ?x with _ => _ end) =>
    destruct x
  | |- sim _ _ (withFuel _) (withFuel _) =>
    apply sim_withFuel; [apply Rsemi_fuel | intros ? ? ?]
  | |- sim _ _ (forLoop _ _ _) (forLoop _ _ _) =>
    apply sim_forLoop; [intros ? | lia]
  | |- sim _ _ _ _ => solve [eauto with semi]
  end.

Ltac semi_auto := repeat semi_step.

Abbreviation simS m := (sim Rsemi (fun _ => Rsemi) m m).

#[local] Hint Resolve sim_unscan_semi sim_unscan_mid : semi.

Tactic Notation "semi_fun" reference(f) := unfold f; semi_auto.

(** [parseTokens] is called with these four token sequences. *)
Lemma parseTokens_WITH_KEY_semi : simS (parseTokens [WITH; KEY]).
Proof. cbn [parseTokens]; semi_auto. Qed.
#[local] Hint Resolve parseTokens_WITH_KEY_semi : semi.

Lemma parseTokens_WITH_PASSWORD_semi : simS (parseTokens [WITH; PASSWORD]).
Proof. cbn [parseTokens]; semi_auto. Qed.
#[local] Hint Resolve parseTokens_WITH_PASSWORD_semi : semi.

Lemma parseTokens_ALL_PRIVILEGES_semi : simS (parseTokens [ALL; PRIVILEGES]).
Proof. cbn [parseTokens]; semi_auto. Qed.
#[local] Hint Resolve parseTokens_ALL_PRIVILEGES_semi : semi.

Lemma parseTokens_BEGIN_SELECT_semi : simS (parseTokens [BEGIN; SELECT]).
Proof. cbn [parseTokens]; semi_auto. Qed.
#[local] Hint Resolve parseTokens_BEGIN_SELECT_semi : semi.

Lemma parseInt_semi (min max : Z) : simS (parseInt min max).
Proof. semi_fun parseInt. Qed.
#[local] Hint Resolve parseInt_semi : semi.

Lemma parseUInt32_semi : simS parseUInt32.
Proof. semi_fun parseUInt32. Qed.
#[local] Hint Resolve parseUInt32_semi : semi.

Lemma parseDuration_semi : simS parseDuration.
Proof. semi_fun parseDuration. Qed.
#[local] Hint Resolve parseDuration_semi : semi.

Lemma parseIdent_semi : simS parseIdent.
Proof. semi_fun parseIdent. Qed.
#[local] Hint Resolve parseIdent_semi : semi.

Lemma parseIdentList_semi : simS parseIdentList.
Proof. semi_fun parseIdentList. Qed.
#[local] Hint Resolve parseIdentList_semi : semi.

Lemma parseString_semi : simS parseString.
Proof. semi_fun parseString. Qed.
#[local] Hint Resolve parseString_semi : semi.

Lemma parsePrivilege_semi : simS parsePrivilege.
Proof. semi_fun parsePrivilege. Qed.
#[local] Hint Resolve parsePrivilege_semi : semi.

Lemma parseStringLiteral_semi (pos : Pos) (lit : string) :
  simS (parseStringLiteral pos lit).
Proof. semi_fun parseStringLiteral. Qed.
#[local] Hint Resolve parseStringLiteral_semi : semi.

(** The three functions of the expression grammar, by induction on the
    fuel of the first run. *)
Lemma expr_semi (n : nat) :
  forall n', (n <= n')%nat ->
    sim Rsemi (fun _ => Rsemi) (ParseExpr_rec n) (ParseExpr_rec n') /\
    sim Rsemi (fun _ => Rsemi) (parseUnaryExpr_rec n) (parseUnaryExpr_rec n') /\
    forall name,
      sim Rsemi (fun _ => Rsemi) (parseCall_rec n name) (parseCall_rec n' name).
Proof.
  induction n as [|n IH]; intros n' Hn.
  - repeat split; intros; apply sim_outOfFuel.
  - destruct n' as [|n']; [lia|].
    destruct (IH n' ltac:(lia)) as (IHe & IHu & IHc).
    cbn [ParseExpr_rec parseUnaryExpr_rec parseCall_rec].
    split; [|split; [|intros name]]; semi_auto.
Qed.

Lemma ParseExpr_semi : simS ParseExpr.
Proof.
  unfold ParseExpr. apply sim_withFuel; [apply Rsemi_fuel|].
  intros n n' Hn. apply expr_semi, Hn.
Qed.
#[local] Hint Resolve ParseExpr_semi : semi.

Lemma parseRevokeStatement_semi : simS parseRevokeStatement.
Proof.
  unfold parseRevokeStatement, parsePrivilegeStatement, privilegeUser.
  semi_auto.
Qed.
#[local] Hint Resolve parseRevokeStatement_semi : semi.

Lemma parseGrantStatement_semi : simS parseGrantStatement.
Proof.
  unfold parseGrantStatement, parsePrivilegeStatement, privilegeUser.
  semi_auto.
Qed.
#[local] Hint Resolve parseGrantStatement_semi : semi.

Lemma alterOptions_semi (left : nat) :
  forall i stmt, simS (alterOptions left i stmt).
Proof.
  induction left as [|left IH]; intros i stmt; cbn [alterOptions]; semi_auto.
Qed.
#[local] Hint Resolve alterOptions_semi : semi.

Lemma parseTarget_semi (tr : targetRequirement) : simS (parseTarget tr).
Proof. semi_fun parseTarget. Qed.
#[local] Hint Resolve parseTarget_semi : semi.



Lemma parseCreateRetentionPolicyStatement_semi : simS parseCreateRetentionPolicyStatement.
Proof. semi_fun parseCreateRetentionPolicyStatement. Qed.
#[local] Hint Resolve parseCreateRetentionPolicyStatement_semi : semi.

Lemma parseAlterRetentionPolicyStatement_semi : simS parseAlterRetentionPolicyStatement.
Proof. semi_fun parseAlterRetentionPolicyStatement. Qed.
#[local] Hint Resolve parseAlterRetentionPolicyStatement_semi : semi.

Lemma parseAlias_semi : simS parseAlias.
Proof. semi_fun parseAlias. Qed.
#[local] Hint Resolve parseAlias_semi : semi.

Lemma consumeWhitespace_semi : simS consumeWhitespace.
Proof. semi_fun consumeWhitespace. Qed.
#[local] Hint Resolve consumeWhitespace_semi : semi.

Lemma parseField_semi : simS parseField.
Proof. semi_fun parseField. Qed.
#[local] Hint Resolve parseField_semi : semi.

Lemma parseFields_semi : simS parseFields.
Proof. semi_fun parseFields. Qed.
#[local] Hint Resolve parseFields_semi : semi.

Lemma parseSource_semi : simS parseSource.
Proof. semi_fun parseSource. Qed.
#[local] Hint Resolve parseSource_semi : semi.

Lemma parseCondition_semi : simS parseCondition.
Proof. semi_fun parseCondition. Qed.
#[local] Hint Resolve parseCondition_semi : semi.

Lemma parseDimension_semi : simS parseDimension.
Proof. semi_fun parseDimension. Qed.
#[local] Hint Resolve parseDimension_semi : semi.

Lemma parseDimensions_semi : simS parseDimensions.
Proof. semi_fun parseDimensions. Qed.
#[local] Hint Resolve parseDimensions_semi : semi.

Lemma parseSortField_semi : simS parseSortField.
Proof. semi_fun parseSortField. Qed.
#[local] Hint Resolve parseSortField_semi : semi.

Lemma parseSortFields_semi : simS parseSortFields.
Proof. semi_fun parseSortFields. Qed.
#[local] Hint Resolve parseSortFields_semi : semi.

Lemma parseOrderBy_semi : simS parseOrderBy.
Proof. semi_fun parseOrderBy. Qed.
#[local] Hint Resolve parseOrderBy_semi : semi.

Lemma parseOptionalTokenAndInt_LIMIT_semi : simS (parseOptionalTokenAndInt LIMIT).
Proof. semi_fun parseOptionalTokenAndInt. Qed.
#[local] Hint Resolve parseOptionalTokenAndInt_LIMIT_semi : semi.

Lemma parseOptionalTokenAndInt_OFFSET_semi : simS (parseOptionalTokenAndInt OFFSET).
Proof. semi_fun parseOptionalTokenAndInt. Qed.
#[local] Hint Resolve parseOptionalTokenAndInt_OFFSET_semi : semi.

Lemma parseSelectStatement_semi (tr : targetRequirement) :
  simS (parseSelectStatement tr).
Proof. semi_fun parseSelectStatement. Qed.
#[local] Hint Resolve parseSelectStatement_semi : semi.

Lemma parseDeleteStatement_semi : simS parseDeleteStatement.
Proof. semi_fun parseDeleteStatement. Qed.
#[local] Hint Resolve parseDeleteStatement_semi : semi.

Lemma parseOptionalSource_semi : simS parseOptionalSource.
Proof. semi_fun parseOptionalSource. Qed.
#[local] Hint Resolve parseOptionalSource_semi : semi.

Lemma parseShowSeriesStatement_semi : simS parseShowSeriesStatement.
Proof. semi_fun parseShowSeriesStatement. Qed.
#[local] Hint Resolve parseShowSeriesStatement_semi : semi.

Lemma parseShowMeasurementsStatement_semi : simS parseShowMeasurementsStatement.
Proof. semi_fun parseShowMeasurementsStatement. Qed.
#[local] Hint Resolve parseShowMeasurementsStatement_semi : semi.

Lemma parseShowRetentionPoliciesStatement_semi : simS parseShowRetentionPoliciesStatement.
Proof. semi_fun parseShowRetentionPoliciesStatement. Qed.
#[local] Hint Resolve parseShowRetentionPoliciesStatement_semi : semi.

Lemma parseShowTagKeysStatement_semi : simS parseShowTagKeysStatement.
Proof. semi_fun parseShowTagKeysStatement. Qed.
#[local] Hint Resolve parseShowTagKeysStatement_semi : semi.

Lemma parseTagKeys_semi : simS parseTagKeys.
Proof. semi_fun parseTagKeys. Qed.
#[local] Hint Resolve parseTagKeys_semi : semi.

Lemma parseShowTagValuesStatement_semi : simS parseShowTagValuesStatement.
Proof. semi_fun parseShowTagValuesStatement. Qed.
#[local] Hint Resolve parseShowTagValuesStatement_semi : semi.

Lemma parseShowFieldKeysStatement_semi : simS parseShowFieldKeysStatement.
Proof. semi_fun parseShowFieldKeysStatement. Qed.
#[local] Hint Resolve parseShowFieldKeysStatement_semi : semi.

Lemma parseDropMeasurementStatement_semi : simS parseDropMeasurementStatement.
Proof. semi_fun parseDropMeasurementStatement. Qed.
#[local] Hint Resolve parseDropMeasurementStatement_semi : semi.

Lemma parseDropSeriesStatement_semi : simS parseDropSeriesStatement.
Proof. semi_fun parseDropSeriesStatement. Qed.
#[local] Hint Resolve parseDropSeriesStatement_semi : semi.

Lemma parseShowContinuousQueriesStatement_semi : simS parseShowContinuousQueriesStatement.
Proof. semi_fun parseShowContinuousQueriesStatement. Qed.
#[local] Hint Resolve parseShowContinuousQueriesStatement_semi : semi.

Lemma parseCreateContinuousQueryStatement_semi : simS parseCreateContinuousQueryStatement.
Proof. semi_fun parseCreateContinuousQueryStatement. Qed.
#[local] Hint Resolve parseCreateContinuousQueryStatement_semi : semi.

Lemma parseCreateDatabaseStatement_semi : simS parseCreateDatabaseStatement.
Proof. semi_fun parseCreateDatabaseStatement. Qed.
#[local] Hint Resolve parseCreateDatabaseStatement_semi : semi.

Lemma parseDropDatabaseStatement_semi : simS parseDropDatabaseStatement.
Proof. semi_fun parseDropDatabaseStatement. Qed.
#[local] Hint Resolve parseDropDatabaseStatement_semi : semi.

Lemma parseDropRetentionPolicyStatement_semi : simS parseDropRetentionPolicyStatement.
Proof. semi_fun parseDropRetentionPolicyStatement. Qed.
#[local] Hint Resolve parseDropRetentionPolicyStatement_semi : semi.

Lemma parseCreateUserStatement_semi : simS parseCreateUserStatement.
Proof. semi_fun parseCreateUserStatement. Qed.
#[local] Hint Resolve parseCreateUserStatement_semi : semi.

Lemma parseDropUserStatement_semi : simS parseDropUserStatement.
Proof. semi_fun parseDropUserStatement. Qed.
#[local] Hint Resolve parseDropUserStatement_semi : semi.

Lemma parseDropContinuousQueryStatement_semi : simS parseDropContinuousQueryStatement.
Proof. semi_fun parseDropContinuousQueryStatement. Qed.
#[local] Hint Resolve parseDropContinuousQueryStatement_semi : semi.

Lemma parseShowStatement_semi : simS parseShowStatement.
Proof. semi_fun parseShowStatement. Qed.
#[local] Hint Resolve parseShowStatement_semi : semi.

Lemma parseCreateStatement_semi : simS parseCreateStatement.
Proof. semi_fun parseCreateStatement. Qed.
#[local] Hint Resolve parseCreateStatement_semi : semi.

Lemma parseDropStatement_semi : simS parseDropStatement.
Proof. semi_fun parseDropStatement. Qed.
#[local] Hint Resolve parseDropStatement_semi : semi.

Lemma parseAlterStatement_semi : simS parseAlterStatement.
Proof. semi_fun parseAlterStatement. Qed.
#[local] Hint Resolve parseAlterStatement_semi : semi.

Lemma ParseStatement_semi : simS ParseStatement.
Proof. semi_fun ParseStatement. Qed.
#[local] Hint Resolve ParseStatement_semi : semi.

Lemma Rmore_fuel (p p' : bufScanner) : Rmore p p' -> (fuelOf p < fuelOf p')%nat.
Proof.
  intros H. destruct H. unfold fuelOf. cbn. rewrite length_app. cbn. lia.
Qed.

Lemma Rmore_Unscan (p p' : bufScanner) :
  Rmore p p' -> Rmore (bufScanner_Unscan p) (bufScanner_Unscan p').
Proof.
  intros H. destruct H as [ts b l Hts Hb]. now apply (Rmore_intro ts b true).
Qed.

(** The body of the statement loop of [ParseQuery]. *)
Definition statementsBody (statements : list Statement)
  : M (list Statement + list Statement) :=
  s <- ParseStatement ;;
  '(tok, pos, lit) <- scanIgnoreWhitespace ;;
  if negb (Token_eqb tok SEMICOLON) && negb (Token_eqb tok EOF)
  then fail (newParseError (tokstr tok lit) [";"; "EOF"] pos)
  else if Token_eqb tok EOF
  then ret (inr (statements ++ [s]))
  else ret (inl (statements ++ [s])).

(** When the statement loop succeeds on the first input, on the second it
    goes round once more and fails at the end of the input. *)
Lemma parseStatements_semi (n : nat) :
  forall acc p p' sts q,
    Rsemi p p' ->
    forLoop n statementsBody acc p = Ok sts q ->
    sts <> [] /\
    forall n', (n < n')%nat ->
      forLoop n' statementsBody acc p' =
      Err (newParseError "EOF" ["SELECT"] e').
Proof.
  induction n as [|n IH]; intros acc p p' sts q HR H; [discriminate H|].
  cbn [forLoop] in H. invb H as r p3 Hbody. unfold statementsBody in Hbody.
  invb Hbody as s p1 E1.
  destruct (ParseStatement_semi p p' HR s p1 E1) as (p1' & E1' & HR1).
  invs Hbody as tok pos lit p2 E2.
  destruct (scanIgnoreWhitespace_semi p1 p1' HR1 _ _ E2)
    as (x' & p2' & E2' & Hcase).
  assert (Hstep : statementsBody acc p' =
            (let '(tok, pos, lit) := x' in
             if negb (Token_eqb tok SEMICOLON) && negb (Token_eqb tok EOF)
             then fail (newParseError (tokstr tok lit) [";"; "EOF"] pos)
             else if Token_eqb tok EOF
             then ret (inr (acc ++ [s]))
             else ret (inl (acc ++ [s]))) p2').
  { unfold statementsBody.
    rewrite (bind_step _ _ _ _ _ E1'), (bind_step _ _ _ _ _ E2').
    reflexivity. }
  destruct Hcase as [(-> & Hne & Hm) | (Hx & -> & Hm)].
  - (* the same token, not EOF: it is a semicolon, and the loop goes on *)
    cbn [tokOf fst] in Hne. apply Token_eqb_neq in Hne.
    rewrite Hne in Hbody. rewrite andb_true_r in Hbody.
    destruct (Token_eqb tok SEMICOLON) eqn:Es; cbn [negb] in Hbody;
      [|discriminate Hbody].
    inv_ret Hbody.
    destruct (IH (acc ++ [s]) p2 p2' sts q (or_introl Hm) H) as (Hsts & Hn').
    split; [exact Hsts|]. intros n' Hlt. destruct n' as [|n']; [lia|].
    cbn [forLoop]. unfold bind at 1. rewrite Hstep.
    cbv beta iota. rewrite ?Es, ?Hne.
    cbn [negb andb]. unfold ret at 1. apply Hn'. lia.
  - (* EOF on the left, the semicolon on the right *)
    injection Hx as -> -> ->. destruct Hm as [-> ->].
    cbn in Hbody. inv_ret Hbody. inv_ret H.
    split; [now destruct acc|]. intros n' Hlt.
    destruct n' as [|[|n']]; [lia|lia|].
    cbn [forLoop]. unfold bind at 1. rewrite Hstep. reflexivity.
Qed.

(** C1 (as amended).  When an input parses successfully, the same input
    followed by a semicolon is rejected: after the semicolon [ParseQuery]
    parses another statement, and finds the end of the input (or, for an
    input without any statement, the semicolon itself) where a statement
    must start. *)
Theorem ParseQuery_trailing_semicolon (ts : list Lexeme) (q : Query) :
  noEOF ts ->
  ParseQueryTokens ts e = Parsed q ->
  ParseQueryTokens (ts ++ [(SEMICOLON, ps, ls)]) e' =
  Rejected
    (match Statements q with
     | [] => newParseError (tokstr SEMICOLON ls) ["SELECT"] ps
     | _ :: _ => newParseError "EOF" ["SELECT"] e'
     end).
Proof.
  intros Hts H. unfold ParseQueryTokens, NewParser, scannerOf, newBufScanner in *.
  set (b0 := (ILLEGAL, mkPos 0 0, "")) in *.
  change {| src := {| pending := ts; eofPos := e |}; buf := b0; live := false |}
    with (mkState ts e b0 false) in H.
  change {| src := {| pending := ts ++ [(SEMICOLON, ps, ls)]; eofPos := e' |};
            buf := b0; live := false |}
    with (mkState (ts ++ [(SEMICOLON, ps, ls)]) e' b0 false).
  assert (HR : Rsemi (mkState ts e b0 false)
                 (mkState (ts ++ [(SEMICOLON, ps, ls)]) e' b0 false)).
  { left. apply Rmore_intro; [exact Hts | discriminate]. }
  destruct (ParseQuery (mkState ts e b0 false)) as [q0 pf| |] eqn:E;
    cbn [outcome] in H; [|discriminate H|discriminate H].
  injection H as ->. unfold ParseQuery in E |- *.
  invs E as tok pos lit p1 E1.
  destruct (scanIgnoreWhitespace_semi _ _ HR _ _ E1) as (x' & p1' & E1' & Hcase).
  rewrite (bind_step _ _ _ _ _ E1').
  destruct Hcase as [(-> & Hne & Hm) | (Hx & -> & Hm)].
  - cbn [tokOf fst] in Hne. apply Token_eqb_neq in Hne. rewrite Hne in E |- *.
    invb E as u p2 E2. unfold unscan in E2. injection E2 as <- <-.
    invb E as sts p3 E3. inv_ret E. cbn [Statements].
    unfold unscan. unfold bind at 1. unfold withFuel in E3 |- *.
    fold statementsBody in E3 |- *.
    assert (HRu : Rsemi (bufScanner_Unscan p1) (bufScanner_Unscan p1'))
      by (left; now apply Rmore_Unscan).
    destruct (parseStatements_semi _ _ _ _ _ _ HRu E3) as (Hsts & Hn').
    unfold bind. unfold parseStatements. fold statementsBody.
    rewrite Hn' by (apply Rmore_fuel, Rmore_Unscan, Hm).
    cbn [outcome]. destruct sts; [contradiction|reflexivity].
  - injection Hx as -> -> ->. destruct Hm as [-> ->].
    cbn in E. inv_ret E. reflexivity.
Qed.

End TrailingSemicolon.

(** [SELECT * FROM a] *)
Definition selectTokens : list Lexeme :=
  [ lexeme 0 SELECT ""; lexeme 6 WS " "; lexeme 7 MUL ""; lexeme 8 WS " ";
    lexeme 9 FROM ""; lexeme 13 WS " "; lexeme 14 IDENT "a" ].

Definition selectQuery : Query :=
  {| Statements :=
       [ StmtSelect
           {| Fields := [ {| Field_Expr := Wildcard; Field_Alias := "" |} ];
              Select_Target := None;
              Select_Source :=
                Some (SourceMeasurement {| Measurement_Name := "a" |});
              Select_Condition := None; Dimensions := [];
              Select_SortFields := []; Limit := 0; Offset := 0 |} ] |}.

(** C1, counterexample: [SELECT * FROM a] parses, [SELECT * FROM a;] does
    not. *)
Lemma ParseQuery_trailing_semicolon_counterexample :
  ParseQueryTokens (H := noLiterals) selectTokens (mkPos 0 15)
  = Parsed selectQuery /\
  ParseQueryTokens (H := noLiterals)
    (selectTokens ++ [lexeme 15 SEMICOLON ""]) (mkPos 0 16)
  = Rejected (newParseError "EOF" ["SELECT"] (mkPos 0 16)).
Proof. split; vm_compute; reflexivity. Qed.

Lemma ParseQuery_trailing_semicolon_witness :
  ParseQueryTokens (H := noLiterals)
    (selectTokens ++ [lexeme 15 SEMICOLON ""]) (mkPos 0 16)
  = Rejected (newParseError "EOF" ["SELECT"] (mkPos 0 16)).
Proof.
  refine (ParseQuery_trailing_semicolon (lib := noLiterals)
            (mkPos 0 15) "" (mkPos 0 15) (mkPos 0 16)
            selectTokens selectQuery _ _).
  - repeat constructor; discriminate.
  - vm_compute; reflexivity.
Defined.

(** ** Whitespace between tokens

    The input of the second run is the input of the first with one WS
    lexeme inserted; the positions of its lexemes may differ. *)

(** Two lexemes with the same token and literal. *)
Definition lexEq (x x' : Lexeme) : Prop :=
  tokOf x = tokOf x' /\ snd x = snd x'.

Definition listEq (ts ts' : list Lexeme) : Prop := Forall2 lexEq ts ts'.

(** The pairs of neighbours between which the parser reads the next token
    as it is, without skipping whitespace: an identifier and [(] or [,]
    (a call, a join or merge, its list of measurements), and [(] and [)] (a
    call without arguments). *)
Definition rawPair (t1 t2 : Token) : bool :=
  (Token_eqb t1 IDENT && (Token_eqb t2 LPAREN || Token_eqb t2 COMMA))
  || (Token_eqb t1 LPAREN && Token_eqb t2 RPAREN).


Lemma lexEq_refl (x : Lexeme) : lexEq x x.
Proof. split; reflexivity. Qed.


Lemma listEq_length (ts ts' : list Lexeme) :
  listEq ts ts' -> List.length ts = List.length ts'.
Proof. induction 1; cbn; congruence. Qed.

Lemma last_cons_default {A} (x d : A) (l : list A) :
  last (x :: l) d = last l x.
Proof.
  revert x d. induction l as [|y l IH]; intros x d; [reflexivity|].
  change (last (x :: y :: l) d) with (last (y :: l) d).
  rewrite (IH y d). symmetry. apply IH.
Qed.

Section Whitespace.

Context {lib : GoLibrary}.
Variables (pw : Pos) (lw : string).

Local Abbreviation ws := (WS, pw, lw).

(** Both runs are at the same place: before the inserted lexeme
    ([St_pending], where [a] is what is left to read before it), or past
    it, or in an input without it ([St_same]). *)
Inductive Rst : rel :=
  | St_same ts ts' e e' b b' l :
      listEq ts ts' -> lexEq b b' ->
      Rst (mkState ts e b l) (mkState ts' e' b' l)
  | St_pending a a' t2 t2' rest rest' e e' b b' l :
      listEq a a' -> lexEq t2 t2' -> listEq rest rest' -> lexEq b b' ->
      Token_eqb (tokOf t2) WS = false ->
      Token_eqb (last (map tokOf a) (tokOf b)) WS = false ->
      rawPair (last (map tokOf a) (tokOf b)) (tokOf t2) = false ->
      Rst (mkState (a ++ t2 :: rest) e b l)
          (mkState (a' ++ ws :: t2' :: rest') e' b' l).

(** The first run has read the token [t2] after the inserted lexeme and
    pushed it back; the second run has read the inserted lexeme, and has
    pushed it back or not ([lr]). *)
Inductive Skew (lr : bool) : rel :=
  | Skew_intro rest rest' t2 t2' e e' :
      listEq rest rest' -> lexEq t2 t2' ->
      Token_eqb (tokOf t2) WS = false ->
      Skew lr (mkState rest e t2 true) (mkState (t2' :: rest') e' ws lr).

(** The same, before the first run pushes [t2] back. *)
Inductive Mid : rel :=
  | Mid_intro rest rest' t2 t2' e e' :
      listEq rest rest' -> lexEq t2 t2' ->
      Token_eqb (tokOf t2) WS = false ->
      Mid (mkState rest e t2 false) (mkState (t2' :: rest') e' ws false).

Definition Rws : rel := fun p p' => Rst p p' \/ Skew false p p' \/ Skew true p p'.

(** After reading the token [t]. *)
Definition Rread (t : Token) : rel := fun p p' =>
  Rst p p' /\ live p = false /\ tokOf (buf p) = t.

(** After pushing a token back. *)
Definition Rlive : rel := fun p p' => Rst p p' /\ live p = true.

(** After [consumeWhitespace]. *)
Definition Rcw : rel := fun p p' =>
  (Rst p p' /\ (live p = true \/ tokOf (buf p) = WS)) \/ Skew false p p'.

Lemma Rread_Rws t p p' : Rread t p p' -> Rws p p'.
Proof. intros (H & _). now left. Qed.

Lemma Rlive_Rws p p' : Rlive p p' -> Rws p p'.
Proof. intros (H & _). now left. Qed.

Lemma Rcw_Rws p p' : Rcw p p' -> Rws p p'.
Proof. intros [(H & _) | H]; [now left | right; now left]. Qed.

Lemma Rlive_Rcw p p' : Rlive p p' -> Rcw p p'.
Proof. intros (H & Hl). left. auto. Qed.

Lemma Rws_fuel (p p' : bufScanner) : Rws p p' -> (fuelOf p <= fuelOf p')%nat.
Proof.
  unfold fuelOf.
  intros [H | [H | H]]; destruct H; cbn [mkState src pending];
    repeat match goal with
           | H : listEq _ _ |- _ => apply listEq_length in H
           end;
    rewrite ?length_app; cbn [List.length]; lia.
Qed.

(** What one [scan] does to two related states. *)
Lemma scan_Rst (p p' : bufScanner) :
  Rst p p' ->
  forall x q, scan p = Ok x q ->
  exists x' q',
    scan p' = Ok x' q' /\
    ((lexEq x x' /\ Rread (tokOf x) q q') \/
     (x' = ws /\ Mid q q' /\ buf q = x /\ live p = false /\
      Token_eqb (tokOf (buf p)) WS = false /\
      rawPair (tokOf (buf p)) (tokOf x) = false)).
Proof.
  intros H x q E. unfold scan, bufScanner_Scan, Scanner_Scan in *.
  destruct H as [ts ts' e e' b b' l Hts Hb
                |a a' t2 t2' rest rest' e e' b b' l Ha Ht Hr Hb Hw H1 Hraw];
    cbn [mkState live buf src pending eofPos] in *.
  - destruct l.
    + injection E as <- <-. do 2 eexists. split; [reflexivity|]. left.
      split; [exact Hb|]. split; [|split; reflexivity].
      now apply (St_same ts ts' e e' b b' false).
    + destruct Hts as [|y y' r r' Hy Hr]; injection E as <- <-;
        do 2 eexists; (split; [reflexivity|]); left.
      * split; [split; reflexivity|]. split; [|split; reflexivity].
        apply (St_same [] [] e e' _ _ false); [constructor | split; reflexivity].
      * split; [exact Hy|]. split; [|split; reflexivity].
        now apply (St_same r r' e e' y y' false).
  - destruct l.
    + injection E as <- <-. do 2 eexists. split; [reflexivity|]. left.
      split; [exact Hb|]. split; [|split; reflexivity].
      now apply (St_pending a a' t2 t2' rest rest' e e' b b' false).
    + destruct Ha as [|y y' a1 a1' Hy Ha1]; cbn [app] in *;
        injection E as <- <-; do 2 eexists; (split; [reflexivity|]).
      * right. cbn [map last] in *. split; [reflexivity|].
        split; [now apply (Mid_intro rest rest' t2 t2' e e')|]. auto.
      * left. split; [exact Hy|]. split; [|split; reflexivity].
        cbn [map] in H1, Hraw. rewrite last_cons_default in H1, Hraw.
        now apply (St_pending a1 a1' t2 t2' rest rest' e e' y y' false).
Qed.

Lemma scan_Mid_right (p p' : bufScanner) :
  Mid p p' ->
  exists x' q',
    scan p' = Ok x' q' /\ lexEq (buf p) x' /\ Rread (tokOf (buf p)) p q'.
Proof.
  intros H. destruct H as [rest rest' t2 t2' e e' Hr Ht Hw].
  do 2 eexists. split; [reflexivity|]. cbn [mkState buf].
  split; [exact Ht|]. split; [|split; reflexivity].
  now apply (St_same rest rest' e e' t2 t2' false).
Qed.

Lemma scan_Skew (lr : bool) (p p' : bufScanner) :
  Skew lr p p' ->
  forall x q, scan p = Ok x q ->
  exists x' q',
    scan p' = Ok x' q' /\
    if lr then x' = ws /\ Mid q q' /\ buf q = x
    else lexEq x x' /\ Rread (tokOf x) q q'.
Proof.
  intros H x q E. destruct H as [rest rest' t2 t2' e e' Hr Ht Hw].
  cbv in E. injection E as <- <-. destruct lr.
  - do 2 eexists. split; [reflexivity|]. split; [reflexivity|].
    split; [|reflexivity]. now apply (Mid_intro rest rest' t2 t2' e e').
  - do 2 eexists. split; [reflexivity|]. split; [exact Ht|].
    split; [|split; reflexivity].
    now apply (St_same rest rest' e e' t2 t2' false).
Qed.

Lemma Mid_not_WS (p p' : bufScanner) :
  Mid p p' -> Token_eqb (tokOf (buf p)) WS = false.
Proof. intros H. now destruct H. Qed.

(** [scanIgnoreWhitespace] reads the same token in both runs and leaves
    them at the same place. *)
Lemma scanIgnoreWhitespace_Rws (p p' : bufScanner) :
  Rws p p' ->
  forall x q, scanIgnoreWhitespace p = Ok x q ->
  exists x' q',
    scanIgnoreWhitespace p' = Ok x' q' /\ lexEq x x' /\ Rread (tokOf x) q q'.
Proof.
  intros HR x q E. unfold scanIgnoreWhitespace in *.
  apply bind_Ok in E as ([[tok pos] lit] & p1 & E1 & E2).
  assert (Hfirst :
    exists x1' p1', scan p' = Ok x1' p1' /\
      ((lexEq (tok, pos, lit) x1' /\ Rread tok p1 p1') \/
       (x1' = ws /\ Mid p1 p1' /\ buf p1 = (tok, pos, lit)))).
  { destruct HR as [H | [H | H]].
    - destruct (scan_Rst p p' H _ _ E1) as (x1' & p1' & E1' & Hc).
      exists x1', p1'. split; [exact E1'|].
      destruct Hc as [Hc | (Hc1 & Hc2 & Hc3 & _)]; [left; exact Hc | right; auto].
    - destruct (scan_Skew false p p' H _ _ E1) as (x1' & p1' & E1' & Hc).
      exists x1', p1'. split; [exact E1'|]. left. exact Hc.
    - destruct (scan_Skew true p p' H _ _ E1) as (x1' & p1' & E1' & Hc).
      exists x1', p1'. split; [exact E1'|]. right. exact Hc. }
  destruct Hfirst as (x1' & p1' & E1' & Hc).
  rewrite (bind_step _ _ _ _ _ E1').
  destruct Hc as [(Hx & HR1) | (-> & Hm & Hb)].
  - destruct x1' as [[tok' pos'] lit']. destruct Hx as [Ht Hl].
    cbn [tokOf fst snd] in Ht, Hl. subst tok' lit'.
    destruct (Token_eqb tok WS) eqn:Ew.
    + destruct HR1 as (Hst & Hlive & Hbuf).
      destruct (scan_Rst p1 p1' Hst _ _ E2) as (x2' & p2' & E2' & Hc).
      exists x2', p2'. split; [exact E2'|].
      destruct Hc as [Hc | (_ & _ & _ & _ & Hc & _)]; [exact Hc|].
      apply Token_eqb_eq in Ew. rewrite Hbuf, Ew in Hc. discriminate Hc.
    + unfold ret in *. injection E2 as <- <-. do 2 eexists.
      split; [reflexivity|]. split; [split; reflexivity | exact HR1].
  - pose proof (Mid_not_WS _ _ Hm) as Hw. rewrite Hb in Hw.
    cbn [tokOf fst] in Hw. rewrite Hw in E2. unfold ret in E2.
    injection E2 as <- <-. rewrite Token_eqb_refl.
    destruct (scan_Mid_right _ _ Hm) as (x' & q' & E' & Hx & HR').
    rewrite Hb in Hx, HR'. exists x', q'. auto.
Qed.

(** *** The rules of the scanner's operations *)

Lemma sim_scanIW_ws {A} (P : rel) (Q : A -> rel) (k k' : Lexeme -> M A) :
  (forall p p', P p p' -> Rws p p') ->
  (forall tok pos pos' lit,
      sim (Rread tok) Q (k (tok, pos, lit)) (k' (tok, pos', lit))) ->
  sim P Q (bind scanIgnoreWhitespace k) (bind scanIgnoreWhitespace k').
Proof.
  intros HP Hk p p' HR a q E. apply bind_Ok in E as (x & p1 & E1 & E2).
  destruct (scanIgnoreWhitespace_Rws p p' (HP _ _ HR) _ _ E1)
    as (x' & p1' & E1' & Hx & HR1).
  rewrite (bind_step _ _ _ _ _ E1').
  destruct x as [[tok pos] lit], x' as [[tok' pos'] lit'].
  destruct Hx as [Ht Hl]. cbn [tokOf fst snd] in Ht, Hl, HR1. subst tok' lit'.
  exact (Hk tok pos pos' lit p1 p1' HR1 a q E2).
Qed.

(** A [scan] just after the token [t1] has been read: the inserted lexeme
    may be the next one. *)
Lemma sim_scan_read {A} (t1 : Token) (Q : A -> rel) (k k' : Lexeme -> M A) :
  (forall tok pos pos' lit,
      sim (Rread tok) Q (k (tok, pos, lit)) (k' (tok, pos', lit))) ->
  (forall tok pos lit,
      rawPair t1 tok = false -> sim Mid Q (k (tok, pos, lit)) (k' ws)) ->
  sim (Rread t1) Q (bind scan k) (bind scan k').
Proof.
  intros Hk Hmid p p' (Hst & Hlive & Hbuf) a q E.
  apply bind_Ok in E as (x & p1 & E1 & E2).
  destruct (scan_Rst p p' Hst _ _ E1) as (x' & p1' & E1' & Hc).
  rewrite (bind_step _ _ _ _ _ E1').
  destruct Hc as [(Hx & HR1) | (-> & Hm & _ & _ & _ & Hraw)].
  - destruct x as [[tok pos] lit], x' as [[tok' pos'] lit'].
    destruct Hx as [Ht Hl]. cbn [tokOf fst snd] in Ht, Hl, HR1. subst tok' lit'.
    exact (Hk tok pos pos' lit p1 p1' HR1 a q E2).
  - destruct x as [[tok pos] lit]. rewrite Hbuf in Hraw.
    exact (Hmid tok pos lit Hraw p1 p1' Hm a q E2).
Qed.

(** A [scan] after a token has been pushed back, or after
    [consumeWhitespace]: both runs read the same token. *)
Lemma sim_scan_same {A} (P : rel) (Q : A -> rel) (k k' : Lexeme -> M A) :
  (forall p p', P p p' -> Rcw p p') ->
  (forall tok pos pos' lit,
      sim (Rread tok) Q (k (tok, pos, lit)) (k' (tok, pos', lit))) ->
  sim P Q (bind scan k) (bind scan k').
Proof.
  intros HP Hk p p' HR a q E. apply bind_Ok in E as (x & p1 & E1 & E2).
  assert (Hsame : exists x' p1',
             scan p' = Ok x' p1' /\ lexEq x x' /\ Rread (tokOf x) p1 p1').
  { destruct (HP _ _ HR) as [(Hst & Hor) | Hsk].
    - destruct (scan_Rst p p' Hst _ _ E1) as (x' & p1' & E1' & Hc).
      exists x', p1'. split; [exact E1'|].
      destruct Hc as [Hc | (_ & _ & _ & Hl & Hw & _)]; [exact Hc|].
      destruct Hor as [Hor | Hor]; [congruence|].
      rewrite Hor in Hw. discriminate Hw.
    - exact (scan_Skew false p p' Hsk _ _ E1). }
  destruct Hsame as (x' & p1' & E1' & Hx & HR1).
  rewrite (bind_step _ _ _ _ _ E1').
  destruct x as [[tok pos] lit], x' as [[tok' pos'] lit'].
  destruct Hx as [Ht Hl]. cbn [tokOf fst snd] in Ht, Hl, HR1. subst tok' lit'.
  exact (Hk tok pos pos' lit p1 p1' HR1 a q E2).
Qed.

Lemma Rst_Unscan (p p' : bufScanner) :
  Rst p p' -> Rst (bufScanner_Unscan p) (bufScanner_Unscan p').
Proof.
  intros H. destruct H as [ts ts' e e' b b' l Hts Hb
                          |a a' t2 t2' rest rest' e e' b b' l].
  - now apply (St_same ts ts' e e' b b' true).
  - now apply (St_pending a a' t2 t2' rest rest' e e' b b' true).
Qed.

Lemma Skew_Unscan (lr : bool) (p p' : bufScanner) :
  Skew lr p p' -> Skew true (bufScanner_Unscan p) (bufScanner_Unscan p').
Proof.
  intros H. destruct H as [rest rest' t2 t2' e e' Hr Ht Hw].
  now apply (Skew_intro true rest rest' t2 t2' e e').
Qed.

Lemma sim_unscan_read (t : Token) :
  sim (Rread t) (fun _ => Rlive) unscan unscan.
Proof.
  intros p p' (Hst & _) [] q E. unfold unscan in *. injection E as <-.
  eexists. split; [reflexivity|]. split; [now apply Rst_Unscan | reflexivity].
Qed.

Lemma sim_unscan_Rws : sim Rws (fun _ => Rws) unscan unscan.
Proof.
  intros p p' HR [] q E. unfold unscan in *. injection E as <-.
  eexists. split; [reflexivity|].
  destruct HR as [H | [H | H]].
  - left. now apply Rst_Unscan.
  - right; right. exact (Skew_Unscan _ _ _ H).
  - right; right. exact (Skew_Unscan _ _ _ H).
Qed.

Lemma sim_unscan_Mid : sim Mid (fun _ => Rws) unscan unscan.
Proof.
  intros p p' H [] q E. unfold unscan in *. injection E as <-.
  eexists. split; [reflexivity|]. right; right.
  destruct H as [rest rest' t2 t2' e e' Hr Ht Hw].
  now apply (Skew_intro true rest rest' t2 t2' e e').
Qed.

(** [consumeWhitespace] may leave the two runs one lexeme apart: the first
    has pushed back the token after the inserted lexeme, the second has
    consumed the inserted lexeme. *)
Lemma consumeWhitespace_ws : sim Rws (fun _ => Rcw) consumeWhitespace consumeWhitespace.
Proof.
  intros p p' HR [] q E. unfold consumeWhitespace in *.
  apply bind_Ok in E as ([[tok pos] lit] & p1 & E1 & E2).
  assert (Hfirst :
    exists x1' p1', scan p' = Ok x1' p1' /\
      ((lexEq (tok, pos, lit) x1' /\ Rread tok p1 p1') \/
       (x1' = ws /\ Mid p1 p1' /\ buf p1 = (tok, pos, lit)))).
  { destruct HR as [H | [H | H]].
    - destruct (scan_Rst p p' H _ _ E1) as (x1' & p1' & E1' & Hc).
      exists x1', p1'. split; [exact E1'|].
      destruct Hc as [Hc | (Hc1 & Hc2 & Hc3 & _)]; [left; exact Hc | right; auto].
    - destruct (scan_Skew false p p' H _ _ E1) as (x1' & p1' & E1' & Hc).
      exists x1', p1'. split; [exact E1'|]. left. exact Hc.
    - destruct (scan_Skew true p p' H _ _ E1) as (x1' & p1' & E1' & Hc).
      exists x1', p1'. split; [exact E1'|]. right. exact Hc. }
  destruct Hfirst as (x1' & p1' & E1' & Hc).
  rewrite (bind_step _ _ _ _ _ E1').
  destruct Hc as [(Hx & HR1) | (-> & Hm & Hb)].
  - destruct x1' as [[tok' pos'] lit']. destruct Hx as [Ht Hl].
    cbn [tokOf fst snd] in Ht, Hl. subst tok' lit'.
    destruct (Token_eqb tok WS) eqn:Ew; cbn [negb] in *.
    + unfold ret in *. injection E2 as <-. eexists. split; [reflexivity|].
      left. destruct HR1 as (Hst & Hl & Hb). split; [exact Hst|]. right.
      apply Token_eqb_eq in Ew. congruence.
    + unfold unscan in *. injection E2 as <-. eexists. split; [reflexivity|].
      left. destruct HR1 as (Hst & _).
      split; [now apply Rst_Unscan | left; reflexivity].
  - pose proof (Mid_not_WS _ _ Hm) as Hw. rewrite Hb in Hw.
    cbn [tokOf fst] in Hw. rewrite Hw in E2. cbn [negb] in E2.
    unfold unscan in E2. injection E2 as <-.
    rewrite Token_eqb_refl. cbn [negb]. eexists. split; [reflexivity|].
    right. destruct Hm as [rest rest' t2 t2' e e' Hr Ht Hw'].
    now apply (Skew_intro false rest rest' t2 t2' e e').
Qed.

Lemma rawPair_IDENT (t : Token) :
  rawPair IDENT t = false ->
  Token_eqb t LPAREN = false /\ Token_eqb t COMMA = false.
Proof.
  unfold rawPair. rewrite Token_eqb_refl. cbn [andb orb].
  change (Token_eqb IDENT LPAREN) with false. cbn [andb orb].
  rewrite orb_false_r. apply orb_false_elim.
Qed.

Lemma rawPair_LPAREN (t : Token) :
  rawPair LPAREN t = false -> Token_eqb t RPAREN = false.
Proof.
  unfold rawPair. rewrite Token_eqb_refl.
  change (Token_eqb LPAREN IDENT) with false. cbn [andb orb]. auto.
Qed.

Create HintDb wsincl discriminated.
Create HintDb ws discriminated.

#[local] Hint Resolve Rread_Rws Rlive_Rws Rcw_Rws Rlive_Rcw : wsincl.

Ltac tok_eval :=
  cbv beta iota;
  cbn [Token_eqb Token_index N.eqb Pos.eqb negb andb orb isOperator].

Ltac token_known E :=
  try (first
    [ apply negb_false_iff in E; apply Token_eqb_eq in E; subst
    | apply Token_eqb_eq in E; subst ];
    tok_eval).

Ltac ws_incl := solve [intros; cbv beta iota in *; eauto with wsincl].

(** The token after the inserted lexeme is not the one that the pair of
    neighbours excludes. *)
Ltac ws_mid :=
  let H := fresh "Hraw" in
  let H1 := fresh "Hraw" in
  let H2 := fresh "Hraw" in
  intros ? ? ? H; cbv beta iota;
  first [ apply rawPair_IDENT in H; destruct H as [H1 H2]; rewrite ?H1, ?H2
        | apply rawPair_LPAREN in H; rewrite ?H ];
  tok_eval.

Ltac ws_call :=
  eapply sim_pre; [solve [eauto with ws] | ws_incl].

Ltac ws_step :=
  lazymatch goal with
  | |- sim _ _ (fail _) _ => apply sim_fail
  | |- sim _ _ outOfFuel _ => apply sim_outOfFuel
  | |- sim _ _ (ret _) (ret _) => apply sim_ret; ws_incl
  | |- sim (Rread _) _ (bind scan _) (bind scan _) =>
    apply sim_scan_read; [intros ? ? ? ?; cbv beta iota | ws_mid]
  | |- sim _ _ (bind scan _) (bind scan _) =>
    apply sim_scan_same; [ws_incl | intros ? ? ? ?; cbv beta iota]
  | |- sim _ _ (bind scanIgnoreWhitespace _) (bind scanIgnoreWhitespace _) =>
    apply sim_scanIW_ws; [ws_incl | intros ? ? ? ?; cbv beta iota]
  | |- sim (Rread _) _ (bind unscan _) (bind unscan _) =>
    eapply sim_bind; [apply sim_unscan_read | intros ?; cbv beta iota]
  | |- sim Mid _ (bind unscan _) (bind unscan _) =>
    eapply sim_bind; [apply sim_unscan_Mid | intros ?; cbv beta iota]
  | |- sim _ _ (bind unscan _) (bind unscan _) =>
    eapply sim_bind;
    [eapply sim_pre; [apply sim_unscan_Rws | ws_incl] | intros ?; cbv beta iota]
  | |- sim _ _ (bind (withFuel _) _) (bind (withFuel _) _) =>
    apply sim_bind with (Q := fun _ => Rws); [ | intros ?; cbv beta iota]
  | |- sim _ _ (bind (forLoop _ _ _) _) (bind (forLoop _ _ _) _) =>
    apply sim_bind with (Q := fun _ => Rlive); [ | intros ?; cbv beta iota]
  | |- sim _ _ (bind _ _) (bind _ _) =>
    eapply sim_bind; [ws_call | intros ?; cbv beta iota]
  | |- sim _ _ (if ?c then _ else _) (if ?c then _ else _) =>
    let E := fresh "E" in destruct c eqn:E; token_known E
  | |- sim _ _ (match ?x with _ => _ end) (match ?x with _ => _ end) =>
    destruct x
  | |- sim _ _ (withFuel _) (withFuel _) =>
    apply sim_withFuel; [intros; apply Rws_fuel; ws_incl | intros ? ? ?]
  | |- sim _ _ (forLoop _ _ _) (forLoop _ _ _) =>
    eapply sim_pre; [apply sim_forLoop with (P := Rws); [intros ? | lia] | ws_incl]
  | |- sim _ _ _ _ =>
    eapply sim_conseq; [solve [eauto with ws] | ws_incl | ws_incl]
  end.

Ltac ws_auto := repeat ws_step.

Abbreviation simW m := (sim Rws (fun _ => Rws) m m).

Tactic Notation "ws_fun" reference(f) := unfold f; ws_auto.

#[local] Hint Resolve consumeWhitespace_ws : ws.

Lemma parseTokens_ws (toks : list Token) : simW (parseTokens toks).
Proof. induction toks as [|t toks IH]; cbn [parseTokens]; ws_auto. Qed.
#[local] Hint Resolve parseTokens_ws : ws.

Lemma parseInt_ws (min max : Z) : simW (parseInt min max).
Proof. ws_fun parseInt. Qed.
#[local] Hint Resolve parseInt_ws : ws.

Lemma parseUInt32_ws : simW parseUInt32.
Proof. ws_fun parseUInt32. Qed.
#[local] Hint Resolve parseUInt32_ws : ws.

Lemma parseDuration_ws : simW parseDuration.
Proof. ws_fun parseDuration. Qed.
#[local] Hint Resolve parseDuration_ws : ws.

Lemma parseIdent_ws : simW parseIdent.
Proof. ws_fun parseIdent. Qed.
#[local] Hint Resolve parseIdent_ws : ws.

Lemma parseIdentList_ws : simW parseIdentList.
Proof. ws_fun parseIdentList. Qed.
#[local] Hint Resolve parseIdentList_ws : ws.

Lemma parseString_ws : simW parseString.
Proof. ws_fun parseString. Qed.
#[local] Hint Resolve parseString_ws : ws.

Lemma parsePrivilege_ws : simW parsePrivilege.
Proof. ws_fun parsePrivilege. Qed.
#[local] Hint Resolve parsePrivilege_ws : ws.

Lemma parseStringLiteral_ws (pos pos' : Pos) (lit : string) :
  sim Rws (fun _ => Rws) (parseStringLiteral pos lit) (parseStringLiteral pos' lit).
Proof. ws_fun parseStringLiteral. Qed.
#[local] Hint Resolve parseStringLiteral_ws : ws.

(** The three functions of the expression grammar, by induction on the
    fuel of the first run.  [ParseExpr] ends by pushing a token back;
    [parseCall] starts just after the opening parenthesis. *)
Lemma expr_ws (n : nat) :
  forall n', (n <= n')%nat ->
    sim Rws (fun _ => Rlive) (ParseExpr_rec n) (ParseExpr_rec n') /\
    sim Rws (fun _ => Rws) (parseUnaryExpr_rec n) (parseUnaryExpr_rec n') /\
    forall name,
      sim (Rread LPAREN) (fun _ => Rws)
          (parseCall_rec n name) (parseCall_rec n' name).
Proof.
  induction n as [|n IH]; intros n' Hn.
  - repeat split; intros; apply sim_outOfFuel.
  - destruct n' as [|n']; [lia|].
    destruct (IH n' ltac:(lia)) as (IHe & IHu & IHc).
    cbn [ParseExpr_rec parseUnaryExpr_rec parseCall_rec].
    split; [|split; [|intros name]]; ws_auto.
Qed.

Lemma ParseExpr_ws : sim Rws (fun _ => Rlive) ParseExpr ParseExpr.
Proof.
  unfold ParseExpr. apply sim_withFuel; [apply Rws_fuel|].
  intros n n' Hn. apply expr_ws, Hn.
Qed.
#[local] Hint Resolve ParseExpr_ws : ws.

(** *** The functions of the parser *)

Lemma parseRevokeStatement_ws : simW parseRevokeStatement.
Proof.
  unfold parseRevokeStatement, parsePrivilegeStatement, privilegeUser.
  ws_auto.
Qed.
#[local] Hint Resolve parseRevokeStatement_ws : ws.

Lemma parseGrantStatement_ws : simW parseGrantStatement.
Proof.
  unfold parseGrantStatement, parsePrivilegeStatement, privilegeUser.
  ws_auto.
Qed.
#[local] Hint Resolve parseGrantStatement_ws : ws.

Lemma alterOptions_ws (left : nat) :
  forall i stmt, simW (alterOptions left i stmt).
Proof.
  induction left as [|left IH]; intros i stmt; cbn [alterOptions]; ws_auto.
Qed.
#[local] Hint Resolve alterOptions_ws : ws.

Lemma parseTarget_ws (tr : targetRequirement) : simW (parseTarget tr).
Proof. ws_fun parseTarget. Qed.
#[local] Hint Resolve parseTarget_ws : ws.

Lemma parseCreateRetentionPolicyStatement_ws : simW parseCreateRetentionPolicyStatement.
Proof. ws_fun parseCreateRetentionPolicyStatement. Qed.
#[local] Hint Resolve parseCreateRetentionPolicyStatement_ws : ws.

Lemma parseAlterRetentionPolicyStatement_ws : simW parseAlterRetentionPolicyStatement.
Proof. ws_fun parseAlterRetentionPolicyStatement. Qed.
#[local] Hint Resolve parseAlterRetentionPolicyStatement_ws : ws.

Lemma parseAlias_ws : simW parseAlias.
Proof. ws_fun parseAlias. Qed.
#[local] Hint Resolve parseAlias_ws : ws.

Lemma parseField_ws : sim Rws (fun _ => Rcw) parseField parseField.
Proof. ws_fun parseField. Qed.
#[local] Hint Resolve parseField_ws : ws.

Lemma parseFields_ws : simW parseFields.
Proof. ws_fun parseFields. Qed.
#[local] Hint Resolve parseFields_ws : ws.

Lemma parseSource_ws : simW parseSource.
Proof. ws_fun parseSource. Qed.
#[local] Hint Resolve parseSource_ws : ws.

Lemma parseCondition_ws : simW parseCondition.
Proof. ws_fun parseCondition. Qed.
#[local] Hint Resolve parseCondition_ws : ws.

Lemma parseDimension_ws : sim Rws (fun _ => Rcw) parseDimension parseDimension.
Proof. ws_fun parseDimension. Qed.
#[local] Hint Resolve parseDimension_ws : ws.

Lemma parseDimensions_ws : simW parseDimensions.
Proof. ws_fun parseDimensions. Qed.
#[local] Hint Resolve parseDimensions_ws : ws.

Lemma parseSortField_ws : simW parseSortField.
Proof. ws_fun parseSortField. Qed.
#[local] Hint Resolve parseSortField_ws : ws.

Lemma parseSortFields_ws : simW parseSortFields.
Proof. ws_fun parseSortFields. Qed.
#[local] Hint Resolve parseSortFields_ws : ws.

Lemma parseOrderBy_ws : simW parseOrderBy.
Proof. ws_fun parseOrderBy. Qed.
#[local] Hint Resolve parseOrderBy_ws : ws.

Lemma parseOptionalTokenAndInt_ws (t : Token) : simW (parseOptionalTokenAndInt t).
Proof. ws_fun parseOptionalTokenAndInt. Qed.
#[local] Hint Resolve parseOptionalTokenAndInt_ws : ws.

Lemma parseSelectStatement_ws (tr : targetRequirement) :
  simW (parseSelectStatement tr).
Proof. ws_fun parseSelectStatement. Qed.
#[local] Hint Resolve parseSelectStatement_ws : ws.

Lemma parseDeleteStatement_ws : simW parseDeleteStatement.
Proof. ws_fun parseDeleteStatement. Qed.
#[local] Hint Resolve parseDeleteStatement_ws : ws.

Lemma parseOptionalSource_ws : simW parseOptionalSource.
Proof. ws_fun parseOptionalSource. Qed.
#[local] Hint Resolve parseOptionalSource_ws : ws.

Lemma parseShowSeriesStatement_ws : simW parseShowSeriesStatement.
Proof. ws_fun parseShowSeriesStatement. Qed.
#[local] Hint Resolve parseShowSeriesStatement_ws : ws.

Lemma parseShowMeasurementsStatement_ws : simW parseShowMeasurementsStatement.
Proof. ws_fun parseShowMeasurementsStatement. Qed.
#[local] Hint Resolve parseShowMeasurementsStatement_ws : ws.

Lemma parseShowRetentionPoliciesStatement_ws : simW parseShowRetentionPoliciesStatement.
Proof. ws_fun parseShowRetentionPoliciesStatement. Qed.
#[local] Hint Resolve parseShowRetentionPoliciesStatement_ws : ws.

Lemma parseShowTagKeysStatement_ws : simW parseShowTagKeysStatement.
Proof. ws_fun parseShowTagKeysStatement. Qed.
#[local] Hint Resolve parseShowTagKeysStatement_ws : ws.

Lemma parseTagKeys_ws : simW parseTagKeys.
Proof. ws_fun parseTagKeys. Qed.
#[local] Hint Resolve parseTagKeys_ws : ws.

Lemma parseShowTagValuesStatement_ws : simW parseShowTagValuesStatement.
Proof. ws_fun parseShowTagValuesStatement. Qed.
#[local] Hint Resolve parseShowTagValuesStatement_ws : ws.

Lemma parseShowFieldKeysStatement_ws : simW parseShowFieldKeysStatement.
Proof. ws_fun parseShowFieldKeysStatement. Qed.
#[local] Hint Resolve parseShowFieldKeysStatement_ws : ws.

Lemma parseDropMeasurementStatement_ws : simW parseDropMeasurementStatement.
Proof. ws_fun parseDropMeasurementStatement. Qed.
#[local] Hint Resolve parseDropMeasurementStatement_ws : ws.

Lemma parseDropSeriesStatement_ws : simW parseDropSeriesStatement.
Proof. ws_fun parseDropSeriesStatement. Qed.
#[local] Hint Resolve parseDropSeriesStatement_ws : ws.

Lemma parseShowContinuousQueriesStatement_ws : simW parseShowContinuousQueriesStatement.
Proof. ws_fun parseShowContinuousQueriesStatement. Qed.
#[local] Hint Resolve parseShowContinuousQueriesStatement_ws : ws.

Lemma parseCreateContinuousQueryStatement_ws : simW parseCreateContinuousQueryStatement.
Proof. ws_fun parseCreateContinuousQueryStatement. Qed.
#[local] Hint Resolve parseCreateContinuousQueryStatement_ws : ws.

Lemma parseCreateDatabaseStatement_ws : simW parseCreateDatabaseStatement.
Proof. ws_fun parseCreateDatabaseStatement. Qed.
#[local] Hint Resolve parseCreateDatabaseStatement_ws : ws.

Lemma parseDropDatabaseStatement_ws : simW parseDropDatabaseStatement.
Proof. ws_fun parseDropDatabaseStatement. Qed.
#[local] Hint Resolve parseDropDatabaseStatement_ws : ws.

Lemma parseDropRetentionPolicyStatement_ws : simW parseDropRetentionPolicyStatement.
Proof. ws_fun parseDropRetentionPolicyStatement. Qed.
#[local] Hint Resolve parseDropRetentionPolicyStatement_ws : ws.

Lemma parseCreateUserStatement_ws : simW parseCreateUserStatement.
Proof. ws_fun parseCreateUserStatement. Qed.
#[local] Hint Resolve parseCreateUserStatement_ws : ws.

Lemma parseDropUserStatement_ws : simW parseDropUserStatement.
Proof. ws_fun parseDropUserStatement. Qed.
#[local] Hint Resolve parseDropUserStatement_ws : ws.

Lemma parseDropContinuousQueryStatement_ws : simW parseDropContinuousQueryStatement.
Proof. ws_fun parseDropContinuousQueryStatement. Qed.
#[local] Hint Resolve parseDropContinuousQueryStatement_ws : ws.

Lemma parseShowStatement_ws : simW parseShowStatement.
Proof. ws_fun parseShowStatement. Qed.
#[local] Hint Resolve parseShowStatement_ws : ws.

Lemma parseCreateStatement_ws : simW parseCreateStatement.
Proof. ws_fun parseCreateStatement. Qed.
#[local] Hint Resolve parseCreateStatement_ws : ws.

Lemma parseDropStatement_ws : simW parseDropStatement.
Proof. ws_fun parseDropStatement. Qed.
#[local] Hint Resolve parseDropStatement_ws : ws.

Lemma parseAlterStatement_ws : simW parseAlterStatement.
Proof. ws_fun parseAlterStatement. Qed.
#[local] Hint Resolve parseAlterStatement_ws : ws.

Lemma ParseStatement_ws : simW ParseStatement.
Proof. ws_fun ParseStatement. Qed.
#[local] Hint Resolve ParseStatement_ws : ws.

Lemma ParseQuery_ws : simW ParseQuery.
Proof. unfold ParseQuery, parseStatements. ws_auto. Qed.


End Whitespace.










(** The other two pairs of neighbours are read raw as well: [f()] is a call
    and [f( )] is rejected, [join(a, b)] is a join and [join(a , b)] is
    rejected. *)
Example whitespace_inside_call_and_join :
  (ParseExprTokens (H := noLiterals)
     [lexeme 0 IDENT "f"; lexeme 1 LPAREN ""; lexeme 2 RPAREN ""] (mkPos 0 3)
   = Parsed (Call "f" []) /\
   ParseExprTokens (H := noLiterals)
     [lexeme 0 IDENT "f"; lexeme 1 LPAREN ""; lexeme 2 WS " ";
      lexeme 3 RPAREN ""] (mkPos 0 4)
   = Rejected (newParseError ")" ["identifier"; "string"; "number"; "bool"]
                 (mkPos 0 3))) /\
  ParseQueryTokens (H := noLiterals)
    [ lexeme 0 SELECT ""; lexeme 6 WS " "; lexeme 7 MUL ""; lexeme 8 WS " ";
      lexeme 9 FROM ""; lexeme 13 WS " "; lexeme 14 IDENT "join";
      lexeme 18 LPAREN ""; lexeme 19 IDENT "a"; lexeme 20 WS " ";
      lexeme 21 COMMA ""; lexeme 22 WS " "; lexeme 23 IDENT "b";
      lexeme 24 RPAREN "" ] (mkPos 0 25)
  = Rejected (newParseError "," [")"] (mkPos 0 21)).
Proof. repeat split; vm_compute; reflexivity. Qed.

(** * Further properties

    ** The expression tree built by [ParseExpr] *)

(** The operands of an expression tree, from left to right, and the
    operators between them. *)
Fixpoint operands (e : Expr) : list Expr :=
  match e with
  | BinaryExpr _ l r => operands l ++ operands r
  | _ => [e]
  end.

Fixpoint operators (e : Expr) : list Token :=
  match e with
  | BinaryExpr op l r => operators l ++ op :: operators r
  | _ => []
  end.

(** X1.  Whatever the precedences are, the new root that [ParseExpr]
    builds keeps the operands and the operators in the order of the input:
    the rotation moves no operand past another. *)
Theorem newRoot_keeps_order (expr : Expr) (op : Token) (rhs : Expr) :
  operands (newRoot expr op rhs) = operands expr ++ operands rhs /\
  operators (newRoot expr op rhs) = operators expr ++ op :: operators rhs.
Proof.
  destruct expr as [lop l r| | | | | | | | | |];
    try (split; reflexivity).
  unfold newRoot. destruct (Precedence lop <? Precedence op).
  - cbn [operands operators]. split.
    + now rewrite app_assoc.
    + now rewrite <- app_assoc.
  - split; reflexivity.
Qed.

(** ** Durations *)

Lemma wrap64_mul_l (a b : Z) : wrap64 (wrap64 a * b) = wrap64 (a * b).
Proof.
  unfold wrap64. f_equal.
  pose proof (Z.div_mod (a + 2 ^ 63) (2 ^ 64) ltac:(lia)) as H.
  replace (((a + 2 ^ 63) mod 2 ^ 64 - 2 ^ 63) * b + 2 ^ 63)
    with (a * b + 2 ^ 63 + (- ((a + 2 ^ 63) / 2 ^ 64) * b) * 2 ^ 64) by lia.
  apply Z_mod_plus_full.
Qed.

Lemma decode_ascii_app (s t : string) :
  asciiOnly s = true ->
  Utf8.decode (s ++ t) = (map byteZ (list_ascii_of_string s) ++ Utf8.decode t)%list.
Proof.
  induction s as [|c s IH]; intros H; [reflexivity|].
  cbn [asciiOnly] in H. apply andb_true_iff in H as [Hc Hs].
  cbn [String.append Utf8.decode list_ascii_of_string map app].
  cbv zeta. rewrite Hc. now rewrite IH.
Qed.

(** The unit [µ], which is one rune and two bytes. *)
Lemma ParseDuration_micro (ds : string) :
  allDigits ds = true -> 0 < len ds ->
  ParseDuration (ds ++ micro) =
  match ParseInt ds 64 with
  | (n, None) => Some (mul64 n time.Microsecond)
  | _ => None
  end.
Proof.
  intros Hd Hl. unfold ParseDuration.
  rewrite len_append. change (len micro) with 2.
  assert ((len ds + 2 =? 0) = false) as -> by (apply Z.eqb_neq; lia).
  assert ((len ds + 2 =? 1) = false) as -> by (apply Z.eqb_neq; lia).
  unfold split. rewrite decode_ascii_app by (now apply allDigits_asciiOnly).
  change (Utf8.decode micro) with [181].
  rewrite length_app, length_map, list_ascii_length. cbn [List.length].
  replace (String.length ds + 1 - 1)%nat with (String.length ds) by lia.
  rewrite app_nth2; rewrite length_map, list_ascii_length; [|lia].
  rewrite Nat.sub_diag. cbn [nth]. change (isDigit 181) with false.
  cbv beta iota.
  assert (Hms : String.eqb (lastTwoBytes (ds ++ micro)) "ms" = false).
  { unfold micro. rewrite lastTwoBytes_app. reflexivity. }
  rewrite Hms, andb_false_r.
  rewrite firstn_app, length_map, list_ascii_length, Nat.sub_diag.
  rewrite firstn_all2 by (rewrite length_map, list_ascii_length; lia).
  cbn [firstn]. rewrite app_nil_r.
  rewrite skipn_app, length_map, list_ascii_length, Nat.sub_diag.
  rewrite skipn_all2 by (rewrite length_map, list_ascii_length; lia).
  cbn [skipn app].
  rewrite encode_ascii
    by (rewrite <- asciiOnly_forallb; now apply allDigits_asciiOnly).
  rewrite string_of_list_ascii_of_string.
  change (Utf8.encode [181]) with micro.
  destruct (ParseInt ds 64) as [n [e|]]; reflexivity.
Qed.

(** The units of the [switch] of [ParseDuration], each with the number of
    nanoseconds it stands for. *)
Definition durationUnits : list (string * Z) :=
  [ ("u", 1000); (micro, 1000); ("ms", 1000000); ("s", 1000000000);
    ("m", 60000000000); ("h", 3600000000000); ("d", 86400000000000);
    ("w", 604800000000000) ].

(** X2.  A decimal numeral followed by one of the units u, µ, ms, s, m, h,
    d, w parses to the number times the unit, and a bare numeral of two or
    more digits to microseconds; the product wraps around silently when it
    does not fit in 64 bits, and only a numeral beyond the largest int64 is
    rejected.  Another one-letter ASCII unit is rejected. *)
Theorem ParseDuration_units (ds : string) :
  allDigits ds = true -> 0 < len ds ->
  let n := digitsValue 0 ds in
  ParseDuration ds =
    (if n <=? maxInt64 then Some (wrap64 (n * 1000)) else None) /\
  (forall u k, In (u, k) durationUnits ->
     ParseDuration (ds ++ u) =
     if n <=? maxInt64 then Some (wrap64 (n * k)) else None) /\
  (forall c : ascii,
     byteZ c < 128 -> isDigit (byteZ c) = false ->
     ~ In (String c "") (map fst durationUnits) ->
     ParseDuration (ds ++ String c "") = None).
Proof.
  intros Hd Hl n.
  pose proof (ParseInt_digits ds Hd Hl) as HP. fold n in HP.
  split; [|split].
  - rewrite ParseDuration_digits, HP by assumption.
    destruct (n <=? maxInt64); reflexivity.
  - intros u k Hin. cbn [In durationUnits] in Hin.
    destruct Hin as [E|[E|[E|[E|[E|[E|[E|[E|[]]]]]]]]]; injection E as <- <-.
    + rewrite ParseDuration_unit, HP by (assumption || reflexivity).
      destruct (n <=? maxInt64); reflexivity.
    + rewrite ParseDuration_micro, HP by assumption.
      destruct (n <=? maxInt64); reflexivity.
    + rewrite ParseDuration_ms, HP by assumption.
      destruct (n <=? maxInt64); reflexivity.
    + rewrite ParseDuration_unit, HP by (assumption || reflexivity).
      destruct (n <=? maxInt64); reflexivity.
    + rewrite ParseDuration_unit, HP by (assumption || reflexivity).
      destruct (n <=? maxInt64); reflexivity.
    + rewrite ParseDuration_unit, HP by (assumption || reflexivity).
      destruct (n <=? maxInt64); reflexivity.
    + rewrite ParseDuration_unit, HP by (assumption || reflexivity).
      destruct (n <=? maxInt64); [|reflexivity].
      cbv beta iota zeta.
      change (String.eqb "d" "u" || String.eqb "d" micro) with false.
      cbn [String.eqb Ascii.eqb Bool.eqb]. cbv beta iota.
      unfold mul64. rewrite wrap64_mul_l. do 2 f_equal.
      change time.Hour with 3600000000000. lia.
    + rewrite ParseDuration_unit, HP by (assumption || reflexivity).
      destruct (n <=? maxInt64); [|reflexivity].
      cbv beta iota zeta.
      change (String.eqb "w" "u" || String.eqb "w" micro) with false.
      cbn [String.eqb Ascii.eqb Bool.eqb]. cbv beta iota.
      unfold mul64. rewrite wrap64_mul_l, <- Z.mul_assoc, wrap64_mul_l.
      do 2 f_equal. change time.Hour with 3600000000000. lia.
  - intros c Hc Hnd Hnot.
    rewrite ParseDuration_unit, HP
      by (assumption || (apply Z.ltb_lt; assumption)).
    destruct (n <=? maxInt64); [|reflexivity].
    cbv beta iota zeta.
    assert (Hne : forall u, In u (map fst durationUnits) ->
                  String.eqb (String c "") u = false).
    { intros u Hu. apply String.eqb_neq. intros E. subst u. exact (Hnot Hu). }
    cbn [map fst durationUnits In] in Hne.
    rewrite !Hne by tauto. reflexivity.
Qed.

Lemma ParseDuration_units_witness :
  ParseDuration "90m" = Some 5400000000000 /\
  ParseDuration "90" = Some 90000 /\
  ParseDuration "90x" = None.
Proof.
  destruct (ParseDuration_units "90" eq_refl eq_refl) as (H1 & H2 & H3).
  split; [|split].
  - exact (H2 "m" 60000000000 ltac:(cbn; tauto)).
  - exact H1.
  - apply (H3 "x"%char); [reflexivity | reflexivity |].
    cbn. intros [H|[H|[H|[H|[H|[H|[H|[H|[]]]]]]]]]; discriminate H.
Defined.

(** *** Negative durations *)

Lemma isDigitByte_ascii (c : ascii) : isDigitByte c = true -> (byteZ c <? 128) = true.
Proof.
  intros H. apply isDigitByte_range in H. apply Z.ltb_lt. lia.
Qed.

(** A numeral: an ASCII prefix (a sign, more digits) and a last digit. *)
Lemma numeral_asciiOnly (pre : string) (dl : ascii) :
  asciiOnly pre = true -> isDigitByte dl = true ->
  asciiOnly (pre ++ String dl "") = true.
Proof.
  intros Hp Hd. rewrite asciiOnly_app, Hp. cbn [asciiOnly].
  now rewrite isDigitByte_ascii.
Qed.

Lemma ParseDuration_numeral_unit (pre : string) (dl u : ascii) :
  asciiOnly pre = true -> isDigitByte dl = true ->
  (byteZ u <? 128) = true -> isDigit (byteZ u) = false ->
  ParseDuration ((pre ++ String dl "") ++ String u "") =
  match ParseInt (pre ++ String dl "") 64 with
  | (n, None) =>
    let uom := String u "" in
    if String.eqb uom "u" || String.eqb uom micro
    then Some (mul64 n time.Microsecond)
    else if String.eqb uom "ms" then Some (mul64 n time.Millisecond)
    else if String.eqb uom "s" then Some (mul64 n time.Second)
    else if String.eqb uom "m" then Some (mul64 n time.Minute)
    else if String.eqb uom "h" then Some (mul64 n time.Hour)
    else if String.eqb uom "d" then Some (mul64 (mul64 n 24) time.Hour)
    else if String.eqb uom "w" then Some (mul64 (mul64 (mul64 n 7) 24) time.Hour)
    else None
  | _ => None
  end.
Proof.
  intros Hp Hdl Hu Hnd.
  pose proof (numeral_asciiOnly pre dl Hp Hdl) as Hnum.
  set (num := (pre ++ String dl "")%string) in *.
  assert (Hl : 0 < len num).
  { unfold num. rewrite len_append. change (len (String dl "")) with 1.
    pose proof (len_nonneg pre). lia. }
  unfold ParseDuration.
  rewrite len_append. change (len (String u "")) with 1.
  assert ((len num + 1 =? 0) = false) as -> by (apply Z.eqb_neq; lia).
  assert ((len num + 1 =? 1) = false) as -> by (apply Z.eqb_neq; lia).
  assert (Ha : asciiOnly (num ++ String u "") = true).
  { rewrite asciiOnly_app, Hnum. cbn [asciiOnly]. rewrite Hu. reflexivity. }
  unfold split. rewrite decode_ascii by exact Ha.
  rewrite list_ascii_app, map_app, length_app, length_map, list_ascii_length.
  cbn [list_ascii_of_string map List.length].
  replace (String.length num + 1 - 1)%nat with (String.length num) by lia.
  rewrite app_nth2; rewrite length_map, list_ascii_length; [|lia].
  rewrite Nat.sub_diag. cbn [nth]. rewrite Hnd.
  assert (Hms : String.eqb (lastTwoBytes (num ++ String u "")) "ms" = false).
  { unfold num. rewrite append_assoc. cbn [String.append].
    rewrite lastTwoBytes_app.
    cbn [String.eqb]. destruct (Ascii.eqb dl "m") eqn:Em; [|reflexivity].
    apply Ascii.eqb_eq in Em. subst dl. cbn in Hdl. discriminate. }
  rewrite Hms, andb_false_r.
  rewrite firstn_app, length_map, list_ascii_length, Nat.sub_diag.
  rewrite firstn_all2 by (rewrite length_map, list_ascii_length; lia).
  cbn [firstn]. rewrite app_nil_r.
  rewrite skipn_app, length_map, list_ascii_length, Nat.sub_diag.
  rewrite skipn_all2 by (rewrite length_map, list_ascii_length; lia).
  cbn [skipn app].
  rewrite encode_ascii by (rewrite <- asciiOnly_forallb; exact Hnum).
  rewrite string_of_list_ascii_of_string.
  change [byteZ u] with (map byteZ [u]).
  rewrite encode_ascii by (cbn [forallb]; now rewrite Hu).
  cbn [string_of_list_ascii]. reflexivity.
Qed.

Lemma ParseDuration_numeral_ms (pre : string) (dl : ascii) :
  asciiOnly pre = true -> isDigitByte dl = true ->
  ParseDuration ((pre ++ String dl "") ++ "ms") =
  match ParseInt (pre ++ String dl "") 64 with
  | (n, None) => Some (mul64 n time.Millisecond)
  | _ => None
  end.
Proof.
  intros Hp Hdl.
  pose proof (numeral_asciiOnly pre dl Hp Hdl) as Hnum.
  set (num := (pre ++ String dl "")%string) in *.
  assert (Hl : 0 <= len num) by apply len_nonneg.
  unfold ParseDuration.
  rewrite len_append. change (len "ms") with 2.
  assert ((len num + 2 =? 0) = false) as -> by (apply Z.eqb_neq; lia).
  assert ((len num + 2 =? 1) = false) as -> by (apply Z.eqb_neq; lia).
  assert (Ha : asciiOnly (num ++ "ms") = true).
  { rewrite asciiOnly_app, Hnum. reflexivity. }
  unfold split. rewrite decode_ascii by exact Ha.
  rewrite list_ascii_app, map_app, length_app, length_map, list_ascii_length.
  cbn [list_ascii_of_string map List.length].
  rewrite app_nth2; rewrite length_map, list_ascii_length; [|lia].
  replace (String.length num + 2 - 1 - String.length num)%nat with 1%nat by lia.
  cbn [nth].
  change (isDigit (byteZ "s")) with false. cbv beta iota.
  assert ((2 <? len num + 2) = true) as ->.
  { apply Z.ltb_lt. unfold num. rewrite len_append.
    change (len (String dl "")) with 1. pose proof (len_nonneg pre). lia. }
  rewrite lastTwoBytes_app. cbn [andb].
  change (String.eqb "ms" "ms") with true. cbv beta iota.
  replace (String.length num + 2 - 2)%nat with (String.length num) by lia.
  rewrite firstn_app, length_map, list_ascii_length, Nat.sub_diag.
  rewrite firstn_all2 by (rewrite length_map, list_ascii_length; lia).
  cbn [firstn]. rewrite app_nil_r.
  rewrite encode_ascii by (rewrite <- asciiOnly_forallb; exact Hnum).
  rewrite string_of_list_ascii_of_string.
  destruct (ParseInt num 64) as [n [e|]]; reflexivity.
Qed.

(** A numeral of two bytes or more without a unit counts microseconds. *)
Lemma ParseDuration_numeral (pre : string) (dl : ascii) :
  asciiOnly pre = true -> isDigitByte dl = true -> 0 < len pre ->
  ParseDuration (pre ++ String dl "") =
  match ParseInt (pre ++ String dl "") 64 with
  | (n, None) => Some (mul64 n time.Microsecond)
  | _ => None
  end.
Proof.
  intros Hp Hdl Hl.
  pose proof (numeral_asciiOnly pre dl Hp Hdl) as Hnum.
  unfold ParseDuration.
  rewrite len_append. change (len (String dl "")) with 1.
  assert ((len pre + 1 =? 0) = false) as -> by (apply Z.eqb_neq; lia).
  assert ((len pre + 1 =? 1) = false) as -> by (apply Z.eqb_neq; lia).
  unfold split. rewrite decode_ascii by exact Hnum.
  rewrite length_map, list_ascii_length.
  rewrite list_ascii_app, map_app, string_length_app.
  cbn [String.length list_ascii_of_string map].
  rewrite app_nth2; rewrite length_map, list_ascii_length; [|lia].
  replace (String.length pre + 1 - 1 - String.length pre)%nat with 0%nat by lia.
  cbn [nth].
  assert (isDigit (byteZ dl) = true) as -> by exact Hdl.
  destruct (ParseInt (pre ++ String dl "") 64) as [n [e|]]; reflexivity.
Qed.

(** [FormatInt] of a negative number: the sign, then a numeral. *)
Lemma FormatInt_negative (n : Z) :
  minInt64 <= n < 0 ->
  exists pre dl,
    FormatInt n = (String "-" pre ++ String dl "")%string /\
    asciiOnly (String "-" pre) = true /\ isDigitByte dl = true /\
    ParseInt (FormatInt n) 64 = (n, None).
Proof.
  intros Hn. unfold FormatInt.
  assert ((n <? 0) = true) as -> by (apply Z.ltb_lt; lia).
  destruct (FormatUint_spec (- n)) as (Hd & Hl & Hv);
    [unfold minInt64 in Hn; lia|].
  destruct (allDigits_last _ Hd Hl) as (pre & dl & E & Hdl).
  exists pre, dl. split; [|split; [|split]].
  - cbn [String.append]. now rewrite E.
  - cbn [asciiOnly]. change (byteZ "-" <? 128) with true. cbn [andb].
    assert (Ha : asciiOnly (FormatUint (- n)) = true)
      by (now apply allDigits_asciiOnly).
    rewrite E, asciiOnly_app in Ha. now apply andb_true_iff in Ha as [Ha _].
  - exact Hdl.
  - cbn [String.append ParseInt].
    change (Ascii.eqb "-" "-") with true. change (Ascii.eqb "-" "+") with false.
    cbv beta iota zeta. cbn [orb].
    rewrite ParseUint_digits by (assumption || lia).
    rewrite Hv.
    assert ((- n <=? 2 ^ 64 - 1) = true) as ->
      by (apply Z.leb_le; unfold minInt64 in Hn; lia).
    cbv beta iota. cbn [negb andb].
    assert ((2 ^ (64 - 1) <? - n) = false) as ->
      by (apply Z.ltb_ge; unfold minInt64 in Hn; lia).
    f_equal. lia.
Qed.

Lemma quot64_exact_negative (d u : Z) :
  minInt64 <= d < 0 -> 0 < u -> rem64 d u = 0 ->
  quot64 d u = Z.quot d u /\ d = u * Z.quot d u /\ minInt64 <= Z.quot d u < 0.
Proof.
  intros Hd Hu Hr. unfold rem64, quot64 in *.
  pose proof (Z.quot_rem' d u) as Hqr. rewrite Hr in Hqr.
  assert (Hq : minInt64 <= Z.quot d u < 0) by (unfold minInt64 in *; nia).
  split; [|split]; [|lia|exact Hq].
  apply wrap64_id. unfold in_int64, minInt64, maxInt64 in *. lia.
Qed.

Ltac negative_unit d U :=
  let E1 := fresh "E" in let E2 := fresh "E" in let E3 := fresh "E" in
  let pre := fresh "pre" in let dl := fresh "dl" in
  let F1 := fresh "F" in let F2 := fresh "F" in
  let F3 := fresh "F" in let F4 := fresh "F" in
  match goal with
  | H : (rem64 d U =? 0) = true |- _ =>
    apply Z.eqb_eq in H;
    destruct (quot64_exact_negative d U ltac:(assumption) ltac:(reflexivity) H)
      as (E1 & E2 & E3);
    rewrite E1;
    destruct (FormatInt_negative (Z.quot d U) E3) as (pre & dl & F1 & F2 & F3 & F4);
    rewrite F1 in F4 |- *
  end.

Ltac numeral_known :=
  match goal with
  | H : ParseInt _ 64 = (_, None) |- _ => rewrite H
  end.

(** X3.  The round trip of [FormatDuration] and [ParseDuration] holds for
    negative durations as well: every negative duration that is a whole
    number of microseconds is formatted with a sign and parsed back to
    itself. *)
Theorem ParseDuration_FormatDuration_negative (d : Z) :
  minInt64 <= d < 0 -> Z.rem d time.Microsecond = 0 ->
  ParseDuration (FormatDuration d) = Some d.
Proof.
  intros Hd Hmicro. unfold FormatDuration.
  assert ((d =? 0) = false) as -> by (apply Z.eqb_neq; lia).
  assert (Hfin : forall q, minInt64 <= q < 0 -> forall k, 0 < k ->
                 minInt64 <= k * q -> mul64 q k = k * q).
  { intros q Hq k Hk Hkq. unfold mul64. rewrite wrap64_id; [lia|].
    unfold in_int64, minInt64, maxInt64 in *. nia. }
  destruct (rem64 d (7 * 24 * time.Hour) =? 0) eqn:Ew.
  { negative_unit d (7 * 24 * time.Hour).
    rewrite ParseDuration_numeral_unit by (assumption || reflexivity).
    numeral_known.
    cbv beta iota zeta.
    change (String.eqb "w" "u" || String.eqb "w" micro) with false.
    cbn [String.eqb Ascii.eqb Bool.eqb]. cbv beta iota.
    set (q := Z.quot d (7 * 24 * time.Hour)) in *.
    change (7 * 24 * time.Hour) with 604800000000000 in *.
    change time.Hour with 3600000000000.
    rewrite (Hfin q) by lia. rewrite (Hfin (7 * q)) by (unfold minInt64 in *; lia).
    rewrite (Hfin (24 * (7 * q))) by (unfold minInt64 in *; lia). f_equal. lia. }
  destruct (rem64 d (24 * time.Hour) =? 0) eqn:Ed.
  { negative_unit d (24 * time.Hour).
    rewrite ParseDuration_numeral_unit by (assumption || reflexivity).
    numeral_known.
    cbv beta iota zeta.
    change (String.eqb "d" "u" || String.eqb "d" micro) with false.
    cbn [String.eqb Ascii.eqb Bool.eqb]. cbv beta iota.
    set (q := Z.quot d (24 * time.Hour)) in *.
    change (24 * time.Hour) with 86400000000000 in *.
    change time.Hour with 3600000000000.
    rewrite (Hfin q) by lia. rewrite (Hfin (24 * q)) by (unfold minInt64 in *; lia).
    f_equal. lia. }
  destruct (rem64 d time.Hour =? 0) eqn:Eh.
  { negative_unit d time.Hour.
    rewrite ParseDuration_numeral_unit by (assumption || reflexivity).
    numeral_known.
    cbv beta iota zeta.
    change (String.eqb "h" "u" || String.eqb "h" micro) with false.
    cbn [String.eqb Ascii.eqb Bool.eqb]. cbv beta iota.
    rewrite Hfin; [f_equal; lia | assumption | reflexivity | lia]. }
  destruct (rem64 d time.Minute =? 0) eqn:Em.
  { negative_unit d time.Minute.
    rewrite ParseDuration_numeral_unit by (assumption || reflexivity).
    numeral_known.
    cbv beta iota zeta.
    change (String.eqb "m" "u" || String.eqb "m" micro) with false.
    cbn [String.eqb Ascii.eqb Bool.eqb]. cbv beta iota.
    rewrite Hfin; [f_equal; lia | assumption | reflexivity | lia]. }
  destruct (rem64 d time.Second =? 0) eqn:Es.
  { negative_unit d time.Second.
    rewrite ParseDuration_numeral_unit by (assumption || reflexivity).
    numeral_known.
    cbv beta iota zeta.
    change (String.eqb "s" "u" || String.eqb "s" micro) with false.
    cbn [String.eqb Ascii.eqb Bool.eqb]. cbv beta iota.
    rewrite Hfin; [f_equal; lia | assumption | reflexivity | lia]. }
  destruct (rem64 d time.Millisecond =? 0) eqn:Ems.
  { negative_unit d time.Millisecond.
    rewrite ParseDuration_numeral_ms by assumption. numeral_known.
    rewrite Hfin; [f_equal; lia | assumption | reflexivity | lia]. }
  assert (Hr : (rem64 d time.Microsecond =? 0) = true)
    by (apply Z.eqb_eq; exact Hmicro).
  negative_unit d time.Microsecond.
  rewrite ParseDuration_numeral
    by (assumption || (unfold len; cbn [String.length]; lia)).
  numeral_known.
  rewrite Hfin; [f_equal; lia | assumption | reflexivity | lia].
Qed.

Lemma ParseDuration_FormatDuration_negative_witness :
  FormatDuration (- 5400000000000) = "-90m" /\
  ParseDuration (FormatDuration (- 5400000000000)) = Some (- 5400000000000).
Proof.
  split; [reflexivity|].
  apply (ParseDuration_FormatDuration_negative (- 5400000000000));
    [unfold minInt64; lia | reflexivity].
Defined.

(** ** Quoting *)

(** [strings.NewReplacer("\n", `\n`, `\`, `\\`, q, `\q`).Replace]: the
    three old strings are single bytes, so the replacer works byte by
    byte.  [q] is the quote character. *)
Definition newline : ascii := ascii_of_nat 10.
Definition backslash : ascii := ascii_of_nat 92.

Definition Replacer_byte (q c : ascii) : string :=
  if Ascii.eqb c newline then String backslash (String "n" "")
  else if Ascii.eqb c backslash then String backslash (String backslash "")
  else if Ascii.eqb c q then String backslash (String q "")
  else String c "".

Fixpoint Replacer_Replace (q : ascii) (s : string) : string :=
  match s with
  | EmptyString => EmptyString
  | String c t => (Replacer_byte q c ++ Replacer_Replace q t)%string
  end.

(** [QuoteString] returns a quoted string. *)
Definition QuoteString (s : string) : string :=
  ("'" ++ Replacer_Replace "'" s ++ "'")%string.

(** The loop of [QuoteIdent]: [i] is the index of the first of
    [segments], [last] is [len(segments)-1], [buf] the buffer. *)
Fixpoint QuoteIdent_loop (segments : list string) (last i : Z) (buf : string)
  : string :=
  match segments with
  | [] => buf
  | segment :: rest =>
    let buf := (buf ++ dquote ++ Replacer_Replace (ascii_of_nat 34) segment
                ++ dquote)%string in
    let buf := if i <? last then (buf ++ ".")%string else buf in
    QuoteIdent_loop rest last (i + 1) buf
  end.

(** [QuoteIdent] returns a quoted identifier from multiple bare
    identifiers. *)
Definition QuoteIdent (segments : list string) : string :=
  QuoteIdent_loop segments (Z.of_nat (List.length segments) - 1) 0 "".

Lemma append_inj_l (s t u : string) : (s ++ t)%string = (s ++ u)%string -> t = u.
Proof.
  induction s as [|c s IH]; cbn [String.append]; intros H; [exact H|].
  injection H as H. auto.
Qed.

(** The escaped text is a prefix code: what follows it, starting with the
    quote character, determines where it ends. *)
Lemma Replacer_Replace_cancel (q : ascii) :
  q <> backslash -> q <> "n"%char ->
  forall s t x y,
    (Replacer_Replace q s ++ String q x)%string
    = (Replacer_Replace q t ++ String q y)%string ->
    s = t /\ x = y.
Proof.
  intros Hq1 Hq2.
  induction s as [|c s IH]; intros [|d t] x y H.
  - cbn [Replacer_Replace String.append] in H. injection H as ->. auto.
  - exfalso. cbn [Replacer_Replace String.append] in H. unfold Replacer_byte in H.
    destruct (Ascii.eqb_spec d newline); [|destruct (Ascii.eqb_spec d backslash);
      [|destruct (Ascii.eqb_spec d q)]];
      cbn [String.append] in H; injection H as H _; congruence.
  - exfalso. cbn [Replacer_Replace String.append] in H. unfold Replacer_byte in H.
    destruct (Ascii.eqb_spec c newline); [|destruct (Ascii.eqb_spec c backslash);
      [|destruct (Ascii.eqb_spec c q)]];
      cbn [String.append] in H; injection H as H _; congruence.
  - cbn [Replacer_Replace] in H. rewrite !append_assoc in H.
    unfold Replacer_byte in H.
    assert (Hn : newline <> backslash) by discriminate.
    assert (Hb : backslash <> "n"%char) by discriminate.
    destruct (Ascii.eqb_spec c newline); [|destruct (Ascii.eqb_spec c backslash);
      [|destruct (Ascii.eqb_spec c q)]];
    (destruct (Ascii.eqb_spec d newline); [|destruct (Ascii.eqb_spec d backslash);
      [|destruct (Ascii.eqb_spec d q)]]);
    cbn [String.append] in H;
    try (injection H as H1 H2 H; try congruence;
         destruct (IH t x y H) as [-> ->]; split; congruence);
    try (injection H as H1 H; try congruence;
         destruct (IH t x y H) as [-> ->]; split; congruence);
    try (injection H as H;
         destruct (IH t x y H) as [-> ->]; split; congruence);
    try (exfalso; injection H as H1 H2; congruence).
Qed.

Lemma Replacer_Replace_no_newline (q : ascii) (s : string) :
  q <> newline ->
  ~ In newline (list_ascii_of_string (Replacer_Replace q s)).
Proof.
  intros Hq. induction s as [|c s IH]; [intros []|].
  cbn [Replacer_Replace]. rewrite list_ascii_app, in_app_iff.
  intros [H|H]; [|exact (IH H)].
  unfold Replacer_byte in H.
  destruct (Ascii.eqb_spec c newline); [|destruct (Ascii.eqb_spec c backslash);
    [|destruct (Ascii.eqb_spec c q)]];
    cbn [list_ascii_of_string In] in H;
    repeat (destruct H as [H|H]; [try discriminate H; congruence|]);
    exact H.
Qed.

(** X4.  [QuoteString] loses nothing and yields one line: different
    strings have different quotations, and no quotation holds a newline
    byte. *)
Theorem QuoteString_faithful :
  (forall s t, QuoteString s = QuoteString t -> s = t) /\
  (forall s, ~ In newline (list_ascii_of_string (QuoteString s))).
Proof.
  split.
  - intros s t H. unfold QuoteString in H. cbn [String.append] in H.
    injection H as H.
    apply (Replacer_Replace_cancel "'"%char) in H; [tauto| |]; discriminate.
  - intros s H. unfold QuoteString in H. cbn [String.append] in H.
    cbn [list_ascii_of_string In] in H. destruct H as [H|H]; [discriminate H|].
    rewrite list_ascii_app, in_app_iff in H. destruct H as [H|H].
    + revert H. apply Replacer_Replace_no_newline. discriminate.
    + cbn in H. destruct H as [H|[]]. discriminate H.
Qed.

(** One segment between double quotes. *)
Definition quotedSegment (segment : string) : string :=
  (dquote ++ Replacer_Replace (ascii_of_nat 34) segment ++ dquote)%string.

Lemma QuoteIdent_loop_Join (segments : list string) :
  forall last i buf,
    last = i + Z.of_nat (List.length segments) - 1 ->
    QuoteIdent_loop segments last i buf
    = (buf ++ strings_Join (map quotedSegment segments) ".")%string.
Proof.
  induction segments as [|segment rest IH]; intros last i buf Hlast.
  - cbn [QuoteIdent_loop map strings_Join]. now rewrite append_nil_r.
  - cbn [QuoteIdent_loop]. cbv zeta.
    rewrite IH by (cbn [List.length] in Hlast; lia).
    fold (quotedSegment segment).
    destruct rest as [|s2 rest].
    + cbn [List.length] in Hlast.
      assert ((i <? last) = false) as -> by (apply Z.ltb_ge; lia).
      cbn [map strings_Join]. now rewrite append_nil_r.
    + assert ((i <? last) = true) as ->
        by (apply Z.ltb_lt; cbn [List.length] in Hlast; lia).
      change (strings_Join (map quotedSegment (segment :: s2 :: rest)) ".")
        with (quotedSegment segment ++ "." ++ strings_Join (map quotedSegment (s2 :: rest)) ".")%string.
      now rewrite !append_assoc.
Qed.

Lemma QuoteIdent_Join (segments : list string) :
  QuoteIdent segments = strings_Join (map quotedSegment segments) ".".
Proof.
  unfold QuoteIdent. rewrite QuoteIdent_loop_Join by lia. reflexivity.
Qed.

(** X5.  [QuoteIdent] is the quoted segments joined by dots, and it loses
    nothing: different lists of segments have different quotations, even
    when a segment holds a dot or a double quote. *)
Theorem QuoteIdent_faithful :
  (forall segments,
      QuoteIdent segments = strings_Join (map quotedSegment segments) ".") /\
  (forall segments segments',
      QuoteIdent segments = QuoteIdent segments' -> segments = segments').
Proof.
  split; [exact QuoteIdent_Join|].
  intros segments segments'. rewrite !QuoteIdent_Join.
  revert segments'.
  assert (Hcons : forall s rest,
    strings_Join (map quotedSegment (s :: rest)) "." =
    (String (ascii_of_nat 34)
       (Replacer_Replace (ascii_of_nat 34) s ++
        String (ascii_of_nat 34)
          match rest with
          | [] => ""
          | _ :: _ => String "." (strings_Join (map quotedSegment rest) ".")
          end))%string).
  { intros s [|s2 rest].
    - cbn [map strings_Join]. unfold quotedSegment, dquote.
      cbn [String.append]. reflexivity.
    - change (strings_Join (map quotedSegment (s :: s2 :: rest)) ".")
        with (quotedSegment s ++ "." ++ strings_Join (map quotedSegment (s2 :: rest)) ".")%string.
      unfold quotedSegment at 1, dquote. cbn [String.append].
      rewrite !append_assoc. reflexivity. }
  induction segments as [|s rest IH]; intros [|s' rest'] H.
  - reflexivity.
  - rewrite Hcons in H. discriminate H.
  - rewrite Hcons in H. discriminate H.
  - rewrite !Hcons in H. injection H as H.
    apply Replacer_Replace_cancel in H; [|discriminate|discriminate].
    destruct H as [-> H]. f_equal.
    destruct rest as [|r rest], rest' as [|r' rest'];
      [reflexivity | discriminate H | discriminate H |].
    injection H as H. exact (IH (r' :: rest') H).
Qed.

(** ** Date literals *)

Lemma afterDate_length (s rest : string) :
  afterDate s = Some rest ->
  String.length s = (10 + String.length rest)%nat.
Proof.
  unfold afterDate.
  do 10 (destruct s as [|? s]; [discriminate|]).
  match goal with |- (if ?c then _ else _) = _ -> _ => destruct c end;
    [|discriminate].
  intros H. injection H as <-. reflexivity.
Qed.

(** X6.  A date string has exactly ten bytes and a date-time string more
    than ten, so no string is both, and a string literal of fewer than ten
    bytes stays a string literal whatever [time.Parse] would say. *)
Theorem date_literals :
  (forall s, isDateString s = true ->
             String.length s = 10%nat /\ isDateTimeString s = false) /\
  (forall s, isDateTimeString s = true ->
             (10 < String.length s)%nat /\ isDateString s = false) /\
  (forall (lib : GoLibrary) pos lit p,
      (String.length lit < 10)%nat ->
      parseStringLiteral pos lit p = Ok (StringLiteral lit) p).
Proof.
  split; [|split].
  - intros s H. unfold isDateString, isDateTimeString in *.
    destruct (afterDate s) as [[|c rest]|] eqn:E; try discriminate H.
    apply afterDate_length in E. cbn [String.length] in E. split; [lia|reflexivity].
  - intros s H. unfold isDateString, isDateTimeString in *.
    destruct (afterDate s) as [[|c rest]|] eqn:E; try discriminate H.
    apply afterDate_length in E. cbn [String.length] in E. split; [lia|reflexivity].
  - intros lib pos lit p H. unfold parseStringLiteral, isDateString, isDateTimeString.
    destruct (afterDate lit) as [rest|] eqn:E; [|reflexivity].
    apply afterDate_length in E. lia.
Qed.

(** ** What the parser returns

    [yields m Q]: every value that [m] returns satisfies [Q]. *)

Definition yields {A} (m : M A) (Q : A -> Prop) : Prop :=
  forall p a q, m p = Ok a q -> Q a.

Lemma yields_ret {A} (Q : A -> Prop) (a : A) : Q a -> yields (ret a) Q.
Proof. intros H p b q E. unfold ret in E. now injection E as <- <-. Qed.

Lemma yields_fail {A} (Q : A -> Prop) (e : ParseError) : yields (fail e) Q.
Proof. intros p a q E. discriminate E. Qed.

Lemma yields_outOfFuel {A} (Q : A -> Prop) : yields outOfFuel Q.
Proof. intros p a q E. discriminate E. Qed.

Lemma yields_bind {A B} (m : M A) (k : A -> M B) (Q : B -> Prop) :
  (forall a, yields (k a) Q) -> yields (bind m k) Q.
Proof.
  intros Hk p b q E. apply bind_Ok in E as (a & p1 & _ & E2).
  exact (Hk a p1 b q E2).
Qed.

Lemma yields_bind_with {A B} (m : M A) (k : A -> M B)
    (Q1 : A -> Prop) (Q : B -> Prop) :
  yields m Q1 -> (forall a, Q1 a -> yields (k a) Q) -> yields (bind m k) Q.
Proof.
  intros Hm Hk p b q E. apply bind_Ok in E as (a & p1 & E1 & E2).
  exact (Hk a (Hm p a p1 E1) p1 b q E2).
Qed.

Lemma yields_forLoop {A B} (I : A -> Prop) (Q : B -> Prop)
    (body : A -> M (A + B)) :
  (forall a, I a ->
     yields (body a) (fun r => match r with inl a' => I a' | inr b => Q b end)) ->
  forall n a, I a -> yields (forLoop n body a) Q.
Proof.
  intros Hb n. induction n as [|n IH]; intros a Ha; [apply yields_outOfFuel|].
  cbn [forLoop]. eapply yields_bind_with; [exact (Hb a Ha)|].
  intros [a'|b] Hr; [exact (IH a' Hr) | now apply yields_ret].
Qed.

Lemma yields_withFuel {A} (f : nat -> M A) (Q : A -> Prop) :
  (forall n, yields (f n) Q) -> yields (withFuel f) Q.
Proof. intros H p a q E. exact (H _ p a q E). Qed.

Create HintDb yields discriminated.

Ltac yields_step :=
  lazymatch goal with
  | |- yields (fail _) _ => apply yields_fail
  | |- yields outOfFuel _ => apply yields_outOfFuel
  | |- yields (ret _) _ => apply yields_ret
  | |- yields (bind (withFuel _) _) _ => fail "a loop: give its invariant"
  | |- yields (bind _ _) _ =>
    first [ eapply yields_bind_with;
            [solve [eauto with yields]
            | let H := fresh "H" in intros ? H; cbv beta in H; cbv beta iota]
          | apply yields_bind; intros ?; cbv beta iota ]
  | |- yields (if ?c then _ else _) _ => destruct c eqn:?
  | |- yields (match ?x with _ => _ end) _ => destruct x eqn:?
  | |- yields (withFuel _) _ => apply yields_withFuel; intros ?
  end.

Ltac yields_auto := repeat yields_step.

Section Shapes.

Context {lib : GoLibrary}.

Lemma parseIdentList_nonempty : yields parseIdentList (fun l => l <> []).
Proof.
  unfold parseIdentList. yields_auto.
  apply yields_forLoop with (I := fun l : list string => l <> []);
    [|discriminate].
  intros l Hl. yields_auto; cbv beta iota; try exact Hl.
  now destruct l.
Qed.

Lemma parseFields_nonempty : yields parseFields (fun l => l <> []).
Proof.
  unfold parseFields. yields_auto; try discriminate.
  apply yields_forLoop with (I := fun _ : list Field => True); [|exact I].
  intros l _. yields_auto; cbv beta iota; try exact I.
  now destruct l.
Qed.

Lemma parseSortFields_nonempty : yields parseSortFields (fun l => l <> []).
Proof.
  unfold parseSortFields. yields_auto.
  apply yields_forLoop with (I := fun l : list SortField => l <> []);
    [|discriminate].
  intros l Hl. yields_auto; cbv beta iota; try exact Hl.
  now destruct l.
Qed.

#[local] Hint Resolve parseIdentList_nonempty parseFields_nonempty
  parseSortFields_nonempty : yields.

Lemma parseTagKeys_nonempty : yields parseTagKeys (fun l => l <> []).
Proof. unfold parseTagKeys. yields_auto; cbv beta iota; auto; discriminate. Qed.

Definition someMeasurement (s : Source) : Prop :=
  match s with
  | SourceMeasurement _ => True
  | Join ms | Merge ms => ms <> []
  end.

Lemma parseSource_nonempty : yields parseSource someMeasurement.
Proof.
  unfold parseSource. yields_auto; try exact I.
  eapply yields_bind_with.
  - apply yields_withFuel; intros ?.
    apply yields_forLoop with (I := fun _ : list Measurement => True)
                              (Q := fun l : list Measurement => l <> []);
      [|exact I].
    intros l _. yields_auto; cbv beta iota; try exact I. now destruct l.
  - intros ms Hms. yields_auto; exact Hms.
Qed.

(** X7.  The clauses that the parser reads as comma-separated lists never
    come out empty: the identifiers of an IN list, the fields of a SELECT,
    the fields of an ORDER BY, the tag keys of SHOW TAG VALUES, and the
    measurements of a join or merge. *)
Theorem comma_lists_nonempty :
  (forall p l q, parseIdentList p = Ok l q -> l <> []) /\
  (forall p l q, parseFields p = Ok l q -> l <> []) /\
  (forall p l q, parseSortFields p = Ok l q -> l <> []) /\
  (forall p l q, parseTagKeys p = Ok l q -> l <> []) /\
  (forall p s q, parseSource p = Ok s q ->
     match s with
     | SourceMeasurement _ => True
     | Join ms | Merge ms => ms <> []
     end).
Proof.
  split; [exact parseIdentList_nonempty|].
  split; [exact parseFields_nonempty|].
  split; [exact parseSortFields_nonempty|].
  split; [exact parseTagKeys_nonempty|].
  exact parseSource_nonempty.
Qed.

Lemma parseTarget_required :
  yields (parseTarget targetRequired) (fun t => t <> None).
Proof. unfold parseTarget. yields_auto; discriminate. Qed.

Lemma parseSelectStatement_shape (tr : targetRequirement) :
  yields (parseSelectStatement tr)
    (fun s => Fields s <> [] /\ Select_Source s <> None /\
              (tr = targetRequired -> Select_Target s <> None)).
Proof.
  unfold parseSelectStatement.
  eapply yields_bind_with; [apply parseFields_nonempty|]. intros fields Hf.
  destruct tr.
  - eapply yields_bind_with; [apply parseTarget_required|]. intros target Ht.
    yields_auto. cbn. repeat split; auto; discriminate.
  - yields_auto. cbn. repeat split; auto; discriminate.
Qed.

#[local] Hint Resolve parseSelectStatement_shape : yields.

(** X8.  Every parsed SELECT has at least one field and a source, every
    parsed DELETE a source; the SELECT of a continuous query has an INTO
    target as well, and when it is an aggregate its GROUP BY interval is
    not zero. *)
Theorem select_delete_shape :
  (forall tr p s q,
      parseSelectStatement tr p = Ok s q ->
      Fields s <> [] /\ Select_Source s <> None /\
      (tr = targetRequired -> Select_Target s <> None)) /\
  (forall p s q, parseDeleteStatement p = Ok s q -> Delete_Source s <> None) /\
  (forall p c q,
      parseCreateContinuousQueryStatement p = Ok c q ->
      Fields (CQ_Source c) <> [] /\ Select_Target (CQ_Source c) <> None /\
      (Aggregated (CQ_Source c) = true ->
       GroupByInterval (CQ_Source c) <> (0, None) /\
       snd (GroupByInterval (CQ_Source c)) = None)).
Proof.
  split; [intros tr; exact (parseSelectStatement_shape tr)|]. split.
  - assert (H : yields parseDeleteStatement (fun s => Delete_Source s <> None)).
    { unfold parseDeleteStatement. yields_auto. discriminate. }
    exact H.
  - assert (H : yields parseCreateContinuousQueryStatement
                  (fun c => Fields (CQ_Source c) <> [] /\
                            Select_Target (CQ_Source c) <> None /\
                            (Aggregated (CQ_Source c) = true ->
                             GroupByInterval (CQ_Source c) <> (0, None) /\
                             snd (GroupByInterval (CQ_Source c)) = None))).
    { unfold parseCreateContinuousQueryStatement. yields_auto.
      match goal with
      | H : Fields ?s <> [] /\ _ /\ _ |- _ => destruct H as (Hf & _ & Ht)
      end.
      cbn [CQ_Source]. split; [exact Hf|]. split; [now apply Ht|].
      intros Hagg.
      match goal with
      | E : GroupByInterval _ = (?d, ?err), E' : _ && _ = false |- _ =>
        rewrite E; rewrite Hagg in E'; cbn [andb] in E';
        apply orb_false_iff in E' as [Hd He]; apply Z.eqb_neq in Hd;
        destruct err; [discriminate He|];
        split; [intros Heq; injection Heq as Heq; contradiction | reflexivity]
      end. }
    exact H.
Qed.

Definition hasOption (s : AlterRetentionPolicyStatement) : Prop :=
  ARP_Duration s <> None \/ ARP_Replication s <> None \/ ARP_Default s = true.

Definition replicationInRange (s : AlterRetentionPolicyStatement) : Prop :=
  forall n, ARP_Replication s = Some n -> 1 <= n <= 2 ^ 31 - 1.

Lemma parseInt_yields (min max : Z) :
  yields (parseInt min max) (fun n => min <= n <= max).
Proof. intros p n q E. exact (parseInt_Ok min max p q n E). Qed.

#[local] Hint Resolve parseInt_yields : yields.

Lemma alterOptions_shape (left : nat) :
  forall i stmt,
    0 <= i -> (1 <= i -> hasOption stmt) -> replicationInRange stmt ->
    yields (alterOptions left i stmt)
      (fun r => ((0 < left)%nat \/ 1 <= i -> hasOption r) /\
                replicationInRange r /\
                ARP_Name r = ARP_Name stmt /\
                ARP_Database r = ARP_Database stmt).
Proof.
  induction left as [|left IH]; intros i stmt Hi Hopt Hrep.
  - cbn [alterOptions]. apply yields_ret.
    split; [intros [H|H]; [lia | auto] | auto].
  - cbn [alterOptions]. yields_auto.
    + intros st r st' E.
      apply IH in E; [|lia|intros _; left; cbn; discriminate | exact Hrep].
      destruct E as (H1 & H2 & H3 & H4).
      split; [intros _; apply H1; right; lia | auto].
    + intros st r st' E.
      apply IH in E; [|lia|intros _; right; left; cbn; discriminate|].
      * destruct E as (H1 & H2 & H3 & H4).
        split; [intros _; apply H1; right; lia | auto].
      * intros m Hm. cbn in Hm. injection Hm as <-.
        match goal with Hn : 1 <= _ <= MaxInt32 |- _ =>
          unfold MaxInt32 in Hn; exact Hn end.
    + intros st r st' E.
      apply IH in E; [|lia|intros _; right; right; reflexivity | exact Hrep].
      destruct E as (H1 & H2 & H3 & H4).
      split; [intros _; apply H1; right; lia | auto].
    + split; [|auto]. intros _. apply Hopt.
      match goal with E : (i <? 1) = false |- _ => apply Z.ltb_ge in E; exact E end.
Qed.

(** X9.  A parsed ALTER RETENTION POLICY sets at least one of DURATION,
    REPLICATION and DEFAULT, and its replication factor, when it is set, is
    between 1 and 2^31-1. *)
Theorem alter_retention_policy_shape (p q : bufScanner)
    (s : AlterRetentionPolicyStatement) :
  parseAlterRetentionPolicyStatement p = Ok s q ->
  (ARP_Duration s <> None \/ ARP_Replication s <> None \/ ARP_Default s = true) /\
  (forall n, ARP_Replication s = Some n -> 1 <= n <= 2 ^ 31 - 1).
Proof.
  revert p s q.
  assert (H : yields parseAlterRetentionPolicyStatement
                (fun s => hasOption s /\ replicationInRange s)).
  { unfold parseAlterRetentionPolicyStatement. yields_auto.
    intros st r st' E.
    apply alterOptions_shape in E;
      [|lia|lia|intros n Hn; discriminate Hn].
    destruct E as (H1 & H2 & _).
    split; [apply H1; left; lia | exact H2]. }
  exact H.
Qed.

End Shapes.

(** [ rp ON db REPLICATION 3 DEFAULT], after ALTER RETENTION POLICY. *)
Definition alterReplicationInput : bufScanner :=
  NewParser (scannerOf
    [ lexeme 22 WS " "; lexeme 23 IDENT "rp"; lexeme 25 WS " ";
      lexeme 26 ON ""; lexeme 28 WS " "; lexeme 29 IDENT "db";
      lexeme 31 WS " "; lexeme 32 REPLICATION ""; lexeme 43 WS " ";
      lexeme 44 NUMBER "3"; lexeme 45 WS " "; lexeme 46 DEFAULT "" ]
    (mkPos 0 53)).

Lemma alter_retention_policy_shape_witness :
  exists s q,
    parseAlterRetentionPolicyStatement alterReplicationInput
    = Ok s q /\
    ARP_Replication s = Some 3 /\
    (forall n, ARP_Replication s = Some n -> 1 <= n <= 2 ^ 31 - 1).
Proof.
  eexists. eexists.
  assert (H : parseAlterRetentionPolicyStatement alterReplicationInput = Ok _ _)
    by (vm_compute; reflexivity).
  split; [exact H|]. split; [reflexivity|].
  exact (proj2 (alter_retention_policy_shape _ _ _ H)).
Defined.

(** ** Statements and queries *)

(** The keyword that a statement starts with. *)
Definition keywordOf (s : Statement) : Token :=
  match s with
  | StmtSelect _ => SELECT
  | StmtDelete _ => DELETE
  | StmtShowSeries _ | StmtShowMeasurements _ | StmtShowTagKeys _
  | StmtShowFieldKeys _ | StmtShowTagValues _ | StmtShowRetentionPolicies _
  | StmtShowDatabases | StmtShowUsers | StmtShowContinuousQueries => SHOW
  | StmtCreateDatabase _ | StmtCreateRetentionPolicy _ | StmtCreateUser _
  | StmtCreateContinuousQuery _ => CREATE
  | StmtDropDatabase _ | StmtDropRetentionPolicy _ | StmtDropUser _
  | StmtDropContinuousQuery _ | StmtDropMeasurement _ | StmtDropSeries _ => DROP
  | StmtGrant _ => GRANT
  | StmtRevoke _ => REVOKE
  | StmtAlterRetentionPolicy _ => ALTER
  end.

(** The tokens of the [switch] of [ParseStatement]. *)
Definition startsStatement (t : Token) : bool :=
  Token_eqb t SELECT || Token_eqb t DELETE || Token_eqb t SHOW
  || Token_eqb t CREATE || Token_eqb t DROP || Token_eqb t GRANT
  || Token_eqb t REVOKE || Token_eqb t ALTER.

Section Dispatch.

Context {lib : GoLibrary}.

Lemma parseShowStatement_keyword :
  yields parseShowStatement (fun s => keywordOf s = SHOW).
Proof. unfold parseShowStatement. yields_auto; reflexivity. Qed.

Lemma parseCreateStatement_keyword :
  yields parseCreateStatement (fun s => keywordOf s = CREATE).
Proof. unfold parseCreateStatement. yields_auto; reflexivity. Qed.

Lemma parseDropStatement_keyword :
  yields parseDropStatement (fun s => keywordOf s = DROP).
Proof. unfold parseDropStatement. yields_auto; reflexivity. Qed.

Lemma parseAlterStatement_keyword :
  yields parseAlterStatement (fun s => keywordOf s = ALTER).
Proof. unfold parseAlterStatement. yields_auto; reflexivity. Qed.

(** X10.  The first token decides the kind of a statement: a parsed
    statement starts with the keyword of its kind, and a first token that
    is none of the eight keywords is reported as found where SELECT was
    expected, although seven other keywords would have been accepted. *)
Theorem ParseStatement_keyword (p : bufScanner) :
  (forall s q,
      ParseStatement p = Ok s q ->
      exists pos lit p1,
        scanIgnoreWhitespace p = Ok (keywordOf s, pos, lit) p1) /\
  (forall tok pos lit p1,
      scanIgnoreWhitespace p = Ok (tok, pos, lit) p1 ->
      startsStatement tok = false ->
      ParseStatement p = Err (newParseError (tokstr tok lit) ["SELECT"] pos)).
Proof.
  split.
  - intros s q H. unfold ParseStatement in H.
    invs H as tok pos lit p1 E. exists pos, lit, p1. rewrite E.
    repeat f_equal.
    repeat match type of H with
    | (if Token_eqb tok ?k then _ else _) _ = _ =>
      let Ek := fresh "E" in
      destruct (Token_eqb tok k) eqn:Ek;
      [apply Token_eqb_eq in Ek; subst tok|]
    end;
    try discriminate H.
    + invb H as a p2 Hs. inv_ret H. reflexivity.
    + invb H as a p2 Hs. inv_ret H. reflexivity.
    + symmetry. exact (parseShowStatement_keyword _ _ _ H).
    + symmetry. exact (parseCreateStatement_keyword _ _ _ H).
    + symmetry. exact (parseDropStatement_keyword _ _ _ H).
    + invb H as a p2 Hs. inv_ret H. reflexivity.
    + invb H as a p2 Hs. inv_ret H. reflexivity.
    + symmetry. exact (parseAlterStatement_keyword _ _ _ H).
  - intros tok pos lit p1 E Hk. unfold ParseStatement.
    rewrite (bind_step _ _ _ _ _ E). unfold startsStatement in Hk.
    repeat (apply orb_false_iff in Hk; destruct Hk as [Hk ?]).
    repeat match goal with H : Token_eqb tok _ = false |- _ => rewrite H; clear H end.
    reflexivity.
Qed.

(** X11.  [ParseQuery] returns no statement exactly when the first token
    that is not whitespace is EOF, and whenever it succeeds the last token
    it has read is EOF: a query followed by anything but whitespace is
    rejected. *)
Theorem ParseQuery_reads_to_EOF (p q : bufScanner) (query : Query) :
  ParseQuery p = Ok query q ->
  (exists tok pos lit p1,
      scanIgnoreWhitespace p = Ok (tok, pos, lit) p1 /\
      (Statements query = [] <-> tok = EOF)) /\
  tokOf (buf q) = EOF /\ live q = false.
Proof.
  assert (Hscan : forall p0 x q0, scan p0 = Ok x q0 -> buf q0 = x /\ live q0 = false).
  { intros p0 x q0 E. unfold scan, bufScanner_Scan in E.
    destruct (live p0).
    - injection E as <- <-. split; reflexivity.
    - destruct (Scanner_Scan (src p0)) as [y sc]. injection E as <- <-.
      split; reflexivity. }
  assert (HscanIW : forall p0 x q0,
             scanIgnoreWhitespace p0 = Ok x q0 -> buf q0 = x /\ live q0 = false).
  { intros p0 x q0 E. unfold scanIgnoreWhitespace in E.
    invs E as tok pos lit p1 E1. destruct (Token_eqb tok WS).
    - exact (Hscan _ _ _ E).
    - inv_ret E. exact (Hscan _ _ _ E1). }
  assert (Hloop : forall n acc p0 sts q0,
             forLoop n (fun statements =>
               s <- ParseStatement ;;
               '(tok, pos, lit) <- scanIgnoreWhitespace ;;
               if negb (Token_eqb tok SEMICOLON) && negb (Token_eqb tok EOF)
               then fail (newParseError (tokstr tok lit) [";"; "EOF"] pos)
               else if Token_eqb tok EOF
               then ret (inr (statements ++ [s]))
               else ret (inl (statements ++ [s]))) acc p0 = Ok sts q0 ->
             sts <> [] /\ tokOf (buf q0) = EOF /\ live q0 = false).
  { induction n as [|n IH]; intros acc p0 sts q0 H; [discriminate H|].
    cbn [forLoop] in H. invb H as r p3 Hbody.
    invb Hbody as s p1 E1. invs Hbody as tok pos lit p2 E2.
    destruct (negb (Token_eqb tok SEMICOLON) && negb (Token_eqb tok EOF));
      [discriminate Hbody|].
    destruct (Token_eqb tok EOF) eqn:Ee.
    - inv_ret Hbody. inv_ret H. apply Token_eqb_eq in Ee. subst tok.
      destruct (HscanIW _ _ _ E2) as [Hb Hl]. rewrite Hb.
      split; [now destruct acc | split; [reflexivity | exact Hl]].
    - inv_ret Hbody. exact (IH _ _ _ _ H). }
  intros H. unfold ParseQuery in H. invs H as tok pos lit p1 E.
  destruct (HscanIW _ _ _ E) as [Hb Hl].
  destruct (Token_eqb tok EOF) eqn:Ee.
  - inv_ret H. apply Token_eqb_eq in Ee. subst tok.
    split; [|rewrite Hb; auto].
    exists EOF, pos, lit, p1. split; [exact E|]. cbn [Statements]. tauto.
  - invb H as u p2 E2. invb H as sts p3 E3. inv_ret H.
    unfold withFuel, parseStatements in E3.
    destruct (Hloop _ _ _ _ _ E3) as (Hne & He & Hlive).
    split; [|auto].
    exists tok, pos, lit, p1. split; [exact E|]. cbn [Statements].
    apply Token_eqb_neq in Ee. tauto.
Qed.

End Dispatch.

(** [SELECT v FROM m;DELETE FROM m] *)
Definition twoStatements : list Lexeme :=
  [ lexeme 0 SELECT ""; lexeme 6 WS " "; lexeme 7 IDENT "v"; lexeme 8 WS " ";
    lexeme 9 FROM ""; lexeme 13 WS " "; lexeme 14 IDENT "m";
    lexeme 15 SEMICOLON ""; lexeme 16 DELETE ""; lexeme 22 WS " ";
    lexeme 23 FROM ""; lexeme 27 WS " "; lexeme 28 IDENT "m" ].

Lemma ParseQuery_reads_to_EOF_witness :
  exists query q,
    ParseQuery (lib := noLiterals) (NewParser (scannerOf twoStatements (mkPos 0 29)))
    = Ok query q /\
    List.length (Statements query) = 2%nat /\
    tokOf (buf q) = EOF /\ live q = false.
Proof.
  eexists. eexists.
  assert (H : ParseQuery (lib := noLiterals)
                (NewParser (scannerOf twoStatements (mkPos 0 29))) = Ok _ _)
    by (vm_compute; reflexivity).
  split; [exact H|]. split; [reflexivity|].
  exact (proj2 (ParseQuery_reads_to_EOF (lib := noLiterals) _ _ _ H)).
Defined.

(** ** Positions *)

Lemma lexEq_sym (x x' : Lexeme) : lexEq x x' -> lexEq x' x.
Proof. intros [H1 H2]. split; congruence. Qed.

Lemma listEq_sym (ts ts' : list Lexeme) : listEq ts ts' -> listEq ts' ts.
Proof. induction 1; constructor; auto using lexEq_sym. Qed.

(** X12.  The positions of the tokens bear on error messages only: two
    inputs with the same tokens and literals, whatever the positions, parse
    to the same query and to the same expression. *)
Theorem parse_result_ignores_positions {lib : GoLibrary}
    (ts ts' : list Lexeme) (e e' : Pos) :
  listEq ts ts' ->
  (forall q, ParseQueryTokens ts e = Parsed q <->
             ParseQueryTokens ts' e' = Parsed q) /\
  (forall x, ParseExprTokens ts e = Parsed x <->
             ParseExprTokens ts' e' = Parsed x).
Proof.
  assert (Hq : forall ts ts' e e', listEq ts ts' ->
             forall q, ParseQueryTokens ts e = Parsed q ->
                       ParseQueryTokens ts' e' = Parsed q).
  { clear. intros ts ts' e e' Hts q H.
    unfold ParseQueryTokens, NewParser, scannerOf, newBufScanner in *.
    assert (HR : Rws (mkPos 0 0) "" (mkState ts e (ILLEGAL, mkPos 0 0, "") false)
                     (mkState ts' e' (ILLEGAL, mkPos 0 0, "") false)).
    { left. apply St_same; [exact Hts | apply lexEq_refl]. }
    unfold mkState in HR.
    destruct (ParseQuery _) as [q0 pf| |] eqn:E in H;
      cbn [outcome] in H; [|discriminate H|discriminate H].
    injection H as ->.
    destruct (ParseQuery_ws _ _ _ _ HR _ _ E) as (pf' & E' & _).
    rewrite E'. reflexivity. }
  assert (Hx : forall ts ts' e e', listEq ts ts' ->
             forall x, ParseExprTokens ts e = Parsed x ->
                       ParseExprTokens ts' e' = Parsed x).
  { clear. intros ts ts' e e' Hts x H.
    unfold ParseExprTokens, NewParser, scannerOf, newBufScanner in *.
    assert (HR : Rws (mkPos 0 0) "" (mkState ts e (ILLEGAL, mkPos 0 0, "") false)
                     (mkState ts' e' (ILLEGAL, mkPos 0 0, "") false)).
    { left. apply St_same; [exact Hts | apply lexEq_refl]. }
    unfold mkState in HR.
    destruct (ParseExpr _) as [x0 pf| |] eqn:E in H;
      cbn [outcome] in H; [|discriminate H|discriminate H].
    injection H as ->.
    destruct (ParseExpr_ws _ _ _ _ HR _ _ E) as (pf' & E' & _).
    rewrite E'. reflexivity. }
  intros Hts. pose proof (listEq_sym _ _ Hts) as Hts'.
  split; intros v; split; eauto.
Qed.

Lemma parse_result_ignores_positions_witness :
  ParseQueryTokens (H := noLiterals)
    (map (fun x => (fst (fst x), mkPos 7 7, snd x)) twoStatements) (mkPos 9 9)
  = ParseQueryTokens (H := noLiterals) twoStatements (mkPos 0 29).
Proof.
  assert (H : exists q, ParseQueryTokens (H := noLiterals) twoStatements
                          (mkPos 0 29) = Parsed q)
    by (eexists; vm_compute; reflexivity).
  destruct H as [q H]. rewrite H.
  refine (proj1 (proj1 (parse_result_ignores_positions (lib := noLiterals)
                          twoStatements _ (mkPos 0 29) (mkPos 9 9) _) q) H).
  repeat constructor.
Defined.

(** ** GRANT and REVOKE *)

Section Privileges.

(** What [parseGrantStatement] ([kw] is TO) and [parseRevokeStatement]
    ([kw] is FROM) do after the privilege: without an ON clause only ALL
    is accepted; after an ON clause, a token other than [kw] is reported
    with the literal of the ON token, because the literal of the offending
    token is assigned to the variable of the inner block. *)
Definition onClauseRule (kw : Token) (stmt : M PrivilegeStatement) : Prop :=
  forall p priv p1 tok pos lit p2,
    parsePrivilege p = Ok priv p1 ->
    scanIgnoreWhitespace p1 = Ok (tok, pos, lit) p2 ->
    priv <> NoPrivileges /\
    (tok <> ON -> priv <> AllPrivileges ->
     stmt p = Err (newParseError (tokstr tok lit) ["ON"] pos)) /\
    (tok <> ON -> priv = AllPrivileges -> tok <> kw ->
     stmt p = Err (newParseError (tokstr tok lit) [Token_String kw] pos)) /\
    (tok = ON ->
     forall on p3 tok' pos' lit' p4,
       parseIdent p2 = Ok on p3 ->
       scanIgnoreWhitespace p3 = Ok (tok', pos', lit') p4 ->
       (tok' <> kw ->
        stmt p = Err (newParseError (tokstr tok' lit) [Token_String kw] pos')) /\
       (tok' = kw ->
        forall user q, parseIdent p4 = Ok user q ->
          stmt p = Ok {| PS_Privilege := priv; PS_On := on; PS_User := user |} q)).

Lemma parsePrivilegeStatement_onClause (kw : Token) :
  onClauseRule kw (parsePrivilegeStatement kw).
Proof.
  intros p priv p1 tok pos lit p2 Hpriv Hscan.
  assert (Hpv : priv <> NoPrivileges).
  { assert (Hy : yields parsePrivilege (fun v => v <> NoPrivileges))
      by (unfold parsePrivilege; yields_auto; discriminate).
    exact (Hy _ _ _ Hpriv). }
  split; [exact Hpv|].
  unfold parsePrivilegeStatement.
  rewrite (bind_step _ _ _ _ _ Hpriv), (bind_step _ _ _ _ _ Hscan).
  split; [|split].
  - intros Hne Hall. apply Token_eqb_neq in Hne. rewrite Hne.
    destruct priv; try contradiction; reflexivity.
  - intros Hne -> Hkw. apply Token_eqb_neq in Hne, Hkw. rewrite Hne.
    cbn [Privilege_eqb negb]. unfold privilegeUser. now rewrite Hkw.
  - intros -> on p3 tok' pos' lit' p4 Hon Hscan'. rewrite Token_eqb_refl.
    rewrite (bind_step _ _ _ _ _ Hon), (bind_step _ _ _ _ _ Hscan').
    unfold privilegeUser. split.
    + intros Hkw. apply Token_eqb_neq in Hkw. now rewrite Hkw.
    + intros -> user q Huser. rewrite Token_eqb_refl. cbn [negb].
      now rewrite (bind_step _ _ _ _ _ Huser).
Qed.

(** X13.  GRANT and REVOKE accept a missing ON clause for ALL only, never
    return the empty privilege, and after an ON clause report a token found
    in place of TO or FROM with the literal of the ON token. *)
Theorem grant_revoke_on_clause :
  onClauseRule TO parseGrantStatement /\
  onClauseRule FROM parseRevokeStatement.
Proof.
  split; [exact (parsePrivilegeStatement_onClause TO)
         | exact (parsePrivilegeStatement_onClause FROM)].
Qed.

End Privileges.

(** [ READ ON db bob], after GRANT: the TO is missing. *)
Definition grantInput : bufScanner :=
  NewParser (scannerOf
    [ lexeme 5 WS " "; lexeme 6 READ ""; lexeme 10 WS " "; lexeme 11 ON "";
      lexeme 13 WS " "; lexeme 14 IDENT "db"; lexeme 16 WS " ";
      lexeme 17 IDENT "bob" ] (mkPos 0 20)).

Lemma grant_revoke_on_clause_witness :
  parseGrantStatement grantInput
  = Err (newParseError "IDENT" ["TO"] (mkPos 0 17)).
Proof.
  destruct (proj1 grant_revoke_on_clause grantInput ReadPrivilege _ ON _ "" _
              ltac:(vm_compute; reflexivity) ltac:(vm_compute; reflexivity))
    as (_ & _ & _ & H).
  destruct (H eq_refl "db" _ IDENT (mkPos 0 17) "bob" _
              ltac:(vm_compute; reflexivity) ltac:(vm_compute; reflexivity))
    as (H1 & _).
  exact (H1 ltac:(discriminate)).
Defined.

(** ** Termination

    The loops of the Go code are [for] loops without a bound; in the model
    they run on fuel.  What follows shows that the fuel never runs out: a
    measure of what is left to read bounds the iterations of every loop and
    the depth of the recursion of the expression grammar. *)

(** Twice the number of lexemes left in the scanner, plus one until the
    scanner has been read past its end. *)
Definition budget (p : bufScanner) : nat :=
  2 * List.length (pending (src p))
  + (if (List.length (pending (src p)) =? 0)%nat
        && Token_eqb (tokOf (buf p)) EOF then 0 else 1).

(** [total P m Q]: from a state in [P], [m] fails or returns a value and a
    state in [Q]; it does not run out of fuel. *)
Definition total {A} (P : bufScanner -> Prop) (m : M A)
    (Q : A -> bufScanner -> Prop) : Prop :=
  forall p, P p ->
    match m p with
    | Ok a q => Q a q
    | Err _ => True
    | OutOfFuel => False
    end.

(** The states with a budget below [n], optionally with a known [live]
    flag and a known token in the buffer. *)
Definition St (n : nat) (l : option bool) (t : option Token) : bufScanner -> Prop :=
  fun p =>
    (budget p < n)%nat /\
    match l with Some b => live p = b | None => True end /\
    match t with Some k => tokOf (buf p) = k | None => True end.

Lemma total_ret {A} (P : bufScanner -> Prop) (Q : A -> bufScanner -> Prop) (a : A) :
  (forall p, P p -> Q a p) -> total P (ret a) Q.
Proof. intros H p HP. exact (H p HP). Qed.

Lemma total_fail {A} (P : bufScanner -> Prop) (Q : A -> bufScanner -> Prop)
    (e : ParseError) :
  total P (fail e) Q.
Proof. intros p _. exact I. Qed.

Lemma total_bind {A B} (P : bufScanner -> Prop) (Q : A -> bufScanner -> Prop)
    (R : B -> bufScanner -> Prop) (m : M A) (k : A -> M B) :
  total P m Q -> (forall a, total (Q a) (k a) R) -> total P (bind m k) R.
Proof.
  intros Hm Hk p HP. specialize (Hm p HP). unfold bind.
  destruct (m p) as [a q| |]; [exact (Hk a q Hm) | exact I | exact Hm].
Qed.

Lemma total_conseq {A} (P P' : bufScanner -> Prop)
    (Q Q' : A -> bufScanner -> Prop) (m : M A) :
  total P m Q -> (forall p, P' p -> P p) -> (forall a q, Q a q -> Q' a q) ->
  total P' m Q'.
Proof.
  intros H HP HQ p HP'. specialize (H p (HP p HP')).
  destruct (m p); auto.
Qed.

Lemma total_pre {A} (P P' : bufScanner -> Prop) (Q : A -> bufScanner -> Prop)
    (m : M A) :
  total P m Q -> (forall p, P' p -> P p) -> total P' m Q.
Proof. intros H HP. eapply total_conseq; eauto. Qed.

(** A loop whose body lowers the measure [mu] each time it continues. *)
Lemma total_forLoop {A B} (Inv : bufScanner -> Prop) (mu : bufScanner -> nat)
    (Q : B -> bufScanner -> Prop) (body : A -> M (A + B)) :
  (forall a j,
      total (fun p => Inv p /\ mu p = j) (body a)
        (fun r q => match r with
                    | inl _ => Inv q /\ (mu q < j)%nat
                    | inr b => Q b q
                    end)) ->
  forall fuel a,
    total (fun p => Inv p /\ (mu p < fuel)%nat) (forLoop fuel body a) Q.
Proof.
  intros Hb fuel. induction fuel as [|fuel IH]; intros a p [HI Hmu]; [lia|].
  cbn [forLoop]. unfold bind.
  specialize (Hb a (mu p) p (conj HI eq_refl)).
  destruct (body a p) as [[a'|b] q| |]; [|exact Hb|exact I|exact Hb].
  destruct Hb as [HI' Hlt]. apply (IH a' q). split; [exact HI'|lia].
Qed.

Lemma total_withFuel {A} (P : bufScanner -> Prop) (Q : A -> bufScanner -> Prop)
    (f : nat -> M A) :
  (forall k, total (fun p => P p /\ fuelOf p = k) (f k) Q) ->
  total P (withFuel f) Q.
Proof. intros H p HP. exact (H (fuelOf p) p (conj HP eq_refl)). Qed.

Lemma budget_fuel (p : bufScanner) : (budget p + 7 <= fuelOf p)%nat.
Proof.
  unfold budget, fuelOf.
  destruct ((List.length (pending (src p)) =? 0)%nat
            && Token_eqb (tokOf (buf p)) EOF); lia.
Qed.

(** What one [scan] does to the budget. *)
Lemma scan_budget (p : bufScanner) :
  exists x q,
    scan p = Ok x q /\ buf q = x /\ live q = false /\
    (budget q <= budget p)%nat /\
    (live p = true -> x = buf p) /\
    (live p = false ->
     (budget q + 2 <= budget p)%nat \/ (tokOf x = EOF /\ budget q = 0%nat)).
Proof.
  unfold scan, bufScanner_Scan, Scanner_Scan, budget.
  destruct p as [[ts e] b l]. cbn [live src buf pending eofPos].
  destruct l.
  - do 2 eexists. split; [reflexivity|]. cbn [live src buf pending eofPos].
    repeat split; auto; discriminate.
  - destruct ts as [|y r].
    + do 2 eexists. split; [reflexivity|]. cbn [live src buf pending eofPos].
      cbn [List.length Nat.eqb andb tokOf fst Token_eqb Token_index N.eqb Pos.eqb].
      repeat split; auto; try discriminate.
      destruct (Token_eqb (tokOf b) EOF); lia.
    + do 2 eexists. split; [reflexivity|]. cbn [live src buf pending eofPos].
      cbn [List.length Nat.eqb andb].
      repeat split; auto; try discriminate.
      * destruct ((List.length r =? 0)%nat && Token_eqb (tokOf y) EOF); lia.
      * intros _. left.
        destruct ((List.length r =? 0)%nat && Token_eqb (tokOf y) EOF); lia.
Qed.

Lemma scanIgnoreWhitespace_budget (p : bufScanner) :
  exists x q,
    scanIgnoreWhitespace p = Ok x q /\ buf q = x /\ live q = false /\
    (budget q <= budget p)%nat /\
    (live p = true -> tokOf (buf p) <> WS -> x = buf p) /\
    (live p = false ->
     (budget q + 2 <= budget p)%nat \/ (tokOf x = EOF /\ budget q = 0%nat)).
Proof.
  unfold scanIgnoreWhitespace.
  destruct (scan_budget p) as (x & q & E & Hb & Hl & Hle & Hlive & Hfresh).
  rewrite (bind_step _ _ _ _ _ E). destruct x as [[tok pos] lit].
  destruct (Token_eqb tok WS) eqn:Ew.
  - destruct (scan_budget q) as (x2 & q2 & E2 & Hb2 & Hl2 & Hle2 & _ & Hfresh2).
    exists x2, q2. split; [exact E2|]. repeat split; auto; try lia.
    + intros Ht Hne. exfalso. apply Hne. rewrite <- (Hlive Ht).
      now apply Token_eqb_eq in Ew.
    + intros _. destruct (Hfresh2 Hl) as [H|H]; [left; lia | right; exact H].
  - exists (tok, pos, lit), q. split; [reflexivity|]. repeat split; auto.
Qed.

(** *** The rules of the scanner's operations *)

Lemma total_scanIW {A} (n : nat) (l : option bool) (t : option Token)
    (Q : A -> bufScanner -> Prop) (k : Lexeme -> M A) :
  (forall tok pos lit,
      total (St n (Some false) (Some tok)) (k (tok, pos, lit)) Q) ->
  total (St n l t) (bind scanIgnoreWhitespace k) Q.
Proof.
  intros Hk p (Hn & _ & _).
  destruct (scanIgnoreWhitespace_budget p) as (x & q & E & Hb & Hl & Hle & _).
  rewrite (bind_step _ _ _ _ _ E). destruct x as [[tok pos] lit].
  apply Hk. split; [lia|]. split; [exact Hl|]. now rewrite Hb.
Qed.

Lemma total_scan {A} (n : nat) (l : option bool) (t : option Token)
    (Q : A -> bufScanner -> Prop) (k : Lexeme -> M A) :
  (forall tok pos lit,
      total (St n (Some false) (Some tok)) (k (tok, pos, lit)) Q) ->
  total (St n l t) (bind scan k) Q.
Proof.
  intros Hk p (Hn & _ & _).
  destruct (scan_budget p) as (x & q & E & Hb & Hl & Hle & _).
  rewrite (bind_step _ _ _ _ _ E). destruct x as [[tok pos] lit].
  apply Hk. split; [lia|]. split; [exact Hl|]. now rewrite Hb.
Qed.

(** A token read when the buffer is not live comes from the scanner: the
    budget drops by two, unless the token is EOF. *)
Lemma total_scanIW_fresh {A} (n : nat) (t : option Token)
    (Q : A -> bufScanner -> Prop) (k : Lexeme -> M A) :
  (forall tok pos lit m,
      Token_eqb tok EOF = false -> n = S (S m) ->
      total (St m (Some false) (Some tok)) (k (tok, pos, lit)) Q) ->
  (forall pos lit, total (St n (Some false) (Some EOF)) (k (EOF, pos, lit)) Q) ->
  total (St n (Some false) t) (bind scanIgnoreWhitespace k) Q.
Proof.
  intros Hk He p (Hn & Hlive & _).
  destruct (scanIgnoreWhitespace_budget p)
    as (x & q & E & Hb & Hl & Hle & _ & Hfresh).
  rewrite (bind_step _ _ _ _ _ E). destruct x as [[tok pos] lit].
  destruct (Token_eqb tok EOF) eqn:Ee.
  - apply Token_eqb_eq in Ee. subst tok. apply He.
    split; [lia|]. split; [exact Hl|]. now rewrite Hb.
  - destruct (Hfresh Hlive) as [H|[H _]].
    + destruct n as [|[|m]]; [lia|lia|].
      apply (Hk tok pos lit m Ee eq_refl).
      split; [lia|]. split; [exact Hl|]. now rewrite Hb.
    + cbn [tokOf fst] in H. subst tok. discriminate Ee.
Qed.

Lemma total_scan_fresh {A} (n : nat) (t : option Token)
    (Q : A -> bufScanner -> Prop) (k : Lexeme -> M A) :
  (forall tok pos lit m,
      Token_eqb tok EOF = false -> n = S (S m) ->
      total (St m (Some false) (Some tok)) (k (tok, pos, lit)) Q) ->
  (forall pos lit, total (St n (Some false) (Some EOF)) (k (EOF, pos, lit)) Q) ->
  total (St n (Some false) t) (bind scan k) Q.
Proof.
  intros Hk He p (Hn & Hlive & _).
  destruct (scan_budget p) as (x & q & E & Hb & Hl & Hle & _ & Hfresh).
  rewrite (bind_step _ _ _ _ _ E). destruct x as [[tok pos] lit].
  destruct (Token_eqb tok EOF) eqn:Ee.
  - apply Token_eqb_eq in Ee. subst tok. apply He.
    split; [lia|]. split; [exact Hl|]. now rewrite Hb.
  - destruct (Hfresh Hlive) as [H|[H _]].
    + destruct n as [|[|m]]; [lia|lia|].
      apply (Hk tok pos lit m Ee eq_refl).
      split; [lia|]. split; [exact Hl|]. now rewrite Hb.
    + cbn [tokOf fst] in H. subst tok. discriminate Ee.
Qed.

(** A token read from the live buffer is the one that was pushed back;
    [scanIgnoreWhitespace] reads on when it is whitespace. *)
Lemma total_scan_live {A} (n : nat) (t : Token)
    (Q : A -> bufScanner -> Prop) (k : Lexeme -> M A) :
  (forall pos lit, total (St n (Some false) (Some t)) (k (t, pos, lit)) Q) ->
  total (St n (Some true) (Some t)) (bind scan k) Q.
Proof.
  intros Hk p (Hn & Hlive & Ht).
  destruct (scan_budget p) as (x & q & E & Hb & Hl & Hle & Hsame & _).
  rewrite (bind_step _ _ _ _ _ E). specialize (Hsame Hlive).
  destruct (buf p) as [[tok pos] lit] eqn:Eb. cbn [tokOf fst] in Ht.
  rewrite Hsame in Hb |- *. subst tok.
  apply Hk. split; [lia|]. split; [exact Hl|]. now rewrite Hb.
Qed.

Lemma total_scanIW_live {A} (n : nat) (t : Token)
    (Q : A -> bufScanner -> Prop) (k : Lexeme -> M A) :
  (forall pos lit, total (St n (Some false) (Some t)) (k (t, pos, lit)) Q) ->
  (t = WS ->
   forall tok pos lit,
     total (St n (Some false) (Some tok)) (k (tok, pos, lit)) Q) ->
  total (St n (Some true) (Some t)) (bind scanIgnoreWhitespace k) Q.
Proof.
  intros Hk Hws p (Hn & Hlive & Ht).
  destruct (scanIgnoreWhitespace_budget p)
    as (x & q & E & Hb & Hl & Hle & Hsame & _).
  rewrite (bind_step _ _ _ _ _ E).
  destruct (Token_eqb t WS) eqn:Ew.
  - apply Token_eqb_eq in Ew. destruct x as [[tok pos] lit].
    apply (Hws Ew). split; [lia|]. split; [exact Hl|]. now rewrite Hb.
  - apply Token_eqb_neq in Ew. rewrite <- Ht in Ew.
    specialize (Hsame Hlive Ew).
    destruct (buf p) as [[tok pos] lit] eqn:Eb. cbn [tokOf fst] in Ht.
    rewrite Hsame in Hb |- *. subst tok.
    apply Hk. split; [lia|]. split; [exact Hl|]. now rewrite Hb.
Qed.

Lemma total_unscan {A} (n : nat) (l : option bool) (t : option Token)
    (Q : A -> bufScanner -> Prop) (k : unit -> M A) :
  total (St n (Some true) t) (k tt) Q ->
  total (St n l t) (bind unscan k) Q.
Proof.
  intros Hk p (Hn & _ & Ht). unfold bind, unscan.
  apply Hk. split; [exact Hn|]. split; [reflexivity|exact Ht].
Qed.

Lemma total_consumeWhitespace (n : nat) (l : option bool) (t : option Token) :
  total (St n l t) consumeWhitespace (fun _ => St n None None).
Proof.
  unfold consumeWhitespace. apply total_scan. intros tok pos lit.
  destruct (negb (Token_eqb tok WS)).
  - intros p (Hn & _). unfold unscan. split; [exact Hn|]. split; exact I.
  - apply total_ret. intros p (Hn & _). split; [exact Hn|]. split; exact I.
Qed.

Lemma St_weaken (n n' : nat) (l l' : option bool) (t t' : option Token)
    (p : bufScanner) :
  St n l t p -> (n <= n')%nat ->
  (l' = None \/ l' = l) -> (t' = None \/ t' = t) -> St n' l' t' p.
Proof.
  intros (Hn & Hl & Ht) Hle [->| ->] [->| ->]; unfold St; repeat split; auto; lia.
Qed.

Lemma total_St_0 {A} (l : option bool) (t : option Token) (m : M A)
    (Q : A -> bufScanner -> Prop) :
  total (St 0 l t) m Q.
Proof. intros p (H & _). lia. Qed.

(** The precondition of the body of a loop whose measure is the budget,
    plus one when the buffer is live: [j] is the value of the measure. *)
Lemma total_by_live {A} (n j : nat) (m : M A) (Q : A -> bufScanner -> Prop) :
  ((j <= n)%nat -> total (St j (Some true) None) m Q) ->
  ((j < n)%nat -> total (St (S j) (Some false) None) m Q) ->
  total (fun p => (budget p < n)%nat /\
                  (budget p + (if live p then 1 else 0))%nat = j) m Q.
Proof.
  intros H1 H2 p [Hn Hj]. destruct (live p) eqn:El.
  - apply H1; [lia|]. split; [lia|]. split; [exact El|exact I].
  - apply H2; [lia|]. split; [lia|]. split; [exact El|exact I].
Qed.

Lemma total_at_budget {A} (n j : nat) (m : M A) (Q : A -> bufScanner -> Prop) :
  ((j < n)%nat -> total (St (S j) None None) m Q) ->
  total (fun p => (budget p < n)%nat /\ budget p = j) m Q.
Proof.
  intros H p [Hn Hj]. apply H; [lia|]. split; [lia|]. split; exact I.
Qed.

(** A loop under [withFuel] whose body lowers that measure. *)
Lemma total_withFuel_loop {A B} (n : nat) (l : option bool) (t : option Token)
    (Q : B -> bufScanner -> Prop) (body : A -> M (A + B)) (a0 : A) :
  (forall a j,
      (j <= n)%nat ->
      total (St j (Some true) None) (body a)
        (fun r q => match r with
                    | inl _ => (budget q < n)%nat /\
                               (budget q + (if live q then 1 else 0) < j)%nat
                    | inr b => Q b q
                    end)) ->
  (forall a j,
      (j < n)%nat ->
      total (St (S j) (Some false) None) (body a)
        (fun r q => match r with
                    | inl _ => (budget q < n)%nat /\
                               (budget q + (if live q then 1 else 0) < j)%nat
                    | inr b => Q b q
                    end)) ->
  total (St n l t) (withFuel (fun fuel => forLoop fuel body a0)) Q.
Proof.
  intros H1 H2. apply total_withFuel. intros k.
  eapply total_pre.
  - apply (total_forLoop (fun p => (budget p < n)%nat)
             (fun p => (budget p + (if live p then 1 else 0))%nat)).
    intros a j. apply total_by_live; [apply H1 | apply H2].
  - intros p [(Hn & _) Hk]. cbv beta. split; [exact Hn|].
    pose proof (budget_fuel p). destruct (live p); lia.
Qed.

Create HintDb tot discriminated.
Create HintDb prog discriminated.

Ltac st_solve :=
  solve [ intros; cbv beta iota in *; unfold St in *;
          repeat match goal with
                 | H : _ /\ _ |- _ => destruct H
                 end;
          subst;
          repeat match goal with
                 | |- context [if live ?q then _ else _] => destruct (live q)
                 end;
          repeat split; try eassumption; auto; try lia; try congruence ].

Ltac tot_eval :=
  cbv beta iota;
  cbn [Token_eqb Token_index N.eqb Pos.eqb negb andb orb isOperator].

Ltac tot_known E :=
  try (first
    [ apply negb_false_iff in E; apply Token_eqb_eq in E; subst
    | apply Token_eqb_eq in E; subst ];
    tot_eval).

Ltac tot_call :=
  first
    [ lazymatch goal with
      | |- total (St (S _) (Some false) _) _ _ =>
        eapply (total_pre (St (S _) (Some false) None));
        [solve [eauto with prog] | st_solve]
      end
    | eapply (total_pre (St _ None None)); [solve [eauto with tot] | st_solve] ].

Ltac tot_tail :=
  first
    [ lazymatch goal with
      | |- total (St (S _) (Some false) _) _ _ =>
        eapply (total_conseq (St (S _) (Some false) None));
        [solve [eauto with prog] | st_solve | st_solve]
      end
    | eapply (total_conseq (St _ None None));
      [solve [eauto with tot] | st_solve | st_solve] ].

Ltac tot_fresh_case :=
  let E := fresh "Ee" in
  let Hn := fresh "Hn" in
  intros ? ? ? ? E Hn; try (injection Hn as Hn); subst; cbv beta iota.

(** One step; with [fresh], a scan from a state whose buffer is known not
    to be live uses the rule that counts what it consumes. *)
Ltac tot_step mode :=
  lazymatch goal with
  | |- total (St 0 _ _) _ _ => apply total_St_0
  | |- total _ (fail _) _ => apply total_fail
  | |- total _ (ret _) _ => apply total_ret; st_solve
  | |- total (St _ (Some true) (Some _)) (bind scanIgnoreWhitespace _) _ =>
    apply total_scanIW_live;
    [ intros ? ?; tot_eval
    | let E := fresh "Ews" in
      intros E ? ? ?; first [discriminate E | subst; cbv beta iota] ]
  | |- total (St _ (Some true) (Some _)) (bind scan _) _ =>
    apply total_scan_live; intros ? ?; tot_eval
  | |- total (St _ (Some false) _) (bind scanIgnoreWhitespace _) _ =>
    lazymatch mode with
    | true => apply total_scanIW_fresh; [tot_fresh_case | intros ? ?; tot_eval]
    | false => apply total_scanIW; intros ? ? ?; cbv beta iota
    end
  | |- total (St _ (Some false) _) (bind scan _) _ =>
    lazymatch mode with
    | true => apply total_scan_fresh; [tot_fresh_case | intros ? ?; tot_eval]
    | false => apply total_scan; intros ? ? ?; cbv beta iota
    end
  | |- total (St _ _ _) (bind scanIgnoreWhitespace _) _ =>
    apply total_scanIW; intros ? ? ?; cbv beta iota
  | |- total (St _ _ _) (bind scan _) _ =>
    apply total_scan; intros ? ? ?; cbv beta iota
  | |- total (St _ _ _) (bind unscan _) _ => apply total_unscan
  | |- total _ (bind (withFuel _) _) _ => fail "a loop"
  | |- total _ (bind (forLoop _ _ _) _) _ => fail "a loop"
  | |- total _ (withFuel _) _ => fail "a loop"
  | |- total _ (forLoop _ _ _) _ => fail "a loop"
  | |- total _ (bind _ _) _ =>
    eapply total_bind; [tot_call | intros ?; cbv beta iota]
  | |- total _ (if ?c then _ else _) _ =>
    let E := fresh "E" in destruct c eqn:E; tot_known E
  | |- total _ (match ?x with _ => _ end) _ => destruct x
  | |- total _ _ _ => tot_tail
  end.

Ltac tot_auto := repeat (tot_step false).
Ltac prog_auto := repeat (tot_step true).

(** [monotone m]: [m] does not run out of fuel and does not raise the
    budget.  [consuming m]: from a state whose buffer is not live, [m]
    lowers it. *)
Abbreviation monotone m :=
  (forall n l t, total (St n l t) m (fun _ => St n None None)).
Abbreviation consuming m :=
  (forall n t, total (St (S n) (Some false) t) m (fun _ => St n None None)).

Tactic Notation "tot_fun" reference(f) := intros ? ? ?; unfold f; tot_auto.
Tactic Notation "prog_fun" reference(f) := intros ? ?; unfold f; prog_auto.

Lemma consumeWhitespace_total : monotone consumeWhitespace.
Proof. intros n l t. apply total_consumeWhitespace. Qed.
#[local] Hint Resolve consumeWhitespace_total : tot.

Lemma parseTokens_total (toks : list Token) : monotone (parseTokens toks).
Proof.
  induction toks as [|tk toks IH]; intros n l t; cbn [parseTokens]; tot_auto.
Qed.
#[local] Hint Resolve parseTokens_total : tot.

Lemma parseInt_total (min max : Z) : monotone (parseInt min max).
Proof. tot_fun parseInt. Qed.
#[local] Hint Resolve parseInt_total : tot.

Lemma parseUInt32_total : monotone parseUInt32.
Proof. tot_fun parseUInt32. Qed.
#[local] Hint Resolve parseUInt32_total : tot.

Lemma parseDuration_total : monotone parseDuration.
Proof. tot_fun parseDuration. Qed.
#[local] Hint Resolve parseDuration_total : tot.

Lemma parseIdent_total : monotone parseIdent.
Proof. tot_fun parseIdent. Qed.
#[local] Hint Resolve parseIdent_total : tot.

Lemma parseIdent_consuming : consuming parseIdent.
Proof. prog_fun parseIdent. Qed.
#[local] Hint Resolve parseIdent_consuming : prog.

Lemma parseString_total : monotone parseString.
Proof. tot_fun parseString. Qed.
#[local] Hint Resolve parseString_total : tot.

Lemma parsePrivilege_total : monotone parsePrivilege.
Proof. tot_fun parsePrivilege. Qed.
#[local] Hint Resolve parsePrivilege_total : tot.

Lemma parseIdentList_total : monotone parseIdentList.
Proof.
  intros n l t. unfold parseIdentList.
  eapply total_bind; [tot_call|]. intros ident. cbv beta.
  apply total_withFuel_loop; intros idents j Hj.
  - destruct j as [|j]; prog_auto.
  - prog_auto.
Qed.
#[local] Hint Resolve parseIdentList_total : tot.

Section Termination.

Context {lib : GoLibrary}.

Lemma parseStringLiteral_total (pos : Pos) (lit : string) :
  monotone (parseStringLiteral pos lit).
Proof. tot_fun parseStringLiteral. Qed.
#[local] Hint Resolve parseStringLiteral_total : tot.

(** At the end of the input an expression fails at once. *)
Lemma parseUnaryExpr_rec_EOF (k : nat) (n : nat) :
  total (St n (Some true) (Some EOF)) (parseUnaryExpr_rec (S k))
        (fun _ _ => False).
Proof. cbn [parseUnaryExpr_rec]. prog_auto. Qed.

Lemma ParseExpr_rec_EOF (k : nat) (n : nat) :
  total (St n (Some true) (Some EOF)) (ParseExpr_rec (S (S k)))
        (fun _ _ => False).
Proof.
  cbn [ParseExpr_rec]. eapply total_bind; [apply parseUnaryExpr_rec_EOF|].
  intros a p [].
Qed.

(** The fuel that the functions of the expression grammar need: the
    budget, plus a constant, plus two when the buffer may be live. *)
Lemma expr_total (k : nat) :
  forall n,
    ((n + 3 <= k)%nat ->
     forall l t, total (St n l t) (ParseExpr_rec k) (fun _ => St n None None)) /\
    ((n + 2 <= k)%nat ->
     forall t, total (St (S n) (Some false) t) (ParseExpr_rec k)
                 (fun _ => St n None None)) /\
    ((n + 2 <= k)%nat ->
     forall l t, total (St n l t) (parseUnaryExpr_rec k)
                   (fun _ => St n None None)) /\
    ((n + 1 <= k)%nat ->
     forall t, total (St (S n) (Some false) t) (parseUnaryExpr_rec k)
                 (fun _ => St n None None)) /\
    ((n + 3 <= k)%nat ->
     forall name, total (St n (Some false) (Some LPAREN)) (parseCall_rec k name)
                    (fun _ => St n None None)).
Proof.
  induction k as [|f IH]; intros n.
  { repeat split; intros H; lia. }
  assert (IHe : forall n l t, (n + 3 <= f)%nat ->
            total (St n l t) (ParseExpr_rec f) (fun _ => St n None None))
    by (intros m l t H; now apply (IH m)).
  assert (IHen : forall n t, (n + 2 <= f)%nat ->
            total (St (S n) (Some false) t) (ParseExpr_rec f)
              (fun _ => St n None None))
    by (intros m t H; now apply (IH m)).
  assert (IHu : forall n l t, (n + 2 <= f)%nat ->
            total (St n l t) (parseUnaryExpr_rec f) (fun _ => St n None None))
    by (intros m l t H; now apply (IH m)).
  assert (IHun : forall n t, (n + 1 <= f)%nat ->
            total (St (S n) (Some false) t) (parseUnaryExpr_rec f)
              (fun _ => St n None None))
    by (intros m t H; now apply (IH m)).
  assert (IHc : forall n name, (n + 3 <= f)%nat ->
            total (St n (Some false) (Some LPAREN)) (parseCall_rec f name)
              (fun _ => St n None None))
    by (intros m name H; now apply (IH m)).
  clear IH.
  (* the operator loop of ParseExpr, from a budget below [m] *)
  assert (Hloop : forall m expr, (m <= f)%nat ->
            total (St m None None)
              (forLoop f (fun expr =>
                 '(op, _, _) <- scanIgnoreWhitespace ;;
                 if negb (isOperator op)
                 then unscan ;; ret (inr expr)
                 else rhs <- parseUnaryExpr_rec f ;;
                      ret (inl (newRoot expr op rhs))) expr)
              (fun _ => St m None None)).
  { intros m expr Hm. eapply total_pre.
    - apply (total_forLoop (fun p => (budget p < m)%nat) budget).
      intros a j. apply total_at_budget. intros Hj.
      assert (Hu : forall t, total (St (S j) (Some false) t)
                     (parseUnaryExpr_rec f) (fun _ => St j None None))
        by (intros t; apply IHun; lia).
      prog_auto.
    - st_solve. }
  (* the argument loop of parseCall, from a budget below [m] *)
  assert (Hargs : forall m l t, (m + 4 <= f)%nat ->
            total (St m l t)
              (forLoop f (fun args =>
                 arg <- ParseExpr_rec f ;;
                 '(tok, _, _) <- scan ;;
                 if negb (Token_eqb tok COMMA)
                 then unscan ;; ret (inr (args ++ [arg]))
                 else ret (inl (args ++ [arg]))) [])
              (fun _ => St m None None)).
  { intros m l t Hm. eapply total_pre.
    - apply (total_forLoop (fun p => (budget p < m)%nat)
               (fun p => (budget p + (if live p then 1 else 0))%nat)).
      intros a j. apply total_by_live; intros Hj.
      + assert (He : forall l t, total (St j l t) (ParseExpr_rec f)
                       (fun _ => St j None None))
          by (intros l0 t0; apply IHe; lia).
        tot_auto.
      + assert (He : forall t, total (St (S j) (Some false) t) (ParseExpr_rec f)
                       (fun _ => St j None None))
          by (intros t0; apply IHen; lia).
        tot_auto.
    - intros p (Hn & _). cbv beta. split; [exact Hn|]. destruct (live p); lia. }
  split; [|split; [|split; [|split]]].
  - (* ParseExpr, from any state *)
    intros Hk l t. cbn [ParseExpr_rec].
    eapply total_bind; [apply IHu; lia|]. intros expr. apply Hloop. lia.
  - (* ParseExpr, the buffer not live *)
    intros Hk t. cbn [ParseExpr_rec].
    eapply total_bind; [apply IHun; lia|]. intros expr. apply Hloop. lia.
  - (* parseUnaryExpr, from any state *)
    intros Hk l t. cbn [parseUnaryExpr_rec].
    destruct n as [|n]; [apply total_St_0|].
    assert (He : forall t, total (St (S n) (Some false) t) (ParseExpr_rec f)
                   (fun _ => St n None None))
      by (intros t0; apply IHen; lia).
    assert (Hc : forall m name, S n = S (S m) ->
              total (St m (Some false) (Some LPAREN)) (parseCall_rec f name)
                (fun _ => St m None None))
      by (intros m name Hmn; apply IHc; lia).
    apply total_scanIW. intros tok pos lit. cbv beta iota.
    destruct (Token_eqb tok LPAREN) eqn:E.
    + apply Token_eqb_eq in E. subst tok. prog_auto.
    + apply total_unscan.
      apply total_scanIW_live.
      * intros pos' lit'. cbv beta iota.
        destruct (Token_eqb tok IDENT) eqn:Ei; [|tot_auto].
        apply Token_eqb_eq in Ei. subst tok.
        apply total_scan_fresh.
        -- intros tok0 pos0 lit0 m Ee Hn. cbv beta iota.
           destruct (Token_eqb tok0 LPAREN) eqn:El.
           ++ apply Token_eqb_eq in El. subst tok0.
              eapply total_conseq; [apply (Hc m lit' Hn) | st_solve | st_solve].
           ++ tot_auto.
        -- intros pos0 lit0. tot_eval. tot_auto.
      * intros -> tok' pos' lit'. cbv beta iota.
        destruct (Token_eqb tok' IDENT) eqn:Ei; [|tot_auto].
        apply Token_eqb_eq in Ei. subst tok'.
        apply total_scan_fresh.
        -- intros tok0 pos0 lit0 m Ee Hn. cbv beta iota.
           destruct (Token_eqb tok0 LPAREN) eqn:El.
           ++ apply Token_eqb_eq in El. subst tok0.
              eapply total_conseq; [apply (Hc m lit' Hn) | st_solve | st_solve].
           ++ tot_auto.
        -- intros pos0 lit0. tot_eval. tot_auto.
  - (* parseUnaryExpr, the buffer not live *)
    intros Hk t. cbn [parseUnaryExpr_rec].
    apply total_scanIW_fresh.
    + intros tok pos lit m Ee Hn. injection Hn as ->. cbv beta iota.
      destruct (Token_eqb tok LPAREN) eqn:E.
      * apply Token_eqb_eq in E. subst tok.
        destruct m as [|m]; [apply total_St_0|].
        assert (He : forall t, total (St (S m) (Some false) t) (ParseExpr_rec f)
                       (fun _ => St m None None))
          by (intros t0; apply IHen; lia).
        prog_auto.
      * apply total_unscan. apply total_scanIW_live.
        -- intros pos' lit'. cbv beta iota.
           destruct (Token_eqb tok IDENT) eqn:Ei; [|tot_auto].
           apply Token_eqb_eq in Ei. subst tok.
           apply total_scan_fresh.
           ++ intros tok0 pos0 lit0 m2 Ee2 Hn2. subst m. cbv beta iota.
              destruct (Token_eqb tok0 LPAREN) eqn:El.
              ** apply Token_eqb_eq in El. subst tok0.
                 eapply total_conseq;
                   [apply (IHc m2 lit'); lia | st_solve | st_solve].
              ** tot_auto.
           ++ intros pos0 lit0. tot_eval. tot_auto.
        -- intros -> tok' pos' lit'. cbv beta iota.
           destruct (Token_eqb tok' IDENT) eqn:Ei; [|tot_auto].
           apply Token_eqb_eq in Ei. subst tok'.
           apply total_scan_fresh.
           ++ intros tok0 pos0 lit0 m2 Ee2 Hn2. subst m. cbv beta iota.
              destruct (Token_eqb tok0 LPAREN) eqn:El.
              ** apply Token_eqb_eq in El. subst tok0.
                 eapply total_conseq;
                   [apply (IHc m2 lit'); lia | st_solve | st_solve].
              ** tot_auto.
           ++ intros pos0 lit0. tot_eval. tot_auto.
    + intros pos lit. tot_eval. prog_auto.
  - (* parseCall *)
    intros Hk name. cbn [parseCall_rec].
    apply total_scan_fresh.
    + intros tok pos lit m Ee ->. cbv beta iota.
      destruct (Token_eqb tok RPAREN) eqn:E; [tot_auto|].
      apply total_unscan.
      eapply total_bind; [apply Hargs; lia|]. intros args. cbv beta.
      tot_auto.
    + intros pos lit. tot_eval. apply total_unscan.
      destruct f as [|[|f]]; [lia|lia|].
      apply (total_bind _ (fun _ _ => False)); [|intros a p []].
      cbn [forLoop].
      apply (total_bind _ (fun _ _ => False)); [|intros a p []].
      apply (total_bind _ (fun _ _ => False)); [|intros a p []].
      apply ParseExpr_rec_EOF.
Qed.

Lemma ParseExpr_total : monotone ParseExpr.
Proof.
  intros n l t p (Hn & _). unfold ParseExpr, withFuel.
  pose proof (budget_fuel p) as Hf.
  pose proof (proj1 (expr_total (fuelOf p) (S (budget p))) ltac:(lia) None None p)
    as H.
  specialize (H ltac:(unfold St; repeat split; lia)).
  destruct (ParseExpr_rec (fuelOf p) p) as [a q| |]; auto.
  destruct H as (H & _). unfold St. repeat split; lia.
Qed.
#[local] Hint Resolve ParseExpr_total : tot.

Lemma ParseExpr_consuming : consuming ParseExpr.
Proof.
  intros n t p (Hn & Hl & _). unfold ParseExpr, withFuel.
  pose proof (budget_fuel p) as Hf.
  pose proof (proj1 (proj2 (expr_total (fuelOf p) (budget p))) ltac:(lia) None p)
    as H.
  specialize (H ltac:(unfold St; repeat split; auto; lia)).
  destruct (ParseExpr_rec (fuelOf p) p) as [a q| |]; auto.
  destruct H as (H & _). unfold St. repeat split; lia.
Qed.
#[local] Hint Resolve ParseExpr_consuming : prog.

Lemma parseRevokeStatement_total : monotone parseRevokeStatement.
Proof.
  intros n l t.
  unfold parseRevokeStatement, parsePrivilegeStatement, privilegeUser. tot_auto.
Qed.
#[local] Hint Resolve parseRevokeStatement_total : tot.

Lemma parseGrantStatement_total : monotone parseGrantStatement.
Proof.
  intros n l t.
  unfold parseGrantStatement, parsePrivilegeStatement, privilegeUser. tot_auto.
Qed.
#[local] Hint Resolve parseGrantStatement_total : tot.

Lemma alterOptions_total (left : nat) :
  forall i stmt, monotone (alterOptions left i stmt).
Proof.
  induction left as [|left IH]; intros i stmt n l t; cbn [alterOptions]; tot_auto.
Qed.
#[local] Hint Resolve alterOptions_total : tot.

Lemma parseTarget_total (tr : targetRequirement) : monotone (parseTarget tr).
Proof. intros n l t. unfold parseTarget. tot_auto. Qed.
#[local] Hint Resolve parseTarget_total : tot.

Lemma parseCreateRetentionPolicyStatement_total : monotone parseCreateRetentionPolicyStatement.
Proof. intros n l t. unfold parseCreateRetentionPolicyStatement. tot_auto. Qed.
#[local] Hint Resolve parseCreateRetentionPolicyStatement_total : tot.

Lemma parseAlterRetentionPolicyStatement_total : monotone parseAlterRetentionPolicyStatement.
Proof. intros n l t. unfold parseAlterRetentionPolicyStatement. tot_auto. Qed.
#[local] Hint Resolve parseAlterRetentionPolicyStatement_total : tot.

Lemma parseAlias_total : monotone parseAlias.
Proof. intros n l t. unfold parseAlias. tot_auto. Qed.
#[local] Hint Resolve parseAlias_total : tot.

Lemma parseField_total : monotone parseField.
Proof. intros n l t. unfold parseField. tot_auto. Qed.
#[local] Hint Resolve parseField_total : tot.

Lemma parseField_consuming : consuming parseField.
Proof. intros n t. unfold parseField. prog_auto. Qed.
#[local] Hint Resolve parseField_consuming : prog.

Lemma parseFields_total : monotone parseFields.
Proof.
  intros n l t. unfold parseFields.
  apply total_scanIW. intros tok pos lit. cbv beta iota.
  destruct (Token_eqb tok MUL); [tot_auto|]. apply total_unscan.
  apply total_withFuel_loop; intros fields j Hj; tot_auto.
Qed.
#[local] Hint Resolve parseFields_total : tot.

Lemma parseSource_total : monotone parseSource.
Proof.
  intros n l t. unfold parseSource. tot_auto.
  eapply total_bind.
  - apply total_withFuel_loop with (Q := fun _ => St n None None);
      intros ms j Hj; prog_auto.
  - intros ms. cbv beta. tot_auto.
Qed.
#[local] Hint Resolve parseSource_total : tot.

Lemma parseCondition_total : monotone parseCondition.
Proof. intros n l t. unfold parseCondition. tot_auto. Qed.
#[local] Hint Resolve parseCondition_total : tot.

Lemma parseDimension_total : monotone parseDimension.
Proof. intros n l t. unfold parseDimension. tot_auto. Qed.
#[local] Hint Resolve parseDimension_total : tot.

Lemma parseDimension_consuming : consuming parseDimension.
Proof. intros n t. unfold parseDimension. prog_auto. Qed.
#[local] Hint Resolve parseDimension_consuming : prog.

Lemma parseDimensions_total : monotone parseDimensions.
Proof.
  intros n l t. unfold parseDimensions. tot_auto.
  apply total_withFuel_loop; intros ds j Hj; tot_auto.
Qed.
#[local] Hint Resolve parseDimensions_total : tot.

Lemma parseSortField_total : monotone parseSortField.
Proof. intros n l t. unfold parseSortField. tot_auto. Qed.
#[local] Hint Resolve parseSortField_total : tot.

Lemma parseSortField_consuming : consuming parseSortField.
Proof. intros n t. unfold parseSortField. prog_auto. Qed.
#[local] Hint Resolve parseSortField_consuming : prog.

Lemma parseSortFields_total : monotone parseSortFields.
Proof.
  intros n l t. unfold parseSortFields.
  eapply total_bind; [tot_call|]. intros field. cbv beta.
  apply total_withFuel_loop; intros fields j Hj.
  - destruct j as [|j]; prog_auto.
  - prog_auto.
Qed.
#[local] Hint Resolve parseSortFields_total : tot.

Lemma parseOrderBy_total : monotone parseOrderBy.
Proof. intros n l t. unfold parseOrderBy. tot_auto. Qed.
#[local] Hint Resolve parseOrderBy_total : tot.

Lemma parseOptionalTokenAndInt_total (tk : Token) :
  monotone (parseOptionalTokenAndInt tk).
Proof. intros n l t. unfold parseOptionalTokenAndInt. tot_auto. Qed.
#[local] Hint Resolve parseOptionalTokenAndInt_total : tot.

Lemma parseSelectStatement_total (tr : targetRequirement) :
  monotone (parseSelectStatement tr).
Proof. intros n l t. unfold parseSelectStatement. tot_auto. Qed.
#[local] Hint Resolve parseSelectStatement_total : tot.

Lemma parseDeleteStatement_total : monotone parseDeleteStatement.
Proof. intros n l t. unfold parseDeleteStatement. tot_auto. Qed.
#[local] Hint Resolve parseDeleteStatement_total : tot.

Lemma parseOptionalSource_total : monotone parseOptionalSource.
Proof. intros n l t. unfold parseOptionalSource. tot_auto. Qed.
#[local] Hint Resolve parseOptionalSource_total : tot.

Lemma parseShowSeriesStatement_total : monotone parseShowSeriesStatement.
Proof. intros n l t. unfold parseShowSeriesStatement. tot_auto. Qed.
#[local] Hint Resolve parseShowSeriesStatement_total : tot.

Lemma parseShowMeasurementsStatement_total : monotone parseShowMeasurementsStatement.
Proof. intros n l t. unfold parseShowMeasurementsStatement. tot_auto. Qed.
#[local] Hint Resolve parseShowMeasurementsStatement_total : tot.

Lemma parseShowRetentionPoliciesStatement_total : monotone parseShowRetentionPoliciesStatement.
Proof. intros n l t. unfold parseShowRetentionPoliciesStatement. tot_auto. Qed.
#[local] Hint Resolve parseShowRetentionPoliciesStatement_total : tot.

Lemma parseShowTagKeysStatement_total : monotone parseShowTagKeysStatement.
Proof. intros n l t. unfold parseShowTagKeysStatement. tot_auto. Qed.
#[local] Hint Resolve parseShowTagKeysStatement_total : tot.

Lemma parseTagKeys_total : monotone parseTagKeys.
Proof. intros n l t. unfold parseTagKeys. tot_auto. Qed.
#[local] Hint Resolve parseTagKeys_total : tot.

Lemma parseShowTagValuesStatement_total : monotone parseShowTagValuesStatement.
Proof. intros n l t. unfold parseShowTagValuesStatement. tot_auto. Qed.
#[local] Hint Resolve parseShowTagValuesStatement_total : tot.

Lemma parseShowFieldKeysStatement_total : monotone parseShowFieldKeysStatement.
Proof. intros n l t. unfold parseShowFieldKeysStatement. tot_auto. Qed.
#[local] Hint Resolve parseShowFieldKeysStatement_total : tot.

Lemma parseDropMeasurementStatement_total : monotone parseDropMeasurementStatement.
Proof. intros n l t. unfold parseDropMeasurementStatement. tot_auto. Qed.
#[local] Hint Resolve parseDropMeasurementStatement_total : tot.

Lemma parseDropSeriesStatement_total : monotone parseDropSeriesStatement.
Proof. intros n l t. unfold parseDropSeriesStatement. tot_auto. Qed.
#[local] Hint Resolve parseDropSeriesStatement_total : tot.

Lemma parseShowContinuousQueriesStatement_total : monotone parseShowContinuousQueriesStatement.
Proof. intros n l t. unfold parseShowContinuousQueriesStatement. tot_auto. Qed.
#[local] Hint Resolve parseShowContinuousQueriesStatement_total : tot.

Lemma parseCreateContinuousQueryStatement_total : monotone parseCreateContinuousQueryStatement.
Proof. intros n l t. unfold parseCreateContinuousQueryStatement. tot_auto. Qed.
#[local] Hint Resolve parseCreateContinuousQueryStatement_total : tot.

Lemma parseCreateDatabaseStatement_total : monotone parseCreateDatabaseStatement.
Proof. intros n l t. unfold parseCreateDatabaseStatement. tot_auto. Qed.
#[local] Hint Resolve parseCreateDatabaseStatement_total : tot.

Lemma parseDropDatabaseStatement_total : monotone parseDropDatabaseStatement.
Proof. intros n l t. unfold parseDropDatabaseStatement. tot_auto. Qed.
#[local] Hint Resolve parseDropDatabaseStatement_total : tot.

Lemma parseDropRetentionPolicyStatement_total : monotone parseDropRetentionPolicyStatement.
Proof. intros n l t. unfold parseDropRetentionPolicyStatement. tot_auto. Qed.
#[local] Hint Resolve parseDropRetentionPolicyStatement_total : tot.

Lemma parseCreateUserStatement_total : monotone parseCreateUserStatement.
Proof. intros n l t. unfold parseCreateUserStatement. tot_auto. Qed.
#[local] Hint Resolve parseCreateUserStatement_total : tot.

Lemma parseDropUserStatement_total : monotone parseDropUserStatement.
Proof. intros n l t. unfold parseDropUserStatement. tot_auto. Qed.
#[local] Hint Resolve parseDropUserStatement_total : tot.

Lemma parseDropContinuousQueryStatement_total : monotone parseDropContinuousQueryStatement.
Proof. intros n l t. unfold parseDropContinuousQueryStatement. tot_auto. Qed.
#[local] Hint Resolve parseDropContinuousQueryStatement_total : tot.

Lemma parseShowStatement_total : monotone parseShowStatement.
Proof. intros n l t. unfold parseShowStatement. tot_auto. Qed.
#[local] Hint Resolve parseShowStatement_total : tot.

Lemma parseCreateStatement_total : monotone parseCreateStatement.
Proof. intros n l t. unfold parseCreateStatement. tot_auto. Qed.
#[local] Hint Resolve parseCreateStatement_total : tot.

Lemma parseDropStatement_total : monotone parseDropStatement.
Proof. intros n l t. unfold parseDropStatement. tot_auto. Qed.
#[local] Hint Resolve parseDropStatement_total : tot.

Lemma parseAlterStatement_total : monotone parseAlterStatement.
Proof. intros n l t. unfold parseAlterStatement. tot_auto. Qed.
#[local] Hint Resolve parseAlterStatement_total : tot.

Lemma ParseStatement_total : monotone ParseStatement.
Proof. intros n l t. unfold ParseStatement. tot_auto. Qed.
#[local] Hint Resolve ParseStatement_total : tot.

Lemma ParseStatement_consuming : consuming ParseStatement.
Proof. intros n t. unfold ParseStatement. prog_auto. Qed.
#[local] Hint Resolve ParseStatement_consuming : prog.

Lemma ParseQuery_total : monotone ParseQuery.
Proof.
  intros n l t. unfold ParseQuery.
  apply total_scanIW. intros tok pos lit. cbv beta iota.
  destruct (Token_eqb tok EOF); [tot_auto|]. apply total_unscan.
  eapply total_bind.
  - unfold parseStatements.
    apply total_withFuel_loop with (Q := fun _ => St n None None);
      intros sts j Hj; tot_auto.
  - intros sts. cbv beta. tot_auto.
Qed.

(** X14.  The parser terminates: from every state, and so on every
    input, [ParseQuery], [ParseStatement] and [ParseExpr] return a value or
    an error.  Every loop of the parser reads input each time it goes
    round, and every level of nesting of an expression reads input, so the
    fuel of the model, which is twice the number of lexemes left plus
    eight, is never used up; nor does any of them leave more to read than
    it found. *)
Theorem parser_terminates :
  (forall p,
      ParseQuery p <> OutOfFuel /\ ParseStatement p <> OutOfFuel /\
      ParseExpr p <> OutOfFuel) /\
  (forall ts e,
      ParseQueryTokens ts e <> Unfinished /\
      ParseExprTokens ts e <> Unfinished) /\
  (forall p query q, ParseQuery p = Ok query q -> (budget q <= budget p)%nat) /\
  (forall p x q, ParseExpr p = Ok x q -> (budget q <= budget p)%nat).
Proof.
  assert (Hany : forall p, St (S (budget p)) None None p)
    by (intros p; unfold St; repeat split; lia).
  assert (Hq : forall p, ParseQuery p <> OutOfFuel).
  { intros p E. pose proof (ParseQuery_total _ None None p (Hany p)) as H.
    now rewrite E in H. }
  assert (Hx : forall p, ParseExpr p <> OutOfFuel).
  { intros p E. pose proof (ParseExpr_total _ None None p (Hany p)) as H.
    now rewrite E in H. }
  split; [|split; [|split]].
  - intros p. split; [apply Hq|]. split; [|apply Hx].
    intros E. pose proof (ParseStatement_total _ None None p (Hany p)) as H.
    now rewrite E in H.
  - intros ts e. unfold ParseQueryTokens, ParseExprTokens. split.
    + specialize (Hq (NewParser (scannerOf ts e))).
      destruct (ParseQuery _); [discriminate|discriminate|contradiction].
    + specialize (Hx (NewParser (scannerOf ts e))).
      destruct (ParseExpr _); [discriminate|discriminate|contradiction].
  - intros p query q E.
    pose proof (ParseQuery_total _ None None p (Hany p)) as H.
    rewrite E in H. destruct H as (H & _). lia.
  - intros p x q E.
    pose proof (ParseExpr_total _ None None p (Hany p)) as H.
    rewrite E in H. destruct H as (H & _). lia.
Qed.

End Termination.

(** ** Chains of operators

    What [ParseExpr] builds for operands joined by binary operators, with
    at most one whitespace token before each of them. *)

(** An optional whitespace token. *)
Definition gap : Set := option (Pos * string).

Definition gapTokens (g : gap) : list Lexeme :=
  match g with
  | Some (pos, lit) => [(WS, pos, lit)]
  | None => []
  end.

(** An operator and the operand that follows it. *)
Record Link : Set :=
  { gapOp : gap; opLex : Lexeme; gapRhs : gap; rhsLex : Lexeme }.

Definition linkTokens (k : Link) : list Lexeme :=
  gapTokens (gapOp k) ++ opLex k :: gapTokens (gapRhs k) ++ [rhsLex k].

Definition chainTokens (g0 : gap) (x0 : Lexeme) (links : list Link)
  : list Lexeme :=
  gapTokens g0 ++ x0 :: flat_map linkTokens links.

(** The token after the chain, if any, is one at which the loop of
    [ParseExpr] stops: no operator, and no parenthesis that would turn a
    last identifier into a call. *)
Definition stops (rest : list Lexeme) : bool :=
  match rest with
  | [] => true
  | x :: _ => negb (isOperator (tokOf x)) && negb (Token_eqb (tokOf x) WS)
              && negb (Token_eqb (tokOf x) LPAREN)
  end.

(** Weakly falling precedences: no operator binds tighter than the one
    before it. *)
Fixpoint falling (prev : Z) (links : list Link) : bool :=
  match links with
  | [] => true
  | k :: rest => (Precedence (tokOf (opLex k)) <=? prev)
                 && falling (Precedence (tokOf (opLex k))) rest
  end.

Definition neverRises (links : list Link) : bool :=
  match links with
  | [] => true
  | k :: rest => falling (Precedence (tokOf (opLex k))) rest
  end.

Section Chains.

Context {lib : GoLibrary}.

(** The operands of one token of [parseUnaryExpr]: the cases of its switch
    that read nothing further (time and regular-expression literals, which
    depend on the library, are left out). *)
Definition operand (x : Lexeme) : option Expr :=
  let '(tok, _, lit) := x in
  match tok with
  | IDENT => Some (VarRef lit)
  | STRING => if isDateTimeString lit || isDateString lit then None
              else Some (StringLiteral lit)
  | NUMBER => option_map NumberLiteral (strconv_ParseFloat lit)
  | TRUE => Some (BooleanLiteral true)
  | FALSE => Some (BooleanLiteral false)
  | DURATION_VAL =>
    Some (DurationLiteral (match ParseDuration lit with
                           | Some v => v
                           | None => 0
                           end))
  | _ => None
  end.

(** The tree of a chain: each link gives the tree a new root. *)
Fixpoint chainExpr (acc : Expr) (links : list Link) : option Expr :=
  match links with
  | [] => Some acc
  | k :: rest =>
    if isOperator (tokOf (opLex k)) then
      match operand (rhsLex k) with
      | Some rhs => chainExpr (newRoot acc (tokOf (opLex k)) rhs) rest
      | None => None
      end
    else None
  end.

(** The tree nested to the left: [((x0 op1 x1) op2 x2) ...]. *)
Fixpoint leftNested (acc : Expr) (links : list Link) : option Expr :=
  match links with
  | [] => Some acc
  | k :: rest =>
    match operand (rhsLex k) with
    | Some rhs => leftNested (BinaryExpr (tokOf (opLex k)) acc rhs) rest
    | None => None
    end
  end.

Variable e : Pos.

Local Abbreviation eof := (EOF, e, "").

(** [reads tl p]: the tokens that [p] will deliver are [tl], then EOF. *)
Inductive reads : list Lexeme -> bufScanner -> Prop :=
  | reads_fresh tl b : reads tl (mkState tl e b false)
  | reads_back t tl : reads (t :: tl) (mkState tl e t true)
  | reads_eof : reads [] (mkState [] e eof true).

Lemma scan_reads_cons (t : Lexeme) (tl : list Lexeme) (p : bufScanner) :
  reads (t :: tl) p -> scan p = Ok t (mkState tl e t false).
Proof.
  intros H. inversion H; subst; reflexivity.
Qed.

Lemma scan_reads_nil (p : bufScanner) :
  reads [] p -> scan p = Ok eof (mkState [] e eof false).
Proof.
  intros H. inversion H; subst; reflexivity.
Qed.

Lemma scanIgnoreWhitespace_reads (g : gap) (t : Lexeme) (tl : list Lexeme)
    (p : bufScanner) :
  Token_eqb (tokOf t) WS = false ->
  reads (gapTokens g ++ t :: tl) p ->
  scanIgnoreWhitespace p = Ok t (mkState tl e t false).
Proof.
  intros Ht H. unfold scanIgnoreWhitespace, bind.
  destruct g as [[pos lit]|]; cbn [gapTokens app] in H.
  - rewrite (scan_reads_cons _ _ _ H). cbn.
    reflexivity.
  - rewrite (scan_reads_cons _ _ _ H).
    destruct t as [[tok pos] lit]. cbn in Ht. rewrite Ht. reflexivity.
Qed.

Lemma scanIgnoreWhitespace_reads_nil (g : gap) (p : bufScanner) :
  reads (gapTokens g) p ->
  scanIgnoreWhitespace p = Ok eof (mkState [] e eof false).
Proof.
  intros H. unfold scanIgnoreWhitespace, bind.
  destruct g as [[pos lit]|]; cbn [gapTokens app] in H.
  - rewrite (scan_reads_cons _ _ _ H). cbn. reflexivity.
  - rewrite (scan_reads_nil _ H). reflexivity.
Qed.

Lemma operand_not_WS (x : Lexeme) (x' : Expr) :
  operand x = Some x' -> Token_eqb (tokOf x) WS = false.
Proof.
  destruct x as [[tok pos] lit]. unfold operand.
  destruct tok; try discriminate; reflexivity.
Qed.

Lemma isOperator_not_WS (t : Token) :
  isOperator t = true -> Token_eqb t WS = false.
Proof.
  destruct t; try discriminate; reflexivity.
Qed.

Lemma isOperator_not_LPAREN (t : Token) :
  isOperator t = true -> Token_eqb t LPAREN = false.
Proof.
  destruct t; try discriminate; reflexivity.
Qed.

(** The next token is no left parenthesis. *)
Definition noCall (tl : list Lexeme) : Prop :=
  match tl with
  | [] => True
  | x :: _ => Token_eqb (tokOf x) LPAREN = false
  end.

(** [parseUnaryExpr] on an operand. *)
Lemma parseUnaryExpr_operand (f : nat) (g : gap) (x : Lexeme) (x' : Expr)
    (tl : list Lexeme) (b : Lexeme) :
  operand x = Some x' -> noCall tl ->
  exists q, parseUnaryExpr_rec (S f) (mkState (gapTokens g ++ x :: tl) e b false)
            = Ok x' q /\ reads tl q.
Proof.
  intros Hx Htl.
  pose proof (operand_not_WS _ _ Hx) as Hws.
  cbn [parseUnaryExpr_rec]. unfold bind at 1.
  rewrite (scanIgnoreWhitespace_reads g x tl _ Hws (reads_fresh _ _)).
  destruct x as [[tok pos] lit]. cbn in Hws.
  assert (Hlp : Token_eqb tok LPAREN = false)
    by (unfold operand in Hx; destruct tok; try discriminate; reflexivity).
  rewrite Hlp. unfold bind at 1. cbn [unscan bufScanner_Unscan mkState src buf live].
  unfold bind at 1.
  change (scanIgnoreWhitespace _) with
    (scanIgnoreWhitespace (mkState tl e (tok, pos, lit) true)).
  rewrite (scanIgnoreWhitespace_reads None (tok, pos, lit) tl _ Hws
             (reads_back _ _)).
  unfold operand in Hx.
  destruct tok; try discriminate; cbn -[isDateTimeString isDateString ParseDuration].
  - (* IDENT *)
    injection Hx as <-. unfold bind.
    destruct tl as [|t tl'].
    + cbn. eexists; split; [reflexivity | apply reads_eof].
    + cbn. cbn in Htl. destruct t as [[tok0 pos0] lit0]. cbn in Htl.
      rewrite Htl. cbn. eexists; split; [reflexivity | apply reads_back].
  - (* NUMBER *)
    destruct (strconv_ParseFloat lit); [|discriminate].
    injection Hx as <-. eexists; split; [reflexivity | apply reads_fresh].
  - (* DURATION_VAL *)
    injection Hx as <-. eexists; split; [reflexivity | apply reads_fresh].
  - (* STRING *)
    unfold parseStringLiteral.
    destruct (isDateTimeString lit); [discriminate|].
    destruct (isDateString lit); [discriminate|].
    injection Hx as <-. eexists; split; [reflexivity | apply reads_fresh].
  - (* TRUE *)
    injection Hx as <-. eexists; split; [reflexivity | apply reads_fresh].
  - (* FALSE *)
    injection Hx as <-. eexists; split; [reflexivity | apply reads_fresh].
Qed.

Lemma noCall_chain (links : list Link) (g : gap) (rest : list Lexeme)
    (x' : Expr) :
  chainExpr x' links <> None -> stops rest = true ->
  noCall (flat_map linkTokens links ++ gapTokens g ++ rest).
Proof.
  intros Hc Hr. destruct links as [|k links].
  - cbn [flat_map app]. destruct g as [[pos lit]|]; [unfold noCall; cbn; reflexivity|].
    destruct rest as [|x rest]; [exact I|].
    cbn in Hr |- *. destruct (Token_eqb (tokOf x) LPAREN); [|reflexivity].
    rewrite !andb_false_r in Hr. discriminate.
  - cbn [flat_map]. unfold linkTokens. cbn [chainExpr] in Hc.
    destruct (gapOp k) as [[pos lit]|]; [unfold noCall; cbn; reflexivity|].
    unfold noCall; cbn. destruct (isOperator (tokOf (opLex k))) eqn:Hop; [|congruence].
    now apply isOperator_not_LPAREN.
Qed.

Lemma linkTokens_app (k : Link) (tl : list Lexeme) :
  (linkTokens k ++ tl
   = gapTokens (gapOp k) ++ opLex k :: gapTokens (gapRhs k) ++ rhsLex k :: tl)%list.
Proof.
  unfold linkTokens. rewrite <- app_assoc. cbn [app].
  rewrite <- app_assoc. reflexivity.
Qed.

(** The loop of [ParseExpr] over the links of a chain. *)
Lemma ParseExpr_loop (f : nat) (g : gap) (rest : list Lexeme)
    (links : list Link) :
  stops rest = true ->
  forall (acc expr : Expr) (q : bufScanner) (n : nat),
    chainExpr acc links = Some expr ->
    reads (flat_map linkTokens links ++ gapTokens g ++ rest) q ->
    (List.length links < n)%nat ->
    forLoop n (fun expr =>
      '(op, _, _) <- scanIgnoreWhitespace ;;
      if negb (isOperator op)
      then unscan ;; ret (inr expr)
      else rhs <- parseUnaryExpr_rec (S f) ;;
           ret (inl (newRoot expr op rhs))) acc q
    = Ok expr (mkState (tl rest) e (hd eof rest) true).
Proof.
  intros Hr. induction links as [|k links IH]; intros acc expr q n Hc Hq Hn.
  - destruct n as [|n]; [inversion Hn|].
    cbn [chainExpr] in Hc. injection Hc as <-.
    cbn [flat_map app] in Hq. cbn [forLoop]. unfold bind at 1 2.
    destruct rest as [|t tl].
    + rewrite app_nil_r in Hq.
      rewrite (scanIgnoreWhitespace_reads_nil _ _ Hq). reflexivity.
    + cbn in Hr. apply andb_prop in Hr as (Hr & _).
      apply andb_prop in Hr as (Hop & Hws).
      apply negb_true_iff in Hws.
      rewrite (scanIgnoreWhitespace_reads _ _ _ _ Hws Hq).
      destruct t as [[tok pos] lit]. cbn in Hop. rewrite Hop. reflexivity.
  - destruct n as [|n]; [inversion Hn|].
    cbn [List.length] in Hn.
    pose proof Hc as Hc'. cbn [chainExpr] in Hc.
    destruct (isOperator (tokOf (opLex k))) eqn:Hop; [|discriminate].
    destruct (operand (rhsLex k)) as [rhs|] eqn:Hrhs; [|discriminate].
    cbn [flat_map] in Hq. rewrite <- app_assoc, linkTokens_app in Hq.
    cbn [forLoop]. unfold bind at 1 2.
    rewrite (scanIgnoreWhitespace_reads _ _ _ _ (isOperator_not_WS _ Hop) Hq).
    destruct (opLex k) as [[op pos] lit] eqn:Hk. cbn [tokOf fst] in *.
    rewrite Hop. cbn [negb]. unfold bind at 1.
    destruct (parseUnaryExpr_operand f (gapRhs k) (rhsLex k) rhs
                (flat_map linkTokens links ++ gapTokens g ++ rest)
                (op, pos, lit) Hrhs) as (q' & Hq1 & Hq').
    { apply noCall_chain with (x' := newRoot acc op rhs); [congruence | exact Hr]. }
    rewrite Hq1. cbn [ret]. apply IH; [exact Hc | exact Hq' | lia].
Qed.

Lemma linkTokens_length (links : list Link) :
  (List.length links <= List.length (flat_map linkTokens links))%nat.
Proof.
  induction links as [|k links IH]; [apply le_n|].
  cbn [flat_map List.length]. rewrite linkTokens_app, length_app.
  cbn [List.length]. rewrite length_app. cbn [List.length]. lia.
Qed.

(** An operand is no [BinaryExpr]. *)
Definition rootPrecedence (x : Expr) : option Z :=
  match x with
  | BinaryExpr op _ _ => Some (Precedence op)
  | _ => None
  end.

Lemma operand_atom (x : Lexeme) (x' : Expr) :
  operand x = Some x' -> rootPrecedence x' = None.
Proof.
  destruct x as [[tok pos] lit]. unfold operand.
  destruct tok; try discriminate;
    try (intros H; injection H as <-; reflexivity).
  - destruct (strconv_ParseFloat lit); [|discriminate].
    intros H; injection H as <-; reflexivity.
  - destruct (isDateTimeString lit || isDateString lit); [discriminate|].
    intros H; injection H as <-; reflexivity.
Qed.

Lemma chainExpr_falling (links : list Link) :
  forall (acc expr : Expr) (prev : Z),
    rootPrecedence acc = Some prev ->
    falling prev links = true ->
    chainExpr acc links = Some expr -> leftNested acc links = Some expr.
Proof.
  induction links as [|k links IH]; intros acc expr prev Hacc Hf Hc.
  - exact Hc.
  - cbn [chainExpr leftNested falling] in *.
    apply andb_prop in Hf as (Hle & Hf). apply Z.leb_le in Hle.
    destruct (isOperator (tokOf (opLex k))); [|discriminate].
    destruct (operand (rhsLex k)) as [rhs|]; [|discriminate].
    assert (Hroot : newRoot acc (tokOf (opLex k)) rhs
                    = BinaryExpr (tokOf (opLex k)) acc rhs).
    { destruct acc; try reflexivity. cbn in Hacc. injection Hacc as <-.
      cbn [newRoot].
      destruct (Z.ltb_spec (Precedence Op) (Precedence (tokOf (opLex k))));
        [lia | reflexivity]. }
    rewrite Hroot in Hc.
    apply (IH _ _ (Precedence (tokOf (opLex k)))); [reflexivity | exact Hf | exact Hc].
Qed.

Lemma chainExpr_neverRises (links : list Link) (acc expr : Expr) :
  rootPrecedence acc = None -> neverRises links = true ->
  chainExpr acc links = Some expr -> leftNested acc links = Some expr.
Proof.
  intros Hacc Hf Hc. destruct links as [|k links]; [exact Hc|].
  cbn [chainExpr leftNested neverRises] in *.
  destruct (isOperator (tokOf (opLex k))); [|discriminate].
  destruct (operand (rhsLex k)) as [rhs|]; [|discriminate].
  assert (Hroot : newRoot acc (tokOf (opLex k)) rhs
                  = BinaryExpr (tokOf (opLex k)) acc rhs)
    by (destruct acc; try reflexivity; discriminate).
  rewrite Hroot in Hc.
  apply (chainExpr_falling _ _ _ (Precedence (tokOf (opLex k))));
    [reflexivity | exact Hf | exact Hc].
Qed.

(** X15.  A chain of operands joined by binary operators, with at most one
    whitespace token before each operand and operator, and followed by the
    end of the input or by a token that is no operator: [ParseExpr] returns
    the tree that gives each operator in turn the root ([newRoot]), and
    pushes the token after the chain back.  When no operator binds tighter
    than the one before it, and so when all bind alike, that tree is nested
    to the left: [((x0 op1 x1) op2 x2) ...]. *)
Theorem ParseExpr_chain (g0 : gap) (x0 : Lexeme) (links : list Link)
    (g : gap) (rest : list Lexeme) (x0' expr : Expr) :
  operand x0 = Some x0' ->
  chainExpr x0' links = Some expr ->
  stops rest = true ->
  ParseExpr (NewParser
               (scannerOf (chainTokens g0 x0 links ++ gapTokens g ++ rest) e))
    = Ok expr (mkState (tl rest) e (hd eof rest) true) /\
  (neverRises links = true -> leftNested x0' links = Some expr).
Proof.
  intros Hx Hc Hr. split.
  - unfold ParseExpr, withFuel, NewParser, newBufScanner, scannerOf.
    unfold chainTokens. rewrite <- !app_assoc. cbn [app].
    set (tl := (flat_map linkTokens links ++ gapTokens g ++ rest)%list).
    assert (Hfuel : exists f,
      fuelOf {| src := {| pending := gapTokens g0 ++ x0 :: tl; eofPos := e |};
                buf := (ILLEGAL, mkPos 0 0, ""); live := false |}
      = S (S f) /\ (List.length links < S f)%nat).
    { unfold fuelOf. cbn [src pending]. rewrite length_app. cbn [List.length].
      subst tl. rewrite length_app.
      pose proof (linkTokens_length links).
      eexists (2 * (List.length (gapTokens g0)
               + S (List.length (flat_map linkTokens links)
                    + List.length (gapTokens g ++ rest))) + 6)%nat.
      split; lia. }
    destruct Hfuel as (f & -> & Hn).
    cbn [ParseExpr_rec]. unfold bind at 1.
    destruct (parseUnaryExpr_operand f g0 x0 x0' tl (ILLEGAL, mkPos 0 0, "") Hx)
      as (q & Hq & Hreads).
    { apply noCall_chain with (x' := x0'); [congruence | exact Hr]. }
    unfold mkState in Hq. rewrite Hq.
    subst tl. exact (ParseExpr_loop f g rest links Hr x0' expr q (S f) Hc Hreads Hn).
  - intros Hf. apply chainExpr_neverRises; [|exact Hf|exact Hc].
    apply (operand_atom _ _ Hx).
Qed.

End Chains.

(** [a - b+true], then [)]. *)
Definition chainLinks : list Link :=
  [ {| gapOp := Some (mkPos 0 1, " "); opLex := (SUB, mkPos 0 2, "");
       gapRhs := Some (mkPos 0 3, " "); rhsLex := (IDENT, mkPos 0 4, "b") |};
    {| gapOp := None; opLex := (ADD, mkPos 0 5, "");
       gapRhs := None; rhsLex := (TRUE, mkPos 0 6, "") |} ].

Lemma ParseExpr_chain_witness :
  ParseExpr (lib := noLiterals)
    (NewParser
       (scannerOf (chainTokens None (IDENT, mkPos 0 0, "a") chainLinks
                   ++ gapTokens None ++ [(RPAREN, mkPos 0 7, "")])
                  (mkPos 0 8)))
  = Ok (BinaryExpr ADD (BinaryExpr SUB (VarRef "a") (VarRef "b"))
          (BooleanLiteral true))
       (mkState [] (mkPos 0 8) (RPAREN, mkPos 0 7, "") true) /\
  (neverRises chainLinks = true ->
   leftNested (lib := noLiterals) (VarRef "a") chainLinks
   = Some (BinaryExpr ADD (BinaryExpr SUB (VarRef "a") (VarRef "b"))
             (BooleanLiteral true))).
Proof.
  apply (ParseExpr_chain (lib := noLiterals) (mkPos 0 8) None
           (IDENT, mkPos 0 0, "a") chainLinks None
           [(RPAREN, mkPos 0 7, "")]); reflexivity.
Defined.

(** ** Where errors point

    Every [ParseError] carries the position of a token that the parser has
    read.  [known] is a set of positions that holds those of the input;
    [located P m Q]: from a state in [P], [m] ends in a state whose source
    and buffer lie in [known] with a value in [Q], or fails with an error
    whose position lies in [known]. *)

Definition posOf (x : Lexeme) : Pos := snd (fst x).

Section ErrorPositions.

Context {lib : GoLibrary}.
Variable known : Pos -> Prop.

Definition sourceIn (p : bufScanner) : Prop :=
  Forall (fun x => known (posOf x)) (pending (src p)) /\ known (eofPos (src p)).

(** Before the first scan the buffer holds no token of the input; it is
    not read as long as it is not live. *)
Definition entryIn (p : bufScanner) : Prop :=
  sourceIn p /\ (live p = true -> known (posOf (buf p))).

Definition readIn (p : bufScanner) : Prop :=
  sourceIn p /\ known (posOf (buf p)).

Definition located {A} (P : bufScanner -> Prop) (m : M A) (Q : A -> Prop)
  : Prop :=
  forall p, P p ->
    match m p with
    | Ok a q => readIn q /\ Q a
    | Err err => known (ErrPos err)
    | OutOfFuel => True
    end.

Lemma readIn_entryIn (p : bufScanner) : readIn p -> entryIn p.
Proof. intros [H1 H2]. split; [exact H1 | intros _; exact H2]. Qed.

Lemma located_ret {A} (Q : A -> Prop) (a : A) :
  Q a -> located readIn (ret a) Q.
Proof. intros H p Hp. split; assumption. Qed.

Lemma located_fail {A} (P : bufScanner -> Prop) (Q : A -> Prop)
    (err : ParseError) :
  known (ErrPos err) -> located P (fail err) Q.
Proof. intros H p _. exact H. Qed.

Lemma located_outOfFuel {A} (P : bufScanner -> Prop) (Q : A -> Prop) :
  located P outOfFuel Q.
Proof. intros p _. exact I. Qed.

Lemma located_bind {A B} (P : bufScanner -> Prop) (m : M A) (k : A -> M B)
    (Q1 : A -> Prop) (Q : B -> Prop) :
  located P m Q1 -> (forall a, Q1 a -> located readIn (k a) Q) ->
  located P (bind m k) Q.
Proof.
  intros Hm Hk p Hp. specialize (Hm p Hp). unfold bind.
  destruct (m p) as [a q| |]; [|exact Hm|exact I].
  destruct Hm as [Hq Ha]. exact (Hk a Ha q Hq).
Qed.

Lemma located_entry {A} (m : M A) (Q : A -> Prop) :
  located entryIn m Q -> located readIn m Q.
Proof. intros H p Hp. apply H. now apply readIn_entryIn. Qed.

Lemma located_conseq {A} (P : bufScanner -> Prop) (m : M A)
    (Q1 Q : A -> Prop) :
  located P m Q1 -> (forall a, Q1 a -> Q a) -> located P m Q.
Proof.
  intros Hm HQ p Hp. specialize (Hm p Hp).
  destruct (m p) as [a q| |]; auto. destruct Hm; auto.
Qed.

Lemma located_scan_entry : located entryIn scan (fun x => known (posOf x)).
Proof.
  intros [[ts ep] b l] [[Hs He] Hb]. unfold scan, bufScanner_Scan.
  cbn [src buf live pending eofPos] in *. destruct l.
  - specialize (Hb eq_refl). repeat split; assumption.
  - unfold Scanner_Scan. cbn [pending eofPos]. destruct ts as [|x ts].
    + repeat split; assumption.
    + inversion Hs; subst. repeat split; assumption.
Qed.

Lemma located_scan : located readIn scan (fun x => known (posOf x)).
Proof. apply located_entry, located_scan_entry. Qed.

Lemma located_scanIgnoreWhitespace_entry :
  located entryIn scanIgnoreWhitespace (fun x => known (posOf x)).
Proof.
  unfold scanIgnoreWhitespace.
  eapply located_bind; [apply located_scan_entry|].
  intros [[tok pos] lit] H. destruct (Token_eqb tok WS).
  - apply located_scan.
  - now apply located_ret.
Qed.

Lemma located_scanIgnoreWhitespace :
  located readIn scanIgnoreWhitespace (fun x => known (posOf x)).
Proof. apply located_entry, located_scanIgnoreWhitespace_entry. Qed.

Lemma located_unscan : located readIn unscan (fun _ => True).
Proof. intros p Hp. split; [exact Hp | exact I]. Qed.

Lemma located_forLoop {A B} (body : A -> M (A + B)) :
  (forall a, located readIn (body a) (fun _ => True)) ->
  forall n a, located readIn (forLoop n body a) (fun _ => True).
Proof.
  intros Hb n. induction n as [|n IH]; intros a; [apply located_outOfFuel|].
  cbn [forLoop]. eapply located_bind; [apply Hb|].
  intros [a'|b] _; [apply IH | now apply located_ret].
Qed.

Lemma located_withFuel {A} (P : bufScanner -> Prop) (f : nat -> M A)
    (Q : A -> Prop) :
  (forall n, located P (f n) Q) -> located P (withFuel f) Q.
Proof. intros H p Hp. exact (H _ p Hp). Qed.

End ErrorPositions.

Create HintDb loc discriminated.

#[local] Hint Resolve located_scan located_scanIgnoreWhitespace located_unscan
  located_scan_entry located_scanIgnoreWhitespace_entry : loc.

Ltac loc_pos :=
  cbn [ErrPos newParseError messageError posOf fst snd] in *; try assumption.

Ltac loc_step :=
  lazymatch goal with
  | |- located _ _ (fail _) _ => apply located_fail; loc_pos
  | |- located _ _ outOfFuel _ => apply located_outOfFuel
  | |- located _ _ (ret _) _ => apply located_ret; exact I
  | |- located _ _ (bind _ _) _ =>
    first [ eapply located_bind;
            [ solve [eauto with loc]
            | let H := fresh "H" in intros ? H; cbv beta iota in * ]
          | eapply (located_bind _ _ _ _ (fun _ => True));
            [ | intros ? _; cbv beta iota ] ]
  | |- located _ _ (withFuel _) _ => apply located_withFuel; intros ?
  | |- located _ _ (forLoop _ _ _) _ => apply located_forLoop; intros ?
  | |- located _ _ (if ?c then _ else _) _ => destruct c
  | |- located _ _ (match ?x with _ => _ end) _ => destruct x; loc_pos
  | |- located _ _ _ _ => solve [eauto with loc]
  end.

Ltac loc_auto := repeat loc_step.

Tactic Notation "loc_fun" reference(f) := unfold f; loc_auto.

Section ErrorsPoint.

Context {lib : GoLibrary}.
Variable known : Pos -> Prop.

Lemma consumeWhitespace_located :
  located known (readIn known) consumeWhitespace (fun _ => True).
Proof. loc_fun consumeWhitespace. Qed.
#[local] Hint Resolve consumeWhitespace_located : loc.

Lemma parseTokens_located (toks : list Token) :
  located known (readIn known) (parseTokens toks) (fun _ => True).
Proof. induction toks as [|tk toks IH]; cbn [parseTokens]; loc_auto. Qed.
#[local] Hint Resolve parseTokens_located : loc.

Lemma parseInt_located (min max : Z) :
  located known (readIn known) (parseInt min max) (fun _ => True).
Proof. loc_fun parseInt. Qed.
#[local] Hint Resolve parseInt_located : loc.

Lemma parseUInt32_located : located known (readIn known) parseUInt32 (fun _ => True).
Proof. loc_fun parseUInt32. Qed.
#[local] Hint Resolve parseUInt32_located : loc.

Lemma parseDuration_located : located known (readIn known) parseDuration (fun _ => True).
Proof. loc_fun parseDuration. Qed.
#[local] Hint Resolve parseDuration_located : loc.

Lemma parseIdent_located : located known (readIn known) parseIdent (fun _ => True).
Proof. loc_fun parseIdent. Qed.
#[local] Hint Resolve parseIdent_located : loc.

Lemma parseString_located : located known (readIn known) parseString (fun _ => True).
Proof. loc_fun parseString. Qed.
#[local] Hint Resolve parseString_located : loc.

Lemma parsePrivilege_located : located known (readIn known) parsePrivilege (fun _ => True).
Proof. loc_fun parsePrivilege. Qed.
#[local] Hint Resolve parsePrivilege_located : loc.

Lemma parseIdentList_located : located known (readIn known) parseIdentList (fun _ => True).
Proof. loc_fun parseIdentList. Qed.
#[local] Hint Resolve parseIdentList_located : loc.

Lemma parseStringLiteral_located (pos : Pos) (lit : string) :
  known pos -> located known (readIn known) (parseStringLiteral pos lit) (fun _ => True).
Proof. intros H. loc_fun parseStringLiteral. Qed.
#[local] Hint Resolve parseStringLiteral_located : loc.

Lemma expr_located (k : nat) :
  located known (readIn known) (ParseExpr_rec k) (fun _ => True) /\
  located known (readIn known) (parseUnaryExpr_rec k) (fun _ => True) /\
  (forall name, located known (readIn known) (parseCall_rec k name) (fun _ => True)).
Proof.
  induction k as [|f (IH1 & IH2 & IH3)].
  - repeat split; intros; apply located_outOfFuel.
  - repeat split; intros; cbn [ParseExpr_rec parseUnaryExpr_rec parseCall_rec];
      loc_auto.
Qed.

Lemma ParseExpr_located : located known (readIn known) ParseExpr (fun _ => True).
Proof.
  unfold ParseExpr. apply located_withFuel. intros n. apply expr_located.
Qed.
#[local] Hint Resolve ParseExpr_located : loc.

Lemma parseRevokeStatement_located :
  located known (readIn known) parseRevokeStatement (fun _ => True).
Proof.
  unfold parseRevokeStatement, parsePrivilegeStatement, privilegeUser. loc_auto.
Qed.
#[local] Hint Resolve parseRevokeStatement_located : loc.

Lemma parseGrantStatement_located :
  located known (readIn known) parseGrantStatement (fun _ => True).
Proof.
  unfold parseGrantStatement, parsePrivilegeStatement, privilegeUser. loc_auto.
Qed.
#[local] Hint Resolve parseGrantStatement_located : loc.

Lemma alterOptions_located (left : nat) :
  forall i stmt, located known (readIn known) (alterOptions left i stmt) (fun _ => True).
Proof.
  induction left as [|left IH]; intros i stmt; cbn [alterOptions]; loc_auto.
Qed.
#[local] Hint Resolve alterOptions_located : loc.

Lemma parseTarget_located (tr : targetRequirement) :
  located known (readIn known) (parseTarget tr) (fun _ => True).
Proof. loc_fun parseTarget. Qed.
#[local] Hint Resolve parseTarget_located : loc.

Lemma parseCreateRetentionPolicyStatement_located : located known (readIn known) parseCreateRetentionPolicyStatement (fun _ => True).
Proof. loc_fun parseCreateRetentionPolicyStatement. Qed.
#[local] Hint Resolve parseCreateRetentionPolicyStatement_located : loc.

Lemma parseAlterRetentionPolicyStatement_located : located known (readIn known) parseAlterRetentionPolicyStatement (fun _ => True).
Proof. loc_fun parseAlterRetentionPolicyStatement. Qed.
#[local] Hint Resolve parseAlterRetentionPolicyStatement_located : loc.

Lemma parseAlias_located : located known (readIn known) parseAlias (fun _ => True).
Proof. loc_fun parseAlias. Qed.
#[local] Hint Resolve parseAlias_located : loc.

Lemma parseField_located : located known (readIn known) parseField (fun _ => True).
Proof. loc_fun parseField. Qed.
#[local] Hint Resolve parseField_located : loc.

Lemma parseFields_located : located known (readIn known) parseFields (fun _ => True).
Proof. loc_fun parseFields. Qed.
#[local] Hint Resolve parseFields_located : loc.

Lemma parseSource_located : located known (readIn known) parseSource (fun _ => True).
Proof. loc_fun parseSource. Qed.
#[local] Hint Resolve parseSource_located : loc.

Lemma parseCondition_located : located known (readIn known) parseCondition (fun _ => True).
Proof. loc_fun parseCondition. Qed.
#[local] Hint Resolve parseCondition_located : loc.

Lemma parseDimension_located : located known (readIn known) parseDimension (fun _ => True).
Proof. loc_fun parseDimension. Qed.
#[local] Hint Resolve parseDimension_located : loc.

Lemma parseDimensions_located : located known (readIn known) parseDimensions (fun _ => True).
Proof. loc_fun parseDimensions. Qed.
#[local] Hint Resolve parseDimensions_located : loc.

Lemma parseSortField_located : located known (readIn known) parseSortField (fun _ => True).
Proof. loc_fun parseSortField. Qed.
#[local] Hint Resolve parseSortField_located : loc.

Lemma parseSortFields_located : located known (readIn known) parseSortFields (fun _ => True).
Proof. loc_fun parseSortFields. Qed.
#[local] Hint Resolve parseSortFields_located : loc.

Lemma parseOrderBy_located : located known (readIn known) parseOrderBy (fun _ => True).
Proof. loc_fun parseOrderBy. Qed.
#[local] Hint Resolve parseOrderBy_located : loc.

Lemma parseOptionalTokenAndInt_located (tk : Token) :
  located known (readIn known) (parseOptionalTokenAndInt tk) (fun _ => True).
Proof. loc_fun parseOptionalTokenAndInt. Qed.
#[local] Hint Resolve parseOptionalTokenAndInt_located : loc.

Lemma parseSelectStatement_located (tr : targetRequirement) :
  located known (readIn known) (parseSelectStatement tr) (fun _ => True).
Proof. loc_fun parseSelectStatement. Qed.
#[local] Hint Resolve parseSelectStatement_located : loc.

Lemma parseDeleteStatement_located : located known (readIn known) parseDeleteStatement (fun _ => True).
Proof. loc_fun parseDeleteStatement. Qed.
#[local] Hint Resolve parseDeleteStatement_located : loc.

Lemma parseOptionalSource_located : located known (readIn known) parseOptionalSource (fun _ => True).
Proof. loc_fun parseOptionalSource. Qed.
#[local] Hint Resolve parseOptionalSource_located : loc.

Lemma parseShowSeriesStatement_located : located known (readIn known) parseShowSeriesStatement (fun _ => True).
Proof. loc_fun parseShowSeriesStatement. Qed.
#[local] Hint Resolve parseShowSeriesStatement_located : loc.

Lemma parseShowMeasurementsStatement_located : located known (readIn known) parseShowMeasurementsStatement (fun _ => True).
Proof. loc_fun parseShowMeasurementsStatement. Qed.
#[local] Hint Resolve parseShowMeasurementsStatement_located : loc.

Lemma parseShowRetentionPoliciesStatement_located : located known (readIn known) parseShowRetentionPoliciesStatement (fun _ => True).
Proof. loc_fun parseShowRetentionPoliciesStatement. Qed.
#[local] Hint Resolve parseShowRetentionPoliciesStatement_located : loc.

Lemma parseShowTagKeysStatement_located : located known (readIn known) parseShowTagKeysStatement (fun _ => True).
Proof. loc_fun parseShowTagKeysStatement. Qed.
#[local] Hint Resolve parseShowTagKeysStatement_located : loc.

Lemma parseTagKeys_located : located known (readIn known) parseTagKeys (fun _ => True).
Proof. loc_fun parseTagKeys. Qed.
#[local] Hint Resolve parseTagKeys_located : loc.

Lemma parseShowTagValuesStatement_located : located known (readIn known) parseShowTagValuesStatement (fun _ => True).
Proof. loc_fun parseShowTagValuesStatement. Qed.
#[local] Hint Resolve parseShowTagValuesStatement_located : loc.

Lemma parseShowFieldKeysStatement_located : located known (readIn known) parseShowFieldKeysStatement (fun _ => True).
Proof. loc_fun parseShowFieldKeysStatement. Qed.
#[local] Hint Resolve parseShowFieldKeysStatement_located : loc.

Lemma parseDropMeasurementStatement_located : located known (readIn known) parseDropMeasurementStatement (fun _ => True).
Proof. loc_fun parseDropMeasurementStatement. Qed.
#[local] Hint Resolve parseDropMeasurementStatement_located : loc.

Lemma parseDropSeriesStatement_located : located known (readIn known) parseDropSeriesStatement (fun _ => True).
Proof. loc_fun parseDropSeriesStatement. Qed.
#[local] Hint Resolve parseDropSeriesStatement_located : loc.

Lemma parseShowContinuousQueriesStatement_located : located known (readIn known) parseShowContinuousQueriesStatement (fun _ => True).
Proof. loc_fun parseShowContinuousQueriesStatement. Qed.
#[local] Hint Resolve parseShowContinuousQueriesStatement_located : loc.

Lemma parseCreateContinuousQueryStatement_located : located known (readIn known) parseCreateContinuousQueryStatement (fun _ => True).
Proof. loc_fun parseCreateContinuousQueryStatement. Qed.
#[local] Hint Resolve parseCreateContinuousQueryStatement_located : loc.

Lemma parseCreateDatabaseStatement_located : located known (readIn known) parseCreateDatabaseStatement (fun _ => True).
Proof. loc_fun parseCreateDatabaseStatement. Qed.
#[local] Hint Resolve parseCreateDatabaseStatement_located : loc.

Lemma parseDropDatabaseStatement_located : located known (readIn known) parseDropDatabaseStatement (fun _ => True).
Proof. loc_fun parseDropDatabaseStatement. Qed.
#[local] Hint Resolve parseDropDatabaseStatement_located : loc.

Lemma parseDropRetentionPolicyStatement_located : located known (readIn known) parseDropRetentionPolicyStatement (fun _ => True).
Proof. loc_fun parseDropRetentionPolicyStatement. Qed.
#[local] Hint Resolve parseDropRetentionPolicyStatement_located : loc.

Lemma parseCreateUserStatement_located : located known (readIn known) parseCreateUserStatement (fun _ => True).
Proof. loc_fun parseCreateUserStatement. Qed.
#[local] Hint Resolve parseCreateUserStatement_located : loc.

Lemma parseDropUserStatement_located : located known (readIn known) parseDropUserStatement (fun _ => True).
Proof. loc_fun parseDropUserStatement. Qed.
#[local] Hint Resolve parseDropUserStatement_located : loc.

Lemma parseDropContinuousQueryStatement_located : located known (readIn known) parseDropContinuousQueryStatement (fun _ => True).
Proof. loc_fun parseDropContinuousQueryStatement. Qed.
#[local] Hint Resolve parseDropContinuousQueryStatement_located : loc.

Lemma parseShowStatement_located : located known (readIn known) parseShowStatement (fun _ => True).
Proof. loc_fun parseShowStatement. Qed.
#[local] Hint Resolve parseShowStatement_located : loc.

Lemma parseCreateStatement_located : located known (readIn known) parseCreateStatement (fun _ => True).
Proof. loc_fun parseCreateStatement. Qed.
#[local] Hint Resolve parseCreateStatement_located : loc.

Lemma parseDropStatement_located : located known (readIn known) parseDropStatement (fun _ => True).
Proof. loc_fun parseDropStatement. Qed.
#[local] Hint Resolve parseDropStatement_located : loc.

Lemma parseAlterStatement_located : located known (readIn known) parseAlterStatement (fun _ => True).
Proof. loc_fun parseAlterStatement. Qed.
#[local] Hint Resolve parseAlterStatement_located : loc.

Lemma ParseStatement_located : located known (readIn known) ParseStatement (fun _ => True).
Proof. loc_fun ParseStatement. Qed.
#[local] Hint Resolve ParseStatement_located : loc.

Lemma parseUnaryExpr_rec_entry (k : nat) :
  located known (entryIn known) (parseUnaryExpr_rec k) (fun _ => True).
Proof.
  destruct k as [|f]; [apply located_outOfFuel|].
  pose proof (expr_located f) as (IH1 & IH2 & IH3).
  cbn [parseUnaryExpr_rec]. loc_auto.
Qed.

Lemma ParseExpr_entry : located known (entryIn known) ParseExpr (fun _ => True).
Proof.
  unfold ParseExpr. apply located_withFuel. intros [|f];
    [apply located_outOfFuel|].
  pose proof (expr_located f) as (IH1 & IH2 & IH3).
  pose proof (parseUnaryExpr_rec_entry f).
  cbn [ParseExpr_rec]. loc_auto.
Qed.

Lemma ParseStatement_entry :
  located known (entryIn known) ParseStatement (fun _ => True).
Proof. loc_fun ParseStatement. Qed.

Lemma ParseQuery_entry : located known (entryIn known) ParseQuery (fun _ => True).
Proof. unfold ParseQuery, parseStatements. loc_auto. Qed.

End ErrorsPoint.

(** The positions of the tokens that a parser in state [p] can read: that
    of the token pushed back, if any, those of the tokens to come and that
    of the end of the input. *)
Definition positions (p : bufScanner) : list Pos :=
  (if live p then [posOf (buf p)] else [])
  ++ map posOf (pending (src p)) ++ [eofPos (src p)].

Lemma entryIn_positions (p : bufScanner) :
  entryIn (fun pos => In pos (positions p)) p.
Proof.
  unfold entryIn, sourceIn, positions. repeat split.
  - apply Forall_forall. intros x Hx. apply in_or_app. right.
    apply in_or_app. left. now apply in_map.
  - apply in_or_app. right. apply in_or_app. right. now left.
  - intros ->. now left.
Qed.

(** X16.  An error of the parser points at a token: the position that a
    [ParseError] of [ParseQuery], [ParseStatement] or [ParseExpr] carries is
    that of a token the parser could read, one of the input or the end of
    the input (or the token pushed back, when the parser starts with
    one). *)
Theorem errors_point_at_tokens {lib : GoLibrary} :
  (forall p err,
      ParseQuery p = Err err \/ ParseStatement p = Err err \/
      ParseExpr p = Err err ->
      In (ErrPos err) (positions p)) /\
  (forall ts e err,
      ParseQueryTokens ts e = Rejected err \/
      ParseExprTokens ts e = Rejected err ->
      In (ErrPos err) (map posOf ts ++ [e])).
Proof.
  assert (H1 : forall p err,
      ParseQuery p = Err err \/ ParseStatement p = Err err \/
      ParseExpr p = Err err ->
      In (ErrPos err) (positions p)).
  { intros p err [E|[E|E]].
    - pose proof (ParseQuery_entry _ p (entryIn_positions p)) as H.
      now rewrite E in H.
    - pose proof (ParseStatement_entry _ p (entryIn_positions p)) as H.
      now rewrite E in H.
    - pose proof (ParseExpr_entry _ p (entryIn_positions p)) as H.
      now rewrite E in H. }
  split; [exact H1|].
  intros ts e err E.
  change (map posOf ts ++ [e])
    with (positions (NewParser (scannerOf ts e))).
  apply H1. unfold ParseQueryTokens, ParseExprTokens, outcome in E.
  destruct E as [E|E]; [left | right; right].
  - destruct (ParseQuery _); congruence.
  - destruct (ParseExpr _); congruence.
Qed.

(** ** The direction of a sort field *)

(** X17.  [parseSortField] sets [Ascending] from an ASC token only: the
    field it returns is ascending exactly when the last token read is ASC
    (and is not pushed back).  A field whose name is followed by neither
    ASC nor DESC comes out with [Ascending] false, as after DESC. *)
Theorem parseSortField_direction (p : bufScanner) (f : SortField)
    (q : bufScanner) :
  parseSortField p = Ok f q ->
  (Ascending f = true <-> live q = false /\ tokOf (buf q) = ASC) /\
  (live q = true -> Ascending f = false /\ tokOf (buf q) <> DESC).
Proof.
  unfold parseSortField. intros E.
  destruct (scanIgnoreWhitespace_budget p) as (x & p1 & E1 & Hb1 & Hl1 & _).
  rewrite (bind_step _ _ _ _ _ E1) in E. destruct x as [[tok pos] lit].
  destruct (Token_eqb tok IDENT || Token_eqb tok STRING) eqn:Ename.
  - destruct (scanIgnoreWhitespace_budget p1) as (y & p2 & E2 & Hb2 & Hl2 & _).
    rewrite (bind_step _ _ _ _ _ E2) in E. destruct y as [[tok2 pos2] lit2].
    destruct (Token_eqb tok2 ASC) eqn:Easc; cbn [negb andb] in E.
    + injection E as <- <-. cbn [Ascending]. rewrite Hb2, Hl2.
      apply Token_eqb_eq in Easc. subst tok2. cbn [tokOf fst].
      repeat split; auto; discriminate.
    + destruct (Token_eqb tok2 DESC) eqn:Edesc; cbn [negb] in E.
      * injection E as <- <-. cbn [Ascending]. rewrite Hb2, Hl2.
        apply Token_eqb_neq in Easc. cbn [tokOf fst].
        repeat split; try discriminate. intros [_ H]. contradiction.
      * unfold bind, unscan, ret in E. injection E as <- <-.
        cbn [Ascending bufScanner_Unscan live buf]. rewrite Hb2.
        apply Token_eqb_neq in Easc. apply Token_eqb_neq in Edesc.
        cbn [tokOf fst]. repeat split; auto; try discriminate.
        intros [H _]. discriminate.
  - destruct (Token_eqb tok ASC) eqn:Easc; cbn [negb andb] in E.
    + injection E as <- <-. cbn [Ascending]. rewrite Hb1, Hl1.
      apply Token_eqb_eq in Easc. subst tok. cbn [tokOf fst].
      repeat split; auto; discriminate.
    + destruct (Token_eqb tok DESC) eqn:Edesc; cbn [negb] in E;
        [|discriminate].
      injection E as <- <-. cbn [Ascending]. rewrite Hb1, Hl1.
      apply Token_eqb_neq in Easc. cbn [tokOf fst].
      repeat split; try discriminate. intros [_ H]. contradiction.
Qed.

(** [name], then the end of the input. *)
Definition sortFieldInput : bufScanner :=
  NewParser (scannerOf [(IDENT, mkPos 0 0, "name")] (mkPos 0 4)).

Lemma parseSortField_direction_witness :
  parseSortField sortFieldInput
  = Ok {| SortField_Name := "name"; Ascending := false |}
       (mkState [] (mkPos 0 4) (EOF, mkPos 0 4, "") true) /\
  (live (mkState [] (mkPos 0 4) (EOF, mkPos 0 4, "") true) = true ->
   Ascending {| SortField_Name := "name"; Ascending := false |} = false /\
   tokOf (buf (mkState [] (mkPos 0 4) (EOF, mkPos 0 4, "") true)) <> DESC).
Proof.
  split; [reflexivity|].
  apply (parseSortField_direction sortFieldInput
           {| SortField_Name := "name"; Ascending := false |}
           (mkState [] (mkPos 0 4) (EOF, mkPos 0 4, "") true)).
  reflexivity.
Defined.

(** ** Operands on the right

    The part of the law of precedences that the rotation of [ParseExpr]
    does keep. *)

Definition isBinary (e : Expr) : bool :=
  match e with
  | BinaryExpr _ _ _ => true
  | _ => false
  end.

(** Every [BinaryExpr] of the tree has an operator, and where its right
    operand is a [BinaryExpr] too, that one binds strictly tighter and its
    own right operand is no [BinaryExpr]. *)
Fixpoint rightTight (e : Expr) : bool :=
  match e with
  | BinaryExpr op l r =>
    isOperator op && rightTight l && rightTight r &&
    match r with
    | BinaryExpr rop _ rr =>
      (Precedence op <? Precedence rop) && negb (isBinary rr)
    | _ => true
    end
  | ParenExpr x => rightTight x
  | Call _ args => forallb rightTight args
  | _ => true
  end.

(** What [parseUnaryExpr] returns: no [BinaryExpr]. *)
Definition unaryTight (e : Expr) : Prop :=
  rightTight e = true /\ isBinary e = false.

Lemma newRoot_rightTight (expr : Expr) (op : Token) (rhs : Expr) :
  rightTight expr = true -> unaryTight rhs -> isOperator op = true ->
  rightTight (newRoot expr op rhs) = true.
Proof.
  intros He [Hr Hb] Hop. unfold newRoot.
  assert (Hnew : forall x, rightTight x = true ->
                           rightTight (BinaryExpr op x rhs) = true).
  { intros x Hx. cbn [rightTight]. rewrite Hop, Hx, Hr.
    destruct rhs; try reflexivity. discriminate Hb. }
  destruct expr as [lop l r| | | | | | | | | |]; try (apply Hnew; exact He).
  destruct (Precedence lop <? Precedence op) eqn:Hp; [|apply Hnew; exact He].
  cbn [rightTight] in He.
  apply andb_prop in He as (He & _). apply andb_prop in He as (He & Hrr).
  apply andb_prop in He as (Hlop & Hl).
  change (rightTight (BinaryExpr lop l (BinaryExpr op r rhs)))
    with (isOperator lop && rightTight l && rightTight (BinaryExpr op r rhs)
          && ((Precedence lop <? Precedence op) && negb (isBinary rhs))).
  rewrite Hlop, Hl, (Hnew r Hrr), Hp, Hb. reflexivity.
Qed.

Section RightOperands.

Context {lib : GoLibrary}.

Lemma parseStringLiteral_unary (pos : Pos) (lit : string) :
  yields (parseStringLiteral pos lit) unaryTight.
Proof.
  unfold parseStringLiteral. yields_auto; split; reflexivity.
Qed.

Lemma expr_rightTight (k : nat) :
  yields (ParseExpr_rec k) (fun x => rightTight x = true) /\
  yields (parseUnaryExpr_rec k) unaryTight /\
  (forall name, yields (parseCall_rec k name) unaryTight).
Proof.
  induction k as [|f (IH1 & IH2 & IH3)].
  - split; [|split; [|intros name]]; apply yields_outOfFuel.
  - split; [|split].
    + cbn [ParseExpr_rec].
      eapply yields_bind_with; [exact IH2|]. intros x [Hx _].
      apply yields_forLoop with (I := fun x => rightTight x = true);
        [|exact Hx].
      intros acc Hacc. apply yields_bind. intros [[op pos] lit].
      destruct (isOperator op) eqn:Hop; cbn [negb].
      * eapply yields_bind_with; [exact IH2|]. intros rhs Hrhs.
        apply yields_ret. now apply newRoot_rightTight.
      * apply yields_bind. intros _. now apply yields_ret.
    + cbn [parseUnaryExpr_rec].
      apply yields_bind. intros [[tok pos] lit].
      destruct (Token_eqb tok LPAREN).
      * eapply yields_bind_with; [exact IH1|]. intros x Hx.
        yields_auto. split; [exact Hx | reflexivity].
      * pose proof (parseStringLiteral_unary) as Hs.
        yields_auto; try (split; reflexivity); auto.
    + intros name. cbn [parseCall_rec].
      apply yields_bind. intros [[tok pos] lit].
      destruct (Token_eqb tok RPAREN); [apply yields_ret; split; reflexivity|].
      apply yields_bind. intros _.
      eapply yields_bind_with.
      * apply yields_forLoop
          with (I := fun args => forallb rightTight args = true)
               (Q := fun args => forallb rightTight args = true);
          [|reflexivity].
        intros args Hargs.
        eapply yields_bind_with; [exact IH1|]. intros arg Harg.
        assert (Happ : forallb rightTight (args ++ [arg]) = true)
          by (rewrite forallb_app, Hargs; cbn; now rewrite Harg).
        yields_auto; exact Happ.
      * intros args Hargs. yields_auto. split; [exact Hargs | reflexivity].
Qed.

(** X18.  In every expression that [ParseExpr] returns, each [BinaryExpr]
    carries an operator, and a right operand that is itself a [BinaryExpr]
    (one that was not written in parentheses) binds strictly tighter than
    its parent and has no [BinaryExpr] on its own right.  So operators of
    the same precedence are never nested to the right, and a looser
    operator is never the right operand of a tighter one. *)
Theorem ParseExpr_right_operands (p : bufScanner) (x : Expr) (q : bufScanner) :
  ParseExpr p = Ok x q -> rightTight x = true.
Proof.
  intros E. unfold ParseExpr, withFuel in E.
  exact (proj1 (expr_rightTight (fuelOf p)) p x q E).
Qed.

End RightOperands.

(** [a + b * c]. *)
Definition risingInput : bufScanner :=
  NewParser (scannerOf [(IDENT, mkPos 0 0, "a"); (WS, mkPos 0 1, " ");
                        (ADD, mkPos 0 2, ""); (WS, mkPos 0 3, " ");
                        (IDENT, mkPos 0 4, "b"); (WS, mkPos 0 5, " ");
                        (MUL, mkPos 0 6, ""); (WS, mkPos 0 7, " ");
                        (IDENT, mkPos 0 8, "c")] (mkPos 0 9)).

Lemma ParseExpr_right_operands_witness :
  ParseExpr (lib := noLiterals) risingInput
  = Ok (BinaryExpr ADD (VarRef "a") (BinaryExpr MUL (VarRef "b") (VarRef "c")))
       (mkState [] (mkPos 0 9) (EOF, mkPos 0 9, "") true) /\
  rightTight
    (BinaryExpr ADD (VarRef "a") (BinaryExpr MUL (VarRef "b") (VarRef "c")))
  = true.
Proof.
  split; [reflexivity|].
  apply (ParseExpr_right_operands (lib := noLiterals) risingInput _
           (mkState [] (mkPos 0 9) (EOF, mkPos 0 9, "") true)).
  reflexivity.
Defined.

(** ** A sequence of statements

    The input of the second run is the input of the first, a SEMICOLON
    lexeme and a second input, [tail]. *)

(** More fuel does not change the answer of a loop that had enough. *)
Lemma forLoop_mono {A B} (body : A -> M (A + B)) (n : nat) :
  forall n' a p, (n <= n')%nat -> forLoop n body a p <> OutOfFuel ->
  forLoop n' body a p = forLoop n body a p.
Proof.
  induction n as [|n IH]; intros n' a p Hn H; [now contradiction H|].
  destruct n' as [|n']; [lia|]. cbn [forLoop] in *. unfold bind in *.
  destruct (body a p) as [[a'|b] p1| |]; try reflexivity.
  apply IH; [lia | exact H].
Qed.

(** The scanner joins adjacent whitespace: no input starts with two
    whitespace tokens. *)
Definition twoSpaces (ts : list Lexeme) : bool :=
  match ts with
  | x :: y :: _ => Token_eqb (tokOf x) WS && Token_eqb (tokOf y) WS
  | _ => false
  end.

Section StatementSequence.

Context {lib : GoLibrary}.
Variables (ps : Pos) (ls : string) (e e' : Pos) (tail : list Lexeme).

(** Both runs have the same tokens ahead; the second one has the semicolon
    and the second input after them. *)
Inductive Smore : rel :=
  | Smore_intro (ts : list Lexeme) (b : Lexeme) (l : bool) :
      noEOF ts -> tokOf b <> EOF ->
      Smore (mkState ts e b l) (mkState (ts ++ (SEMICOLON, ps, ls) :: tail) e' b l).

(** The first run has read EOF where the second has read the semicolon,
    and both have pushed it back ([Send]) or not ([Smid]); the second run
    has the second input ahead. *)
Definition Send : rel := fun p p' =>
  p = mkState [] e (EOF, e, "") true /\
  p' = mkState tail e' (SEMICOLON, ps, ls) true.

Definition Smid : rel := fun p p' =>
  p = mkState [] e (EOF, e, "") false /\
  p' = mkState tail e' (SEMICOLON, ps, ls) false.

Definition Sseq : rel := fun p p' => Smore p p' \/ Send p p'.

Lemma scan_seq (p p' : bufScanner) :
  Sseq p p' ->
  forall x q, scan p = Ok x q ->
  exists x' q',
    scan p' = Ok x' q' /\
    ((x' = x /\ tokOf x <> EOF /\ Smore q q') \/
     (x = (EOF, e, "") /\ x' = (SEMICOLON, ps, ls) /\ Smid q q')).
Proof.
  intros [H | [-> ->]] x q E.
  - destruct H as [ts b l Hts Hb]. unfold scan, bufScanner_Scan in *.
    cbn [mkState live buf src] in *. destruct l.
    + injection E as <- <-. do 2 eexists. split; [reflexivity|]. left.
      split; [reflexivity|]. split; [exact Hb|].
      now apply (Smore_intro ts b false).
    + unfold Scanner_Scan in *. cbn [pending eofPos] in *.
      destruct ts as [|t ts]; cbn [app] in *.
      * injection E as <- <-. do 2 eexists. split; [reflexivity|]. right.
        repeat split.
      * injection E as <- <-. do 2 eexists. split; [reflexivity|]. left.
        inversion Hts; subst. split; [reflexivity|]. split; [assumption|].
        now apply (Smore_intro ts t false).
  - cbv in E. injection E as <- <-. do 2 eexists. split; [reflexivity|].
    right. repeat split.
Qed.

Lemma scanIgnoreWhitespace_seq (p p' : bufScanner) :
  Sseq p p' ->
  forall x q, scanIgnoreWhitespace p = Ok x q ->
  exists x' q',
    scanIgnoreWhitespace p' = Ok x' q' /\
    ((x' = x /\ tokOf x <> EOF /\ Smore q q') \/
     (x = (EOF, e, "") /\ x' = (SEMICOLON, ps, ls) /\ Smid q q')).
Proof.
  intros HR x q E. unfold scanIgnoreWhitespace in *.
  apply bind_Ok in E as ([[tok pos] lit] & p1 & E1 & E2).
  destruct (scan_seq p p' HR _ _ E1) as (x1' & p1' & E1' & H).
  rewrite (bind_step _ _ _ _ _ E1').
  destruct H as [(-> & Hne & Hm) | (Hx & -> & Hm)].
  - destruct (Token_eqb tok WS).
    + apply (scan_seq p1 p1'); [now left | exact E2].
    + unfold ret in *. injection E2 as <- <-. do 2 eexists.
      split; [reflexivity|]. left. auto.
  - injection Hx as -> -> ->. cbn in E2. unfold ret in E2.
    injection E2 as <- <-. do 2 eexists. split; [reflexivity|]. right. auto.
Qed.

Lemma sim_scan_seq {A} (Q : A -> rel) (k k' : Lexeme -> M A) :
  (forall tok pos lit, sim Sseq Q (k (tok, pos, lit)) (k' (tok, pos, lit))) ->
  sim Smid Q (k (EOF, e, "")) (k' (SEMICOLON, ps, ls)) ->
  sim Sseq Q (bind scan k) (bind scan k').
Proof.
  intros H1 H2 p p' HR a q E. apply bind_Ok in E as (x & p1 & E1 & E2).
  destruct (scan_seq p p' HR _ _ E1) as (x' & p1' & E1' & H).
  rewrite (bind_step _ _ _ _ _ E1').
  destruct H as [(-> & Hne & Hm) | (-> & -> & Hm)].
  - destruct x as [[tok pos] lit]. apply (H1 tok pos lit p1 p1'); [now left | exact E2].
  - apply (H2 p1 p1' Hm). exact E2.
Qed.

Lemma sim_scanIW_seq {A} (Q : A -> rel) (k k' : Lexeme -> M A) :
  (forall tok pos lit, sim Sseq Q (k (tok, pos, lit)) (k' (tok, pos, lit))) ->
  sim Smid Q (k (EOF, e, "")) (k' (SEMICOLON, ps, ls)) ->
  sim Sseq Q (bind scanIgnoreWhitespace k) (bind scanIgnoreWhitespace k').
Proof.
  intros H1 H2 p p' HR a q E. apply bind_Ok in E as (x & p1 & E1 & E2).
  destruct (scanIgnoreWhitespace_seq p p' HR _ _ E1) as (x' & p1' & E1' & H).
  rewrite (bind_step _ _ _ _ _ E1').
  destruct H as [(-> & Hne & Hm) | (-> & -> & Hm)].
  - destruct x as [[tok pos] lit]. apply (H1 tok pos lit p1 p1'); [now left | exact E2].
  - apply (H2 p1 p1' Hm). exact E2.
Qed.

Lemma sim_unscan_seq : sim Sseq (fun _ => Sseq) unscan unscan.
Proof.
  intros p p' HR [] q E. unfold unscan in *. injection E as <-.
  eexists. split; [reflexivity|].
  destruct HR as [H | [-> ->]].
  - destruct H as [ts b l Hts Hb]. left. now apply (Smore_intro ts b true).
  - right. split; reflexivity.
Qed.

Lemma sim_unscan_seq_mid : sim Smid (fun _ => Sseq) unscan unscan.
Proof.
  intros p p' [-> ->] [] q E. unfold unscan in *. injection E as <-.
  eexists. split; [reflexivity|]. right. split; reflexivity.
Qed.

Lemma Sseq_fuel (p p' : bufScanner) : Sseq p p' -> (fuelOf p <= fuelOf p')%nat.
Proof.
  intros [H | [-> ->]].
  - destruct H. unfold fuelOf. cbn. rewrite length_app. lia.
  - unfold fuelOf. cbn. lia.
Qed.

Create HintDb seq discriminated.

Ltac seq_eval :=
  cbv beta iota;
  cbn [Token_eqb Token_index N.eqb Pos.eqb negb andb orb isOperator].

Ltac seq_post := intros; cbv beta iota; auto.

(** After a test on a token has been decided, the token is known when the
    test was an equality that holds. *)
Ltac seq_known E :=
  try (first
    [ apply negb_false_iff in E; apply Token_eqb_eq in E; subst
    | apply Token_eqb_eq in E; subst ];
    seq_eval).

Ltac seq_step :=
  lazymatch goal with
  | |- sim _ _ (fail _) _ => apply sim_fail
  | |- sim _ _ outOfFuel _ => apply sim_outOfFuel
  | |- sim _ _ (ret _) (ret _) => apply sim_ret; seq_post
  | |- sim _ _ (bind scanIgnoreWhitespace _) (bind scanIgnoreWhitespace _) =>
    apply sim_scanIW_seq; [intros ? ? ?; cbv beta iota | seq_eval]
  | |- sim _ _ (bind scan _) (bind scan _) =>
    apply sim_scan_seq; [intros ? ? ?; cbv beta iota | seq_eval]
  | |- sim Smid _ (bind unscan _) (bind unscan _) =>
    eapply sim_bind; [apply sim_unscan_seq_mid | intros ?; cbv beta iota]
  | |- sim _ _ (bind unscan _) (bind unscan _) =>
    eapply sim_bind; [apply sim_unscan_seq | intros ?; cbv beta iota]
  | |- sim _ _ (bind _ _) (bind _ _) =>
    apply sim_bind with (Q := fun _ => Sseq); [ | intros ?; cbv beta iota]
  | |- sim _ _ (if ?c then _ else _) (if ?c then _ else _) =>
    let E := fresh "E" in destruct c eqn:E; seq_known E
  | |- sim _ _ (match ?x with _ => _ end) (match ?x with _ => _ end) =>
    destruct x
  | |- sim _ _ (withFuel _) (withFuel _) =>
    apply sim_withFuel; [apply Sseq_fuel | intros ? ? ?]
  | |- sim _ _ (forLoop _ _ _) (forLoop _ _ _) =>
    apply sim_forLoop; [intros ? | lia]
  | |- sim _ _ _ _ => solve [eauto with seq]
  end.

Ltac seq_auto := repeat seq_step.

Abbreviation simQ m := (sim Sseq (fun _ => Sseq) m m).

#[local] Hint Resolve sim_unscan_seq sim_unscan_seq_mid : seq.

Tactic Notation "seq_fun" reference(f) := unfold f; seq_auto.

(** [parseTokens] is called with these four token sequences. *)
Lemma parseTokens_WITH_KEY_seq : simQ (parseTokens [WITH; KEY]).
Proof. cbn [parseTokens]; seq_auto. Qed.
#[local] Hint Resolve parseTokens_WITH_KEY_seq : seq.

Lemma parseTokens_WITH_PASSWORD_seq : simQ (parseTokens [WITH; PASSWORD]).
Proof. cbn [parseTokens]; seq_auto. Qed.
#[local] Hint Resolve parseTokens_WITH_PASSWORD_seq : seq.

Lemma parseTokens_ALL_PRIVILEGES_seq : simQ (parseTokens [ALL; PRIVILEGES]).
Proof. cbn [parseTokens]; seq_auto. Qed.
#[local] Hint Resolve parseTokens_ALL_PRIVILEGES_seq : seq.

Lemma parseTokens_BEGIN_SELECT_seq : simQ (parseTokens [BEGIN; SELECT]).
Proof. cbn [parseTokens]; seq_auto. Qed.
#[local] Hint Resolve parseTokens_BEGIN_SELECT_seq : seq.

Lemma parseInt_seq (min max : Z) : simQ (parseInt min max).
Proof. seq_fun parseInt. Qed.
#[local] Hint Resolve parseInt_seq : seq.

Lemma parseUInt32_seq : simQ parseUInt32.
Proof. seq_fun parseUInt32. Qed.
#[local] Hint Resolve parseUInt32_seq : seq.

Lemma parseDuration_seq : simQ parseDuration.
Proof. seq_fun parseDuration. Qed.
#[local] Hint Resolve parseDuration_seq : seq.

Lemma parseIdent_seq : simQ parseIdent.
Proof. seq_fun parseIdent. Qed.
#[local] Hint Resolve parseIdent_seq : seq.

Lemma parseIdentList_seq : simQ parseIdentList.
Proof. seq_fun parseIdentList. Qed.
#[local] Hint Resolve parseIdentList_seq : seq.

Lemma parseString_seq : simQ parseString.
Proof. seq_fun parseString. Qed.
#[local] Hint Resolve parseString_seq : seq.

Lemma parsePrivilege_seq : simQ parsePrivilege.
Proof. seq_fun parsePrivilege. Qed.
#[local] Hint Resolve parsePrivilege_seq : seq.

Lemma parseStringLiteral_seq (pos : Pos) (lit : string) :
  simQ (parseStringLiteral pos lit).
Proof. seq_fun parseStringLiteral. Qed.
#[local] Hint Resolve parseStringLiteral_seq : seq.

(** The three functions of the expression grammar, by induction on the
    fuel of the first run. *)
Lemma expr_seq (n : nat) :
  forall n', (n <= n')%nat ->
    sim Sseq (fun _ => Sseq) (ParseExpr_rec n) (ParseExpr_rec n') /\
    sim Sseq (fun _ => Sseq) (parseUnaryExpr_rec n) (parseUnaryExpr_rec n') /\
    forall name,
      sim Sseq (fun _ => Sseq) (parseCall_rec n name) (parseCall_rec n' name).
Proof.
  induction n as [|n IH]; intros n' Hn.
  - repeat split; intros; apply sim_outOfFuel.
  - destruct n' as [|n']; [lia|].
    destruct (IH n' ltac:(lia)) as (IHe & IHu & IHc).
    cbn [ParseExpr_rec parseUnaryExpr_rec parseCall_rec].
    split; [|split; [|intros name]]; seq_auto.
Qed.

Lemma ParseExpr_seq : simQ ParseExpr.
Proof.
  unfold ParseExpr. apply sim_withFuel; [apply Sseq_fuel|].
  intros n n' Hn. apply expr_seq, Hn.
Qed.
#[local] Hint Resolve ParseExpr_seq : seq.

Lemma parseRevokeStatement_seq : simQ parseRevokeStatement.
Proof.
  unfold parseRevokeStatement, parsePrivilegeStatement, privilegeUser.
  seq_auto.
Qed.
#[local] Hint Resolve parseRevokeStatement_seq : seq.

Lemma parseGrantStatement_seq : simQ parseGrantStatement.
Proof.
  unfold parseGrantStatement, parsePrivilegeStatement, privilegeUser.
  seq_auto.
Qed.
#[local] Hint Resolve parseGrantStatement_seq : seq.

Lemma alterOptions_seq (left : nat) :
  forall i stmt, simQ (alterOptions left i stmt).
Proof.
  induction left as [|left IH]; intros i stmt; cbn [alterOptions]; seq_auto.
Qed.
#[local] Hint Resolve alterOptions_seq : seq.

Lemma parseTarget_seq (tr : targetRequirement) : simQ (parseTarget tr).
Proof. seq_fun parseTarget. Qed.
#[local] Hint Resolve parseTarget_seq : seq.



Lemma parseCreateRetentionPolicyStatement_seq : simQ parseCreateRetentionPolicyStatement.
Proof. seq_fun parseCreateRetentionPolicyStatement. Qed.
#[local] Hint Resolve parseCreateRetentionPolicyStatement_seq : seq.

Lemma parseAlterRetentionPolicyStatement_seq : simQ parseAlterRetentionPolicyStatement.
Proof. seq_fun parseAlterRetentionPolicyStatement. Qed.
#[local] Hint Resolve parseAlterRetentionPolicyStatement_seq : seq.

Lemma parseAlias_seq : simQ parseAlias.
Proof. seq_fun parseAlias. Qed.
#[local] Hint Resolve parseAlias_seq : seq.

Lemma consumeWhitespace_seq : simQ consumeWhitespace.
Proof. seq_fun consumeWhitespace. Qed.
#[local] Hint Resolve consumeWhitespace_seq : seq.

Lemma parseField_seq : simQ parseField.
Proof. seq_fun parseField. Qed.
#[local] Hint Resolve parseField_seq : seq.

Lemma parseFields_seq : simQ parseFields.
Proof. seq_fun parseFields. Qed.
#[local] Hint Resolve parseFields_seq : seq.

Lemma parseSource_seq : simQ parseSource.
Proof. seq_fun parseSource. Qed.
#[local] Hint Resolve parseSource_seq : seq.

Lemma parseCondition_seq : simQ parseCondition.
Proof. seq_fun parseCondition. Qed.
#[local] Hint Resolve parseCondition_seq : seq.

Lemma parseDimension_seq : simQ parseDimension.
Proof. seq_fun parseDimension. Qed.
#[local] Hint Resolve parseDimension_seq : seq.

Lemma parseDimensions_seq : simQ parseDimensions.
Proof. seq_fun parseDimensions. Qed.
#[local] Hint Resolve parseDimensions_seq : seq.

Lemma parseSortField_seq : simQ parseSortField.
Proof. seq_fun parseSortField. Qed.
#[local] Hint Resolve parseSortField_seq : seq.

Lemma parseSortFields_seq : simQ parseSortFields.
Proof. seq_fun parseSortFields. Qed.
#[local] Hint Resolve parseSortFields_seq : seq.

Lemma parseOrderBy_seq : simQ parseOrderBy.
Proof. seq_fun parseOrderBy. Qed.
#[local] Hint Resolve parseOrderBy_seq : seq.

Lemma parseOptionalTokenAndInt_LIMIT_seq : simQ (parseOptionalTokenAndInt LIMIT).
Proof. seq_fun parseOptionalTokenAndInt. Qed.
#[local] Hint Resolve parseOptionalTokenAndInt_LIMIT_seq : seq.

Lemma parseOptionalTokenAndInt_OFFSET_seq : simQ (parseOptionalTokenAndInt OFFSET).
Proof. seq_fun parseOptionalTokenAndInt. Qed.
#[local] Hint Resolve parseOptionalTokenAndInt_OFFSET_seq : seq.

Lemma parseSelectStatement_seq (tr : targetRequirement) :
  simQ (parseSelectStatement tr).
Proof. seq_fun parseSelectStatement. Qed.
#[local] Hint Resolve parseSelectStatement_seq : seq.

Lemma parseDeleteStatement_seq : simQ parseDeleteStatement.
Proof. seq_fun parseDeleteStatement. Qed.
#[local] Hint Resolve parseDeleteStatement_seq : seq.

Lemma parseOptionalSource_seq : simQ parseOptionalSource.
Proof. seq_fun parseOptionalSource. Qed.
#[local] Hint Resolve parseOptionalSource_seq : seq.

Lemma parseShowSeriesStatement_seq : simQ parseShowSeriesStatement.
Proof. seq_fun parseShowSeriesStatement. Qed.
#[local] Hint Resolve parseShowSeriesStatement_seq : seq.

Lemma parseShowMeasurementsStatement_seq : simQ parseShowMeasurementsStatement.
Proof. seq_fun parseShowMeasurementsStatement. Qed.
#[local] Hint Resolve parseShowMeasurementsStatement_seq : seq.

Lemma parseShowRetentionPoliciesStatement_seq : simQ parseShowRetentionPoliciesStatement.
Proof. seq_fun parseShowRetentionPoliciesStatement. Qed.
#[local] Hint Resolve parseShowRetentionPoliciesStatement_seq : seq.

Lemma parseShowTagKeysStatement_seq : simQ parseShowTagKeysStatement.
Proof. seq_fun parseShowTagKeysStatement. Qed.
#[local] Hint Resolve parseShowTagKeysStatement_seq : seq.

Lemma parseTagKeys_seq : simQ parseTagKeys.
Proof. seq_fun parseTagKeys. Qed.
#[local] Hint Resolve parseTagKeys_seq : seq.

Lemma parseShowTagValuesStatement_seq : simQ parseShowTagValuesStatement.
Proof. seq_fun parseShowTagValuesStatement. Qed.
#[local] Hint Resolve parseShowTagValuesStatement_seq : seq.

Lemma parseShowFieldKeysStatement_seq : simQ parseShowFieldKeysStatement.
Proof. seq_fun parseShowFieldKeysStatement. Qed.
#[local] Hint Resolve parseShowFieldKeysStatement_seq : seq.

Lemma parseDropMeasurementStatement_seq : simQ parseDropMeasurementStatement.
Proof. seq_fun parseDropMeasurementStatement. Qed.
#[local] Hint Resolve parseDropMeasurementStatement_seq : seq.

Lemma parseDropSeriesStatement_seq : simQ parseDropSeriesStatement.
Proof. seq_fun parseDropSeriesStatement. Qed.
#[local] Hint Resolve parseDropSeriesStatement_seq : seq.

Lemma parseShowContinuousQueriesStatement_seq : simQ parseShowContinuousQueriesStatement.
Proof. seq_fun parseShowContinuousQueriesStatement. Qed.
#[local] Hint Resolve parseShowContinuousQueriesStatement_seq : seq.

Lemma parseCreateContinuousQueryStatement_seq : simQ parseCreateContinuousQueryStatement.
Proof. seq_fun parseCreateContinuousQueryStatement. Qed.
#[local] Hint Resolve parseCreateContinuousQueryStatement_seq : seq.

Lemma parseCreateDatabaseStatement_seq : simQ parseCreateDatabaseStatement.
Proof. seq_fun parseCreateDatabaseStatement. Qed.
#[local] Hint Resolve parseCreateDatabaseStatement_seq : seq.

Lemma parseDropDatabaseStatement_seq : simQ parseDropDatabaseStatement.
Proof. seq_fun parseDropDatabaseStatement. Qed.
#[local] Hint Resolve parseDropDatabaseStatement_seq : seq.

Lemma parseDropRetentionPolicyStatement_seq : simQ parseDropRetentionPolicyStatement.
Proof. seq_fun parseDropRetentionPolicyStatement. Qed.
#[local] Hint Resolve parseDropRetentionPolicyStatement_seq : seq.

Lemma parseCreateUserStatement_seq : simQ parseCreateUserStatement.
Proof. seq_fun parseCreateUserStatement. Qed.
#[local] Hint Resolve parseCreateUserStatement_seq : seq.

Lemma parseDropUserStatement_seq : simQ parseDropUserStatement.
Proof. seq_fun parseDropUserStatement. Qed.
#[local] Hint Resolve parseDropUserStatement_seq : seq.

Lemma parseDropContinuousQueryStatement_seq : simQ parseDropContinuousQueryStatement.
Proof. seq_fun parseDropContinuousQueryStatement. Qed.
#[local] Hint Resolve parseDropContinuousQueryStatement_seq : seq.

Lemma parseShowStatement_seq : simQ parseShowStatement.
Proof. seq_fun parseShowStatement. Qed.
#[local] Hint Resolve parseShowStatement_seq : seq.

Lemma parseCreateStatement_seq : simQ parseCreateStatement.
Proof. seq_fun parseCreateStatement. Qed.
#[local] Hint Resolve parseCreateStatement_seq : seq.

Lemma parseDropStatement_seq : simQ parseDropStatement.
Proof. seq_fun parseDropStatement. Qed.
#[local] Hint Resolve parseDropStatement_seq : seq.

Lemma parseAlterStatement_seq : simQ parseAlterStatement.
Proof. seq_fun parseAlterStatement. Qed.
#[local] Hint Resolve parseAlterStatement_seq : seq.

Lemma ParseStatement_seq : simQ ParseStatement.
Proof. seq_fun ParseStatement. Qed.
#[local] Hint Resolve ParseStatement_seq : seq.

Lemma statementsBody_shift (pre acc : list Statement) (p q : bufScanner)
    (r : list Statement + list Statement) :
  statementsBody acc p = Ok r q ->
  statementsBody (pre ++ acc) p =
  Ok (match r with inl a => inl (pre ++ a) | inr b => inr (pre ++ b) end) q.
Proof.
  unfold statementsBody. intros H.
  invb H as s p1 E1. rewrite (bind_step _ _ _ _ _ E1).
  invs H as tok pos lit p2 E2. rewrite (bind_step _ _ _ _ _ E2).
  destruct (negb (Token_eqb tok SEMICOLON) && negb (Token_eqb tok EOF));
    [discriminate H|].
  destruct (Token_eqb tok EOF); inv_ret H; now rewrite app_assoc.
Qed.

Lemma statements_shift (pre : list Statement) (n : nat) :
  forall acc p sts q,
    forLoop n statementsBody acc p = Ok sts q ->
    forLoop n statementsBody (pre ++ acc) p = Ok (pre ++ sts) q.
Proof.
  induction n as [|n IH]; intros acc p sts q H; [discriminate H|].
  cbn [forLoop] in *. invb H as r p1 E1.
  rewrite (bind_step _ _ _ _ _ (statementsBody_shift pre _ _ _ _ E1)).
  destruct r as [a|b].
  - now apply IH.
  - inv_ret H. reflexivity.
Qed.

(** When the statement loop succeeds on the first input, on the second it
    goes on with the statements of [tail]. *)
Lemma parseStatements_seq (n : nat) :
  forall acc p p' sts q,
    Sseq p p' ->
    forLoop n statementsBody acc p = Ok sts q ->
    forall K more qf,
      forLoop K statementsBody []
        (mkState tail e' (SEMICOLON, ps, ls) false) = Ok more qf ->
      forall n', (n + K <= n')%nat ->
        forLoop n' statementsBody acc p' = Ok (sts ++ more) qf.
Proof.
  induction n as [|n IH]; intros acc p p' sts q HR H K more qf HK n' Hn';
    [discriminate H|].
  cbn [forLoop] in H. invb H as r p3 Hbody. unfold statementsBody in Hbody.
  invb Hbody as s p1 E1.
  destruct (ParseStatement_seq p p' HR s p1 E1) as (p1' & E1' & HR1).
  invs Hbody as tok pos lit p2 E2.
  destruct (scanIgnoreWhitespace_seq p1 p1' HR1 _ _ E2)
    as (x' & p2' & E2' & Hcase).
  assert (Hstep : statementsBody acc p' =
            (let '(tok, pos, lit) := x' in
             if negb (Token_eqb tok SEMICOLON) && negb (Token_eqb tok EOF)
             then fail (newParseError (tokstr tok lit) [";"; "EOF"] pos)
             else if Token_eqb tok EOF
             then ret (inr (acc ++ [s]))
             else ret (inl (acc ++ [s]))) p2').
  { unfold statementsBody.
    rewrite (bind_step _ _ _ _ _ E1'), (bind_step _ _ _ _ _ E2').
    reflexivity. }
  destruct n' as [|n']; [lia|]. cbn [forLoop]. unfold bind at 1.
  rewrite Hstep.
  destruct Hcase as [(-> & Hne & Hm) | (Hx & -> & Hm)].
  - (* the same token, not EOF: it is a semicolon, and both loops go on *)
    cbn [tokOf fst] in Hne. apply Token_eqb_neq in Hne.
    rewrite Hne in Hbody. rewrite andb_true_r in Hbody.
    destruct (Token_eqb tok SEMICOLON) eqn:Es; cbn [negb] in Hbody;
      [|discriminate Hbody].
    inv_ret Hbody.
    cbv beta iota. rewrite ?Es, ?Hne. cbn [negb andb]. unfold ret at 1.
    apply (IH (acc ++ [s]) p2 p2' sts q (or_introl Hm) H K more qf HK). lia.
  - (* EOF on the left, the semicolon on the right *)
    injection Hx as -> -> ->. destruct Hm as [-> ->].
    cbn in Hbody. inv_ret Hbody. inv_ret H.
    cbn [Token_eqb Token_index N.eqb Pos.eqb negb andb]. unfold ret at 1.
    pose proof (statements_shift (acc ++ [s]) K [] _ _ _ HK) as Hs.
    rewrite app_nil_r in Hs.
    rewrite (forLoop_mono statementsBody K n'); [exact Hs | lia |].
    rewrite Hs. discriminate.
Qed.

(** The first statement of the second input is read alike after the
    semicolon and at the start of an input. *)
Lemma scanIgnoreWhitespace_again (b : Lexeme) (x : Lexeme) (p1 : bufScanner) :
  twoSpaces tail = false ->
  scanIgnoreWhitespace (mkState tail e' b false) = Ok x p1 ->
  scanIgnoreWhitespace (bufScanner_Unscan p1) = Ok x p1 /\
  forall b', scanIgnoreWhitespace (mkState tail e' b' false) = Ok x p1.
Proof.
  intros Hw E. destruct tail as [|[[t1 pos1] lit1] [|[[t2 pos2] lit2] r]];
    cbn in E, Hw.
  - injection E as <- <-. split; [reflexivity | intros; reflexivity].
  - destruct (Token_eqb t1 WS) eqn:E1; cbn in E; injection E as <- <-.
    + split; [reflexivity | intros b'; cbn; rewrite E1; reflexivity].
    + split; [cbn; rewrite E1; reflexivity
             | intros b'; cbn; rewrite E1; reflexivity].
  - destruct (Token_eqb t1 WS) eqn:E1; cbn in E, Hw; injection E as <- <-.
    + split; [cbn; rewrite Hw; reflexivity
             | intros b'; cbn; rewrite E1; reflexivity].
    + split; [cbn; rewrite E1; reflexivity
             | intros b'; cbn; rewrite E1; reflexivity].
Qed.

Lemma ParseQuery_finishes (p : bufScanner) : ParseQuery p <> OutOfFuel.
Proof.
  intros E.
  assert (Hp : St (S (budget p)) None None p)
    by (unfold St; repeat split; lia).
  pose proof (ParseQuery_total _ None None p Hp) as H. now rewrite E in H.
Qed.

(** X19.  A query is a sequence of statements separated by semicolons, and
    [ParseQuery] parses it statement by statement: when two inputs parse to
    queries that hold a statement each, the first input, a semicolon and
    the second input parse to the statements of the first query followed by
    those of the second. *)
Theorem ParseQuery_sequence (ts : list Lexeme) (q1 q2 : Query) :
  noEOF ts -> twoSpaces tail = false ->
  ParseQueryTokens ts e = Parsed q1 -> Statements q1 <> [] ->
  ParseQueryTokens tail e' = Parsed q2 -> Statements q2 <> [] ->
  ParseQueryTokens (ts ++ (SEMICOLON, ps, ls) :: tail) e' =
  Parsed {| Statements := Statements q1 ++ Statements q2 |}.
Proof.
  intros Hts Hw H1 Hq1 H2 Hq2.
  unfold ParseQueryTokens, NewParser, scannerOf, newBufScanner in *.
  set (b0 := (ILLEGAL, mkPos 0 0, "")) in *.
  change {| src := {| pending := ts; eofPos := e |}; buf := b0; live := false |}
    with (mkState ts e b0 false) in H1.
  change {| src := {| pending := tail; eofPos := e' |}; buf := b0; live := false |}
    with (mkState tail e' b0 false) in H2.
  change {| src := {| pending := ts ++ (SEMICOLON, ps, ls) :: tail; eofPos := e' |};
            buf := b0; live := false |}
    with (mkState (ts ++ (SEMICOLON, ps, ls) :: tail) e' b0 false).
  assert (HR : Sseq (mkState ts e b0 false)
                 (mkState (ts ++ (SEMICOLON, ps, ls) :: tail) e' b0 false)).
  { left. apply Smore_intro; [exact Hts | discriminate]. }
  (* the second input alone *)
  destruct (ParseQuery (mkState tail e' b0 false)) as [qa pa| |] eqn:Ea;
    cbn [outcome] in H2; [|discriminate H2|discriminate H2].
  injection H2 as ->. unfold ParseQuery in Ea.
  invs Ea as toka posa lita pa1 Ea1.
  destruct (Token_eqb toka EOF);
    [inv_ret Ea; now contradiction Hq2|].
  invb Ea as u pa2 Ea2. unfold unscan in Ea2. injection Ea2 as <- <-.
  invb Ea as stsa pa3 Ea3. inv_ret Ea. cbn [Statements] in *.
  unfold withFuel, parseStatements in Ea3. fold statementsBody in Ea3.
  destruct (scanIgnoreWhitespace_again b0 _ _ Hw Ea1) as (Hagain & Hany).
  assert (HK : forLoop (fuelOf (bufScanner_Unscan pa1)) statementsBody []
                 (mkState tail e' (SEMICOLON, ps, ls) false) = Ok stsa pa3).
  { rewrite <- Ea3. destruct (fuelOf (bufScanner_Unscan pa1)) as [|k];
      [reflexivity|].
    assert (Hbody : statementsBody []
                      (mkState tail e' (SEMICOLON, ps, ls) false)
                    = statementsBody [] (bufScanner_Unscan pa1)).
    { unfold statementsBody, ParseStatement, bind.
      now rewrite Hagain, (Hany (SEMICOLON, ps, ls)). }
    cbn [forLoop]. unfold bind. now rewrite Hbody. }
  (* the first input alone *)
  destruct (ParseQuery (mkState ts e b0 false)) as [qb pb| |] eqn:Eb;
    cbn [outcome] in H1; [|discriminate H1|discriminate H1].
  injection H1 as ->. unfold ParseQuery in Eb.
  invs Eb as tok pos lit p1 E1.
  (* both inputs *)
  pose proof (ParseQuery_finishes
                (mkState (ts ++ (SEMICOLON, ps, ls) :: tail) e' b0 false))
    as Hfin.
  unfold ParseQuery in Hfin |- *.
  destruct (scanIgnoreWhitespace_seq _ _ HR _ _ E1) as (x' & p1' & E1' & Hcase).
  rewrite (bind_step _ _ _ _ _ E1') in Hfin |- *.
  destruct Hcase as [(-> & Hne & Hm) | (Hx & -> & Hm)].
  - cbn [tokOf fst] in Hne. apply Token_eqb_neq in Hne.
    rewrite Hne in Eb, Hfin |- *.
    invb Eb as u p2 E2. unfold unscan in E2. injection E2 as <- <-.
    invb Eb as sts p3 E3. inv_ret Eb. cbn [Statements] in *.
    unfold withFuel, parseStatements in E3. fold statementsBody in E3.
    assert (HRu : Sseq (bufScanner_Unscan p1) (bufScanner_Unscan p1')).
    { left. destruct Hm as [ts0 b l Hts0 Hb].
      now apply (Smore_intro ts0 b true). }
    pose proof (parseStatements_seq _ _ _ _ _ _ HRu E3 _ _ _ HK) as Hall.
    unfold bind at 1 in Hfin. unfold bind at 1.
    unfold unscan in Hfin |- *.
    unfold bind at 1 in Hfin. unfold bind at 1.
    unfold withFuel, parseStatements in Hfin |- *.
    fold statementsBody in Hfin |- *.
    set (n2 := fuelOf (bufScanner_Unscan p1')) in *.
    set (nbig := (n2 + (fuelOf (bufScanner_Unscan p1)
                        + fuelOf (bufScanner_Unscan pa1)))%nat).
    assert (Hbig : forLoop nbig statementsBody [] (bufScanner_Unscan p1')
                   = Ok (sts ++ stsa) pa3) by (apply Hall; lia).
    destruct (forLoop n2 statementsBody [] (bufScanner_Unscan p1'))
      as [r pr| |] eqn:En2; [| |now contradiction Hfin].
    + rewrite (forLoop_mono statementsBody n2 nbig) in Hbig
        by (try lia; congruence).
      rewrite En2 in Hbig. injection Hbig as -> ->. reflexivity.
    + rewrite (forLoop_mono statementsBody n2 nbig) in Hbig
        by (try lia; congruence).
      rewrite En2 in Hbig. discriminate Hbig.
  - injection Hx as -> -> ->. cbn in Eb. inv_ret Eb. now contradiction Hq1.
Qed.

End StatementSequence.

(** [SELECT * FROM a;SELECT * FROM a] *)
Lemma ParseQuery_sequence_witness :
  ParseQueryTokens (H := noLiterals)
    (selectTokens ++ (SEMICOLON, mkPos 0 15, "") :: selectTokens) (mkPos 0 31)
  = Parsed {| Statements := Statements selectQuery ++ Statements selectQuery |}.
Proof.
  refine (ParseQuery_sequence (lib := noLiterals)
            (mkPos 0 15) "" (mkPos 0 15) (mkPos 0 31) selectTokens
            selectTokens selectQuery selectQuery _ _ _ _ _ _).
  - repeat constructor; discriminate.
  - reflexivity.
  - vm_compute; reflexivity.
  - discriminate.
  - vm_compute; reflexivity.
  - discriminate.
Defined.
